(** * Sudoku: annotation, single-candidate propagation, backtracking and
    candidate lines ([sudoku.go])

    A shallow embedding of package [sudoku].  Go's [int] is taken to be the
    64-bit two's complement integer; it is embedded in [Z], and the one
    operation of the package that leaves the range, [1 << uint(v)], has its
    wrap-around written out ([shl1]).  Slices are lists; an index out of
    range is the run-time panic [Panic] of the [result] monad. *)

From stdpp Require Import base numbers option list sorting gmap strings pretty.
From Stdlib Require Import ZifyNat.

(** ** Results of Go code that may panic *)

Inductive result (A : Type) : Type :=
  | Ok (a : A)
  | Panic
  | OutOfFuel.
Arguments Ok {A} a.
Arguments Panic {A}.
Arguments OutOfFuel {A}.

Global Instance result_ret : MRet result := λ A a, Ok a.
Global Instance result_bind : MBind result := λ A B f m,
  match m with
  | Ok a => f a
  | Panic => Panic
  | OutOfFuel => OutOfFuel
  end.

(** [s[i]] for reading. *)
Definition index {A} (s : list A) (i : nat) : result A :=
  match s !! i with
  | Some a => Ok a
  | None => Panic
  end.

(** [s[i] = a]. *)
Definition assign {A} (s : list A) (i : nat) (a : A) : result (list A) :=
  if decide (i < length s) then Ok (<[i := a]> s) else Panic.

(** [g[y][x]] for reading and [g[y][x] = a]. *)
Definition index2 {A} (g : list (list A)) (y x : nat) : result A :=
  row ← index g y; index row x.

Definition assign2 {A} (g : list (list A)) (y x : nat) (a : A)
  : result (list (list A)) :=
  row ← index g y; row' ← assign row x a; assign g y row'.

(** ** Candidates *)

(** [type Candidates int]: bit [v] set means that [v] is still possible. *)
Definition Candidates := Z.

Section candidates.
Local Open Scope Z_scope.

Definition wrap64 (z : Z) : Z := (z + 2 ^ 63) `mod` 2 ^ 64 - 2 ^ 63.

(** [1 << uint(v)] on a 64-bit [int]: the conversion [uint(v)] of a negative
    [v] is at least [2^63], and a shift by 64 or more leaves [0]. *)
Definition shl1 (v : Z) : Z :=
  if decide (v < 0) then 0 else wrap64 (1 ≪ v).

(** [func (c Candidates) Add(v int) Candidates]: [c | 1<<uint(v)]. *)
Definition Add (c : Candidates) (v : Z) : Candidates := Z.lor c (shl1 v).

(** [func (c Candidates) Remove(v int) Candidates]: [c &^ (1 << uint(v))]. *)
Definition Remove (c : Candidates) (v : Z) : Candidates := Z.ldiff c (shl1 v).

(** [func (c Candidates) Contains(v int) bool]: [c&(1<<uint(v)) != 0]. *)
Definition Contains (c : Candidates) (v : Z) : bool :=
  negb (Z.land c (shl1 v) =? 0).

(** [func (c Candidates) Single() bool]: [c > 0 && ((c & (c - 1)) == 0)]. *)
Definition Single (c : Candidates) : bool :=
  (0 <? c) && (Z.land c (c - 1) =? 0).

(** [func allCandidates(size int) (c Candidates)]:
    [for size > 0 { c = c.Add(size); size-- }]. *)
Fixpoint allCandidates_from (size : nat) (c : Candidates) : Candidates :=
  match size with
  | O => c
  | S size' => allCandidates_from size' (Add c (Z.of_nat size))
  end.

Definition allCandidates (size : nat) : Candidates := allCandidates_from size 0.

(** [func log2(i int) int]: [int(math.Log2(float64(i)))].  For [i > 0] the
    embedding is the position of the highest set bit.  The floating-point
    computation may return one more than that for large [i] close below a
    power of two; the loop of [Decimals] absorbs the extra round
    ([Decimals_loop_above]) as long as that power fits an [int], which it
    does for [i < 2^62].  Close below [2^63] the code returns [63], and
    [log2] is not the code's there.  For [i <= 0] the argument of the
    conversion is [-Inf] or [NaN] and its result is the smallest [int] (on
    arm64 [0] for [NaN]): not positive in either case. *)
Definition log2 (i : Z) : Z :=
  if decide (0 < i) then Z.log2 i else - 2 ^ 63.

(** [func pow2(exp int) int]: [int(math.Pow(float64(2), float64(exp)))].
    The embedding is the code's for the exponents [0..62]; [2^63] does not
    fit an [int], and the conversion of the code overflows at [exp = 63]. *)
Definition pow2 (exp : Z) : Z := 2 ^ exp.

(** [func (c Candidates) Decimals() (dcs []int)]:
<<
    i := int(c)
    for max := log2(i); max > 0; max-- {
        sq := pow2(max)
        if sq <= i { i -= sq; dcs = append(dcs, max) }
    }
>>
    [Decimals_loop n i] is the loop entered with [max = n].  With [log2] and
    [pow2] as above, [Decimals c] is the result of the code for
    [0 <= c < 2^62]: the words of every board of side below 62, and the
    words that [small_words] admits.  For [c] close below [2^63] the code
    starts at [max = 63] with an overflown [sq] and returns [[63]], which
    this embedding does not follow. *)
Fixpoint Decimals_loop (max : nat) (i : Z) : list Z :=
  match max with
  | O => []
  | S max' =>
      let sq := pow2 (Z.of_nat max) in
      if decide (sq ≤ i)
      then Z.of_nat max :: Decimals_loop max' (i - sq)
      else Decimals_loop max' i
  end.

Definition Decimals (c : Candidates) : list Z :=
  Decimals_loop (Z.to_nat (log2 c)) c.

(** [func (c Candidates) Complement(size int) Candidates]:
    [allCandidates(size) - c]. *)
Definition Complement (c : Candidates) (size : nat) : Candidates :=
  wrap64 (allCandidates size - c).

End candidates.

(** [func sqrt(i int) int]: [int(math.Sqrt(float64(i)))], applied to the
    side of a board only. *)
Definition sqrt (i : nat) : nat := Nat.sqrt i.

(** ** Loops *)

(** [for _, a := range l { s = f(s, a) }], stopping at the first panic. *)
Fixpoint foldM {A St} (f : St → A → result St) (s : St) (l : list A)
    : result St :=
  match l with
  | [] => Ok s
  | a :: l' => s' ← f s a; foldM f s' l'
  end.

(** [for i, a := range l { s = f(s, i, a) }] with the index starting at [i]. *)
Fixpoint for_range {A St} (f : St → nat → A → result St) (i : nat)
    (l : list A) (s : St) : result St :=
  match l with
  | [] => Ok s
  | a :: l' => s' ← f s i a; for_range f (S i) l' s'
  end.

(** The cells [(y, x, g[y][x])] of a grid in the order in which
    [for y, row := range g { for x, v := range row { ... } }] visits them. *)
Definition enumerate {A} (y : nat) (row : list A) : list (nat * nat * A) :=
  imap (λ x v, (y, x, v)) row.

Definition enumerate2 {A} (g : list (list A)) : list (nat * nat * A) :=
  mjoin (imap enumerate g).

(** ** Boards *)

(** [type Board [][]int]; [0] is the empty field. *)
Abbreviation Board := (list (list Z)).

(** [type AnnotatedBoard struct { Board; Candidates [][]Candidates }]. *)
Record AnnotatedBoard : Type := mkAnnotatedBoard {
  board : Board;
  candidates : list (list Candidates);
}.

(** [func (bo Board) Size() int]: [len(bo[0])]. *)
Definition Size (bo : Board) : result nat :=
  row ← index bo 0; Ok (length row).

(** [func NewEmptyBoard(size int) Board]: [make] panics for a negative
    [size]. *)
Definition NewEmptyBoard (size : Z) : result Board :=
  if decide (size < 0)%Z then Panic
  else Ok (replicate (Z.to_nat size) (replicate (Z.to_nat size) 0%Z)).

(** [func (bo Board) Copy() (bo2 Board)]: [bo2] has [size] rows; row [i] of
    [bo] is copied into a fresh row of length [size] ([copy] stops at the
    shorter of the two slices, [make] fills with zeros). *)
Definition Board_Copy (bo : Board) : result Board :=
  size ← Size bo;
  for_range (λ bo2 i row, assign bo2 i (resize size 0%Z row)) 0 bo
    (replicate size []).

(** [func (ab AnnotatedBoard) Copy() (ab2 AnnotatedBoard)]: each row of
    candidates is copied in its own length. *)
Definition AnnotatedBoard_Copy (ab : AnnotatedBoard) : result AnnotatedBoard :=
  size ← Size (board ab);
  cands ← for_range (λ c2 i row, assign c2 i row) 0 (candidates ab)
    (replicate size []);
  bo ← Board_Copy (board ab);
  Ok (mkAnnotatedBoard bo cands).

(** [func (bo Board) FirstEmpty() (y, x int, found bool)]; the coordinates
    are used by the callers only when [found]. *)
Fixpoint FirstEmpty_row (row : list Z) (x : nat) : option nat :=
  match row with
  | [] => None
  | v :: row' => if decide (v = 0%Z) then Some x else FirstEmpty_row row' (S x)
  end.

Fixpoint FirstEmpty_from (bo : Board) (y : nat) : option (nat * nat) :=
  match bo with
  | [] => None
  | row :: bo' =>
      match FirstEmpty_row row 0 with
      | Some x => Some (y, x)
      | None => FirstEmpty_from bo' (S y)
      end
  end.

Definition FirstEmpty (bo : Board) : option (nat * nat) := FirstEmpty_from bo 0.

(** [func (bo Board) Full() bool]. *)
Definition Full (bo : Board) : bool :=
  match FirstEmpty bo with Some _ => false | None => true end.

(** [func newBlockCandidates(size int) (bc [][]Candidates)]. *)
Definition newBlockCandidates (size : nat) : list (list Candidates) :=
  replicate size (replicate size 0%Z).

(** [func (ab AnnotatedBoard) Solved() bool]. *)
Definition Solved (ab : AnnotatedBoard) : bool :=
  forallb (forallb Single) (candidates ab).

(** ** Annotate *)

(** The state of the first loop of [Annotate]: [ab.Candidates], [rows],
    [cols] and [blocks]. *)
Record accumulators : Type := mkAccumulators {
  acc_cands : list (list Candidates);
  acc_rows : list Candidates;
  acc_cols : list Candidates;
  acc_blocks : list (list Candidates);
}.

(** The first loop.  The boolean is [true] when the loop was left by
    [return ab, errors.New("Not Solvable.")]; the accumulators are then those
    of that moment.  [||] evaluates its right operand only when the left one
    is false. *)
Fixpoint Annotate_fill (rt : nat) (cells : list (nat * nat * Z))
    (st : accumulators) : result (accumulators * bool) :=
  match cells with
  | [] => Ok (st, false)
  | (y, x, v) :: cells' =>
      if decide (0 < v)%Z then
        r ← index (acc_rows st) y;
        if Contains r v then Ok (st, true) else
        c ← index (acc_cols st) x;
        if Contains c v then Ok (st, true) else
        b ← index2 (acc_blocks st) (y / rt) (x / rt);
        if Contains b v then Ok (st, true) else
        a ← index2 (acc_cands st) y x;
        cands ← assign2 (acc_cands st) y x (Add a v);
        r ← index (acc_rows st) y;
        rows ← assign (acc_rows st) y (Add r v);
        c ← index (acc_cols st) x;
        cols ← assign (acc_cols st) x (Add c v);
        b ← index2 (acc_blocks st) (y / rt) (x / rt);
        blocks ← assign2 (acc_blocks st) (y / rt) (x / rt) (Add b v);
        Annotate_fill rt cells' (mkAccumulators cands rows cols blocks)
      else Annotate_fill rt cells' st
  end.

(** The second loop: a field whose candidates are still [0] (or [1]) gets
    what its row, column and block leave over. *)
Definition Annotate_rest (size rt : nat) (st : accumulators)
    : result (list (list Candidates)) :=
  foldM (λ cands '(y, x, v),
    if decide (1 < v)%Z then Ok cands else
    r ← index (acc_rows st) y;
    c ← index (acc_cols st) x;
    b ← index2 (acc_blocks st) (y / rt) (x / rt);
    assign2 cands y x (Z.ldiff (Z.ldiff (Z.ldiff (allCandidates size) r) c) b))
  (acc_cands st) (enumerate2 (acc_cands st)).

(** [func (ab AnnotatedBoard) Annotate() (AnnotatedBoard, error)]; the
    boolean is [true] for the error ["Not Solvable."]. *)
Definition Annotate (ab : AnnotatedBoard) : result (AnnotatedBoard * bool) :=
  bo ← Board_Copy (board ab);
  size ← Size bo;
  let rt := sqrt size in
  let st := mkAccumulators (newBlockCandidates size) (replicate size 0%Z)
              (replicate size 0%Z) (newBlockCandidates rt) in
  '(st, err) ← Annotate_fill rt (enumerate2 bo) st;
  if err : bool then Ok (mkAnnotatedBoard bo (acc_cands st), true) else
  cands ← Annotate_rest size rt st;
  Ok (mkAnnotatedBoard bo cands, false).

(** [func NewAnnotatedBoard(bo Board) (ab AnnotatedBoard, err error)]. *)
Definition NewAnnotatedBoard (bo : Board) : result (AnnotatedBoard * bool) :=
  bo' ← Board_Copy bo;
  Annotate (mkAnnotatedBoard bo' []).

(** ** SingleCandidate *)

(** One pass of the two [range] loops of [SingleCandidate] over
    [ab.Candidates]: a field with a single candidate that is not filled gets
    that candidate.  The state is [ab.Board] and [solvable]. *)
Definition SingleCandidate_scan (cands : list (list Candidates)) (bo : Board)
    : result (Board * bool) :=
  foldM (λ '(bo, solvable) '(y, x, c),
    if negb (Single c) then Ok (bo, solvable) else
    v ← index2 bo y x;
    if decide (0 < v)%Z then Ok (bo, solvable) else
    d ← index (Decimals c) 0;
    bo' ← assign2 bo y x d;
    Ok (bo', true))
  (bo, false) (enumerate2 cands).

(** One iteration of [for solvable { ... }]: the pass, then
    [ab, _ = ab.Annotate()]. *)
Definition SingleCandidate_step (ab : AnnotatedBoard)
    : result (AnnotatedBoard * bool) :=
  '(bo, solvable) ← SingleCandidate_scan (candidates ab) (board ab);
  '(ab', _) ← Annotate (mkAnnotatedBoard bo (candidates ab));
  Ok (ab', solvable).

(** The loop [for solvable { ... }], entered with [solvable = true].  The
    second component of the result counts the iterations made. *)
Fixpoint SingleCandidate_loop (fuel : nat) (ab : AnnotatedBoard)
    : result (AnnotatedBoard * nat) :=
  match fuel with
  | O => OutOfFuel
  | S fuel' =>
      '(ab', solvable) ← SingleCandidate_step ab;
      if solvable : bool then
        '(ab'', n) ← SingleCandidate_loop fuel' ab'; Ok (ab'', S n)
      else Ok (ab', 1)
  end.

(** The number of fields of a board whose first row has [size] fields, plus
    two: enough iterations for the loops below (see
    [SingleCandidate_loop_total] and [backtrack_total]). *)
Definition enough (bo : Board) : nat :=
  S (S (length (default [] (head bo)) * length (default [] (head bo)))).

(** [func SingleCandidate(ab AnnotatedBoard, maxSolutions int) (bool, []Board)]. *)
Definition SingleCandidate (ab : AnnotatedBoard) (maxSolutions : Z)
    : result (bool * list Board) :=
  ab ← AnnotatedBoard_Copy ab;
  '(ab, _) ← SingleCandidate_loop (enough (board ab)) ab;
  Ok (Solved ab, [board ab]).

(** ** Backtrack *)

(** [for _, v := range ab.Candidates[y][x].Decimals() { ... }] of
    [backtrack], with [rec] for the recursive call. *)
Fixpoint backtrack_values
    (rec : AnnotatedBoard → list Board → result (bool * list Board))
    (ab : AnnotatedBoard) (y x : nat) (vs : list Z) (solutions : list Board)
    : result (bool * list Board) :=
  match vs with
  | [] => Ok (false, solutions)
  | v :: vs' =>
      bo ← assign2 (board ab) y x v;
      let ab := mkAnnotatedBoard bo (candidates ab) in
      '(stop, solutions) ← rec ab solutions;
      if stop : bool then Ok (true, solutions)
      else backtrack_values rec ab y x vs' solutions
  end.

(** [func backtrack(ab AnnotatedBoard, maxSolutions int, solutions *[]Board) bool];
    the slice behind the pointer is passed in and returned. *)
Fixpoint backtrack (fuel : nat) (ab : AnnotatedBoard) (maxSolutions : Z)
    (solutions : list Board) : result (bool * list Board) :=
  match fuel with
  | O => OutOfFuel
  | S fuel' =>
      '(ab, err) ← Annotate ab;
      if err : bool then Ok (false, solutions) else
      match FirstEmpty (board ab) with
      | None =>
          let solutions := solutions ++ [board ab] in
          Ok (bool_decide (maxSolutions ≤ Z.of_nat (length solutions))%Z,
              solutions)
      | Some (y, x) =>
          c ← index2 (candidates ab) y x;
          backtrack_values (λ ab sols, backtrack fuel' ab maxSolutions sols)
            ab y x (Decimals c) solutions
      end
  end.

(** [func Backtrack(ab AnnotatedBoard, maxSolutions int) (solved bool, solutions []Board)]. *)
Definition Backtrack (ab : AnnotatedBoard) (maxSolutions : Z)
    : result (bool * list Board) :=
  backtrack (enough (board ab)) ab maxSolutions [].

(** ** CandidateLines *)

(** An index that is an [int] computed from a candidate. *)
Definition indexZ {A} (s : list A) (i : Z) : result A :=
  if decide (0 ≤ i)%Z then index s (Z.to_nat i) else Panic.

Definition index2Z {A} (g : list (list A)) (y x : Z) : result A :=
  row ← indexZ g y; indexZ row x.

Definition assign2Z {A} (g : list (list A)) (y x : Z) (a : A)
    : result (list (list A)) :=
  if decide (0 ≤ y ∧ 0 ≤ x)%Z then assign2 g (Z.to_nat y) (Z.to_nat x) a
  else Panic.

(** What the first half of the body of the block loop builds:
    [rowsNotInBlock], [colsNotInBlock] and the maps [inRows], [inCols];
    a key that is missing from a map reads as [0]. *)
Record block_maps : Type := mkBlockMaps {
  rowsNotInBlock : Candidates;
  colsNotInBlock : Candidates;
  inRows : gmap Z Candidates;
  inCols : gmap Z Candidates;
}.

(** [for _, c := range cs.Decimals() { inRows[c] = inRows[c].Add(y + 1);
    inCols[c] = inCols[c].Add(x + 1) }]. *)
Definition CandidateLines_note (y x : nat) (m : block_maps) (c : Z)
    : block_maps :=
  mkBlockMaps (rowsNotInBlock m) (colsNotInBlock m)
    (<[c := Add (default 0%Z (inRows m !! c)) (Z.of_nat (y + 1))]> (inRows m))
    (<[c := Add (default 0%Z (inCols m !! c)) (Z.of_nat (x + 1))]> (inCols m)).

(** The loops over the rows and columns in a block; the candidates are read
    from [cands], which is [ab2.Candidates] at that moment. *)
Definition CandidateLines_maps (size blockSize : nat)
    (cands : list (list Candidates)) (blkY blkX : nat) : result block_maps :=
  foldM (λ m yInBlk,
    let y := blkY * blockSize + yInBlk in
    let m := mkBlockMaps (Remove (rowsNotInBlock m) (Z.of_nat (y + 1)))
               (colsNotInBlock m) (inRows m) (inCols m) in
    foldM (λ m xInBlk,
      let x := blkX * blockSize + xInBlk in
      let m := mkBlockMaps (rowsNotInBlock m)
                 (Remove (colsNotInBlock m) (Z.of_nat (x + 1)))
                 (inRows m) (inCols m) in
      cs ← index2 cands y x;
      Ok (foldl (CandidateLines_note y x) m (Decimals cs)))
    m (seq 0 blockSize))
  (mkBlockMaps (allCandidates size) (allCandidates size) ∅ ∅)
  (seq 0 blockSize).

(** [if ab2.Candidates[y][x].Contains(c) { succeeded = true;
    ab2.Candidates[y][x] = ab2.Candidates[y][x].Remove(c) }]. *)
Definition CandidateLines_remove (c : Z) (y x : Z)
    (st : list (list Candidates) * bool) : result (list (list Candidates) * bool) :=
  cell ← index2Z st.1 y x;
  if Contains cell c then
    cands ← assign2Z st.1 y x (Remove cell c); Ok (cands, true)
  else Ok st.

Section candidate_lines.

(** Go leaves the order in which [range] visits a map unspecified:
    [range_map m] is the sequence of the entries of [m] as [range] yields
    them. *)
Variable range_map : gmap Z Candidates → list (Z * Candidates).

(** [for c, cols := range inCols { ... }]. *)
Definition CandidateLines_cols (m : block_maps)
    (st : list (list Candidates) * bool) : result (list (list Candidates) * bool) :=
  foldM (λ st '(c, cols),
    if Single cols then
      d ← index (Decimals cols) 0;
      let col := (d - 1)%Z in
      foldM (λ st row, CandidateLines_remove c (row - 1)%Z col st) st
        (Decimals (rowsNotInBlock m))
    else Ok st)
  st (range_map (inCols m)).

(** [for c, rows := range inRows { ... }]. *)
Definition CandidateLines_rows (m : block_maps)
    (st : list (list Candidates) * bool) : result (list (list Candidates) * bool) :=
  foldM (λ st '(c, rows),
    if Single rows then
      d ← index (Decimals rows) 0;
      let row := (d - 1)%Z in
      foldM (λ st col, CandidateLines_remove c row (col - 1)%Z st) st
        (Decimals (colsNotInBlock m))
    else Ok st)
  st (range_map (inRows m)).

(** The body of the loop over the blocks; the state is [ab2.Candidates] and
    [succeeded]. *)
Definition CandidateLines_block (size blockSize : nat)
    (st : list (list Candidates) * bool) (blk : nat * nat)
    : result (list (list Candidates) * bool) :=
  m ← CandidateLines_maps size blockSize st.1 blk.1 blk.2;
  st ← CandidateLines_cols m st;
  CandidateLines_rows m st.

(** [func CandidateLines(ab AnnotatedBoard) (ab2 AnnotatedBoard, succeeded bool)]. *)
Definition CandidateLines (ab : AnnotatedBoard)
    : result (AnnotatedBoard * bool) :=
  ab2 ← AnnotatedBoard_Copy ab;
  size ← Size (board ab2);
  let blockSize := sqrt size in
  '(cands, succeeded) ←
    foldM (λ st blkY,
      foldM (λ st blkX, CandidateLines_block size blockSize st (blkY, blkX))
        st (seq 0 blockSize))
    (candidates ab2, false) (seq 0 blockSize);
  Ok (mkAnnotatedBoard (board ab2) cands, succeeded).

End candidate_lines.

(** ** NewRandomBoard *)

(** [func NewRandomBoard(size int) Board]:
<<
    ab, _ := NewAnnotatedBoard(NewEmptyBoard(size))
    for i, v := range rand.Perm(size) { ab.Board[0][i] = v + 1 }
    _, solutions := Backtrack(ab, 10)
    return solutions[rand.Intn(len(solutions))]
>>
    The random source is a parameter: [perm] is what [rand.Perm(size)]
    returns and [Intn n] what [rand.Intn(n)] returns; [rand.Intn(0)]
    panics. *)
Definition NewRandomBoard (perm : list nat) (Intn : nat → nat) (size : Z)
    : result Board :=
  bo ← NewEmptyBoard size;
  '(ab, _) ← NewAnnotatedBoard bo;
  bo ← for_range (λ bo i v, assign2 bo 0 i (Z.of_nat v + 1)%Z) 0 perm
         (board ab);
  '(_, solutions) ← Backtrack (mkAnnotatedBoard bo (candidates ab)) 10;
  if decide (length solutions = 0) then Panic
  else index solutions (Intn (length solutions)).

(** ** Short notation *)

(** Go strings are byte sequences; the ones of the package hold ASCII
    letters and digits. *)

(** [const abc = "abcdefghijklmnopqrstuvwxyz"]. *)
Definition abc : string := "abcdefghijklmnopqrstuvwxyz".

(** [strconv.Itoa(i)]: the decimal notation of [i]. *)
Definition Itoa (i : Z) : string := pretty i.

(** [s[i]]. *)
Definition index_string (s : string) (i : nat) : result Ascii.ascii :=
  match String.get i s with
  | Some c => Ok c
  | None => Panic
  end.

(** The classes [[a-z]] and [[1-9]] of [reShortNotation]. *)
Definition lower (c : Ascii.ascii) : bool :=
  (97 <=? Ascii.nat_of_ascii c) && (Ascii.nat_of_ascii c <=? 122).

Definition digit19 (c : Ascii.ascii) : bool :=
  (49 <=? Ascii.nat_of_ascii c) && (Ascii.nat_of_ascii c <=? 57).

(** [reShortNotation.MatchString(s)] for
    [reShortNotation = regexp.MustCompile("([a-z][1-9][1-9])")]: some three
    bytes in a row are a letter and two digits. *)
Fixpoint MatchString (s : string) : bool :=
  match s with
  | EmptyString => false
  | String a t =>
      match t with
      | String b (String c _) =>
          lower a && digit19 b && digit19 c || MatchString t
      | _ => false
      end
  end.

(** [reShortNotation.FindAllString(s, -1)]: the matches from left to right,
    each search starting behind the match before. *)
Fixpoint FindAllString (s : string) : list string :=
  match s with
  | EmptyString => []
  | String a t =>
      match t with
      | String b (String c s') =>
          if lower a && digit19 b && digit19 c
          then String a (String b (String c EmptyString)) :: FindAllString s'
          else FindAllString t
      | _ => []
      end
  end.

(** [strings.Index(s, string(c))] for a byte [c]: the first position of [c]
    in [s], counted from [i], or [-1]. *)
Fixpoint Index_from (s : string) (c : Ascii.ascii) (i : Z) : Z :=
  match s with
  | EmptyString => (-1)%Z
  | String a s' => if decide (a = c) then i else Index_from s' c (i + 1)%Z
  end.

Definition Index (s : string) (c : Ascii.ascii) : Z := Index_from s c 0.

(** [x, _ := strconv.Atoi(string(c))] for a byte [c]: the digit, and [0]
    with the error that is dropped for any other byte. *)
Definition Atoi_byte (c : Ascii.ascii) : Z :=
  if (48 <=? Ascii.nat_of_ascii c) && (Ascii.nat_of_ascii c <=? 57)
  then (Z.of_nat (Ascii.nat_of_ascii c) - 48)%Z else 0%Z.

(** [func NewFromShort(s string, size int) (bo Board, err error)]; the
    boolean is [true] for the error ["Malformed Short Notation"], which
    comes with the board [nil]. *)
Definition NewFromShort (s : string) (size : Z) : result (Board * bool) :=
  bo ← NewEmptyBoard size;
  if decide (s = EmptyString) then Ok (bo, false) else
  if negb (MatchString s) then Ok ([], true) else
  bo ← foldM (λ bo triple,
          t0 ← index_string triple 0;
          t1 ← index_string triple 1;
          t2 ← index_string triple 2;
          let y := Index abc t0 in
          let x := Atoi_byte t1 in
          let v := Atoi_byte t2 in
          assign2Z bo y (x - 1)%Z v)
        bo (take (String.length s / 3) (FindAllString s));
  Ok (bo, false).

(** [func (bo Board) Short() (s string, err error)]; the boolean is [true]
    for the error ["Board Too Large For Short Notation"]. *)
Definition Short (bo : Board) : result (string * bool) :=
  size ← Size bo;
  if decide (9 < size) then Ok (EmptyString, true) else
  s ← foldM (λ s '(y, x, v),
         if decide (0 < v)%Z then
           c ← index_string abc y;
           Ok (((s +:+ String c EmptyString) +:+ Itoa (Z.of_nat x + 1))
               +:+ Itoa v)
         else Ok s)
       EmptyString (enumerate2 bo);
  Ok (s, false).

(** [func (bo Board) UltraShort() (s string, err error)]; the boolean is
    [true] for the error ["Board Is Not Full"]. *)
Definition UltraShort (bo : Board) : result (string * bool) :=
  if negb (Full bo) then Ok (EmptyString, true) else
  size ← Size bo;
  let sizeWithoutLast := (Z.of_nat size - 1)%Z in
  s ← foldM (λ s '(y, x, v),
         if decide (Z.of_nat y < sizeWithoutLast
                    ∧ Z.of_nat x < sizeWithoutLast)%Z
         then Ok (s +:+ Itoa v) else Ok s)
       EmptyString (enumerate2 bo);
  Ok (s, false).

(** ** GenerateSimple *)

(** [for y := 0; y < size; y++ { for x := 0; x < size; x++ {
      fields = append(fields, [3]int{y, x, random[y][x]}) } }]. *)
Definition GenerateSimple_fields (random : Board) (size : nat)
    : result (list (nat * nat * Z)) :=
  foldM (λ fields y,
    foldM (λ fields x, v ← index2 random y x; Ok (fields ++ [(y, x, v)]))
      fields (seq 0 size))
  [] (seq 0 size).

(** [for i := range fields { j := rand.Intn(i + 1);
      fields[i], fields[j] = fields[j], fields[i] }].  The random source is
    a parameter: [Intn i n] is what the call [rand.Intn(n)] of iteration
    [i] returns. *)
Definition GenerateSimple_shuffle (Intn : nat → nat → nat)
    (fields : list (nat * nat * Z)) : result (list (nat * nat * Z)) :=
  foldM (λ fields i,
    let j := Intn i (i + 1) in
    fj ← index fields j;
    fi ← index fields i;
    fields ← assign fields i fj;
    assign fields j fi)
  fields (seq 0 (length fields)).

(** [for i, f := range fields { ... }] of [GenerateSimple], entered at
    index [i] with the fields that are left:
<<
    ab.Board[f[0]][f[1]] = 0
    ab, _ = ab.Annotate()
    solvable, _ := SingleCandidate(ab, 1)
    if !solvable { ab.Board[f[0]][f[1]] = f[2] }
    if validMinimum && (fieldCount-i-1) == minimum { return ab.Board }
>>
    and [return ab.Board] after the loop. *)
Fixpoint GenerateSimple_loop (validMinimum : bool) (minimum : Z)
    (fieldCount i : nat) (fields : list (nat * nat * Z)) (ab : AnnotatedBoard)
    : result Board :=
  match fields with
  | [] => Ok (board ab)
  | (y, x, v) :: fields' =>
      bo ← assign2 (board ab) y x 0%Z;
      '(ab, _) ← Annotate (mkAnnotatedBoard bo (candidates ab));
      '(solvable, _) ← SingleCandidate ab 1;
      bo ← (if solvable : bool then Ok (board ab)
            else assign2 (board ab) y x v);
      let ab := mkAnnotatedBoard bo (candidates ab) in
      if validMinimum
         && bool_decide (Z.of_nat fieldCount - Z.of_nat i - 1 = minimum)%Z
      then Ok (board ab)
      else GenerateSimple_loop validMinimum minimum fieldCount (S i) fields' ab
  end.

(** [func GenerateSimple(random Board, minimum int) (unsolved Board)]. *)
Definition GenerateSimple (Intn : nat → nat → nat) (random : Board)
    (minimum : Z) : result Board :=
  size ← Size random;
  fields ← GenerateSimple_fields random size;
  fields ← GenerateSimple_shuffle Intn fields;
  '(ab, _) ← NewAnnotatedBoard random;
  let fieldCount := length fields in
  let validMinimum :=
    bool_decide (0 < minimum)%Z
    && bool_decide (minimum < Z.of_nat fieldCount)%Z in
  GenerateSimple_loop validMinimum minimum fieldCount 0 fields ab.

(** ** Boards of the tests *)

Definition solved4 : Board :=
  [[1; 2; 3; 4]; [3; 4; 1; 2]; [4; 1; 2; 3]; [2; 3; 4; 1]]%Z.

Definition unsolved4 : Board :=
  [[1; 0; 0; 0]; [0; 2; 0; 0]; [0; 0; 3; 0]; [0; 0; 0; 4]]%Z.

Definition unsolved4b : Board :=
  [[1; 2; 0; 0]; [3; 0; 0; 2]; [4; 1; 2; 0]; [2; 3; 4; 1]]%Z.

Definition annotated4 : list (list Candidates) :=
  [[2; 24; 20; 12]; [24; 4; 18; 10]; [20; 18; 8; 6]; [12; 10; 6; 16]]%Z.

Definition unsolved9b : Board :=
  [[9; 0; 7; 0; 0; 4; 3; 0; 1];
   [6; 0; 4; 3; 0; 1; 9; 0; 7];
   [3; 0; 1; 9; 0; 7; 6; 0; 4];
   [0; 9; 6; 7; 4; 5; 2; 1; 3];
   [7; 0; 5; 2; 1; 3; 0; 9; 6];
   [2; 1; 3; 8; 9; 0; 7; 4; 5];
   [5; 7; 9; 4; 0; 0; 1; 0; 2];
   [4; 0; 0; 1; 3; 2; 5; 7; 9];
   [1; 0; 2; 5; 7; 9; 4; 0; 0]]%Z.

(** * Specification vocabulary *)

Local Open Scope Z_scope.

Definition bits_le (c' c : Z) : Prop :=
  ∀ i, Z.testbit c' i = true → Z.testbit c i = true.

Local Close Scope Z_scope.

(** spec vocabulary *)
Definition cell {A} (g : list (list A)) (y x : nat) : option A :=
  g !! y ≫= (.!! x).

Definition square {A} (N : nat) (g : list (list A)) : Prop :=
  length g = N ∧ Forall (λ row, length row = N) g.

Definition set_cell {A} (g : list (list A)) (y x : nat) (a : A) : list (list A) :=
  alter (<[x := a]>) y g.

Definition related (rt : nat) (p q : nat * nat) : Prop :=
  p.1 = q.1 ∨ p.2 = q.2 ∨ (p.1 / rt = q.1 / rt ∧ p.2 / rt = q.2 / rt).

Definition conflict (rt : nat) (cells : list (nat * nat * Z)) : Prop :=
  ∃ p q v, (p, v) ∈ cells ∧ (q, v) ∈ cells ∧ p ≠ q ∧ (0 < v)%Z ∧ related rt p q.

Definition acc_inv (N rt : nat) (pre : list (nat * nat * Z))
    (st : accumulators) : Prop :=
  square N (acc_cands st) ∧ length (acc_rows st) = N
  ∧ length (acc_cols st) = N ∧ square rt (acc_blocks st)
  ∧ (∀ y r v, acc_rows st !! y = Some r → (1 ≤ v ≤ 62)%Z →
       Z.testbit r v = true ↔ ∃ x, (y, x, v) ∈ pre)
  ∧ (∀ x c v, acc_cols st !! x = Some c → (1 ≤ v ≤ 62)%Z →
       Z.testbit c v = true ↔ ∃ y, (y, x, v) ∈ pre)
  ∧ (∀ i j b v, cell (acc_blocks st) i j = Some b → (1 ≤ v ≤ 62)%Z →
       Z.testbit b v = true ↔ ∃ y x, y / rt = i ∧ x / rt = j ∧ (y, x, v) ∈ pre)
  ∧ (∀ y x a, cell (acc_cands st) y x = Some a →
       (∀ v, (y, x, v) ∈ pre → (0 < v)%Z → a = (2 ^ v)%Z)
       ∧ ((∀ v, (y, x, v) ∈ pre → (v ≤ 0)%Z) → a = 0%Z)).

(** bit 0 is never used *)
Definition bit0_free (g : list (list Candidates)) : Prop :=
  ∀ y x a, cell g y x = Some a → Z.testbit a 0 = false.

Definition acc_shape (N rt : nat) (st : accumulators) : Prop :=
  square N (acc_cands st) ∧ length (acc_rows st) = N
  ∧ length (acc_cols st) = N ∧ square rt (acc_blocks st)
  ∧ bit0_free (acc_cands st).

(** second loop *)
Definition rest_value (size rt : nat) (st : accumulators) (y x : nat)
    (a a' : Candidates) : Prop :=
  ((1 < a)%Z ∧ a' = a)
  ∨ ((a ≤ 1)%Z ∧ ∃ r c b,
       acc_rows st !! y = Some r ∧ acc_cols st !! x = Some c
       ∧ cell (acc_blocks st) (y / rt) (x / rt) = Some b
       ∧ a' = Z.ldiff (Z.ldiff (Z.ldiff (allCandidates size) r) c) b).

Definition in_row (bo : Board) (y : nat) (v : Z) : Prop :=
  ∃ x, cell bo y x = Some v.
Definition in_col (bo : Board) (x : nat) (v : Z) : Prop :=
  ∃ y, cell bo y x = Some v.
Definition in_block (rt : nat) (bo : Board) (y x : nat) (v : Z) : Prop :=
  ∃ y' x', y' / rt = y / rt ∧ x' / rt = x / rt ∧ cell bo y' x' = Some v.
Definition placed (rt : nat) (bo : Board) (y x : nat) (v : Z) : Prop :=
  in_row bo y v ∨ in_col bo x v ∨ in_block rt bo y x v.

Definition duplicate (rt : nat) (bo : Board) : Prop :=
  ∃ y1 x1 y2 x2 v,
    cell bo y1 x1 = Some v ∧ cell bo y2 x2 = Some v ∧ (y1, x1) ≠ (y2, x2)
    ∧ v ≠ 0%Z
    ∧ (y1 = y2 ∨ x1 = x2 ∨ (y1 / rt = y2 / rt ∧ x1 / rt = x2 / rt)).

Definition values_in (N : nat) (bo : Board) : Prop :=
  ∀ y x v, cell bo y x = Some v → (0 ≤ v ≤ Z.of_nat N)%Z.

Definition annotated (N rt : nat) (bo : Board)
    (cands : list (list Candidates)) : Prop :=
  ∀ y x w c, cell bo y x = Some w → cell cands y x = Some c →
    (w = 0%Z → ∀ v, Contains c v = true
                    ↔ (1 ≤ v ≤ Z.of_nat N)%Z ∧ ¬ placed rt bo y x v)
    ∧ (w ≠ 0%Z → ∀ v, Contains c v = true ↔ v = w).

(** the number of fields that are not filled *)
Definition unfilled_row (row : list Z) : nat :=
  length (filter (λ v, (v ≤ 0)%Z) row).
Definition unfilled (bo : Board) : nat :=
  foldr (λ row n, unfilled_row row + n) 0 bo.

Definition scan_inv (N : nat) (cands : list (list Candidates))
    (bo0 bo : Board) (solvable : bool) : Prop :=
  square N bo
  ∧ (∀ y x v, cell bo0 y x = Some v → (0 < v)%Z → cell bo y x = Some v)
  ∧ (∀ y x v v', cell bo0 y x = Some v → cell bo y x = Some v' →
       v' = v ∨ ((v ≤ 0)%Z ∧ (0 < v')%Z
                 ∧ ∃ c, cell cands y x = Some c ∧ Single c = true))
  ∧ (solvable = false → bo = bo0)
  ∧ (solvable = true → unfilled bo < unfilled bo0)
  ∧ unfilled bo ≤ unfilled bo0
  ∧ (solvable = true →
       ∃ y x v v' c, cell bo0 y x = Some v ∧ (v ≤ 0)%Z
                  ∧ cell bo y x = Some v' ∧ (0 < v')%Z
                  ∧ cell cands y x = Some c ∧ Single c = true).

Definition wf_annotated (N : nat) (ab : AnnotatedBoard) : Prop :=
  square N (board ab) ∧ square N (candidates ab) ∧ bit0_free (candidates ab).

Definition zeros_row (row : list Z) : nat :=
  length (filter (λ v, v = 0%Z) row).
Definition zeros (bo : Board) : nat :=
  foldr (λ row n, zeros_row row + n) 0 bo.

Definition extends (bo s : Board) : Prop :=
  ∀ y x v, cell bo y x = Some v → v ≠ 0%Z → cell s y x = Some v.

(** what a call of backtrack appends to the solutions *)
Definition bt_post (N : nat) (bo : Board) (k : Z) (sols : list Board)
    (stop : bool) (new : list Board) : Prop :=
  NoDup new
  ∧ (∀ s, s ∈ new → square N s ∧ Full s = true ∧ extends bo s)
  ∧ (stop = true ↔ new ≠ [] ∧ (k ≤ Z.of_nat (length (sols ++ new)))%Z)
  ∧ (2 ≤ length new → (Z.of_nat (length (sols ++ new)) ≤ k)%Z).

Definition solution (N rt : nat) (s : Board) : Prop :=
  square N s
  ∧ (∀ y x v, cell s y x = Some v → (1 ≤ v ≤ Z.of_nat N)%Z)
  ∧ ¬ duplicate rt s.

Definition completion (N rt : nat) (bo s : Board) : Prop :=
  solution N rt s ∧ extends bo s.

(** A board on which only the last field of the first row is forced. *)
Definition forced4 : Board :=
  [[1; 2; 3; 0]; [0; 0; 0; 0]; [0; 0; 0; 0]; [0; 0; 0; 0]]%Z.

(** The empty board of side 64 and the board of side 64 that has only the
    value 64, twice, in its first row. *)
Definition empty64 : Board := replicate 64 (replicate 64 0%Z).

Definition twice64 : Board :=
  set_cell (set_cell empty64 0 0 64%Z) 0 1 64%Z.

(** A solved board of side 64: row [y] is the sequence [1..64] rotated by
    [(y mod 8) * 8 + y / 8]. *)
Definition pattern64 (y x : nat) : Z :=
  Z.of_nat (((y `mod` 8) * 8 + y / 8 + x) `mod` 64) + 1.

(** The grid of side [N] whose field [(y, x)] holds [f y x]. *)
Definition grid {A} (N : nat) (f : nat → nat → A) : list (list A) :=
  (λ y, f y <$> seq 0 N) <$> seq 0 N.

Definition solved64 : Board := grid 64 pattern64.

(** The second solution that [Backtrack] finds for [unsolved4]. *)
Definition completed4 : Board :=
  [[1; 3; 4; 2]; [4; 2; 1; 3]; [2; 4; 3; 1]; [3; 1; 2; 4]]%Z.

(** [range] visits every entry of a map once, in an order of its own. *)
Definition range_ok (range_map : gmap Z Candidates → list (Z * Candidates))
    : Prop :=
  ∀ m, range_map m ≡ₚ map_to_list m.

(** A word of one-based line numbers of a board of side [N]: its bits are
    line numbers, except that the line 63 shows as the sign. *)
Definition lines (N : nat) (r : Z) : Prop :=
  ∀ i, (0 ≤ i)%Z → Z.testbit r i = true →
    (1 ≤ i)%Z ∧ ((i ≤ Z.of_nat N ∧ i ≤ 62)%Z ∨ (63 ≤ i ∧ r < 0)%Z).

Definition maps_ok (N : nat) (m : block_maps) : Prop :=
  lines N (rowsNotInBlock m) ∧ lines N (colsNotInBlock m)
  ∧ map_Forall (λ _ r, lines N r) (inRows m)
  ∧ map_Forall (λ _ r, lines N r) (inCols m).

(** The state of a pass compared with the candidates [cands0] it started
    from: nothing was added, and [succeeded] tells whether something was
    removed. *)
Definition pass_inv (N : nat) (cands0 : list (list Candidates))
    (st : list (list Candidates) * bool) : Prop :=
  square N st.1
  ∧ (∀ y x c0 c, cell cands0 y x = Some c0 → cell st.1 y x = Some c →
       bits_le c c0)
  ∧ (st.2 = false → st.1 = cands0)
  ∧ (st.2 = true →
       ∃ y x c0 c v, cell cands0 y x = Some c0 ∧ cell st.1 y x = Some c
         ∧ Contains c0 v = true ∧ Contains c v = false).

(** The blocks in the order in which the two outer loops visit them. *)
Definition blocks (blockSize : nat) : list (nat * nat) :=
  blkY ← seq 0 blockSize; pair blkY <$> seq 0 blockSize.

(** The body of the block loop and the pass as the specification words
    them: the maps of every block are computed from [cands0], the candidates
    of the input, and only the removals go to the copy. *)
Definition CandidateLines_block_snapshot
    (range_map : gmap Z Candidates → list (Z * Candidates))
    (size blockSize : nat) (cands0 : list (list Candidates))
    (st : list (list Candidates) * bool) (blk : nat * nat)
    : result (list (list Candidates) * bool) :=
  m ← CandidateLines_maps size blockSize cands0 blk.1 blk.2;
  st ← CandidateLines_cols range_map m st;
  CandidateLines_rows range_map m st.

Definition CandidateLines_snapshot
    (range_map : gmap Z Candidates → list (Z * Candidates))
    (ab : AnnotatedBoard) : result (AnnotatedBoard * bool) :=
  ab2 ← AnnotatedBoard_Copy ab;
  size ← Size (board ab2);
  let blockSize := sqrt size in
  '(cands, succeeded) ←
    foldM (CandidateLines_block_snapshot range_map size blockSize
             (candidates ab))
      (candidates ab2, false) (blocks blockSize);
  Ok (mkAnnotatedBoard (board ab2) cands, succeeded).

(** Every occurrence that [m] notes is noted by [m0]. *)
Definition occurrences_le (m m0 : gmap Z Candidates) : Prop :=
  ∀ c r, m !! c = Some r → ∃ r0, m0 !! c = Some r0 ∧ bits_le r r0.

Definition maps_le (m m0 : block_maps) : Prop :=
  rowsNotInBlock m = rowsNotInBlock m0
  ∧ colsNotInBlock m = colsNotInBlock m0
  ∧ occurrences_le (inRows m) (inRows m0)
  ∧ occurrences_le (inCols m) (inCols m0).

(** The candidate words lie in [0 .. 2^62 - 1], the words for which
    [Decimals] is the loop of the code: [log2] of such a word is at most 62
    and [pow2] of every exponent the loop passes fits an [int]. *)
Definition small_words (cands : list (list Candidates)) : Prop :=
  ∀ y x c, cell cands y x = Some c → (0 ≤ c < 2 ^ 62)%Z.

Definition nonneg (cands : list (list Candidates)) : Prop :=
  ∀ y x c, cell cands y x = Some c → (0 ≤ c)%Z.

(** A board on which the removals of one block change what a later block
    finds. *)
Definition feedback4 : Board :=
  [[4; 3; 1; 0]; [1; 2; 4; 3]; [0; 1; 0; 4]; [0; 4; 3; 0]]%Z.

(** The candidates that [NewAnnotatedBoard] computes for [feedback4]. *)
Definition feedback4_candidates : list (list Candidates) :=
  [[16; 8; 2; 4]; [2; 4; 16; 8]; [12; 2; 4; 16]; [4; 16; 8; 6]]%Z.

(** The candidates of [ab] are those that [Annotate] computes for its
    board. *)
Definition consistent (ab : AnnotatedBoard) : Prop :=
  ∃ err, Annotate (mkAnnotatedBoard (board ab) []) = Ok (ab, err).

(** [g[y][x]] for [int] indices. *)
Definition cellZ {A} (g : list (list A)) (y x : Z) : option A :=
  if decide (0 ≤ y ∧ 0 ≤ x)%Z then cell g (Z.to_nat y) (Z.to_nat x) else None.

(** The state after [CandidateLines_remove] at a field holding [s]. *)
Definition removed (st : list (list Candidates) * bool) (c y x : Z)
    (s : Candidates) : list (list Candidates) * bool :=
  if Contains s c
  then (set_cell st.1 (Z.to_nat y) (Z.to_nat x) (Remove s c), true)
  else st.

(** What one entry [(c, line)] of a map makes the loop do: the removals of
    [c] at the fields [place d other] for the [other] lines that are not in
    the block, [d] being the line of the entry. *)
Definition entry_removals (place : Z → Z → Z * Z) (others : list Z)
    (e : Z * Candidates) : result (list (Z * Z * Z)) :=
  if Single e.2 then
    d ← index (Decimals e.2) 0;
    Ok ((λ o, (e.1, (place d o).1, (place d o).2)) <$> others)
  else Ok [].

Definition remove_at (st : list (list Candidates) * bool) (a : Z * Z * Z)
    : result (list (list Candidates) * bool) :=
  CandidateLines_remove a.1.1 a.1.2 a.2 st.

(** The candidates leave room for the board [t]: every field may hold the
    number that [t] has there. *)
Definition admits (cands : list (list Candidates)) (t : Board) : Prop :=
  ∀ y x v c, cell t y x = Some v → cell cands y x = Some c →
    Contains c v = true.

(** The maps of a block have seen the candidate [c] at the field [(y, x)]. *)
Definition noted (m : block_maps) (c : Z) (y x : nat) : Prop :=
  (∃ w, inRows m !! c = Some w ∧ Z.testbit w (Z.of_nat (y + 1)) = true)
  ∧ (∃ w, inCols m !! c = Some w ∧ Z.testbit w (Z.of_nat (x + 1)) = true).

(** What the maps of the block [(blkY, blkX)] tell about the board [t]:
    every number of [t] is noted at its place in the block, and the lines
    of [rowsNotInBlock] and [colsNotInBlock] lie outside of the block. *)
Definition maps_of (N rt blkY blkX : nat) (m : block_maps) (t : Board) : Prop :=
  (∀ c, (1 ≤ c ≤ Z.of_nat N)%Z →
     ∃ y0 x0, y0 / rt = blkY ∧ x0 / rt = blkX ∧ y0 < N ∧ x0 < N
              ∧ cell t y0 x0 = Some c ∧ noted m c y0 x0)
  ∧ (∀ row, row ∈ Decimals (rowsNotInBlock m) → Z.to_nat (row - 1) / rt ≠ blkY)
  ∧ (∀ col, col ∈ Decimals (colsNotInBlock m) → Z.to_nat (col - 1) / rt ≠ blkX).

(** The byte of the row [y] and the byte of a digit. *)
Definition letter (y : nat) : Ascii.ascii := Ascii.ascii_of_nat (97 + y).

Definition digit (v : Z) : Ascii.ascii := Ascii.ascii_of_nat (48 + Z.to_nat v).

(** The three bytes for the field [(y, x)] with the number [v]. *)
Definition triple (c : nat * nat * Z) : string :=
  String (letter c.1.1)
    (String (digit (Z.of_nat c.1.2 + 1)) (String (digit c.2) EmptyString)).

(** The notation of the fields [cells]: the triples of those with a number. *)
Definition triples (cells : list (nat * nat * Z)) : string :=
  foldr (λ c r, if decide (0 < c.2)%Z then triple c +:+ r else r)
    EmptyString cells.

(** A solved board of side [rt * rt]: row [y] is the sequence
    [0 .. rt * rt - 1] rotated by [(y mod rt) * rt + y / rt]. *)
Definition pattern (rt : nat) (y x : nat) : nat :=
  ((y `mod` rt) * rt + y / rt + x) `mod` (rt * rt).

(** The pattern with its numbers renamed by [perm]. *)
Definition relabelled (perm : list nat) (rt : nat) : Board :=
  grid (rt * rt)
    (λ y x, (Z.of_nat (default 0%nat (perm !! pattern rt y x)) + 1)%Z).

(** The string of the numbers of the fields [cells] that lie in the first
    [n] rows and columns. *)
Definition inner (n : Z) (cells : list (nat * nat * Z)) : string :=
  foldr (λ c r,
    if decide (Z.of_nat c.1.1 < n ∧ Z.of_nat c.1.2 < n)%Z
    then Itoa c.2 +:+ r else r) EmptyString cells.

(** * Proofs *)

Local Open Scope Z_scope.

Lemma wrap64_small z : - 2 ^ 63 ≤ z < 2 ^ 63 → wrap64 z = z.
Proof. intros H. unfold wrap64. rewrite Z.mod_small; lia. Qed.

Lemma shl1_pow v : 0 ≤ v ≤ 62 → shl1 v = 2 ^ v.
Proof.
  intros H. unfold shl1. case_decide; [lia|].
  rewrite Z.shiftl_1_l. apply wrap64_small.
  split; [pose proof (Z.pow_pos_nonneg 2 v); lia|].
  apply Z.pow_lt_mono_r; lia.
Qed.

Lemma shl1_63 : shl1 63 = - 2 ^ 63.
Proof. reflexivity. Qed.

Lemma shl1_zero v : v < 0 ∨ 64 ≤ v → shl1 v = 0.
Proof.
  intros H. unfold shl1. case_decide; [done|].
  rewrite Z.shiftl_1_l. unfold wrap64.
  replace v with (64 + (v - 64)) by lia.
  rewrite Z.pow_add_r by lia.
  replace (2 ^ 64 * 2 ^ (v - 64) + 2 ^ 63) with (2 ^ 63 + 2 ^ (v - 64) * 2 ^ 64) by lia.
  rewrite Z.mod_add by lia. reflexivity.
Qed.

Lemma shl1_nonzero v : shl1 v ≠ 0 → 0 ≤ v ≤ 63.
Proof.
  intros H. destruct (decide (v < 0 ∨ 64 ≤ v)) as [Hv|Hv]; [|lia].
  by rewrite shl1_zero in H.
Qed.

Lemma land_pow2_eq0 c v : 0 ≤ v → Z.land c (2 ^ v) = 0 ↔ Z.testbit c v = false.
Proof.
  intros Hv. split.
  - intros H. apply (f_equal (λ z, Z.testbit z v)) in H.
    rewrite Z.land_spec, Z.pow2_bits_true, Z.bits_0 in H by done.
    by rewrite andb_true_r in H.
  - intros H. apply Z.bits_inj'. intros n Hn.
    rewrite Z.land_spec, Z.bits_0, Z.pow2_bits_eqb by done.
    destruct (Z.eqb_spec v n) as [->|]; [by rewrite H|by rewrite andb_false_r].
Qed.

Lemma Contains_testbit c v : 0 ≤ v ≤ 62 → Contains c v = Z.testbit c v.
Proof.
  intros Hv. unfold Contains. rewrite shl1_pow by done.
  destruct (Z.testbit c v) eqn:Hb.
  - apply negb_true_iff, Z.eqb_neq. rewrite land_pow2_eq0 by lia. congruence.
  - apply negb_false_iff, Z.eqb_eq. apply land_pow2_eq0; [lia|done].
Qed.

Lemma bits_le_refl c : bits_le c c.
Proof. by intros i. Qed.

Lemma bits_le_trans a b c : bits_le a b → bits_le b c → bits_le a c.
Proof. intros H1 H2 i Hi. by apply H2, H1. Qed.

Lemma bits_le_land c' c : bits_le c' c → Z.land c' c = c'.
Proof.
  intros H. apply Z.bits_inj'. intros n _. rewrite Z.land_spec.
  destruct (Z.testbit c' n) eqn:Hb; [by rewrite (H n Hb)|done].
Qed.

Lemma bits_le_antisym a b : bits_le a b → bits_le b a → a = b.
Proof.
  intros H1 H2. apply Z.bits_inj'. intros n _.
  destruct (Z.testbit a n) eqn:Ha, (Z.testbit b n) eqn:Hb; try done.
  - apply H1 in Ha. congruence.
  - apply H2 in Hb. congruence.
Qed.

Lemma Contains_mono c' c v :
  bits_le c' c → Contains c' v = true → Contains c v = true.
Proof.
  intros Hle. unfold Contains. rewrite !negb_true_iff, !Z.eqb_neq.
  intros H1 H2. apply H1.
  rewrite <- (bits_le_land _ _ Hle), <- Z.land_assoc, H2. apply Z.land_0_r.
Qed.

Lemma Remove_le c v : bits_le (Remove c v) c.
Proof.
  intros i. unfold Remove. rewrite Z.ldiff_spec. by intros [? _]%andb_true_iff.
Qed.

Lemma Contains_Remove c v : Contains (Remove c v) v = false.
Proof.
  unfold Contains, Remove. apply negb_false_iff, Z.eqb_eq.
  apply Z.bits_inj'. intros n _.
  rewrite Z.land_spec, Z.ldiff_spec, Z.bits_0.
  by destruct (Z.testbit c n), (Z.testbit (shl1 v) n).
Qed.

Lemma Contains_range c v : Contains c v = true → 0 ≤ v ≤ 63.
Proof.
  unfold Contains. rewrite negb_true_iff, Z.eqb_neq. intros H.
  apply shl1_nonzero. intros Hs. rewrite Hs, Z.land_0_r in H. done.
Qed.

Lemma Add_testbit c v i :
  0 ≤ v ≤ 62 → Z.testbit (Add c v) i = Z.testbit c i || bool_decide (i = v).
Proof.
  intros Hv. unfold Add. rewrite Z.lor_spec, shl1_pow by done.
  f_equal. rewrite Z.pow2_bits_eqb by lia.
  case_bool_decide; [by apply Z.eqb_eq|by apply Z.eqb_neq].
Qed.

Lemma allCandidates_from_testbit n c i :
  (n ≤ 62)%nat →
  Z.testbit (allCandidates_from n c) i
  = Z.testbit c i || bool_decide (1 ≤ i ≤ Z.of_nat n).
Proof.
  revert c. induction n as [|n IH]; intros c Hn; simpl.
  - case_bool_decide; [lia|]. by rewrite orb_false_r.
  - rewrite IH by lia. rewrite Add_testbit by lia.
    rewrite <- orb_assoc. f_equal.
    repeat case_bool_decide; try done; lia.
Qed.

Lemma allCandidates_testbit n i :
  (n ≤ 62)%nat →
  Z.testbit (allCandidates n) i = bool_decide (1 ≤ i ≤ Z.of_nat n).
Proof.
  intros Hn. unfold allCandidates.
  by rewrite allCandidates_from_testbit, Z.bits_0.
Qed.

(** Decimals *)

Lemma Decimals_loop_spec n i :
  0 ≤ i < 2 ^ (Z.of_nat n + 1) →
  (∀ v, v ∈ Decimals_loop n i ↔ 1 ≤ v ≤ Z.of_nat n ∧ Z.testbit i v = true)
  ∧ StronglySorted (λ a b, b < a) (Decimals_loop n i).
Proof.
  revert i. induction n as [|n IH]; intros i Hi.
  - simpl. split; [|constructor]. intros v. rewrite elem_of_nil. lia.
  - cbn [Decimals_loop]. unfold pow2.
    replace (Z.of_nat (S n) + 1) with (Z.succ (Z.of_nat (S n))) in Hi by lia.
    rewrite Z.pow_succ_r in Hi by lia.
    replace (Z.of_nat n + 1) with (Z.of_nat (S n)) in IH by lia.
    case_decide as Hsq.
    + assert (Hlog : Z.log2 i = Z.of_nat (S n)).
      { apply Z.log2_unique; [lia|]. rewrite Z.pow_succ_r by lia. lia. }
      assert (Htop : Z.testbit i (Z.of_nat (S n)) = true).
      { rewrite <- Hlog. apply Z.bit_log2.
        pose proof (Z.pow_pos_nonneg 2 (Z.of_nat (S n))). lia. }
      assert (Hlow : ∀ v, v < Z.of_nat (S n) →
                Z.testbit (i - 2 ^ Z.of_nat (S n)) v = Z.testbit i v).
      { intros v Hv.
        rewrite <- (Z.mod_pow2_bits_low i (Z.of_nat (S n)) v) by lia.
        f_equal. apply Z.mod_unique_pos with 1; lia. }
      destruct (IH (i - 2 ^ Z.of_nat (S n))) as [IH1 IH2]; [lia|].
      split.
      * intros v. rewrite elem_of_cons, IH1. split.
        -- intros [->|[Hv Hb]]; [split; [lia|done]|].
           rewrite Hlow in Hb by lia. split; [lia|done].
        -- intros [Hv Hb].
           destruct (decide (v = Z.of_nat (S n))) as [|Hne]; [by left|right].
           rewrite Hlow by lia. split; [lia|done].
      * constructor; [done|]. apply Forall_forall. intros v Hv%IH1. lia.
    + destruct (IH i) as [IH1 IH2]; [lia|]. split; [|done].
      intros v. rewrite IH1. split; [intros [??]; split; [lia|done]|].
      intros [Hv Hb]. split; [|done].
      destruct (decide (v = Z.of_nat (S n))) as [->|Hne]; [|lia].
      destruct (decide (i = 0)) as [->|Hi0]; [by rewrite Z.bits_0 in Hb|].
      rewrite Z.bits_above_log2 in Hb; [done|lia|].
      apply Z.log2_lt_pow2; lia.
Qed.

Lemma Decimals_loop_above n i :
  0 ≤ i < 2 ^ Z.of_nat (S n) → Decimals_loop (S n) i = Decimals_loop n i.
Proof.
  intros Hi. cbn [Decimals_loop]. unfold pow2. case_decide; [lia|done].
Qed.

Lemma Decimals_nonpos c : c ≤ 0 → Decimals c = [].
Proof.
  intros Hc. unfold Decimals, log2. case_decide; [lia|]. done.
Qed.

Lemma Decimals_pos_spec c :
  0 < c →
  (∀ v, v ∈ Decimals c ↔ 1 ≤ v ∧ Z.testbit c v = true)
  ∧ StronglySorted (λ a b, b < a) (Decimals c).
Proof.
  intros Hc. unfold Decimals, log2. case_decide; [|lia].
  pose proof (Z.log2_nonneg c) as Hl.
  destruct (Decimals_loop_spec (Z.to_nat (Z.log2 c)) c) as [H1 H2].
  { rewrite Z2Nat.id by done. split; [lia|].
    replace (Z.log2 c + 1) with (Z.succ (Z.log2 c)) by lia.
    by apply Z.log2_spec. }
  split; [|done]. intros v. rewrite H1, Z2Nat.id by done.
  split; [intros [[??]?]; done|]. intros [Hv Hb]. split; [|done]. split; [done|].
  destruct (decide (v ≤ Z.log2 c)); [done|].
  rewrite Z.bits_above_log2 in Hb; [done|lia|lia].
Qed.

Lemma elem_of_Decimals c v :
  v ∈ Decimals c ↔ 0 < c ∧ 1 ≤ v ∧ Z.testbit c v = true.
Proof.
  destruct (decide (0 < c)) as [Hc|Hc].
  - destruct (Decimals_pos_spec c Hc) as [H _]. rewrite H. tauto.
  - rewrite Decimals_nonpos by lia. rewrite elem_of_nil. lia.
Qed.

Lemma Decimals_sorted c : StronglySorted (λ a b, b < a) (Decimals c).
Proof.
  destruct (decide (0 < c)) as [Hc|Hc].
  - by destruct (Decimals_pos_spec c Hc).
  - rewrite Decimals_nonpos by lia. constructor.
Qed.

Lemma Decimals_NoDup c : NoDup (Decimals c).
Proof.
  induction (Decimals_sorted c) as [|a l _ IH Ha]; constructor; [|done].
  intros Hin. rewrite Forall_forall in Ha. specialize (Ha _ Hin). lia.
Qed.

Lemma Decimals_pos_elem c v : v ∈ Decimals c → 1 ≤ v.
Proof. rewrite elem_of_Decimals. tauto. Qed.

Lemma bits_le_nonneg c c0 : bits_le c c0 → (0 ≤ c0)%Z → (0 ≤ c ≤ c0)%Z.
Proof.
  intros Hle H0.
  assert (0 ≤ c)%Z as Hc.
  { destruct (decide (0 ≤ c)%Z) as [|Hneg]; [done|]. exfalso.
    set (i := (Z.max (Z.log2 (Z.abs c)) (Z.log2 c0) + 1)%Z).
    pose proof (Z.log2_nonneg (Z.abs c)). pose proof (Z.log2_nonneg c0).
    assert (Z.testbit c i = true) as Hb by (apply Z.bits_iff_neg; lia).
    apply Hle in Hb. rewrite Z.bits_above_log2 in Hb by lia. done. }
  split; [done|].
  rewrite <- (Z.lor_ldiff_and c0 c), (Z.land_comm c0 c), (bits_le_land _ _ Hle).
  rewrite <- Z.add_nocarry_lor.
  - pose proof (proj2 (Z.ldiff_nonneg c0 c) (or_introl H0)). lia.
  - apply Z.bits_inj'. intros n Hn.
    rewrite Z.land_spec, Z.ldiff_spec, Z.bits_0.
    by destruct (Z.testbit c0 n), (Z.testbit c n).
Qed.

Local Close Scope Z_scope.

(** basic lemmas *)
Lemma bind_Ok {A B} (m : result A) (f : A → result B) b :
  m ≫= f = Ok b ↔ ∃ a, m = Ok a ∧ f a = Ok b.
Proof.
  destruct m; simpl; split; try (intros [? [? ?]]); try done; eauto.
  congruence.
Qed.

Lemma index_Ok {A} (s : list A) i a : index s i = Ok a ↔ s !! i = Some a.
Proof. unfold index. destruct (s !! i); split; congruence. Qed.

Lemma assign_Ok {A} (s : list A) i a s' :
  assign s i a = Ok s' ↔ i < length s ∧ s' = <[i := a]> s.
Proof. unfold assign. case_decide; split; try intros [??]; try done; [split; congruence|congruence]. Qed.

Lemma index2_Ok {A} (g : list (list A)) y x a :
  index2 g y x = Ok a ↔ cell g y x = Some a.
Proof.
  unfold index2, cell. rewrite bind_Ok. setoid_rewrite index_Ok.
  destruct (g !! y) as [row|]; simpl; split; try intros (? & ? & ?); try done; [congruence|eauto].
Qed.

Lemma cell_Some {A} (g : list (list A)) y x a :
  cell g y x = Some a ↔ ∃ row, g !! y = Some row ∧ row !! x = Some a.
Proof. unfold cell. destruct (g !! y); simpl; split; try intros (? & ? & ?); eauto; try done. congruence. Qed.

Lemma assign2_Ok {A} (g : list (list A)) y x a g' :
  assign2 g y x a = Ok g' ↔ is_Some (cell g y x) ∧ g' = set_cell g y x a.
Proof.
  unfold assign2, set_cell. rewrite bind_Ok. setoid_rewrite index_Ok.
  setoid_rewrite bind_Ok. setoid_rewrite assign_Ok. split.
  - intros (row & Hrow & row' & [Hx ->] & Hy & ->). split.
    + apply lookup_lt_is_Some_2 in Hx as [b Hb]. exists b. apply cell_Some; eauto.
    + apply list_eq. intros i. destruct (decide (i = y)) as [->|].
      * rewrite list_lookup_insert_eq, list_lookup_alter_eq, Hrow by done. done.
      * by rewrite list_lookup_insert_ne, list_lookup_alter_ne.
  - intros [[b (row & Hrow & Hb)%cell_Some] ->].
    exists row. split; [done|]. exists (<[x:=a]> row). split.
    + split; [by eapply lookup_lt_Some|done].
    + split; [by eapply lookup_lt_Some|].
      apply list_eq. intros i. destruct (decide (i = y)) as [->|].
      * rewrite list_lookup_insert_eq, list_lookup_alter_eq, Hrow; [done|by eapply lookup_lt_Some].
      * by rewrite list_lookup_insert_ne, list_lookup_alter_ne.
Qed.

Lemma cell_set_cell {A} (g : list (list A)) y x a y' x' :
  is_Some (cell g y x) →
  cell (set_cell g y x a) y' x'
  = if decide (y' = y ∧ x' = x) then Some a else cell g y' x'.
Proof.
  intros [b (row & Hrow & Hb)%cell_Some]. unfold cell, set_cell.
  destruct (decide (y' = y)) as [->|Hy].
  - rewrite list_lookup_alter_eq, Hrow. simpl.
    destruct (decide (x' = x)) as [->|Hx].
    + rewrite decide_True by done. apply list_lookup_insert_eq. by eapply lookup_lt_Some.
    + rewrite decide_False by tauto. by apply list_lookup_insert_ne.
  - rewrite list_lookup_alter_ne by done. rewrite decide_False by tauto. done.
Qed.

Lemma square_set_cell {A} N (g : list (list A)) y x a :
  square N g → square N (set_cell g y x a).
Proof.
  intros [Hl Hr]. unfold set_cell. split; [by rewrite length_alter|].
  apply Forall_alter; [done|]. intros row Hrow. by rewrite length_insert.
  Unshelve. 
Qed.

Lemma square_cell {A} N (g : list (list A)) y x :
  square N g → y < N → x < N → is_Some (cell g y x).
Proof.
  intros [Hl Hr] Hy Hx.
  destruct (lookup_lt_is_Some_2 g y) as [row Hrow]; [lia|].
  rewrite Forall_lookup in Hr. specialize (Hr _ _ Hrow).
  destruct (lookup_lt_is_Some_2 row x) as [a Ha]; [lia|].
  exists a. apply cell_Some; eauto.
Qed.

Lemma square_cell_lt {A} N (g : list (list A)) y x a :
  square N g → cell g y x = Some a → y < N ∧ x < N.
Proof.
  intros [Hl Hr] (row & Hrow & Ha)%cell_Some.
  rewrite Forall_lookup in Hr. specialize (Hr _ _ Hrow).
  apply lookup_lt_Some in Hrow, Ha. lia.
Qed.

Lemma square_ext {A} N (g g' : list (list A)) :
  square N g → square N g' → (∀ y x, cell g y x = cell g' y x) → g = g'.
Proof.
  intros [Hl Hr] [Hl' Hr'] H. apply (list_eq_same_length _ _ N); [done|done|].
  intros y row row' Hy Hrow Hrow'.
  rewrite Forall_lookup in Hr, Hr'.
  apply (list_eq_same_length _ _ N); [by eapply Hr'|by eapply Hr|].
  intros x a a' Hx Ha Ha'.
  assert (cell g y x = Some a) as H1 by (apply cell_Some; eauto).
  assert (cell g' y x = Some a') as H2 by (apply cell_Some; eauto).
  rewrite H in H1. congruence.
Qed.

(** enumerate2 *)
Lemma elem_of_enumerate {A} y (row : list A) p :
  p ∈ enumerate y row ↔ ∃ x v, p = (y, x, v) ∧ row !! x = Some v.
Proof.
  unfold enumerate. rewrite list_elem_of_lookup. setoid_rewrite list_lookup_imap.
  split.
  - intros (x & Hx). destruct (row !! x) as [v|] eqn:E; simplify_eq/=. eauto.
  - intros (x & v & -> & Hv). exists x. by rewrite Hv.
Qed.

Lemma elem_of_enumerate2 {A} (g : list (list A)) y x v :
  (y, x, v) ∈ enumerate2 g ↔ cell g y x = Some v.
Proof.
  unfold enumerate2. rewrite list_elem_of_join. split.
  - intros (l & Hl & Hin). apply list_elem_of_lookup in Hin as [y' Hy'].
    rewrite list_lookup_imap in Hy'.
    destruct (g !! y') as [row|] eqn:E; simplify_eq/=.
    apply elem_of_enumerate in Hl as (x' & v' & ? & Hv); simplify_eq.
    apply cell_Some; eauto.
  - intros (row & Hrow & Hv)%cell_Some. exists (enumerate y row). split.
    + apply elem_of_enumerate; eauto.
    + apply list_elem_of_lookup. exists y. by rewrite list_lookup_imap, Hrow.
Qed.

Lemma enumerate_positions {A} y (row : list A) :
  (enumerate y row).*1 = (λ x, (y, x)) <$> seq 0 (length row).
Proof.
  unfold enumerate. apply list_eq. intros i.
  rewrite !list_lookup_fmap, list_lookup_imap.
  destruct (row !! i) as [v|] eqn:E; simpl.
  - rewrite lookup_seq_lt by (by eapply lookup_lt_Some). done.
  - apply lookup_ge_None in E. rewrite lookup_seq_ge by lia. done.
Qed.

Lemma enumerate2_cons {A} (row : list A) g k :
  mjoin (imap (λ y, enumerate (k + y)) (row :: g))
  = enumerate k row ++ mjoin (imap (λ y, enumerate (S k + y)) g).
Proof.
  rewrite imap_cons. simpl. rewrite Nat.add_0_r. do 2 f_equal.
  apply imap_ext. intros i x _. simpl. f_equal. lia.
Qed.

Lemma enumerate2_from_positions {A} (g : list (list A)) k :
  NoDup (mjoin (imap (λ y, enumerate (k + y)) g)).*1
  ∧ ∀ p, p ∈ (mjoin (imap (λ y, enumerate (k + y)) g)).*1 → k ≤ p.1.
Proof.
  revert k. induction g as [|row g IH]; intros k.
  - simpl. split; [constructor|]. by intros p ?%elem_of_nil.
  - rewrite enumerate2_cons, fmap_app. destruct (IH (S k)) as [IH1 IH2].
    rewrite enumerate_positions. split.
    + apply NoDup_app. split; [|split; [|done]].
      * apply NoDup_fmap_2; [|apply NoDup_seq]. by intros ?? [=].
      * intros p (x & -> & _)%list_elem_of_fmap Hin. apply IH2 in Hin. simpl in Hin. lia.
    + intros p [(x & -> & _)%list_elem_of_fmap|Hin%IH2]%elem_of_app; simpl; lia.
Qed.

Lemma enumerate2_NoDup {A} (g : list (list A)) : NoDup (enumerate2 g).*1.
Proof. apply (enumerate2_from_positions g 0). Qed.

(** Copy *)
Lemma for_range_assign {A B} (f : A → B) (l : list A) i (s : list B) :
  i + length l ≤ length s →
  for_range (λ s j a, assign s j (f a)) i l s
  = Ok (take i s ++ (f <$> l) ++ drop (i + length l) s).
Proof.
  revert i s. induction l as [|a l IH]; intros i s Hl; simpl in Hl.
  - simpl. rewrite Nat.add_0_r, take_drop. done.
  - cbn [for_range].
    assert (assign s i (f a) = Ok (<[i:=f a]> s)) as ->
      by (apply assign_Ok; split; [lia|done]).
    cbn [mbind result_bind].
    rewrite IH by (rewrite length_insert; lia). f_equal.
    rewrite (take_S_r _ _ (f a)) by (apply list_lookup_insert_eq; lia).
    rewrite take_insert_ge by lia. rewrite <- app_assoc. simpl.
    rewrite drop_insert_lt by lia. cbn [fmap list_fmap app length].
    by replace (i + S (length l)) with (S i + length l) by lia.
Qed.

Lemma for_range_assign_fail {A B} (f : A → B) (l : list A) i (s : list B) :
  i ≤ length s → length s < i + length l →
  for_range (λ s j a, assign s j (f a)) i l s = Panic.
Proof.
  revert i s. induction l as [|a l IH]; intros i s Hi Hl; simpl in Hl; [lia|].
  cbn [for_range]. destruct (assign s i (f a)) as [s'| |] eqn:E; try done.
  - apply assign_Ok in E as [? ->]. cbn [mbind result_bind].
    apply IH; rewrite length_insert; lia.
  - unfold assign in E. by case_decide.
Qed.

Lemma Size_square N (bo : Board) : square N bo → 0 < N → Size bo = Ok N.
Proof.
  intros [Hl Hr] HN. unfold Size.
  destruct bo as [|row bo]; simpl in *; [lia|].
  apply Forall_cons in Hr as [-> _]. done.
Qed.

Lemma Board_Copy_square N (bo : Board) :
  square N bo → 0 < N → Board_Copy bo = Ok bo.
Proof.
  intros Hsq HN. unfold Board_Copy. rewrite (Size_square N) by done. simpl.
  destruct Hsq as [Hl Hr].
  rewrite for_range_assign by (rewrite length_replicate; lia).
  f_equal. simpl. rewrite drop_replicate, Hl, Nat.sub_diag. simpl.
  rewrite app_nil_r. apply list_eq. intros i. rewrite list_lookup_fmap.
  destruct (bo !! i) as [row|] eqn:E; [|done]. simpl. f_equal.
  rewrite Forall_lookup in Hr. apply resize_all_alt. symmetry. by eapply Hr.
Qed.

Lemma AnnotatedBoard_Copy_square N ab :
  square N (board ab) → square N (candidates ab) → 0 < N →
  AnnotatedBoard_Copy ab = Ok ab.
Proof.
  intros Hb Hc HN. unfold AnnotatedBoard_Copy.
  rewrite (Size_square N) by done. simpl.
  destruct Hc as [Hl Hr].
  rewrite (for_range_assign id) by (rewrite length_replicate; lia). simpl.
  rewrite (Board_Copy_square N) by done. simpl. f_equal.
  destruct ab as [bo cs]. f_equal. simpl in *.
  rewrite drop_replicate, Hl, Nat.sub_diag, list_fmap_id. simpl. apply app_nil_r.
Qed.

Lemma acc_upd1 (l : list Z) i r v (P : nat → Z → Prop) :
  (∀ j r' w, l !! j = Some r' → (1 ≤ w ≤ 62)%Z → Z.testbit r' w = true ↔ P j w) →
  l !! i = Some r → (1 ≤ v ≤ 62)%Z →
  ∀ j r' w, <[i := Add r v]> l !! j = Some r' → (1 ≤ w ≤ 62)%Z →
    Z.testbit r' w = true ↔ (P j w ∨ (j = i ∧ w = v)).
Proof.
  intros HP Hi Hv j r' w Hj Hw.
  destruct (decide (j = i)) as [->|Hne].
  - rewrite list_lookup_insert_eq in Hj by (by eapply lookup_lt_Some).
    injection Hj as <-. rewrite Add_testbit by lia.
    rewrite orb_true_iff, bool_decide_eq_true, (HP i r w) by done. tauto.
  - rewrite list_lookup_insert_ne in Hj by done.
    rewrite (HP j r' w) by done. tauto.
Qed.

Lemma acc_upd2 (g : list (list Z)) i0 j0 b v (P : nat → nat → Z → Prop) :
  (∀ i j b' w, cell g i j = Some b' → (1 ≤ w ≤ 62)%Z →
     Z.testbit b' w = true ↔ P i j w) →
  cell g i0 j0 = Some b → (1 ≤ v ≤ 62)%Z →
  ∀ i j b' w, cell (set_cell g i0 j0 (Add b v)) i j = Some b' → (1 ≤ w ≤ 62)%Z →
    Z.testbit b' w = true ↔ (P i j w ∨ (i = i0 ∧ j = j0 ∧ w = v)).
Proof.
  intros HP Hi Hv i j b' w Hj Hw.
  rewrite cell_set_cell in Hj by eauto. case_decide as Hd.
  - destruct Hd as [-> ->]. injection Hj as <-. rewrite Add_testbit by lia.
    rewrite orb_true_iff, bool_decide_eq_true, (HP i0 j0 b w) by done. tauto.
  - rewrite (HP i j b' w) by done. tauto.
Qed.

Lemma div_lt_square rt y : y < rt * rt → y / rt < rt.
Proof. intros H. apply Nat.Div0.div_lt_upper_bound. lia. Qed.

Lemma elem_of_snoc {A} (l : list A) c p : p ∈ l ++ [c] ↔ p ∈ l ∨ p = c.
Proof. by rewrite elem_of_app, list_elem_of_singleton. Qed.

Lemma acc_inv_skip N rt pre st y x v :
  acc_inv N rt pre st → (v ≤ 0)%Z → acc_inv N rt (pre ++ [(y, x, v)]) st.
Proof.
  intros (H1 & H2 & H3 & H4 & H5 & H6 & H7 & H8) Hv.
  split_and!; [done..| | | |].
  - intros y' r w Hr Hw. rewrite (H5 _ _ _ Hr Hw).
    split; intros [x' Hx']; exists x'; [apply elem_of_snoc; by left|].
    apply elem_of_snoc in Hx' as [?|[=]]; [done|lia].
  - intros x' c w Hc Hw. rewrite (H6 _ _ _ Hc Hw).
    split; intros [y' Hy']; exists y'; [apply elem_of_snoc; by left|].
    apply elem_of_snoc in Hy' as [?|[=]]; [done|lia].
  - intros i j b w Hb Hw. rewrite (H7 _ _ _ _ Hb Hw).
    split; intros (y' & x' & ? & ? & Hin); exists y', x'; (split; [done|split; [done|]]);
      [apply elem_of_snoc; by left|].
    apply elem_of_snoc in Hin as [?|[=]]; [done|lia].
  - intros y' x' a Ha. destruct (H8 _ _ _ Ha) as [Ha1 Ha2]. split.
    + intros w [?|[=]]%elem_of_snoc Hw; [|lia].
      by apply Ha1.
    + intros Hall. apply Ha2. intros w Hin. apply Hall, elem_of_snoc. by left.
Qed.

Lemma acc_inv_add N rt pre st y x v r c b a :
  acc_inv N rt pre st → (1 ≤ v ≤ 62)%Z → (y, x) ∉ pre.*1 →
  acc_rows st !! y = Some r → acc_cols st !! x = Some c →
  cell (acc_blocks st) (y / rt) (x / rt) = Some b →
  cell (acc_cands st) y x = Some a →
  acc_inv N rt (pre ++ [(y, x, v)])
    (mkAccumulators (set_cell (acc_cands st) y x (Add a v))
       (<[y := Add r v]> (acc_rows st)) (<[x := Add c v]> (acc_cols st))
       (set_cell (acc_blocks st) (y / rt) (x / rt) (Add b v))).
Proof.
  intros (H1 & H2 & H3 & H4 & H5 & H6 & H7 & H8) Hv Hfresh Hr Hc Hb Ha.
  assert (Hnew : ∀ w, (y, x, w) ∉ pre).
  { intros w Hin. apply Hfresh. apply list_elem_of_fmap. by exists (y, x, w). }
  unfold acc_inv. cbn [acc_cands acc_rows acc_cols acc_blocks].
  split_and!.
  - by apply square_set_cell.
  - by rewrite length_insert.
  - by rewrite length_insert.
  - by apply square_set_cell.
  - intros y' r' w Hr' Hw.
    rewrite (acc_upd1 _ _ _ _ _ (H5) Hr Hv _ _ _ Hr' Hw).
    split.
    + intros [[x' ?]|[-> ->]]; [exists x'|exists x]; apply elem_of_snoc; auto.
    + intros [x' [?|[=]]%elem_of_snoc]; eauto.
  - intros x' c' w Hc' Hw.
    rewrite (acc_upd1 _ _ _ _ (λ x v, ∃ y, (y, x, v) ∈ pre) (H6) Hc Hv _ _ _ Hc' Hw).
    split.
    + intros [[y' ?]|[-> ->]]; [exists y'|exists y]; apply elem_of_snoc; auto.
    + intros [y' [?|[=]]%elem_of_snoc]; eauto.
  - intros i j b' w Hb' Hw.
    rewrite (acc_upd2 _ _ _ _ _ _ (H7) Hb Hv _ _ _ _ Hb' Hw).
    split.
    + intros [(y' & x' & ? & ? & ?)|(-> & -> & ->)].
      * exists y', x'. split_and!; [done..|]. apply elem_of_snoc; auto.
      * exists y, x. split_and!; [done..|]. apply elem_of_snoc; auto.
    + intros (y' & x' & ? & ? & [?|[=]]%elem_of_snoc); [left; eauto 6|].
      subst. right. done.
  - intros y' x' a' Ha'. rewrite cell_set_cell in Ha' by eauto.
    case_decide as Hd.
    + destruct Hd as [-> ->]. injection Ha' as <-.
      destruct (H8 _ _ _ Ha) as [_ Ha0]. rewrite Ha0.
      2:{ intros w Hin. by destruct (Hnew w). }
      split.
      * intros w [Hin|[=]]%elem_of_snoc Hw; [by destruct (Hnew w)|]. subst.
        unfold Add. rewrite shl1_pow by lia. apply Z.lor_0_l.
      * intros Hall. assert (v ≤ 0)%Z; [|lia].
        apply Hall, elem_of_snoc. by right.
    + destruct (H8 _ _ _ Ha') as [Ha1 Ha2]. split.
      * intros w [Hin|[=]]%elem_of_snoc Hw; [by apply Ha1|]. subst. tauto.
      * intros Hall. apply Ha2. intros w Hin. apply Hall, elem_of_snoc. by left.
Qed.

Lemma index_is_Ok {A} (s : list A) i a : s !! i = Some a → index s i = Ok a.
Proof. apply index_Ok. Qed.
Lemma index2_is_Ok {A} (g : list (list A)) y x a :
  cell g y x = Some a → index2 g y x = Ok a.
Proof. apply index2_Ok. Qed.
Lemma assign_is_Ok {A} (s : list A) i a :
  i < length s → assign s i a = Ok (<[i := a]> s).
Proof. intros. by apply assign_Ok. Qed.
Lemma assign2_is_Ok {A} (g : list (list A)) y x a :
  is_Some (cell g y x) → assign2 g y x a = Ok (set_cell g y x a).
Proof. intros. by apply assign2_Ok. Qed.

Lemma conflict_mono rt l l' : l ⊆ l' → conflict rt l → conflict rt l'.
Proof.
  intros Hsub (p & q & v & Hp & Hq & ?). exists p, q, v. split_and!; auto; tauto.
Qed.

Lemma Annotate_fill_spec N rt cells pre st :
  N = rt * rt → acc_inv N rt pre st → ¬ conflict rt pre →
  NoDup (pre ++ cells).*1 →
  (∀ y x v, (y, x, v) ∈ cells → y < N ∧ x < N ∧ (v ≤ 62)%Z) →
  ∃ st' err pre',
    Annotate_fill rt cells st = Ok (st', err)
    ∧ acc_inv N rt pre' st' ∧ pre' ⊆ pre ++ cells
    ∧ (err = false → pre' = pre ++ cells ∧ ¬ conflict rt (pre ++ cells))
    ∧ (err = true → conflict rt (pre ++ cells)).
Proof.
  intros HN. revert pre st.
  induction cells as [|[[y x] v] cells IH]; intros pre st Hinv Hnc Hnd Hcells.
  - exists st, false, pre. rewrite app_nil_r. simpl. split_and!; try done.
  - destruct (Hcells y x v) as (Hy & Hx & Hv); [by left|].
    assert (Hfresh : (y, x) ∉ pre.*1).
    { rewrite fmap_app in Hnd. apply NoDup_app in Hnd as (_ & Hd & _).
      intros Hin. apply (Hd _ Hin). simpl. by left. }
    assert (Hnd' : NoDup ((pre ++ [(y, x, v)]) ++ cells).*1)
      by (rewrite <- app_assoc; exact Hnd).
    assert (Hcells' : ∀ y x v, (y, x, v) ∈ cells → y < N ∧ x < N ∧ (v ≤ 62)%Z).
    { intros ??? Hin. apply Hcells. by right. }
    cbn [Annotate_fill]. case_decide as Hpos; cycle 1.
    { destruct (IH (pre ++ [(y, x, v)]) st) as (st' & err & pre' & IH');
        [apply acc_inv_skip; [done|lia]| |done|done|].
      - intros (p & q & w & [Hp|[=]]%elem_of_snoc & [Hq|[=]]%elem_of_snoc & ?);
          try lia. apply Hnc. by exists p, q, w.
      - rewrite <- app_assoc in IH'. by exists st', err, pre'. }
    pose proof Hinv as (H1 & H2 & H3 & H4 & H5 & H6 & H7 & H8).
    destruct (lookup_lt_is_Some_2 (acc_rows st) y) as [r Hr]; [lia|].
    destruct (lookup_lt_is_Some_2 (acc_cols st) x) as [c Hc]; [lia|].
    destruct (square_cell rt (acc_blocks st) (y / rt) (x / rt)) as [b Hb];
      [done|apply div_lt_square; lia..|].
    destruct (square_cell N (acc_cands st) y x) as [a Ha]; [done..|].
    assert (Hsub : pre ⊆ pre ++ (y, x, v) :: cells).
    { intros p Hp. apply elem_of_app. by left. }
    assert (Hcur : (y, x, v) ∈ pre ++ (y, x, v) :: cells).
    { apply elem_of_app. right. by left. }
    rewrite (index_is_Ok _ _ _ Hr). cbn [mbind result_bind].
    rewrite Contains_testbit by lia.
    destruct (Z.testbit r v) eqn:Hrv.
    { exists st, true, pre. split_and!; try done. intros _.
      apply (H5 _ _ _ Hr) in Hrv as [x' Hx']; [|lia].
      exists (y, x'), (y, x), v. split_and!; auto.
      - intros [=]. subst. apply Hfresh, list_elem_of_fmap. by exists (y, x, v).
      - by left. }
    rewrite (index_is_Ok _ _ _ Hc). cbn [mbind result_bind].
    rewrite Contains_testbit by lia.
    destruct (Z.testbit c v) eqn:Hcv.
    { exists st, true, pre. split_and!; try done. intros _.
      apply (H6 _ _ _ Hc) in Hcv as [y' Hy']; [|lia].
      exists (y', x), (y, x), v. split_and!; auto.
      - intros [=]. subst. apply Hfresh, list_elem_of_fmap. by exists (y, x, v).
      - right. by left. }
    rewrite (index2_is_Ok _ _ _ _ Hb). cbn [mbind result_bind].
    rewrite Contains_testbit by lia.
    destruct (Z.testbit b v) eqn:Hbv.
    { exists st, true, pre. split_and!; try done. intros _.
      apply (H7 _ _ _ _ Hb) in Hbv as (y' & x' & Hy' & Hx' & Hin); [|lia].
      exists (y', x'), (y, x), v. split_and!; auto.
      - intros [=]. subst. apply Hfresh, list_elem_of_fmap. by exists (y, x, v).
      - right. right. done. }
    rewrite (index2_is_Ok _ _ _ _ Ha). cbn [mbind result_bind].
    rewrite assign2_is_Ok by eauto. cbn [mbind result_bind].
    rewrite assign_is_Ok by lia. cbn [mbind result_bind].
    rewrite assign_is_Ok by lia. cbn [mbind result_bind].
    rewrite assign2_is_Ok by eauto. cbn [mbind result_bind].
    edestruct (IH (pre ++ [(y, x, v)])) as (st' & err & pre' & IH');
      [by apply (acc_inv_add N rt pre st y x v r c b a); try done; lia
      | |done|done|].
    + intros (p & q & w & Hp & Hq & Hpq & Hw & Hrel).
      apply elem_of_snoc in Hp as [Hp|Hp], Hq as [Hq|Hq].
      * apply Hnc. by exists p, q, w.
      * injection Hq as -> ->. destruct p as [y' x'].
        destruct Hrel as [Hrel|[Hrel|[Hr1 Hr2]]]; simpl in *; subst.
        -- assert (Z.testbit r v = true); [|congruence].
           apply (H5 _ _ _ Hr); [lia|eauto].
        -- assert (Z.testbit c v = true); [|congruence].
           apply (H6 _ _ _ Hc); [lia|eauto].
        -- assert (Z.testbit b v = true); [|congruence].
           apply (H7 _ _ _ _ Hb); [lia|eauto].
      * injection Hp as -> ->. destruct q as [y' x'].
        destruct Hrel as [Hrel|[Hrel|[Hr1 Hr2]]]; simpl in *; subst.
        -- assert (Z.testbit r v = true); [|congruence].
           apply (H5 _ _ _ Hr); [lia|eauto].
        -- assert (Z.testbit c v = true); [|congruence].
           apply (H6 _ _ _ Hc); [lia|eauto].
        -- assert (Z.testbit b v = true); [|congruence].
           apply (H7 _ _ _ _ Hb); [lia|eauto].
      * congruence.
    + rewrite <- app_assoc in IH'. exists st', err, pre'. exact IH'.
Qed.

Lemma shl1_bit0 v : (0 < v)%Z → Z.testbit (shl1 v) 0 = false.
Proof.
  intros Hv. destruct (decide (v ≤ 62)%Z).
  - rewrite shl1_pow by lia. rewrite Z.pow2_bits_eqb by lia. apply Z.eqb_neq. lia.
  - destruct (decide (v = 63%Z)) as [->|]; [done|].
    rewrite shl1_zero by lia. done.
Qed.

Lemma Add_bit0 c v : (0 < v)%Z → Z.testbit (Add c v) 0 = Z.testbit c 0.
Proof.
  intros Hv. unfold Add. rewrite Z.lor_spec, shl1_bit0 by done. apply orb_false_r.
Qed.

Lemma allCandidates_from_bit0 n c :
  Z.testbit (allCandidates_from n c) 0 = Z.testbit c 0.
Proof.
  revert c. induction n as [|n IH]; intros c; [done|].
  cbn [allCandidates_from]. rewrite IH. apply Add_bit0. lia.
Qed.

Lemma allCandidates_bit0 n : Z.testbit (allCandidates n) 0 = false.
Proof. unfold allCandidates. by rewrite allCandidates_from_bit0. Qed.

Lemma bit0_free_set_cell g y x a :
  bit0_free g → Z.testbit a 0 = false → is_Some (cell g y x) →
  bit0_free (set_cell g y x a).
Proof.
  intros Hg Ha Hc y' x' a' Hcell. rewrite cell_set_cell in Hcell by done.
  case_decide; [congruence|by eapply Hg].
Qed.

Lemma square_replicate {A} N M (a : A) :
  N = M → square N (replicate N (replicate M a)).
Proof.
  intros ->. split; [by rewrite length_replicate|].
  apply Forall_replicate. by rewrite length_replicate.
Qed.

Lemma cell_replicate {A} N M (a b : A) y x :
  cell (replicate N (replicate M a)) y x = Some b → b = a.
Proof.
  intros (row & [-> _]%lookup_replicate & [-> _]%lookup_replicate)%cell_Some.
  done.
Qed.

Lemma Annotate_fill_total N rt cells st :
  N = rt * rt → acc_shape N rt st →
  (∀ y x v, (y, x, v) ∈ cells → y < N ∧ x < N) →
  ∃ st' err, Annotate_fill rt cells st = Ok (st', err) ∧ acc_shape N rt st'.
Proof.
  intros HN. revert st.
  induction cells as [|[[y x] v] cells IH]; intros st Hsh Hcells.
  - by exists st, false.
  - destruct (Hcells y x v) as (Hy & Hx); [by left|].
    assert (Hcells' : ∀ y x v, (y, x, v) ∈ cells → y < N ∧ x < N).
    { intros y' x' v' Hin. apply (Hcells y' x' v'). by right. }
    cbn [Annotate_fill]. case_decide as Hpos; [|by apply IH].
    pose proof Hsh as (H1 & H2 & H3 & H4 & H5).
    destruct (lookup_lt_is_Some_2 (acc_rows st) y) as [r Hr]; [lia|].
    destruct (lookup_lt_is_Some_2 (acc_cols st) x) as [c Hc]; [lia|].
    destruct (square_cell rt (acc_blocks st) (y / rt) (x / rt)) as [b Hb];
      [done|apply div_lt_square; lia..|].
    destruct (square_cell N (acc_cands st) y x) as [a Ha]; [done..|].
    rewrite (index_is_Ok _ _ _ Hr). cbn [mbind result_bind].
    destruct (Contains r v); [by exists st, true|].
    rewrite (index_is_Ok _ _ _ Hc). cbn [mbind result_bind].
    destruct (Contains c v); [by exists st, true|].
    rewrite (index2_is_Ok _ _ _ _ Hb). cbn [mbind result_bind].
    destruct (Contains b v); [by exists st, true|].
    rewrite (index2_is_Ok _ _ _ _ Ha). cbn [mbind result_bind].
    rewrite assign2_is_Ok by eauto. cbn [mbind result_bind].
    rewrite assign_is_Ok by lia. cbn [mbind result_bind].
    rewrite assign_is_Ok by lia. cbn [mbind result_bind].
    rewrite assign2_is_Ok by eauto. cbn [mbind result_bind].
    apply IH; [|done]. unfold acc_shape. cbn [acc_cands acc_rows acc_cols acc_blocks].
    split_and!.
    + by apply square_set_cell.
    + by rewrite length_insert.
    + by rewrite length_insert.
    + by apply square_set_cell.
    + apply bit0_free_set_cell; [done| |eauto].
      rewrite Add_bit0 by done. by eapply H5.
Qed.

Lemma Annotate_rest_loop N rt size st cells seen g :
  N = rt * rt → acc_shape N rt st →
  NoDup (seen ++ cells).*1 → square N g →
  (∀ y x a, (y, x, a) ∈ cells → cell g y x = Some a) →
  (∀ y x a, (y, x, a) ∈ seen →
     ∃ a', cell g y x = Some a' ∧ rest_value size rt st y x a a') →
  ∃ g',
    foldM (λ cands '(y, x, v),
      if decide (1 < v)%Z then Ok cands else
      r ← index (acc_rows st) y;
      c ← index (acc_cols st) x;
      b ← index2 (acc_blocks st) (y / rt) (x / rt);
      assign2 cands y x (Z.ldiff (Z.ldiff (Z.ldiff (allCandidates size) r) c) b))
      g cells = Ok g'
    ∧ square N g'
    ∧ ∀ y x a, (y, x, a) ∈ seen ++ cells →
        ∃ a', cell g' y x = Some a' ∧ rest_value size rt st y x a a'.
Proof.
  intros HN (H1 & H2 & H3 & H4 & H5). revert seen g.
  induction cells as [|[[y x] a] cells IH]; intros seen g Hnd Hg Hcells Hdone.
  - exists g. rewrite app_nil_r. by split_and!.
  - assert (Hfresh : ∀ b, ((y, x, b) ∉ seen) ∧ ((y, x, b) ∉ cells)).
    { rewrite fmap_app in Hnd. apply NoDup_app in Hnd as (_ & Hd & Hd').
      intros b. split.
      - intros Hin. apply (Hd (y, x)); [|by left].
        apply list_elem_of_fmap. by exists (y, x, b).
      - intros Hin. apply NoDup_cons in Hd' as [Hd' _]. apply Hd'.
        apply list_elem_of_fmap. by exists (y, x, b). }
    assert (Hnd' : NoDup ((seen ++ [(y, x, a)]) ++ cells).*1)
      by (rewrite <- app_assoc; exact Hnd).
    assert (Ha : cell g y x = Some a) by (apply Hcells; by left).
    destruct (square_cell_lt N g y x a) as [Hy Hx]; [done..|].
    cbn [foldM]. case_decide as Hlt.
    + cbn [mbind result_bind].
      destruct (IH (seen ++ [(y, x, a)]) g) as (g' & Hg' & Hsq & Hall); try done.
      * intros ??? Hin. apply Hcells. by right.
      * intros y' x' a' [Hin|[=]]%elem_of_snoc; [by apply Hdone|]. subst.
        exists a. split; [done|]. by left.
      * exists g'. rewrite <- app_assoc in Hall. done.
    + destruct (lookup_lt_is_Some_2 (acc_rows st) y) as [r Hr]; [lia|].
      destruct (lookup_lt_is_Some_2 (acc_cols st) x) as [c Hc]; [lia|].
      destruct (square_cell rt (acc_blocks st) (y / rt) (x / rt)) as [b Hb];
        [done|apply div_lt_square; lia..|].
      rewrite (index_is_Ok _ _ _ Hr). cbn [mbind result_bind].
      rewrite (index_is_Ok _ _ _ Hc). cbn [mbind result_bind].
      rewrite (index2_is_Ok _ _ _ _ Hb). cbn [mbind result_bind].
      rewrite assign2_is_Ok by eauto. cbn [mbind result_bind].
      edestruct (IH (seen ++ [(y, x, a)])) as (g' & Hg' & Hsq & Hall);
        [done|by apply square_set_cell| | |].
      * intros y' x' a' Hin. rewrite cell_set_cell by eauto.
        rewrite decide_False; [apply Hcells; by right|].
        intros [-> ->]. by destruct (Hfresh a') as [_ ?].
      * intros y' x' a' [Hin|[=]]%elem_of_snoc.
        -- rewrite cell_set_cell by eauto.
           rewrite decide_False; [by apply Hdone|].
           intros [-> ->]. by destruct (Hfresh a') as [? _].
        -- subst. rewrite cell_set_cell by eauto.
           rewrite decide_True by done. eexists. split; [done|].
           right. split; [lia|]. by exists r, c, b.
      * exists g'. rewrite <- app_assoc in Hall. by split_and!.
Qed.

Lemma Annotate_rest_spec N rt size st :
  N = rt * rt → acc_shape N rt st →
  ∃ g, Annotate_rest size rt st = Ok g ∧ square N g
    ∧ ∀ y x a, cell (acc_cands st) y x = Some a →
        ∃ a', cell g y x = Some a' ∧ rest_value size rt st y x a a'.
Proof.
  intros HN Hsh. unfold Annotate_rest.
  destruct (Annotate_rest_loop N rt size st (enumerate2 (acc_cands st)) []
              (acc_cands st)) as (g & Hg & Hsq & Hall); try done.
  - apply enumerate2_NoDup.
  - apply Hsh.
  - intros y x a. by rewrite elem_of_enumerate2.
  - intros ??? ?%elem_of_nil. done.
  - exists g. split_and!; try done.
    intros y x a Ha. apply Hall. simpl. by apply elem_of_enumerate2.
Qed.

Lemma duplicate_conflict rt N bo :
  values_in N bo → duplicate rt bo ↔ conflict rt (enumerate2 bo).
Proof.
  intros Hval. split.
  - intros (y1 & x1 & y2 & x2 & v & H1 & H2 & Hne & Hv & Hrel).
    exists (y1, x1), (y2, x2), v. rewrite !elem_of_enumerate2.
    split_and!; try done. apply Hval in H1. lia.
  - intros ([y1 x1] & [y2 x2] & v & H1 & H2 & Hne & Hv & Hrel).
    rewrite !elem_of_enumerate2 in *.
    exists y1, x1, y2, x2, v. split_and!; try done. lia.
Qed.

Local Open Scope Z_scope.

Lemma neg_pow2_bits_low n : 0 ≤ n < 63 → Z.testbit (- 2 ^ 63) n = false.
Proof.
  intros Hn. replace (- 2 ^ 63) with (-1 * 2 ^ 63) by lia.
  apply Z.mul_pow2_bits_low. lia.
Qed.

Lemma Contains_spec c v :
  (∀ n, 63 ≤ n → Z.testbit c n = false) →
  Contains c v = true ↔ 0 ≤ v ≤ 62 ∧ Z.testbit c v = true.
Proof.
  intros Hhi. split.
  - intros H. pose proof (Contains_range _ _ H) as Hr.
    destruct (decide (v = 63)) as [->|Hne].
    + exfalso. revert H. unfold Contains. rewrite shl1_63.
      rewrite negb_true_iff, Z.eqb_neq. intros H. apply H.
      apply Z.bits_inj'. intros n Hn. rewrite Z.land_spec, Z.bits_0.
      destruct (decide (n < 63)).
      * rewrite neg_pow2_bits_low by lia. apply andb_false_r.
      * rewrite Hhi by lia. done.
    + rewrite Contains_testbit in H by lia. split; [lia|done].
  - intros [Hv Hb]. by rewrite Contains_testbit.
Qed.

Lemma Contains_pow2 w v : 1 ≤ w ≤ 62 → Contains (2 ^ w) v = true ↔ v = w.
Proof.
  intros Hw. rewrite Contains_spec.
  - split.
    + intros [Hv Hb]. rewrite Z.pow2_bits_eqb in Hb by lia.
      apply Z.eqb_eq in Hb. done.
    + intros ->. split; [lia|]. apply Z.pow2_bits_true. lia.
  - intros n Hn. rewrite Z.pow2_bits_eqb by lia. apply Z.eqb_neq. lia.
Qed.

Lemma Single_pow2 w : 0 ≤ w → Single (2 ^ w) = true.
Proof.
  intros Hw. unfold Single. apply andb_true_iff. split.
  - apply Z.ltb_lt. by apply Z.pow_pos_nonneg.
  - apply Z.eqb_eq. rewrite Z.sub_1_r, <- Z.ones_equiv.
    apply Z.bits_inj'. intros n Hn. rewrite Z.land_spec, Z.bits_0.
    rewrite Z.pow2_bits_eqb by lia.
    destruct (Z.eqb_spec w n) as [->|Hne]; [|done].
    rewrite Z.ones_spec_high by lia. done.
Qed.

Local Close Scope Z_scope.

Lemma sqrt_square rt : sqrt (rt * rt) = rt.
Proof. apply Nat.sqrt_square. Qed.

Lemma acc_shape_init N rt :
  acc_shape N rt
    (mkAccumulators (newBlockCandidates N) (replicate N 0%Z)
       (replicate N 0%Z) (newBlockCandidates rt)).
Proof.
  unfold acc_shape, newBlockCandidates. cbn.
  split_and!; try by rewrite ?length_replicate.
  - by apply square_replicate.
  - by apply square_replicate.
  - intros y x a Ha. apply cell_replicate in Ha. by subst.
Qed.

Lemma enumerate2_lt {A} N (g : list (list A)) y x v :
  square N g → (y, x, v) ∈ enumerate2 g → y < N ∧ x < N.
Proof. intros Hsq Hin%elem_of_enumerate2. by eapply square_cell_lt. Qed.

(** Annotate never panics on a square board whose side is a square. *)
Lemma Annotate_total N rt bo cands0 :
  N = rt * rt → 0 < N → square N bo →
  ∃ cands err,
    Annotate (mkAnnotatedBoard bo cands0) = Ok (mkAnnotatedBoard bo cands, err)
    ∧ square N cands ∧ bit0_free cands.
Proof.
  intros HN Hpos Hsq. unfold Annotate. cbn [board].
  rewrite (Board_Copy_square N) by done. cbn [mbind result_bind].
  rewrite (Size_square N) by done. cbn [mbind result_bind].
  replace (sqrt N) with rt by (by rewrite HN, sqrt_square).
  destruct (Annotate_fill_total N rt (enumerate2 bo) _ HN (acc_shape_init N rt))
    as (st & err & -> & Hsh).
  { intros y x v Hin. by eapply enumerate2_lt. }
  cbn [mbind result_bind]. destruct err.
  - exists (acc_cands st), true. split; [done|]. split; apply Hsh.
  - destruct (Annotate_rest_spec N rt N st HN Hsh) as (g & -> & Hg & Hall).
    cbn [mbind result_bind]. exists g, false. split_and!; try done.
    intros y x a' Ha'.
    destruct (square_cell_lt N g y x a' Hg Ha') as [Hy Hx].
    destruct (square_cell N (acc_cands st) y x) as [a Ha]; [apply Hsh|done..|].
    destruct (Hall _ _ _ Ha) as (a'' & Ha'' & Hrest).
    assert (a'' = a') as -> by congruence.
    destruct Hrest as [[_ ->]|(_ & r & c & b & _ & _ & _ & ->)].
    + destruct Hsh as (_ & _ & _ & _ & H0). by eapply H0.
    + rewrite !Z.ldiff_spec, allCandidates_bit0. done.
Qed.

Lemma acc_inv_init N rt :
  acc_inv N rt []
    (mkAccumulators (newBlockCandidates N) (replicate N 0%Z)
       (replicate N 0%Z) (newBlockCandidates rt)).
Proof.
  unfold acc_inv, newBlockCandidates. cbn.
  split_and!; try by rewrite ?length_replicate.
  - by apply square_replicate.
  - by apply square_replicate.
  - intros y r v [-> _]%lookup_replicate _. rewrite Z.bits_0.
    split; [done|]. by intros [x ?%elem_of_nil].
  - intros x c v [-> _]%lookup_replicate _. rewrite Z.bits_0.
    split; [done|]. by intros [y ?%elem_of_nil].
  - intros i j b v ->%cell_replicate _. rewrite Z.bits_0.
    split; [done|]. by intros (y & x & _ & _ & ?%elem_of_nil).
  - intros y x a ->%cell_replicate. split; [|done].
    by intros v ?%elem_of_nil.
Qed.

Lemma square_side_small N rt : N = rt * rt → N < 64 → N ≤ 49.
Proof. intros -> H. assert (rt ≤ 7) by nia. nia. Qed.

Lemma Annotate_unfold N rt bo cands0 :
  N = rt * rt → 0 < N → square N bo →
  Annotate (mkAnnotatedBoard bo cands0)
  = '(st, err) ← Annotate_fill rt (enumerate2 bo)
       (mkAccumulators (newBlockCandidates N) (replicate N 0%Z)
          (replicate N 0%Z) (newBlockCandidates rt));
    if err : bool then Ok (mkAnnotatedBoard bo (acc_cands st), true) else
    cands ← Annotate_rest N rt st;
    Ok (mkAnnotatedBoard bo cands, false).
Proof.
  intros HN Hpos Hsq. unfold Annotate. cbn [board].
  rewrite (Board_Copy_square N) by done. cbn [mbind result_bind].
  rewrite (Size_square N) by done. cbn [mbind result_bind].
  replace (sqrt N) with rt by (by rewrite HN, sqrt_square). done.
Qed.

Lemma Annotate_spec N rt bo cands0 :
  N = rt * rt → 0 < N → N < 64 → square N bo → values_in N bo →
  ∃ cands err,
    Annotate (mkAnnotatedBoard bo cands0) = Ok (mkAnnotatedBoard bo cands, err)
    ∧ square N cands ∧ bit0_free cands
    ∧ (err = true ↔ duplicate rt bo)
    ∧ (err = false → annotated N rt bo cands).
Proof.
  intros HN Hpos Hfit Hsq Hval.
  pose proof (square_side_small N rt HN Hfit) as Hsmall.
  destruct (Annotate_total N rt bo cands0 HN Hpos Hsq)
    as (cands & err & HA & Hcsq & Hb0).
  exists cands, err. split_and!; try done.
  all: revert HA; rewrite (Annotate_unfold N rt) by done.
  all: destruct (Annotate_fill_spec N rt (enumerate2 bo) [] _ HN
        (acc_inv_init N rt)) as (st & err' & pre' & -> & Hinv & Hsub & Hok & Herr);
    [by intros (? & ? & ? & ?%elem_of_nil & _)
    |apply enumerate2_NoDup
    |intros y x v Hin;
     destruct (enumerate2_lt N bo y x v Hsq Hin);
     apply elem_of_enumerate2, Hval in Hin; lia
    |]; cbn [mbind result_bind app] in *.
  - rewrite (duplicate_conflict rt N) by done. destruct err'.
    + intros [= _ <-]. split; [intros _; by apply Herr|done].
    + destruct (Annotate_rest N rt st) as [g| |]; cbn [mbind result_bind]; try done.
      intros [= _ <-]. split; [done|]. intros Hc. by destruct Hok.
  - destruct err'; [by intros [= _ <-] [=]|].
    destruct Hok as [-> Hnc]; [done|].
    destruct (Annotate_rest_spec N rt N st HN) as (g & -> & Hg & Hall).
    { pose proof Hinv as (? & ? & ? & ? & _ & _ & _ & H8). split_and!; try done.
      intros y x a Ha. destruct (H8 _ _ _ Ha) as [H81 H82].
      destruct (square_cell_lt N _ y x a ltac:(done) Ha) as [Hy Hx].
      destruct (square_cell N bo y x Hsq Hy Hx) as [w Hw].
      destruct (decide (0 < w)%Z).
      - rewrite (H81 w); [|by apply elem_of_enumerate2|done].
        apply Hval in Hw. rewrite Z.pow2_bits_eqb by lia. apply Z.eqb_neq. lia.
      - rewrite H82; [done|]. intros v Hv%elem_of_enumerate2. 
        assert (v = w) by congruence. lia. }
    cbn [mbind result_bind]. intros [= <-] _.
    intros y x w c Hw Hc.
    destruct (square_cell_lt N bo y x w Hsq Hw) as [Hy Hx].
    destruct Hinv as (Hs1 & Hs2 & Hs3 & Hs4 & H5 & H6 & H7 & H8).
    destruct (square_cell N (acc_cands st) y x Hs1 Hy Hx) as [a Ha].
    destruct (Hall _ _ _ Ha) as (c' & Hc' & Hrest).
    assert (c' = c) as -> by congruence.
    destruct (H8 _ _ _ Ha) as [H81 H82].
    pose proof (Hval _ _ _ Hw) as Hwr.
    split.
    + intros ->. rewrite H82 in Hrest.
      2:{ intros v Hv%elem_of_enumerate2. assert (v = 0%Z) by congruence. lia. }
      destruct Hrest as [[? _]|(_ & r & c0 & b & Hr & Hc0 & Hb & ->)]; [lia|].
      intros v. rewrite Contains_spec.
      2:{ intros n Hn. rewrite !Z.ldiff_spec, allCandidates_testbit by lia.
          rewrite bool_decide_eq_false_2 by lia. done. }
      rewrite !Z.ldiff_spec, allCandidates_testbit by lia.
      rewrite !andb_true_iff, !negb_true_iff, bool_decide_eq_true.
      split.
      * intros (Hv & ((Hv' & Hrv) & Hcv) & Hbv). split; [lia|].
        intros [[x' Hx']|[[y' Hy']|(y' & x' & Hy' & Hx' & Hin)]].
        -- assert (Z.testbit r v = true); [|congruence].
           apply (H5 _ _ _ Hr); [lia|]. exists x'. by apply elem_of_enumerate2.
        -- assert (Z.testbit c0 v = true); [|congruence].
           apply (H6 _ _ _ Hc0); [lia|]. exists y'. by apply elem_of_enumerate2.
        -- assert (Z.testbit b v = true); [|congruence].
           apply (H7 _ _ _ _ Hb); [lia|]. exists y', x'.
           split_and!; try done. by apply elem_of_enumerate2.
      * intros [Hv Hnp]. split; [lia|]. split_and!; try lia.
        -- destruct (Z.testbit r v) eqn:E; [|done]. exfalso. apply Hnp. left.
           apply (H5 _ _ _ Hr) in E as [x' Hx']; [|lia].
           exists x'. by apply elem_of_enumerate2.
        -- destruct (Z.testbit c0 v) eqn:E; [|done]. exfalso. apply Hnp. right. left.
           apply (H6 _ _ _ Hc0) in E as [y' Hy']; [|lia].
           exists y'. by apply elem_of_enumerate2.
        -- destruct (Z.testbit b v) eqn:E; [|done]. exfalso. apply Hnp. right. right.
           apply (H7 _ _ _ _ Hb) in E as (y' & x' & ? & ? & Hin); [|lia].
           exists y', x'. split_and!; try done. by apply elem_of_enumerate2.
    + intros Hw0. assert (a = 2 ^ w)%Z as ->.
      { apply H81; [by apply elem_of_enumerate2|lia]. }
      assert (2 ^ 1 ≤ 2 ^ w)%Z by (apply Z.pow_le_mono_r; lia).
      destruct Hrest as [[_ ->]|[? _]]; [|lia].
      intros v. apply Contains_pow2. lia.
Qed.

Lemma unfilled_row_insert row x v d :
  row !! x = Some v → (v ≤ 0)%Z → (0 < d)%Z →
  S (unfilled_row (<[x := d]> row)) = unfilled_row row.
Proof.
  unfold unfilled_row. revert x. induction row as [|a row IH]; intros [|x] Hx Hv Hd;
    simplify_eq/=.
  - rewrite filter_cons_False by lia. rewrite filter_cons_True by lia. done.
  - destruct (decide (a ≤ 0)%Z).
    + rewrite !filter_cons_True by done. simpl. f_equal. by apply IH.
    + rewrite !filter_cons_False by done. by apply IH.
Qed.

Lemma unfilled_row_le row : unfilled_row row ≤ length row.
Proof. apply length_filter. Qed.

Lemma unfilled_set_cell (bo : Board) y x v d :
  cell bo y x = Some v → (v ≤ 0)%Z → (0 < d)%Z →
  S (unfilled (set_cell bo y x d)) = unfilled bo.
Proof.
  intros (row & Hrow & Hv)%cell_Some Hv0 Hd. unfold unfilled, set_cell.
  revert y Hrow. induction bo as [|r bo IH]; intros [|y] Hrow; simplify_eq/=.
  - rewrite <- (unfilled_row_insert row x v d) by done. lia.
  - rewrite <- (IH y) by done. lia.
Qed.

Lemma unfilled_le N (bo : Board) : square N bo → unfilled bo ≤ N * N.
Proof.
  intros [Hl Hr]. unfold unfilled. rewrite <- Hl at 1. clear Hl.
  induction bo as [|row bo IH]; [simpl; lia|].
  apply Forall_cons in Hr as [Hrow Hr]. specialize (IH Hr).
  cbn [foldr length]. pose proof (unfilled_row_le row).
  rewrite Nat.mul_succ_l. lia.
Qed.

Lemma Decimals_head c :
  (0 < c)%Z → Z.testbit c 0 = false →
  ∃ d ds, Decimals c = d :: ds ∧ (1 ≤ d)%Z.
Proof.
  intros Hc H0.
  assert (Z.log2 c ∈ Decimals c) as Hin.
  { apply elem_of_Decimals. split; [done|]. split; [|by apply Z.bit_log2].
    destruct (decide (c = 1%Z)) as [->|]; [done|].
    assert (1 < c)%Z by lia. pose proof (Z.log2_pos c). lia. }
  destruct (Decimals c) as [|d ds] eqn:E; [by apply elem_of_nil in Hin|].
  exists d, ds. split; [done|]. apply (Decimals_pos_elem c). rewrite E. by left.
Qed.

Lemma Single_pos c : Single c = true → (0 < c)%Z.
Proof. unfold Single. intros [H _]%andb_true_iff. by apply Z.ltb_lt. Qed.

Lemma SingleCandidate_scan_loop N cands cells seen bo0 bo solvable :
  square N bo0 → square N cands → bit0_free cands →
  NoDup (seen ++ cells).*1 →
  (∀ y x c, (y, x, c) ∈ cells →
     cell cands y x = Some c ∧ cell bo y x = cell bo0 y x) →
  scan_inv N cands bo0 bo solvable →
  (∀ y x c v, (y, x, c) ∈ seen → Single c = true →
     cell bo0 y x = Some v → (v ≤ 0)%Z → solvable = true) →
  ∃ bo' solvable',
    foldM (λ '(bo, solvable) '(y, x, c),
      if negb (Single c) then Ok (bo, solvable) else
      v ← index2 bo y x;
      if decide (0 < v)%Z then Ok (bo, solvable) else
      d ← index (Decimals c) 0;
      bo' ← assign2 bo y x d;
      Ok (bo', true)) (bo, solvable) cells = Ok (bo', solvable')
    ∧ scan_inv N cands bo0 bo' solvable'
    ∧ (∀ y x c v, (y, x, c) ∈ seen ++ cells → Single c = true →
         cell bo0 y x = Some v → (v ≤ 0)%Z → solvable' = true).
Proof.
  intros Hsq0 Hsqc Hb0. revert seen bo solvable.
  induction cells as [|[[y x] c] cells IH];
    intros seen bo solvable Hnd Hcells Hinv Hseen.
  - exists bo, solvable. by rewrite app_nil_r.
  - destruct (Hcells y x c) as [Hc Hsame]; [by left|].
    assert (Hnd' : NoDup ((seen ++ [(y, x, c)]) ++ cells).*1)
      by (rewrite <- app_assoc; exact Hnd).
    assert (Hfresh : ∀ c', (y, x, c') ∉ cells).
    { rewrite fmap_app in Hnd. apply NoDup_app in Hnd as (_ & _ & Hd).
      intros c' Hin. apply NoDup_cons in Hd as [Hd _]. apply Hd.
      apply list_elem_of_fmap. by exists (y, x, c'). }
    cbn [foldM]. rewrite (cons_middle _ seen cells), app_assoc.
    destruct (Single c) eqn:HS; cbn [negb mbind result_bind].
    2:{ apply (IH (seen ++ [(y, x, c)])); [done| |done|].
        - intros ??? Hin. apply Hcells. by right.
        - intros y' x' c' v' [Hin|[=]]%elem_of_snoc; [by eapply Hseen|].
          subst. congruence. }
    destruct (square_cell_lt N cands y x c Hsqc Hc) as [Hy Hx].
    destruct (square_cell N bo0 y x Hsq0 Hy Hx) as [v Hv].
    rewrite (index2_is_Ok bo y x v) by congruence. cbn [mbind result_bind].
    case_decide as Hpos.
    { apply (IH (seen ++ [(y, x, c)])); [done| |done|].
      - intros ??? Hin. apply Hcells. by right.
      - intros y' x' c' v' [Hin|[=]]%elem_of_snoc; [by eapply Hseen|].
        subst. intros _ Hv' ?. assert (v' = v) by congruence. lia. }
    destruct (Decimals_head c) as (d & ds & Hd & Hd1);
      [by apply Single_pos|by eapply Hb0|].
    rewrite Hd. cbn [index lookup list_lookup mbind result_bind].
    rewrite assign2_is_Ok by (exists v; congruence). cbn [mbind result_bind].
    destruct Hinv as (I1 & I2 & I3 & I4 & I5 & I6 & I7).
    assert (Hvb : cell bo y x = Some v) by congruence.
    pose proof (unfilled_set_cell bo y x v d Hvb ltac:(lia) ltac:(lia)) as Hun.
    apply (IH (seen ++ [(y, x, c)])); [done| | |done].
    + intros y' x' c' Hin. destruct (Hcells y' x' c') as [? ?]; [by right|].
      split; [done|]. rewrite cell_set_cell by eauto.
      rewrite decide_False; [done|]. intros [-> ->]. by apply (Hfresh c').
    + split_and!.
      * by apply square_set_cell.
      * intros y' x' v' Hv' Hp. rewrite cell_set_cell by eauto.
        case_decide as Hd'; [|by apply I2].
        destruct Hd' as [-> ->]. assert (v' = v) by congruence. lia.
      * intros y' x' v1 v2 Hv1 Hv2. rewrite cell_set_cell in Hv2 by eauto.
        case_decide as Hd'; [|by eapply I3].
        destruct Hd' as [-> ->]. assert (v1 = v) by congruence. subst.
        injection Hv2 as <-. right. split_and!; [lia|lia|]. by exists c.
      * done.
      * intros _. lia.
      * lia.
      * intros _. exists y, x, v, d, c. split_and!; try done; try lia.
        rewrite cell_set_cell by eauto. by rewrite decide_True.
Qed.

Lemma SingleCandidate_scan_spec N cands bo :
  square N bo → square N cands → bit0_free cands →
  ∃ bo' solvable,
    SingleCandidate_scan cands bo = Ok (bo', solvable)
    ∧ scan_inv N cands bo bo' solvable
    ∧ (∀ y x c v, cell cands y x = Some c → Single c = true →
         cell bo y x = Some v → (v ≤ 0)%Z → solvable = true).
Proof.
  intros Hsq Hsqc Hb0. unfold SingleCandidate_scan.
  destruct (SingleCandidate_scan_loop N cands (enumerate2 cands) [] bo bo false)
    as (bo' & solvable & H1 & H2 & H3); try done.
  - apply enumerate2_NoDup.
  - intros y x c Hin%elem_of_enumerate2. done.
  - split_and!; try done. intros y x v v' ??. left. congruence.
  - by intros ???? ?%elem_of_nil.
  - exists bo', solvable. split_and!; try done.
    intros y x c v Hc. apply H3. simpl. by apply elem_of_enumerate2.
Qed.

Lemma SingleCandidate_step_spec N rt ab :
  N = rt * rt → 0 < N → wf_annotated N ab →
  ∃ ab' solvable,
    SingleCandidate_step ab = Ok (ab', solvable)
    ∧ wf_annotated N ab'
    ∧ scan_inv N (candidates ab) (board ab) (board ab') solvable
    ∧ (∀ y x c v, cell (candidates ab) y x = Some c → Single c = true →
         cell (board ab) y x = Some v → (v ≤ 0)%Z → solvable = true).
Proof.
  intros HN Hpos (Hsq & Hsqc & Hb0). unfold SingleCandidate_step.
  destruct (SingleCandidate_scan_spec N (candidates ab) (board ab))
    as (bo' & solvable & -> & Hinv & Hpend); try done.
  cbn [mbind result_bind].
  destruct (Annotate_total N rt bo' (candidates ab) HN Hpos)
    as (cands & err & -> & Hc & Hc0); [apply Hinv|].
  cbn [mbind result_bind]. exists (mkAnnotatedBoard bo' cands), solvable.
  split_and!; try done. split_and!; try done. apply Hinv.
Qed.

Lemma SingleCandidate_loop_spec N rt fuel ab :
  N = rt * rt → 0 < N → wf_annotated N ab → unfilled (board ab) < fuel →
  ∃ ab' n,
    SingleCandidate_loop fuel ab = Ok (ab', n)
    ∧ wf_annotated N ab'
    ∧ 1 ≤ n ≤ unfilled (board ab) + 1
    ∧ (∀ y x v, cell (board ab) y x = Some v → (0 < v)%Z →
         cell (board ab') y x = Some v)
    ∧ ((∀ y x v c, cell (board ab) y x = Some v → cell (candidates ab) y x = Some c →
          Single c = true → (0 < v)%Z) ↔ board ab' = board ab)
    ∧ (board ab' = board ab → n = 1).
Proof.
  intros HN Hpos. revert ab. induction fuel as [|fuel IH]; intros ab Hwf Hfuel; [lia|].
  cbn [SingleCandidate_loop].
  destruct (SingleCandidate_step_spec N rt ab HN Hpos Hwf)
    as (ab1 & solvable & -> & Hwf1 & (I1 & I2 & I3 & I4 & I5 & I6 & I7) & I8).
  cbn [mbind result_bind]. destruct solvable.
  - specialize (I5 eq_refl).
    destruct (IH ab1 Hwf1) as (ab' & n & -> & Hwf' & Hn & Hkeep & _); [lia|].
    cbn [mbind result_bind]. exists ab', (S n).
    destruct I7 as (y & x & v & v' & c & Hv & Hv0 & Hv' & Hp' & Hc & HS); [done|].
    assert (Hne : board ab' ≠ board ab).
    { intros Heq. apply Hkeep in Hv'; [|done]. rewrite Heq in Hv'.
      assert (v' = v) by congruence. lia. }
    split_and!; try done; try lia.
    + intros y' x' w Hw Hp. apply Hkeep; [|done]. by apply I2.
    + split; [|done]. intros Hnone.
      specialize (Hnone _ _ _ _ Hv Hc HS). lia.
  - exists ab1, 1. split_and!; try done; try lia.
    split; [intros _; by apply I4|].
    intros _ y x v c Hv Hc HS. destruct (decide (0 < v)%Z); [done|].
    assert (false = true); [|done]. eapply I8; eauto. lia.
Qed.

Lemma zeros_row_insert row x d :
  row !! x = Some 0%Z → d ≠ 0%Z →
  S (zeros_row (<[x := d]> row)) = zeros_row row.
Proof.
  unfold zeros_row. revert x. induction row as [|a row IH]; intros [|x] Hx Hd;
    simpl in Hx; simplify_eq.
  - change (<[0:=d]> (0%Z :: row)) with (d :: row).
    rewrite filter_cons_False by done. rewrite filter_cons_True by done. done.
  - change (<[S x:=d]> (a :: row)) with (a :: <[x:=d]> row).
    destruct (decide (a = 0%Z)).
    + rewrite !filter_cons_True by done. cbn [length]. f_equal. by apply IH.
    + rewrite !filter_cons_False by done. by apply IH.
Qed.

Lemma zeros_set_cell (bo : Board) y x d :
  cell bo y x = Some 0%Z → d ≠ 0%Z → S (zeros (set_cell bo y x d)) = zeros bo.
Proof.
  intros (row & Hrow & Hv)%cell_Some Hd. unfold zeros, set_cell.
  revert y Hrow. induction bo as [|r bo IH]; intros [|y] Hrow; simplify_eq/=.
  - rewrite <- (zeros_row_insert row x d) by done. lia.
  - rewrite <- (IH y) by done. lia.
Qed.

Lemma zeros_le N (bo : Board) : square N bo → zeros bo ≤ N * N.
Proof.
  intros [Hl Hr]. unfold zeros. rewrite <- Hl at 1. clear Hl.
  induction bo as [|row bo IH]; [simpl; lia|].
  apply Forall_cons in Hr as [Hrow Hr]. specialize (IH Hr).
  cbn [foldr length]. assert (zeros_row row ≤ length row) by apply length_filter.
  rewrite Nat.mul_succ_l. lia.
Qed.

Lemma set_cell_set_cell {A} (g : list (list A)) y x a b :
  set_cell (set_cell g y x a) y x b = set_cell g y x b.
Proof.
  unfold set_cell. rewrite list_alter_alter_eq. apply list_alter_ext; [|done].
  intros row _. simpl. apply list_insert_insert_eq.
Qed.

(** FirstEmpty *)
Lemma FirstEmpty_row_Some row k x :
  FirstEmpty_row row k = Some x → ∃ i, x = k + i ∧ row !! i = Some 0%Z.
Proof.
  revert k. induction row as [|v row IH]; intros k H; simpl in H; [done|].
  case_decide as Hv.
  - injection H as <-. exists 0. subst. split; [lia|done].
  - destruct (IH _ H) as (i & -> & Hi). exists (S i). split; [lia|done].
Qed.

Lemma FirstEmpty_row_None row k :
  FirstEmpty_row row k = None → ∀ i v, row !! i = Some v → v ≠ 0%Z.
Proof.
  revert k. induction row as [|v row IH]; intros k H i w Hi; simpl in H; [done|].
  case_decide as Hv; [done|]. destruct i as [|i]; simplify_eq/=; [done|].
  by eapply IH.
Qed.

Lemma FirstEmpty_from_Some bo k y x :
  FirstEmpty_from bo k = Some (y, x) → ∃ i, y = k + i ∧ cell bo i x = Some 0%Z.
Proof.
  revert k. induction bo as [|row bo IH]; intros k H; simpl in H; [done|].
  destruct (FirstEmpty_row row 0) as [x'|] eqn:E.
  - injection H as <- <-. apply FirstEmpty_row_Some in E as (i & -> & Hi).
    exists 0. split; [lia|]. apply cell_Some. exists row. done.
  - destruct (IH _ H) as (i & -> & Hi). exists (S i). split; [lia|done].
Qed.

Lemma FirstEmpty_from_None bo k :
  FirstEmpty_from bo k = None → ∀ y x v, cell bo y x = Some v → v ≠ 0%Z.
Proof.
  revert k. induction bo as [|row bo IH]; intros k H y x v Hv; simpl in H.
  - by apply cell_Some in Hv as (? & ? & _).
  - destruct (FirstEmpty_row row 0) as [x'|] eqn:E; [done|].
    destruct y as [|y].
    + apply cell_Some in Hv as (r & [= <-] & Hv).
      by eapply FirstEmpty_row_None.
    + by eapply IH.
Qed.

Lemma FirstEmpty_Some bo y x :
  FirstEmpty bo = Some (y, x) → cell bo y x = Some 0%Z.
Proof. intros (i & -> & Hi)%FirstEmpty_from_Some. done. Qed.

Lemma FirstEmpty_None bo :
  FirstEmpty bo = None → ∀ y x v, cell bo y x = Some v → v ≠ 0%Z.
Proof. apply FirstEmpty_from_None. Qed.

Lemma Full_true bo :
  Full bo = true ↔ ∀ y x v, cell bo y x = Some v → v ≠ 0%Z.
Proof.
  unfold Full. destruct (FirstEmpty bo) as [[y x]|] eqn:E.
  - split; [done|]. intros H. apply FirstEmpty_Some in E. by apply H in E.
  - split; [|done]. intros _. by apply FirstEmpty_None.
Qed.

Lemma extends_refl bo : extends bo bo.
Proof. by intros y x v. Qed.

Lemma extends_set_cell bo s y x v :
  cell bo y x = Some 0%Z → extends (set_cell bo y x v) s → extends bo s.
Proof.
  intros H0 Hext y' x' w Hw Hne. apply Hext; [|done].
  rewrite cell_set_cell by eauto. rewrite decide_False; [done|].
  intros [-> ->]. congruence.
Qed.

Lemma extends_set_cell_value bo s y x v :
  is_Some (cell bo y x) → v ≠ 0%Z → extends (set_cell bo y x v) s →
  cell s y x = Some v.
Proof.
  intros Hc Hv Hext. apply Hext; [|done].
  rewrite cell_set_cell by done. by rewrite decide_True.
Qed.

Lemma bt_post_nil N bo k sols : bt_post N bo k sols false [].
Proof.
  split_and!; [constructor|by intros ? ?%elem_of_nil| |simpl; lia].
  split; [done|]. by intros [? _].
Qed.

Lemma backtrack_values_spec N k rec bo0 y x vs ab sols :
  square N bo0 → is_Some (cell bo0 y x) →
  (∀ v, set_cell (board ab) y x v = set_cell bo0 y x v) →
  (∀ v, v ∈ vs → v ≠ 0%Z) → NoDup vs →
  (∀ v cands sols', v ∈ vs →
     ∃ stop new, rec (mkAnnotatedBoard (set_cell bo0 y x v) cands) sols'
                 = Ok (stop, sols' ++ new)
       ∧ bt_post N (set_cell bo0 y x v) k sols' stop new) →
  ∃ stop new,
    backtrack_values rec ab y x vs sols = Ok (stop, sols ++ new)
    ∧ NoDup new
    ∧ (∀ s, s ∈ new → square N s ∧ Full s = true
                       ∧ ∃ v, v ∈ vs ∧ extends (set_cell bo0 y x v) s)
    ∧ (stop = true ↔ new ≠ [] ∧ (k ≤ Z.of_nat (length (sols ++ new)))%Z)
    ∧ (2 ≤ length new → (Z.of_nat (length (sols ++ new)) ≤ k)%Z).
Proof.
  intros Hsq Hcell. revert ab sols.
  induction vs as [|v vs IH]; intros ab sols Hab Hvs Hnd Hrec.
  - exists false, []. rewrite app_nil_r. split; [done|].
    split_and!; [constructor|by intros ? ?%elem_of_nil| |simpl; lia].
    split; [done|]. by intros [? _].
  - cbn [backtrack_values].
    assert (is_Some (cell (board ab) y x)) as Hcab.
    { destruct Hcell as [a Ha].
      destruct (square_cell_lt N bo0 y x a Hsq Ha) as [Hy Hx].
      assert (square N (board ab)) as Hsqab.
      { assert (square N (set_cell (board ab) y x 0%Z)) as [Hl Hr]
          by (rewrite Hab; by apply square_set_cell).
        unfold set_cell in *. rewrite length_alter in Hl. split; [done|].
        apply Forall_lookup. intros i row Hrow. rewrite Forall_lookup in Hr.
        destruct (decide (i = y)) as [->|Hne].
        - specialize (Hr y (<[x:=0%Z]> row)).
          rewrite list_lookup_alter_eq, Hrow, length_insert in Hr. by apply Hr.
        - apply (Hr i). by rewrite list_lookup_alter_ne. }
      by apply (square_cell N). }
    rewrite assign2_is_Ok by done. cbn [mbind result_bind]. rewrite Hab.
    apply NoDup_cons in Hnd as [Hv Hnd].
    destruct (Hrec v (candidates ab) sols) as (stop1 & new1 & -> & P1 & P2 & P3 & P4);
      [by left|].
    cbn [mbind result_bind]. destruct stop1.
    + exists true, new1. split_and!; try done.
      intros s Hs. destruct (P2 s Hs) as (? & ? & ?). split_and!; try done.
      exists v. split; [by left|done].
    + destruct (IH (mkAnnotatedBoard (set_cell bo0 y x v) (candidates ab))
                 (sols ++ new1)) as (stop & new2 & -> & Q1 & Q2 & Q3 & Q4).
      * intros w. cbn [board]. apply set_cell_set_cell.
      * intros w Hw. apply Hvs. by right.
      * done.
      * intros w cands sols' Hw. apply Hrec. by right.
      * exists stop, (new1 ++ new2). rewrite app_assoc. split; [done|].
        assert (Hnot1 : ¬ (new1 ≠ [] ∧ (k ≤ Z.of_nat (length (sols ++ new1)))%Z))
          by (intros H; by apply P3 in H).
        split_and!.
        -- apply NoDup_app. split_and!; [done| |done].
           intros s Hs1 Hs2. destruct (P2 s Hs1) as (_ & _ & E1).
           destruct (Q2 s Hs2) as (_ & _ & w & Hw & E2).
           apply extends_set_cell_value in E1; [|done|apply Hvs; by left].
           apply extends_set_cell_value in E2; [|done|apply Hvs; by right].
           assert (v = w) by congruence. subst. done.
        -- intros s [Hs|Hs]%elem_of_app.
           ++ destruct (P2 s Hs) as (? & ? & ?). split_and!; try done.
              exists v. split; [by left|done].
           ++ destruct (Q2 s Hs) as (? & ? & w & ? & ?). split_and!; try done.
              exists w. split; [by right|done].
        -- rewrite Q3. rewrite <- !app_assoc. split.
           ++ intros [Hn Hk]. split; [|done]. by destruct new1, new2.
           ++ intros [Hn Hk]. split; [|done]. intros ->.
              rewrite app_nil_r in *. tauto.
        -- destruct new2 as [|s2 new2].
           { rewrite !app_nil_r. exact P4. }
           rewrite <- app_assoc. intros H2.
           destruct new2 as [|s2' new2].
           ++ destruct new1 as [|s1 new1]; [simpl in H2; lia|].
              assert (¬ (k ≤ Z.of_nat (length (sols ++ s1 :: new1)))%Z)
                by (intros ?; by apply Hnot1).
              rewrite !length_app in *. simpl in *. lia.
           ++ rewrite <- app_assoc in Q4. apply Q4. simpl. lia.
Qed.

Lemma backtrack_spec N rt k fuel ab sols :
  N = rt * rt → 0 < N → square N (board ab) → zeros (board ab) < fuel →
  ∃ stop new,
    backtrack fuel ab k sols = Ok (stop, sols ++ new)
    ∧ bt_post N (board ab) k sols stop new.
Proof.
  intros HN Hpos. revert ab sols.
  induction fuel as [|fuel IH]; intros [bo cands0] sols Hsq Hfuel; [lia|].
  cbn [board] in *. cbn [backtrack].
  destruct (Annotate_total N rt bo cands0 HN Hpos Hsq)
    as (cands & err & -> & Hc & _).
  cbn [mbind result_bind]. destruct err.
  { exists false, []. rewrite app_nil_r. split; [done|]. apply bt_post_nil. }
  cbn [board candidates].
  destruct (FirstEmpty bo) as [[y x]|] eqn:HFE.
  - pose proof (FirstEmpty_Some _ _ _ HFE) as H0.
    destruct (square_cell_lt N bo y x _ Hsq H0) as [Hy Hx].
    destruct (square_cell N cands y x Hc Hy Hx) as [c Hcc].
    rewrite (index2_is_Ok _ _ _ _ Hcc). cbn [mbind result_bind].
    destruct (backtrack_values_spec N k
                (λ ab sols, backtrack fuel ab k sols) bo y x (Decimals c)
                (mkAnnotatedBoard bo cands) sols)
      as (stop & new & -> & Q1 & Q2 & Q3 & Q4); try done.
    + intros v Hv%Decimals_pos_elem. lia.
    + apply Decimals_NoDup.
    + intros v cands' sols' Hv%Decimals_pos_elem.
      apply (IH (mkAnnotatedBoard (set_cell bo y x v) cands')).
      * by apply square_set_cell.
      * cbn [board]. pose proof (zeros_set_cell bo y x v H0). lia.
    + exists stop, new. split; [done|]. split_and!; try done.
      intros s Hs. destruct (Q2 s Hs) as (? & ? & v & _ & Hext).
      split_and!; try done. by eapply extends_set_cell.
  - exists (bool_decide (k ≤ Z.of_nat (length (sols ++ [bo])))%Z), [bo].
    split; [done|]. split_and!.
    + apply NoDup_singleton.
    + intros s ->%list_elem_of_singleton. split_and!; [done| |apply extends_refl].
      unfold Full. by rewrite HFE.
    + rewrite bool_decide_eq_true. split; [by intros ?|by intros [_ ?]].
    + simpl. lia.
Qed.

Lemma enough_square N bo : square N bo → 0 < N → enough bo = S (S (N * N)).
Proof.
  intros [Hl Hr] HN. unfold enough. destruct bo as [|row bo]; simpl in *; [lia|].
  apply Forall_cons in Hr as [-> _]. done.
Qed.

Lemma Backtrack_spec N rt k ab :
  N = rt * rt → 0 < N → square N (board ab) →
  ∃ solved solutions,
    Backtrack ab k = Ok (solved, solutions)
    ∧ bt_post N (board ab) k [] solved solutions.
Proof.
  intros HN Hpos Hsq. unfold Backtrack.
  destruct (backtrack_spec N rt k (enough (board ab)) ab [] HN Hpos Hsq)
    as (stop & new & H & Hpost).
  - rewrite (enough_square N) by done. pose proof (zeros_le N _ Hsq). lia.
  - by exists stop, new.
Qed.

Lemma Contains_63_nonneg c : Contains c 63 = false → (0 ≤ c)%Z.
Proof.
  unfold Contains. rewrite shl1_63, negb_false_iff, Z.eqb_eq. intros H.
  destruct (decide (0 ≤ c)%Z) as [|Hneg]; [done|]. exfalso.
  set (n := Z.max 64 (Z.log2 (Z.abs c) + 1)).
  assert (Z.testbit (Z.land c (- 2 ^ 63)) n = true) as Hb.
  { rewrite Z.land_spec. apply andb_true_iff. split.
    - apply (Z.bits_iff_neg c n); lia.
    - apply (Z.bits_iff_neg (- 2 ^ 63) n); [|lia].
      replace (Z.abs (- 2 ^ 63)) with (2 ^ 63)%Z by lia.
      rewrite Z.log2_pow2 by lia. lia. }
  rewrite H, Z.bits_0 in Hb. done.
Qed.

Lemma completion_no_duplicate N rt bo s :
  completion N rt bo s → ¬ duplicate rt bo.
Proof.
  intros [(_ & _ & Hnd) Hext] (y1 & x1 & y2 & x2 & v & H1 & H2 & Hne & Hv & Hrel).
  apply Hnd. exists y1, x1, y2, x2, v. split_and!; try done; by apply Hext.
Qed.

Lemma completion_candidate N rt bo s cands y x c :
  N ≤ 62 → square N bo → completion N rt bo s → annotated N rt bo cands →
  cell bo y x = Some 0%Z → cell cands y x = Some c →
  ∃ v, cell s y x = Some v ∧ v ∈ Decimals c ∧ (1 ≤ v ≤ Z.of_nat N)%Z
       ∧ completion N rt (set_cell bo y x v) s.
Proof.
  intros Hfit Hsq [(Hs & Hval & Hnd) Hext] Hann H0 Hc.
  destruct (square_cell_lt N bo y x _ Hsq H0) as [Hy Hx].
  destruct (square_cell N s y x Hs Hy Hx) as [v Hv].
  pose proof (Hval _ _ _ Hv) as Hvr.
  destruct (Hann y x _ c H0 Hc) as [Hempty _]. specialize (Hempty eq_refl).
  exists v. split_and!; try done; try lia.
  - assert (Contains c v = true) as HC.
    { apply Hempty. split; [done|].
      intros [[x' Hx']|[[y' Hy']|(y' & x' & Hby & Hbx & Hin)]].
      - apply Hnd. exists y, x, y, x', v.
        assert (cell s y x' = Some v) by (apply Hext; [done|lia]).
        assert ((y, x) ≠ (y, x')).
        { intros [= <-]. assert (v = 0%Z) by congruence. lia. }
        split_and!; try done; try lia; by left.
      - apply Hnd. exists y, x, y', x, v.
        assert (cell s y' x = Some v) by (apply Hext; [done|lia]).
        assert ((y, x) ≠ (y', x)).
        { intros [= <-]. assert (v = 0%Z) by congruence. lia. }
        split_and!; try done; try lia; right; by left.
      - apply Hnd. exists y, x, y', x', v.
        assert (cell s y' x' = Some v) by (apply Hext; [done|lia]).
        assert ((y, x) ≠ (y', x')).
        { intros [= <- <-]. assert (v = 0%Z) by congruence. lia. }
        split_and!; try done; try lia; right; right; done. }
    assert (Contains c 63 = false) as H63.
    { destruct (Contains c 63) eqn:E; [|done]. apply Hempty in E as [? _]. lia. }
    apply Contains_63_nonneg in H63.
    rewrite Contains_testbit in HC by lia.
    apply elem_of_Decimals. split_and!; try done; try lia.
    destruct (decide (c = 0%Z)) as [->|]; [by rewrite Z.bits_0 in HC|lia].
  - split; [done|]. intros y' x' w Hw Hw0.
    rewrite cell_set_cell in Hw by eauto. case_decide as Hd.
    + destruct Hd as [-> ->]. congruence.
    + by apply Hext.
Qed.

Lemma values_in_set_cell N bo y x v :
  values_in N bo → is_Some (cell bo y x) → (0 ≤ v ≤ Z.of_nat N)%Z →
  values_in N (set_cell bo y x v).
Proof.
  intros Hval Hc Hv y' x' w Hw. rewrite cell_set_cell in Hw by done.
  case_decide; [by simplify_eq|by eapply Hval].
Qed.

Lemma backtrack_values_complete N k rec bo0 y x vs ab sols v0 :
  square N bo0 → is_Some (cell bo0 y x) →
  (∀ v, set_cell (board ab) y x v = set_cell bo0 y x v) →
  (∀ v, v ∈ vs → v ≠ 0%Z) → NoDup vs →
  (∀ v cands sols', v ∈ vs →
     ∃ stop new, rec (mkAnnotatedBoard (set_cell bo0 y x v) cands) sols'
                 = Ok (stop, sols' ++ new)
       ∧ bt_post N (set_cell bo0 y x v) k sols' stop new) →
  v0 ∈ vs →
  (∀ cands sols' stop new,
     rec (mkAnnotatedBoard (set_cell bo0 y x v0) cands) sols'
     = Ok (stop, sols' ++ new) → new ≠ []) →
  ∀ stop new,
    backtrack_values rec ab y x vs sols = Ok (stop, sols ++ new) → new ≠ [].
Proof.
  intros Hsq Hcell. revert ab sols.
  induction vs as [|v vs IH]; intros ab sols Hab Hvs Hnd Hrec Hin Hv0 stop new.
  { by apply elem_of_nil in Hin. }
  destruct (backtrack_values_spec N k rec bo0 y x (v :: vs) ab sols)
    as (stop' & new' & Heq & _); try done.
  cbn [backtrack_values] in *.
  destruct (assign2 (board ab) y x v) as [bo'| |] eqn:Ea; try done.
  apply assign2_Ok in Ea as [_ ->]. rewrite Hab in *.
  cbn [mbind result_bind] in *.
  apply NoDup_cons in Hnd as [Hv Hnd].
  destruct (Hrec v (candidates ab) sols) as (stop1 & new1 & Hr1 & P1 & P2 & P3 & P4);
    [by left|].
  rewrite Hr1 in *. cbn [mbind result_bind] in *. destruct stop1.
  - intros [= <- Hnew%app_inv_head]. subst. by apply P3.
  - destruct (backtrack_values_spec N k rec bo0 y x vs
               (mkAnnotatedBoard (set_cell bo0 y x v) (candidates ab))
               (sols ++ new1)) as (stop2 & new2 & Heq2 & _); try done.
    { intros w. cbn [board]. apply set_cell_set_cell. }
    { intros w Hw. apply Hvs. by right. }
    { intros w cands sols' Hw. apply Hrec. by right. }
    intros Hres. pose proof Hres as Hres'. rewrite Heq2 in Hres'.
    injection Hres' as <- Hnew. rewrite <- app_assoc in Hnew.
    apply app_inv_head in Hnew. subst new.
    apply elem_of_cons in Hin as [->|Hin].
    + apply Hv0 in Hr1. by destruct new1.
    + assert (new2 ≠ []); [|by destruct new1, new2].
      refine (IH (mkAnnotatedBoard (set_cell bo0 y x v) (candidates ab))
                (sols ++ new1) _ _ Hnd _ Hin Hv0 stop2 new2 Heq2).
      * intros w. cbn [board]. apply set_cell_set_cell.
      * intros w Hw. apply Hvs. by right.
      * intros w cands sols' Hw. apply Hrec. by right.
Qed.

Lemma backtrack_complete N rt k fuel ab sols s :
  N = rt * rt → 0 < N → N < 64 → square N (board ab) →
  values_in N (board ab) → zeros (board ab) < fuel →
  completion N rt (board ab) s →
  ∀ stop new, backtrack fuel ab k sols = Ok (stop, sols ++ new) → new ≠ [].
Proof.
  intros HN Hpos Hfit. revert ab sols.
  induction fuel as [|fuel IH]; intros [bo cands0] sols Hsq Hval Hfuel Hcomp;
    [lia|].
  cbn [board] in *. cbn [backtrack].
  destruct (Annotate_spec N rt bo cands0 HN Hpos Hfit Hsq Hval)
    as (cands & err & -> & Hc & _ & Herr & Hann).
  cbn [mbind result_bind]. destruct err.
  { exfalso. eapply completion_no_duplicate; [done|]. by apply Herr. }
  specialize (Hann eq_refl). cbn [board candidates].
  destruct (FirstEmpty bo) as [[y x]|] eqn:HFE.
  - pose proof (FirstEmpty_Some _ _ _ HFE) as H0.
    destruct (square_cell_lt N bo y x _ Hsq H0) as [Hy Hx].
    destruct (square_cell N cands y x Hc Hy Hx) as [c Hcc].
    rewrite (index2_is_Ok _ _ _ _ Hcc). cbn [mbind result_bind].
    destruct (completion_candidate N rt bo s cands y x c)
      as (v & Hv & Hin & Hvr & Hcomp'); try done.
    { pose proof (square_side_small N rt HN Hfit). lia. }
    refine (backtrack_values_complete N k _ bo y x (Decimals c) _ sols v
              Hsq _ _ _ (Decimals_NoDup c) _ Hin _).
    + eauto.
    + done.
    + intros w Hw%Decimals_pos_elem. lia.
    + intros w cands' sols' Hw%Decimals_pos_elem.
      apply (backtrack_spec N rt k fuel
               (mkAnnotatedBoard (set_cell bo y x w) cands') sols'); try done.
      * by apply square_set_cell.
      * cbn [board]. pose proof (zeros_set_cell bo y x w H0). lia.
    + intros cands' sols' stop new.
      apply (IH (mkAnnotatedBoard (set_cell bo y x v) cands')); cbn [board].
      * by apply square_set_cell.
      * apply values_in_set_cell; [done|eauto|lia].
      * pose proof (zeros_set_cell bo y x v H0). lia.
      * done.
  - intros stop new [= _ Hnew%app_inv_head]. by subst.
Qed.

Lemma cell_empty64 y x v : cell empty64 y x = Some v → v = 0%Z.
Proof. apply cell_replicate. Qed.

Lemma square_empty64 : square 64 empty64.
Proof. by apply square_replicate. Qed.

Lemma cell_grid {A} N (f : nat → nat → A) y x v :
  cell (grid N f) y x = Some v ↔ y < N ∧ x < N ∧ v = f y x.
Proof.
  unfold grid. rewrite cell_Some. split.
  - intros (row & Hrow & Hv). rewrite list_lookup_fmap in Hrow.
    apply fmap_Some in Hrow as (y' & [-> Hy]%lookup_seq & ->).
    rewrite list_lookup_fmap in Hv.
    apply fmap_Some in Hv as (x' & [-> Hx]%lookup_seq & ->). done.
  - intros (Hy & Hx & ->). exists (f y <$> seq 0 N). split.
    + by rewrite list_lookup_fmap, lookup_seq_lt.
    + by rewrite list_lookup_fmap, lookup_seq_lt.
Qed.

Lemma square_grid {A} N (f : nat → nat → A) : square N (grid N f).
Proof.
  unfold grid. split; [by rewrite length_fmap, length_seq|].
  apply Forall_fmap, Forall_forall. intros y _. simpl.
  by rewrite length_fmap, length_seq.
Qed.

Lemma solution_solved64 : solution 64 8 solved64.
Proof.
  split_and!.
  - apply square_grid.
  - intros y x v (Hy & Hx & ->)%cell_grid. unfold pattern64.
    zify. Z.div_mod_to_equations. lia.
  - intros (y1 & x1 & y2 & x2 & v & (Hy1 & Hx1 & ->)%cell_grid
              & (Hy2 & Hx2 & Heq)%cell_grid & Hne & _ & Hrel).
    apply Hne. unfold pattern64 in Heq.
    destruct Hrel as [->|[->|[Hby Hbx]]].
    + f_equal. zify. Z.div_mod_to_equations. lia.
    + f_equal. zify. Z.div_mod_to_equations. lia.
    + assert (y1 = y2 ∧ x1 = x2) as [-> ->]; [|done].
      zify. Z.div_mod_to_equations. lia.
Qed.

Lemma completion_empty64 : completion 64 8 empty64 solved64.
Proof.
  split; [apply solution_solved64|].
  intros y x v Hv%cell_empty64. done.
Qed.

(** ** Values that have no bit in a candidate word *)

Lemma set_cell_id {A} (g : list (list A)) y x a :
  cell g y x = Some a → set_cell g y x a = g.
Proof.
  intros (row & Hrow & Ha)%cell_Some. unfold set_cell.
  apply list_eq. intros i. destruct (decide (i = y)) as [->|].
  - rewrite list_lookup_alter_eq, Hrow. simpl. by rewrite list_insert_id.
  - by rewrite list_lookup_alter_ne.
Qed.

Lemma Add_unrepresentable c v : (64 ≤ v)%Z → Add c v = c.
Proof. intros Hv. unfold Add. rewrite shl1_zero by lia. apply Z.lor_0_r. Qed.

Lemma Contains_unrepresentable c v : (64 ≤ v)%Z → Contains c v = false.
Proof.
  intros Hv. unfold Contains. rewrite shl1_zero by lia.
  by rewrite Z.land_0_r.
Qed.

Lemma Annotate_fill_unrepresentable N rt cells st :
  N = rt * rt → acc_shape N rt st →
  (∀ y x v, (y, x, v) ∈ cells → y < N ∧ x < N ∧ ((v ≤ 0)%Z ∨ (64 ≤ v)%Z)) →
  Annotate_fill rt cells st = Ok (st, false).
Proof.
  intros HN Hsh.
  induction cells as [|[[y x] v] cells IH]; intros Hcells; [done|].
  destruct (Hcells y x v) as (Hy & Hx & Hv); [by left|].
  assert (Hcells' : ∀ y x v, (y, x, v) ∈ cells →
            y < N ∧ x < N ∧ ((v ≤ 0)%Z ∨ (64 ≤ v)%Z)).
  { intros y' x' v' Hin. apply (Hcells y' x' v'). by right. }
  cbn [Annotate_fill]. case_decide as Hpos; [|by apply IH].
  assert (64 ≤ v)%Z as Hbig by lia.
  pose proof Hsh as (H1 & H2 & H3 & H4 & H5).
  destruct (lookup_lt_is_Some_2 (acc_rows st) y) as [r Hr]; [lia|].
  destruct (lookup_lt_is_Some_2 (acc_cols st) x) as [c Hc]; [lia|].
  destruct (square_cell rt (acc_blocks st) (y / rt) (x / rt)) as [b Hb];
    [done|apply div_lt_square; lia..|].
  destruct (square_cell N (acc_cands st) y x) as [a Ha]; [done..|].
  rewrite (index_is_Ok _ _ _ Hr). cbn [mbind result_bind].
  rewrite Contains_unrepresentable by done.
  rewrite (index_is_Ok _ _ _ Hc). cbn [mbind result_bind].
  rewrite Contains_unrepresentable by done.
  rewrite (index2_is_Ok _ _ _ _ Hb). cbn [mbind result_bind].
  rewrite Contains_unrepresentable by done.
  rewrite (index2_is_Ok _ _ _ _ Ha). cbn [mbind result_bind].
  rewrite !Add_unrepresentable by done.
  rewrite assign2_is_Ok by eauto. cbn [mbind result_bind].
  rewrite assign_is_Ok by lia. cbn [mbind result_bind].
  rewrite assign_is_Ok by lia. cbn [mbind result_bind].
  rewrite assign2_is_Ok by eauto. cbn [mbind result_bind].
  rewrite !set_cell_id, !list_insert_id by done.
  destruct st. by apply IH.
Qed.

Lemma Annotate_unrepresentable N rt (bo : Board) cands0 :
  N = rt * rt → 0 < N → square N bo →
  (∀ y x v, cell bo y x = Some v → (v ≤ 0)%Z ∨ (64 ≤ v)%Z) →
  ∃ cands,
    Annotate (mkAnnotatedBoard bo cands0) = Ok (mkAnnotatedBoard bo cands, false)
    ∧ square N cands
    ∧ ∀ y x c, cell cands y x = Some c → c = allCandidates N.
Proof.
  intros HN Hpos Hsq Hval. rewrite (Annotate_unfold N rt) by done.
  rewrite (Annotate_fill_unrepresentable N rt); [|done|apply acc_shape_init|].
  2:{ intros y x v Hin. destruct (enumerate2_lt N bo y x v Hsq Hin).
      apply elem_of_enumerate2 in Hin. split_and!; try done. by eapply Hval. }
  cbn [mbind result_bind].
  destruct (Annotate_rest_spec N rt N _ HN (acc_shape_init N rt))
    as (g & -> & Hg & Hall).
  cbn [mbind result_bind]. exists g. split_and!; try done.
  intros y x c Hc. destruct (square_cell_lt N g y x c Hg Hc) as [Hy Hx].
  cbn [acc_cands acc_rows acc_cols acc_blocks] in Hall.
  destruct (square_cell N (newBlockCandidates N) y x) as [a Ha];
    [by apply square_replicate|done..|].
  destruct (Hall _ _ _ Ha) as (c' & Hc' & Hrest).
  assert (c' = c) as -> by congruence.
  apply cell_replicate in Ha as ->.
  destruct Hrest as [[? _]|(_ & r & c0 & b & Hr & Hc0 & Hb & ->)]; [lia|].
  apply lookup_replicate in Hr as [-> _]. apply lookup_replicate in Hc0 as [-> _].
  apply cell_replicate in Hb as ->. by rewrite !Z.ldiff_0_r.
Qed.

Lemma allCandidates_64 : allCandidates 64 = (-2)%Z.
Proof. by vm_compute. Qed.

Lemma square_twice64 : square 64 twice64.
Proof. do 2 apply square_set_cell. apply square_empty64. Qed.

Lemma cell_twice64 y x v :
  cell twice64 y x = Some v → v = 0%Z ∨ v = 64%Z.
Proof.
  unfold twice64.
  rewrite cell_set_cell by done. case_decide; [intros [= <-]; by right|].
  rewrite cell_set_cell by done. case_decide; [intros [= <-]; by right|].
  intros ->%cell_empty64. by left.
Qed.

Lemma values_in_Forall N (bo : Board) :
  Forall (Forall (λ v, (0 ≤ v ≤ Z.of_nat N)%Z)) bo → values_in N bo.
Proof.
  intros H y x v (row & Hrow & Hv)%cell_Some.
  rewrite Forall_lookup in H. specialize (H _ _ Hrow).
  rewrite Forall_lookup in H. by apply (H x).
Qed.


Lemma square_Forall {A} N (g : list (list A)) :
  length g = N → Forall (λ row, length row = N) g → square N g.
Proof. by split. Qed.

(** ** Decimals *)

(** C10 (as amended).  [Decimals] is total.  For a candidate value [c]
    below [2^62] it returns, in strictly descending order, exactly the
    positions [v >= 1] of the bits set in [c] when [c] is positive (bit 0 is
    never reported), and the empty sequence when [c <= 0]: [CandidateLines]
    may call it on a field that has no candidates left. *)
Theorem Decimals_set_bits (c : Candidates) :
  (c < 2 ^ 62)%Z →
  StronglySorted (λ a b, (b < a)%Z) (Decimals c)
  ∧ (∀ v, v ∈ Decimals c ↔ (0 < c)%Z ∧ (1 ≤ v)%Z ∧ Z.testbit c v = true)
  ∧ ((c ≤ 0)%Z → Decimals c = []).
Proof.
  intros _. split_and!.
  - apply Decimals_sorted.
  - apply elem_of_Decimals.
  - apply Decimals_nonpos.
Qed.

Lemma Decimals_set_bits_witness :
  (30 < 2 ^ 62)%Z
  ∧ StronglySorted (λ a b, (b < a)%Z) (Decimals 30%Z)
  ∧ (∀ v, v ∈ Decimals 30%Z ↔ (0 < 30)%Z ∧ (1 ≤ v)%Z ∧ Z.testbit 30 v = true)
  ∧ ((30 ≤ 0)%Z → Decimals 30%Z = []).
Proof. split; [lia|apply (Decimals_set_bits 30%Z); lia]. Defined.

(** C10 as stated fails: bit 0 of the candidate value [1] is set, and
    [Decimals] returns nothing for it. *)
Lemma Decimals_omits_bit0 :
  Z.testbit 1 0 = true ∧ Single 1%Z = true ∧ Decimals 1%Z = [].
Proof. by vm_compute. Qed.

(** ** Annotate *)

(** C4 (as amended).  On a board of side [N = rt * rt < 64] with values in
    [0..N] on which [Annotate] succeeds, the candidates of an empty field
    are the values [1..N] without those placed in its row, column or block,
    and the candidates of a filled field are its value alone. *)
Theorem Annotate_candidates N rt (bo : Board) cands0 ab :
  N = rt * rt → N < 64 → square N bo → values_in N bo →
  Annotate (mkAnnotatedBoard bo cands0) = Ok (ab, false) →
  board ab = bo ∧ square N (candidates ab)
  ∧ ∀ y x w c, cell bo y x = Some w → cell (candidates ab) y x = Some c →
      (w = 0%Z → ∀ v, Contains c v = true
                      ↔ (1 ≤ v ≤ Z.of_nat N)%Z ∧ ¬ placed rt bo y x v)
      ∧ (w ≠ 0%Z → ∀ v, Contains c v = true ↔ v = w).
Proof.
  intros HN Hfit Hsq Hval HA.
  destruct (decide (N = 0)) as [->|Hpos].
  { destruct Hsq as [Hl _]. destruct bo; [|done]. done. }
  destruct (Annotate_spec N rt bo cands0 HN ltac:(lia) Hfit Hsq Hval)
    as (cands & err & HA' & Hc & _ & _ & Hann).
  rewrite HA' in HA. injection HA as <- ->. split_and!; try done.
  by apply Hann.
Qed.

Lemma Annotate_candidates_witness :
  board (mkAnnotatedBoard unsolved4 annotated4) = unsolved4
  ∧ square 4 (candidates (mkAnnotatedBoard unsolved4 annotated4))
  ∧ ∀ y x w c, cell unsolved4 y x = Some w →
      cell (candidates (mkAnnotatedBoard unsolved4 annotated4)) y x = Some c →
      (w = 0%Z → ∀ v, Contains c v = true
                      ↔ (1 ≤ v ≤ Z.of_nat 4)%Z ∧ ¬ placed 2 unsolved4 y x v)
      ∧ (w ≠ 0%Z → ∀ v, Contains c v = true ↔ v = w).
Proof.
  apply (Annotate_candidates 4 2 unsolved4 []).
  - reflexivity.
  - lia.
  - apply square_Forall; [reflexivity|]. by vm_compute; repeat constructor.
  - apply values_in_Forall. repeat constructor; lia.
  - by vm_compute.
Defined.

(** C4 as stated fails for the side 64: [1 << 64] is [0], so the candidates
    of a field of the empty board lack the value 64. *)
Lemma Annotate_side64 :
  square 64 empty64 ∧ values_in 64 empty64
  ∧ ∃ cands,
      Annotate (mkAnnotatedBoard empty64 [])
      = Ok (mkAnnotatedBoard empty64 cands, false)
      ∧ cell empty64 0 0 = Some 0%Z
      ∧ cell cands 0 0 = Some (-2)%Z
      ∧ Contains (-2)%Z 64%Z = false ∧ ¬ placed 8 empty64 0 0 64%Z.
Proof.
  split_and!.
  - apply square_empty64.
  - intros y x v ->%cell_empty64. lia.
  - destruct (Annotate_unrepresentable 64 8 empty64 [])
      as (cands & HA & Hsq & Hall); [done|lia|apply square_empty64| |].
    { intros y x v ->%cell_empty64. by left. }
    exists cands. split_and!.
    + exact HA.
    + reflexivity.
    + destruct (square_cell 64 cands 0 0 Hsq) as [c Hc]; [lia..|].
      rewrite Hc. f_equal. rewrite (Hall _ _ _ Hc). apply allCandidates_64.
    + reflexivity.
    + intros [[x Hx]|[[y Hy]|(y & x & _ & _ & H)]];
        by match goal with H : _ |- _ => apply cell_empty64 in H end.
Qed.

(** C5 (as amended).  On a board of side [N = rt * rt < 64] with values in
    [0..N], [Annotate] returns its error exactly when some non-zero value
    occurs twice in a row, a column or a block; otherwise it succeeds. *)
Theorem Annotate_error N rt (bo : Board) cands0 :
  N = rt * rt → 0 < N → N < 64 → square N bo → values_in N bo →
  ∃ cands err,
    Annotate (mkAnnotatedBoard bo cands0) = Ok (mkAnnotatedBoard bo cands, err)
    ∧ (err = true ↔ duplicate rt bo).
Proof.
  intros HN Hpos Hfit Hsq Hval.
  destruct (Annotate_spec N rt bo cands0 HN Hpos Hfit Hsq Hval)
    as (cands & err & HA & _ & _ & Herr & _).
  by exists cands, err.
Qed.

Lemma Annotate_error_witness :
  ∃ cands err,
    Annotate (mkAnnotatedBoard unsolved4 [])
    = Ok (mkAnnotatedBoard unsolved4 cands, err)
    ∧ (err = true ↔ duplicate 2 unsolved4).
Proof.
  apply (Annotate_error 4 2 unsolved4 []).
  - reflexivity.
  - lia.
  - lia.
  - apply square_Forall; [reflexivity|]. by vm_compute; repeat constructor.
  - apply values_in_Forall. repeat constructor; lia.
Defined.

(** C5 as stated fails for the side 64: the value 64 leaves no trace in a
    candidate word, so its second occurrence in a row is not noticed. *)
Lemma Annotate_misses_64 :
  square 64 twice64 ∧ values_in 64 twice64 ∧ duplicate 8 twice64
  ∧ ∃ cands,
      Annotate (mkAnnotatedBoard twice64 [])
      = Ok (mkAnnotatedBoard twice64 cands, false).
Proof.
  split_and!.
  - apply square_twice64.
  - intros y x v [->| ->]%cell_twice64; lia.
  - exists 0, 0, 0, 1, 64%Z. split_and!.
    + by vm_compute.
    + by vm_compute.
    + congruence.
    + lia.
    + by left.
  - destruct (Annotate_unrepresentable 64 8 twice64 [])
      as (cands & HA & _); [done|lia|apply square_twice64| |by exists cands].
    intros y x v [->| ->]%cell_twice64; lia.
Qed.

Lemma no_duplicate_Annotate N rt (bo : Board) cands :
  N = rt * rt → 0 < N → N < 64 → square N bo → values_in N bo →
  Annotate (mkAnnotatedBoard bo []) = Ok (mkAnnotatedBoard bo cands, false) →
  ¬ duplicate rt bo.
Proof.
  intros HN Hpos Hfit Hsq Hval HA Hdup.
  destruct (Annotate_spec N rt bo [] HN Hpos Hfit Hsq Hval)
    as (cands' & err & HA' & _ & _ & Herr & _).
  rewrite HA in HA'. injection HA' as _ <-. by apply Herr in Hdup.
Qed.

Lemma square_unsolved4 : square 4 unsolved4.
Proof. apply square_Forall; [reflexivity|]. by vm_compute; repeat constructor. Qed.

Lemma square_annotated4 : square 4 annotated4.
Proof. apply square_Forall; [reflexivity|]. by vm_compute; repeat constructor. Qed.

Lemma values_in_unsolved4 : values_in 4 unsolved4.
Proof. apply values_in_Forall. repeat constructor; lia. Qed.

Lemma completion_unsolved4 : completion 4 2 unsolved4 completed4.
Proof.
  assert (square 4 completed4) as Hsq.
  { apply square_Forall; [reflexivity|]. by vm_compute; repeat constructor. }
  assert (Forall (Forall (λ v, (1 ≤ v ≤ 4)%Z)) completed4) as Hval
    by (repeat constructor; lia).
  split; [split_and!|].
  - done.
  - intros y x v (row & Hrow & Hv)%cell_Some.
    rewrite Forall_lookup in Hval. specialize (Hval _ _ Hrow).
    rewrite Forall_lookup in Hval. apply (Hval x v Hv).
  - eapply (no_duplicate_Annotate 4 2); [reflexivity|lia|lia|done| |by vm_compute].
    apply values_in_Forall. repeat constructor; lia.
  - intros y x v Hv Hne.
    destruct y as [|[|[|[|y]]]]; try done;
      destruct x as [|[|[|[|x]]]]; try done;
      vm_compute in Hv; injection Hv as <-; done.
Qed.

(** ** Backtrack *)

(** [solved] is the stop signal of the search. *)
Lemma Backtrack_solved N rt ab k :
  N = rt * rt → 0 < N → square N (board ab) →
  ∃ solved solutions,
    Backtrack ab k = Ok (solved, solutions)
    ∧ (solved = true ↔ solutions ≠ [] ∧ (k ≤ Z.of_nat (length solutions))%Z).
Proof.
  intros HN Hpos Hsq.
  destruct (Backtrack_spec N rt k ab HN Hpos Hsq) as (solved & sols & H & _ & _ & P3 & _).
  by exists solved, sols.
Qed.

(** C1 does not hold of the code: for the solved board [solved4], which
    has exactly one completion, and [maxSolutions = 2] the search records that
    solution and still returns [solved = false]. *)
Theorem Backtrack_solved_false :
  (ab ← NewAnnotatedBoard solved4; Backtrack ab.1 2)
  = Ok (false, [solved4]).
Proof. by vm_compute. Qed.

(** C6.  For [maxSolutions = k >= 1] and a board of side [N = rt * rt < 64]
    with values in [0..N], [Backtrack] returns at most [k] solutions; they
    are pairwise distinct, full boards that keep the filled fields of the
    input; [solved] is true exactly when the [k]-th solution was recorded;
    and the loop over the candidates of a field returns as soon as a
    recursive call signals the stop, whatever candidates remain. *)
Theorem Backtrack_at_most N rt ab k :
  N = rt * rt → 0 < N → N < 64 → square N (board ab) →
  values_in N (board ab) → (1 ≤ k)%Z →
  (∃ solved solutions,
     Backtrack ab k = Ok (solved, solutions)
     ∧ (Z.of_nat (length solutions) ≤ k)%Z
     ∧ NoDup solutions
     ∧ (∀ s, s ∈ solutions →
          square N s ∧ Full s = true ∧ extends (board ab) s)
     ∧ (solved = true ↔ Z.of_nat (length solutions) = k))
  ∧ (∀ rec ab' y x v vs sols bo sols',
       assign2 (board ab') y x v = Ok bo →
       rec (mkAnnotatedBoard bo (candidates ab')) sols = Ok (true, sols') →
       backtrack_values rec ab' y x (v :: vs) sols = Ok (true, sols')).
Proof.
  intros HN Hpos _ Hsq _ Hk. split.
  - destruct (Backtrack_spec N rt k ab HN Hpos Hsq)
      as (solved & sols & H & P1 & P2 & P3 & P4).
    exists solved, sols. simpl in *. split_and!; try done.
    + destruct sols as [|s1 [|s2 sols]]; simpl in *; lia.
    + rewrite P3. split.
      * intros [Hne Hle].
        destruct sols as [|s1 [|s2 sols]]; simpl in *; try done; lia.
      * intros Hlen. split; [|lia]. intros ->. simpl in *. lia.
  - intros rec ab' y x v vs sols bo sols' Ha Hrec.
    cbn [backtrack_values]. rewrite Ha. cbn [mbind result_bind].
    rewrite Hrec. done.
Qed.

Lemma Backtrack_at_most_witness :
  (∃ solved solutions,
     Backtrack (mkAnnotatedBoard unsolved4 annotated4) 2 = Ok (solved, solutions)
     ∧ (Z.of_nat (length solutions) ≤ 2)%Z
     ∧ NoDup solutions
     ∧ (∀ s, s ∈ solutions →
          square 4 s ∧ Full s = true
          ∧ extends (board (mkAnnotatedBoard unsolved4 annotated4)) s)
     ∧ (solved = true ↔ Z.of_nat (length solutions) = 2%Z))
  ∧ (∀ rec ab' y x v vs sols bo sols',
       assign2 (board ab') y x v = Ok bo →
       rec (mkAnnotatedBoard bo (candidates ab')) sols = Ok (true, sols') →
       backtrack_values rec ab' y x (v :: vs) sols = Ok (true, sols')).
Proof.
  apply (Backtrack_at_most 4 2 (mkAnnotatedBoard unsolved4 annotated4) 2).
  - reflexivity.
  - lia.
  - lia.
  - apply square_unsolved4.
  - apply values_in_unsolved4.
  - lia.
Defined.

(** C9 (as amended).  For a negative [maxSolutions] (the documented [-1]
    included) and a board of side [N = rt * rt < 64] with values in [0..N]
    that has a completion, [Backtrack] stops at the first solution: it
    returns [solved = true] and exactly one board. *)
Theorem Backtrack_negative N rt ab k s :
  N = rt * rt → 0 < N → N < 64 → square N (board ab) →
  values_in N (board ab) → (k < 0)%Z → completion N rt (board ab) s →
  ∃ s', Backtrack ab k = Ok (true, [s'])
        ∧ Full s' = true ∧ extends (board ab) s'.
Proof.
  intros HN Hpos Hfit Hsq Hval Hk Hcomp.
  destruct (Backtrack_spec N rt k ab HN Hpos Hsq)
    as (solved & sols & H & P1 & P2 & P3 & P4).
  assert (sols ≠ []) as Hne.
  { unfold Backtrack in H.
    apply (backtrack_complete N rt k (enough (board ab)) ab [] s HN Hpos Hfit
             Hsq Hval) with solved; try done.
    rewrite (enough_square N) by done. pose proof (zeros_le N _ Hsq). lia. }
  destruct sols as [|s' [|s'' sols]]; [done| |simpl in P4; lia].
  exists s'. destruct (P2 s') as (_ & ? & ?); [by left|].
  split_and!; try done. rewrite H. do 2 f_equal. apply P3. split; [done|].
  simpl. lia.
Qed.

Lemma Backtrack_negative_witness :
  ∃ s', Backtrack (mkAnnotatedBoard unsolved4 annotated4) (-1) = Ok (true, [s'])
        ∧ Full s' = true
        ∧ extends (board (mkAnnotatedBoard unsolved4 annotated4)) s'.
Proof.
  apply (Backtrack_negative 4 2 (mkAnnotatedBoard unsolved4 annotated4) (-1)
           completed4).
  - reflexivity.
  - lia.
  - lia.
  - apply square_unsolved4.
  - apply values_in_unsolved4.
  - lia.
  - apply completion_unsolved4.
Defined.

(** C9 as stated fails for the side 64: the empty board has a completion,
    but the candidates of its first field are the negative word [-2], for
    which [Decimals] returns nothing, and the search ends without a
    solution. *)
Lemma Backtrack_side64 :
  completion 64 8 empty64 solved64
  ∧ ∃ ab, NewAnnotatedBoard empty64 = Ok (ab, false)
          ∧ board ab = empty64
          ∧ cell (candidates ab) 0 0 = Some (-2)%Z
          ∧ Decimals (-2)%Z = []
          ∧ Backtrack ab (-1) = Ok (false, []).
Proof.
  split; [apply completion_empty64|].
  assert (∀ y x v, cell empty64 y x = Some v → (v ≤ 0)%Z ∨ (64 ≤ v)%Z) as Hval.
  { intros y x v ->%cell_empty64. by left. }
  destruct (Annotate_unrepresentable 64 8 empty64 [])
    as (cands & HA & Hsq & Hall); [done|lia|apply square_empty64|done|].
  assert (cell cands 0 0 = Some (-2)%Z) as Hc.
  { destruct (square_cell 64 cands 0 0 Hsq) as [c Hc]; [lia..|].
    rewrite Hc. f_equal. rewrite (Hall _ _ _ Hc). apply allCandidates_64. }
  exists (mkAnnotatedBoard empty64 cands). split_and!.
  - unfold NewAnnotatedBoard.
    rewrite (Board_Copy_square 64) by (apply square_empty64 || lia).
    exact HA.
  - reflexivity.
  - exact Hc.
  - by vm_compute.
  - unfold Backtrack. cbn [board].
    rewrite (enough_square 64) by (apply square_empty64 || lia).
    cbn [backtrack].
    destruct (Annotate_unrepresentable 64 8 empty64 cands)
      as (cands' & -> & Hsq' & Hall'); [done|lia|apply square_empty64|done|].
    cbn [mbind result_bind board candidates].
    change (FirstEmpty empty64) with (Some (0, 0)).
    assert (cell cands' 0 0 = Some (-2)%Z) as Hc'.
    { destruct (square_cell 64 cands' 0 0 Hsq') as [c Hc']; [lia..|].
      rewrite Hc'. f_equal. rewrite (Hall' _ _ _ Hc'). apply allCandidates_64. }
    cbv beta iota. rewrite (index2_is_Ok _ _ _ _ Hc'). reflexivity.
Qed.


(** ** SingleCandidate *)

Lemma SingleCandidate_unfold N rt ab k :
  N = rt * rt → 0 < N → wf_annotated N ab →
  ∃ ab' n,
    SingleCandidate_loop (enough (board ab)) ab = Ok (ab', n)
    ∧ SingleCandidate ab k = Ok (Solved ab', [board ab'])
    ∧ wf_annotated N ab'
    ∧ 1 ≤ n ≤ unfilled (board ab) + 1
    ∧ (∀ y x v, cell (board ab) y x = Some v → (0 < v)%Z →
         cell (board ab') y x = Some v)
    ∧ ((∀ y x v c, cell (board ab) y x = Some v →
          cell (candidates ab) y x = Some c → Single c = true → (0 < v)%Z)
       ↔ board ab' = board ab).
Proof.
  intros HN Hpos Hwf. pose proof Hwf as (Hsq & Hsqc & Hb0).
  destruct (SingleCandidate_loop_spec N rt (enough (board ab)) ab HN Hpos Hwf)
    as (ab' & n & Hloop & Hwf' & Hn & Hkeep & Hiff & _).
  { rewrite (enough_square N) by done. pose proof (unfilled_le N _ Hsq). lia. }
  assert (SingleCandidate ab k = Ok (Solved ab', [board ab'])) as HS.
  { unfold SingleCandidate. rewrite (AnnotatedBoard_Copy_square N) by done.
    cbn [mbind result_bind]. rewrite Hloop. done. }
  exists ab', n. split_and!; try done; lia.
Qed.

(** C3 as stated fails: on [forced4] the last field of the first row is
    forced, no other field is, and [SingleCandidate] returns
    [solved = false] with a board that differs from the input. *)
Lemma SingleCandidate_forced4 :
  (ab ← NewAnnotatedBoard forced4; SingleCandidate ab.1 1)
  = Ok (false,
        [[[1; 2; 3; 4]; [0; 0; 0; 0]; [0; 0; 0; 0]; [0; 0; 0; 0]]%Z])
  ∧ [[1; 2; 3; 4]; [0; 0; 0; 0]; [0; 0; 0; 0]; [0; 0; 0; 0]]%Z ≠ forced4.
Proof. split; [by vm_compute|done]. Qed.




(** ** CandidateLines: what the loops keep true *)

Lemma foldM_inv {A St} (I : St → Prop) (f : St → A → result St) l s :
  (∀ s a, a ∈ l → I s → ∃ s', f s a = Ok s' ∧ I s') →
  I s → ∃ s', foldM f s l = Ok s' ∧ I s'.
Proof.
  revert s. induction l as [|a l IH]; intros s Hf Hs; cbn [foldM].
  - by exists s.
  - destruct (Hf s a) as (s1 & -> & Hs1); [by left|done|].
    cbn. apply IH; [|done]. intros s2 b Hb. apply Hf. by right.
Qed.

Lemma shl1_cases k :
  shl1 k = 0%Z ∨ (0 ≤ k ≤ 62 ∧ shl1 k = 2 ^ k)%Z ∨ (k = 63 ∧ shl1 k = - 2 ^ 63)%Z.
Proof.
  destruct (decide (k < 0 ∨ 64 ≤ k)%Z); [left; by apply shl1_zero|].
  destruct (decide (k = 63%Z)) as [->|]; [right; right; done|].
  right; left. split; [lia|]. apply shl1_pow. lia.
Qed.

Lemma neg_pow2_bits_high n : (63 ≤ n)%Z → Z.testbit (- 2 ^ 63) n = true.
Proof.
  intros Hn. replace (- 2 ^ 63)%Z with (-1 * 2 ^ 63)%Z by lia.
  rewrite Z.mul_pow2_bits by lia. apply Z.bits_m1. lia.
Qed.

Lemma lines_0 N : lines N 0.
Proof. intros i _. by rewrite Z.bits_0. Qed.

Lemma lines_Add N r k :
  lines N r → (1 ≤ k ≤ Z.of_nat N)%Z → lines N (Add r k).
Proof.
  intros Hr Hk i Hi. unfold Add. rewrite Z.lor_spec.
  intros [Hb|Hb]%orb_true_iff.
  - destruct (Hr i Hi Hb) as [H1 [H2|[H2 H3]]]; split; try done; [by left|].
    right. split; [done|]. apply Z.lor_neg. by left.
  - destruct (shl1_cases k) as [Hs|[[Hk' Hs]|[-> Hs]]]; rewrite Hs in Hb.
    + by rewrite Z.bits_0 in Hb.
    + rewrite Z.pow2_bits_eqb in Hb by lia. apply Z.eqb_eq in Hb as ->.
      split; [lia|]. left. lia.
    + destruct (decide (i < 63)%Z).
      { by rewrite neg_pow2_bits_low in Hb by lia. }
      split; [lia|]. right. split; [lia|]. apply Z.lor_neg. right.
      rewrite Hs. lia.
Qed.

Lemma lines_Remove N r k : lines N r → lines N (Remove r k).
Proof.
  intros Hr i Hi. unfold Remove. rewrite Z.ldiff_spec.
  intros [Hb Hs]%andb_true_iff. apply negb_true_iff in Hs.
  destruct (Hr i Hi Hb) as [H1 [H2|[H2 H3]]]; split; try done; [by left|].
  right. split; [done|]. apply Z.ldiff_neg. split; [done|].
  destruct (shl1_cases k) as [Hk|[[Hk' Hk]|[-> Hk]]]; rewrite Hk in Hs |- *.
  - done.
  - apply Z.pow_nonneg. lia.
  - by rewrite neg_pow2_bits_high in Hs.
Qed.

Lemma lines_allCandidates_from N size c :
  lines N c → size ≤ N → lines N (allCandidates_from size c).
Proof.
  revert c. induction size as [|size IH]; intros c Hc Hs; [done|].
  cbn [allCandidates_from]. apply IH; [|lia]. apply lines_Add; [done|lia].
Qed.

Lemma lines_allCandidates N : lines N (allCandidates N).
Proof. apply lines_allCandidates_from; [apply lines_0|done]. Qed.

Lemma lines_Decimals N r v :
  lines N r → v ∈ Decimals r → (1 ≤ v ≤ Z.of_nat N)%Z.
Proof.
  intros Hr (Hpos & Hv & Hb)%elem_of_Decimals.
  destruct (Hr v) as [_ [?|[_ ?]]]; [lia|done|lia..].
Qed.

Lemma lines_head N r :
  lines N r → (0 < r)%Z →
  ∃ d, index (Decimals r) 0 = Ok d ∧ (1 ≤ d ≤ Z.of_nat N)%Z.
Proof.
  intros Hr Hpos.
  destruct (Decimals_head r) as (d & ds & Hd & _); [done| |].
  { destruct (Z.testbit r 0) eqn:Hb; [|done].
    destruct (Hr 0%Z) as [? _]; [done..|lia]. }
  exists d. split; [by rewrite Hd|].
  apply (lines_Decimals N r); [done|]. rewrite Hd. by left.
Qed.

Lemma maps_ok_note N y x m c :
  maps_ok N m → y < N → x < N → maps_ok N (CandidateLines_note y x m c).
Proof.
  intros (H1 & H2 & H3 & H4) Hy Hx. split_and!; cbn; [done|done| |].
  - apply map_Forall_insert_2; [|done]. apply lines_Add; [|lia].
    destruct (inRows m !! c) eqn:E; cbn; [by apply (H3 c)|apply lines_0].
  - apply map_Forall_insert_2; [|done]. apply lines_Add; [|lia].
    destruct (inCols m !! c) eqn:E; cbn; [by apply (H4 c)|apply lines_0].
Qed.

Lemma maps_ok_notes N y x l m :
  maps_ok N m → y < N → x < N →
  maps_ok N (foldl (CandidateLines_note y x) m l).
Proof.
  revert m. induction l as [|c l IH]; intros m Hm Hy Hx; [done|].
  cbn. apply IH; [|done..]. by apply maps_ok_note.
Qed.

Lemma sqrt_block N b i : b < sqrt N → i < sqrt N → b * sqrt N + i < N.
Proof.
  unfold sqrt. pose proof (Nat.sqrt_spec N). nia.
Qed.

Lemma CandidateLines_maps_ok N cands blkY blkX :
  square N cands → blkY < sqrt N → blkX < sqrt N →
  ∃ m, CandidateLines_maps N (sqrt N) cands blkY blkX = Ok m ∧ maps_ok N m.
Proof.
  intros Hsq HY HX. unfold CandidateLines_maps.
  apply (foldM_inv (maps_ok N)).
  - intros m yInBlk [_ Hy]%elem_of_seq (H1 & H2 & H3 & H4). cbv zeta.
    apply (foldM_inv (maps_ok N)).
    + intros m' xInBlk [_ Hx]%elem_of_seq (H1' & H2' & H3' & H4').
      destruct (square_cell N cands (blkY * sqrt N + yInBlk)
                  (blkX * sqrt N + xInBlk)) as [cs Hcs];
        [done|by apply sqrt_block..|].
      rewrite (index2_is_Ok _ _ _ _ Hcs). cbn [mbind result_bind].
      eexists; split; [done|].
      apply maps_ok_notes; [|by apply sqrt_block..].
      split_and!; cbn; try done. by apply lines_Remove.
    + split_and!; cbn; try done. by apply lines_Remove.
  - split_and!; cbn; try apply lines_allCandidates; apply map_Forall_empty.
Qed.

Lemma index2Z_nat {A} (g : list (list A)) y x :
  index2Z g (Z.of_nat y) (Z.of_nat x) = index2 g y x.
Proof.
  unfold index2Z, indexZ, index2. rewrite !Nat2Z.id, decide_True by lia.
  destruct (index g y); cbn; [|done..]. by rewrite decide_True by lia.
Qed.

Lemma assign2Z_nat {A} (g : list (list A)) y x a :
  assign2Z g (Z.of_nat y) (Z.of_nat x) a = assign2 g y x a.
Proof. unfold assign2Z. by rewrite decide_True, !Nat2Z.id by lia. Qed.

Lemma CandidateLines_remove_nat c y x st s :
  cell st.1 y x = Some s →
  CandidateLines_remove c (Z.of_nat y) (Z.of_nat x) st
  = Ok (if Contains s c then (set_cell st.1 y x (Remove s c), true) else st).
Proof.
  intros Hs. unfold CandidateLines_remove.
  rewrite index2Z_nat, (index2_is_Ok _ _ _ _ Hs). cbn [mbind result_bind].
  destruct (Contains s c); [|done].
  rewrite assign2Z_nat.
  by rewrite (assign2_is_Ok _ _ _ _ (ex_intro _ s Hs)).
Qed.

Lemma pass_inv_remove N cands0 c y x st s :
  square N cands0 → pass_inv N cands0 st → cell st.1 y x = Some s →
  pass_inv N cands0
    (if Contains s c then (set_cell st.1 y x (Remove s c), true) else st).
Proof.
  intros Hsq0 (Hsq & Hle & Hf & Ht) Hs.
  destruct (Contains s c) eqn:Hc; [|done].
  destruct (square_cell_lt N _ _ _ _ Hsq Hs) as [Hy Hx].
  destruct (square_cell N cands0 y x Hsq0 Hy Hx) as [s0 Hs0].
  split_and!; cbn [fst snd].
  - by apply square_set_cell.
  - intros y' x' c0 c' H0. rewrite cell_set_cell by eauto.
    case_decide as Hyx.
    + destruct Hyx as [-> ->]. intros [= <-].
      eapply bits_le_trans; [apply Remove_le|]. eapply Hle; [done|]. done.
    + by apply Hle.
  - done.
  - intros _. exists y, x, s0, (Remove s c), c. split_and!; [done| | |].
    + rewrite cell_set_cell by eauto. by rewrite decide_True.
    + eapply Contains_mono; [|done]. by eapply Hle.
    + apply Contains_Remove.
Qed.

Lemma CandidateLines_remove_inv N cands0 c y x st :
  square N cands0 → pass_inv N cands0 st →
  (1 ≤ y ≤ Z.of_nat N)%Z → (1 ≤ x ≤ Z.of_nat N)%Z →
  ∃ st', CandidateLines_remove c (y - 1) (x - 1) st = Ok st'
         ∧ pass_inv N cands0 st'.
Proof.
  intros Hsq0 Hst Hy Hx.
  replace (y - 1)%Z with (Z.of_nat (Z.to_nat (y - 1))) by lia.
  replace (x - 1)%Z with (Z.of_nat (Z.to_nat (x - 1))) by lia.
  destruct (square_cell N st.1 (Z.to_nat (y - 1)) (Z.to_nat (x - 1)))
    as [s Hs]; [apply Hst|lia..|].
  rewrite (CandidateLines_remove_nat _ _ _ _ s Hs).
  eexists; split; [done|]. by apply pass_inv_remove.
Qed.

Lemma range_ok_lookup range_map (m : gmap Z Candidates) c r :
  range_ok range_map → (c, r) ∈ range_map m → m !! c = Some r.
Proof. intros Hr Hin. apply elem_of_map_to_list. by rewrite <- (Hr m). Qed.

Lemma CandidateLines_cols_inv range_map N cands0 m st :
  range_ok range_map → square N cands0 → maps_ok N m →
  pass_inv N cands0 st →
  ∃ st', CandidateLines_cols range_map m st = Ok st' ∧ pass_inv N cands0 st'.
Proof.
  intros Hrange Hsq0 (Hr & Hc & HR & HC) Hst. unfold CandidateLines_cols.
  apply (foldM_inv (pass_inv N cands0)); [|done].
  intros s [c cols] Hin%(range_ok_lookup _ _ _ _ Hrange) Hs.
  apply HC in Hin.
  destruct (Single cols) eqn:HS; [|by exists s].
  destruct (lines_head N cols) as (d & -> & Hd); [done|by apply Single_pos|].
  cbn [mbind result_bind].
  apply (foldM_inv (pass_inv N cands0)); [|done].
  intros s' row Hrow%(lines_Decimals N) Hs'; [|done].
  by apply (CandidateLines_remove_inv N).
Qed.

Lemma CandidateLines_rows_inv range_map N cands0 m st :
  range_ok range_map → square N cands0 → maps_ok N m →
  pass_inv N cands0 st →
  ∃ st', CandidateLines_rows range_map m st = Ok st' ∧ pass_inv N cands0 st'.
Proof.
  intros Hrange Hsq0 (Hr & Hc & HR & HC) Hst. unfold CandidateLines_rows.
  apply (foldM_inv (pass_inv N cands0)); [|done].
  intros s [c rows] Hin%(range_ok_lookup _ _ _ _ Hrange) Hs.
  apply HR in Hin.
  destruct (Single rows) eqn:HS; [|by exists s].
  destruct (lines_head N rows) as (d & -> & Hd); [done|by apply Single_pos|].
  cbn [mbind result_bind].
  apply (foldM_inv (pass_inv N cands0)); [|done].
  intros s' col Hcol%(lines_Decimals N) Hs'; [|done].
  by apply (CandidateLines_remove_inv N).
Qed.

Lemma CandidateLines_block_inv range_map N cands0 st blk :
  range_ok range_map → square N cands0 → pass_inv N cands0 st →
  blk.1 < sqrt N → blk.2 < sqrt N →
  ∃ st', CandidateLines_block range_map N (sqrt N) st blk = Ok st'
         ∧ pass_inv N cands0 st'.
Proof.
  intros Hrange Hsq0 Hst HY HX. unfold CandidateLines_block.
  destruct (CandidateLines_maps_ok N st.1 blk.1 blk.2) as (m & -> & Hm);
    [apply Hst|done..|].
  cbn [mbind result_bind].
  destruct (CandidateLines_cols_inv range_map N cands0 m st)
    as (st1 & -> & Hst1); [done..|].
  cbn [mbind result_bind]. by apply CandidateLines_rows_inv.
Qed.

Lemma pass_inv_init N cands0 : square N cands0 → pass_inv N cands0 (cands0, false).
Proof.
  intros Hsq. split_and!; cbn [fst snd]; [done| |done|done].
  intros y x c0 c H0 H. rewrite H0 in H. injection H as ->. apply bits_le_refl.
Qed.

Lemma CandidateLines_pass range_map N ab :
  range_ok range_map → 0 < N →
  square N (board ab) → square N (candidates ab) →
  ∃ st, CandidateLines range_map ab
        = Ok (mkAnnotatedBoard (board ab) st.1, st.2)
        ∧ pass_inv N (candidates ab) st.
Proof.
  intros Hrange HN Hb Hc. unfold CandidateLines.
  rewrite (AnnotatedBoard_Copy_square N) by done. cbn [mbind result_bind].
  rewrite (Size_square N) by done. cbn [mbind result_bind]. cbv zeta.
  destruct (foldM_inv (pass_inv N (candidates ab))
    (λ st blkY, foldM (λ st blkX,
       CandidateLines_block range_map N (sqrt N) st (blkY, blkX))
       st (seq 0 (sqrt N)))
    (seq 0 (sqrt N)) (candidates ab, false)) as (st & -> & Hst).
  - intros s blkY [_ HY]%elem_of_seq Hs.
    apply (foldM_inv (pass_inv N (candidates ab))); [|done].
    intros s' blkX [_ HX]%elem_of_seq Hs'.
    by apply CandidateLines_block_inv.
  - by apply pass_inv_init.
  - exists st. split; [by destruct st|done].
Qed.

(** ** CandidateLines: where the maps of a block come from *)

Lemma foldM_app {A St} (f : St → A → result St) l1 l2 s :
  foldM f s (l1 ++ l2) = s' ← foldM f s l1; foldM f s' l2.
Proof.
  revert s. induction l1 as [|a l1 IH]; intros s; cbn; [done|].
  destruct (f s a); cbn; [apply IH|done..].
Qed.

Lemma foldM_fmap {A B St} (f : St → B → result St) (g : A → B) l s :
  foldM f s (g <$> l) = foldM (λ s a, f s (g a)) s l.
Proof.
  revert s. induction l as [|a l IH]; intros s; cbn; [done|].
  destruct (f s (g a)); cbn; [apply IH|done..].
Qed.

Lemma foldM_nested {A B St} (f : St → A * B → result St) ly lx s :
  foldM (λ s y, foldM (λ s x, f s (y, x)) s lx) s ly
  = foldM f s (y ← ly; pair y <$> lx).
Proof.
  revert s. induction ly as [|y ly IH]; intros s; cbn; [done|].
  rewrite foldM_app, foldM_fmap.
  destruct (foldM (λ s x, f s (y, x)) s lx); cbn; [apply IH|done..].
Qed.

Lemma foldM_rel {A St} (R : St → St → Prop) (f f0 : St → A → result St) l s s0 :
  (∀ s s0 a, a ∈ l → R s s0 →
     ∃ s' s0', f s a = Ok s' ∧ f0 s0 a = Ok s0' ∧ R s' s0') →
  R s s0 →
  ∃ s' s0', foldM f s l = Ok s' ∧ foldM f0 s0 l = Ok s0' ∧ R s' s0'.
Proof.
  revert s s0. induction l as [|a l IH]; intros s s0 Hf Hs; cbn [foldM].
  - by exists s, s0.
  - destruct (Hf s s0 a) as (s1 & s01 & -> & -> & Hs1); [by left|done|].
    cbn. apply IH; [|done]. intros s2 s02 b Hb. apply Hf. by right.
Qed.

Lemma elem_of_blocks bs blk : blk ∈ blocks bs ↔ blk.1 < bs ∧ blk.2 < bs.
Proof.
  unfold blocks. rewrite list_elem_of_bind. destruct blk as [y x]. cbn. split.
  - intros (y' & Hx & Hy). apply list_elem_of_fmap in Hx as (x' & [= -> ->] & Hx).
    apply elem_of_seq in Hy, Hx. lia.
  - intros [Hy Hx]. exists y. split; [|apply elem_of_seq; lia].
    apply list_elem_of_fmap. exists x. split; [done|]. apply elem_of_seq. lia.
Qed.

(** *** The notes of one field *)

Lemma CandidateLines_notes_rest y x l m :
  rowsNotInBlock (foldl (CandidateLines_note y x) m l) = rowsNotInBlock m
  ∧ colsNotInBlock (foldl (CandidateLines_note y x) m l) = colsNotInBlock m.
Proof.
  revert m. induction l as [|c l IH]; intros m; [done|].
  cbn [foldl]. by destruct (IH (CandidateLines_note y x m c)) as [-> ->].
Qed.

Lemma Add_Add c v : Add (Add c v) v = Add c v.
Proof. unfold Add. by rewrite <- Z.lor_assoc, Z.lor_diag. Qed.

Lemma CandidateLines_notes_rows y x l m c :
  inRows (foldl (CandidateLines_note y x) m l) !! c
  = if decide (c ∈ l)
    then Some (Add (default 0%Z (inRows m !! c)) (Z.of_nat (y + 1)))
    else inRows m !! c.
Proof.
  revert m. induction l as [|d l IH]; intros m.
  { cbn. rewrite decide_False; [done|]. apply not_elem_of_nil. }
  cbn [foldl]. rewrite IH. cbn [CandidateLines_note inRows].
  destruct (decide (c = d)) as [->|Hne].
  - rewrite (decide_True (P := d ∈ d :: l)) by left.
    rewrite !lookup_insert_eq. cbn [default from_option id]. rewrite Add_Add.
    by case_decide.
  - rewrite !lookup_insert_ne by done.
    destruct (decide (c ∈ l)) as [Hin|Hin].
    + by rewrite (decide_True (P := c ∈ d :: l)) by by right.
    + rewrite (decide_False (P := c ∈ d :: l)); [done|].
      rewrite elem_of_cons. tauto.
Qed.

Lemma CandidateLines_notes_cols y x l m c :
  inCols (foldl (CandidateLines_note y x) m l) !! c
  = if decide (c ∈ l)
    then Some (Add (default 0%Z (inCols m !! c)) (Z.of_nat (x + 1)))
    else inCols m !! c.
Proof.
  revert m. induction l as [|d l IH]; intros m.
  { cbn. rewrite decide_False; [done|]. apply not_elem_of_nil. }
  cbn [foldl]. rewrite IH. cbn [CandidateLines_note inCols].
  destruct (decide (c = d)) as [->|Hne].
  - rewrite (decide_True (P := d ∈ d :: l)) by left.
    rewrite !lookup_insert_eq. cbn [default from_option id]. rewrite Add_Add.
    by case_decide.
  - rewrite !lookup_insert_ne by done.
    destruct (decide (c ∈ l)) as [Hin|Hin].
    + by rewrite (decide_True (P := c ∈ d :: l)) by by right.
    + rewrite (decide_False (P := c ∈ d :: l)); [done|].
      rewrite elem_of_cons. tauto.
Qed.

Lemma Add_le c c0 v : bits_le c c0 → bits_le (Add c v) (Add c0 v).
Proof.
  intros H i. unfold Add. rewrite !Z.lor_spec, !orb_true_iff.
  intros [?|?]; [left; by apply H|by right].
Qed.

Lemma Add_ge c v : bits_le c (Add c v).
Proof. intros i Hi. unfold Add. by rewrite Z.lor_spec, Hi. Qed.

Lemma bits_le_0 c : bits_le 0 c.
Proof. intros i. by rewrite Z.bits_0. Qed.

Lemma occurrences_le_default m m0 c :
  occurrences_le m m0 →
  bits_le (default 0%Z (m !! c)) (default 0%Z (m0 !! c)).
Proof.
  intros H. destruct (m !! c) as [r|] eqn:E; cbn; [|apply bits_le_0].
  destruct (H c r E) as (r0 & -> & Hle). done.
Qed.

Lemma occurrences_le_notes (get : block_maps → gmap Z Candidates) k
    (l l0 : list Z) m m0 m' m0' :
  (∀ c, get m' !! c = if decide (c ∈ l)
          then Some (Add (default 0%Z (get m !! c)) k) else get m !! c) →
  (∀ c, get m0' !! c = if decide (c ∈ l0)
          then Some (Add (default 0%Z (get m0 !! c)) k) else get m0 !! c) →
  l ⊆ l0 → occurrences_le (get m) (get m0) →
  occurrences_le (get m') (get m0').
Proof.
  intros H H0 Hl Hle c r. rewrite H, H0.
  destruct (decide (c ∈ l)) as [Hin|Hin].
  - rewrite decide_True by by apply Hl. intros [= <-].
    eexists; split; [done|]. by apply Add_le, occurrences_le_default.
  - intros Hr. destruct (Hle c r Hr) as (r0 & Hr0 & Hle0).
    rewrite Hr0. case_decide; cbn.
    + eexists; split; [done|]. eapply bits_le_trans; [done|apply Add_ge].
    + by exists r0.
Qed.

Lemma maps_le_notes y x (l l0 : list Z) m m0 :
  l ⊆ l0 → maps_le m m0 →
  maps_le (foldl (CandidateLines_note y x) m l)
    (foldl (CandidateLines_note y x) m0 l0).
Proof.
  intros Hl (H1 & H2 & H3 & H4).
  destruct (CandidateLines_notes_rest y x l m) as [E1 E2].
  destruct (CandidateLines_notes_rest y x l0 m0) as [E3 E4].
  split_and!; [congruence|congruence| |].
  - apply (occurrences_le_notes inRows (Z.of_nat (y + 1)) l l0 m m0);
      [intros; apply CandidateLines_notes_rows..|done|done].
  - apply (occurrences_le_notes inCols (Z.of_nat (x + 1)) l l0 m m0);
      [intros; apply CandidateLines_notes_cols..|done|done].
Qed.

Lemma Decimals_mono c c0 :
  bits_le c c0 → (0 ≤ c0)%Z → Decimals c ⊆ Decimals c0.
Proof.
  intros Hle H0 v (Hc & Hv & Hb)%elem_of_Decimals.
  apply Hle in Hb. apply elem_of_Decimals. split_and!; [|done|done].
  destruct (decide (c0 = 0%Z)) as [->|]; [|lia].
  by rewrite Z.bits_0 in Hb.
Qed.

Lemma maps_le_refl m : maps_le m m.
Proof.
  split_and!; try done; intros c r Hr; exists r; split; try done;
    apply bits_le_refl.
Qed.

(** The maps of a block computed from [cands] and from [cands0], when the
    fields of [cands] have lost candidates only. *)
Lemma CandidateLines_maps_le N (cands cands0 : list (list Candidates))
    blkY blkX :
  square N cands → square N cands0 → nonneg cands0 →
  (∀ y x c0 c, cell cands0 y x = Some c0 → cell cands y x = Some c →
     bits_le c c0) →
  blkY < sqrt N → blkX < sqrt N →
  ∃ m m0, CandidateLines_maps N (sqrt N) cands blkY blkX = Ok m
        ∧ CandidateLines_maps N (sqrt N) cands0 blkY blkX = Ok m0
        ∧ maps_le m m0.
Proof.
  intros Hsq Hsq0 Hnn Hle HY HX. unfold CandidateLines_maps.
  apply (foldM_rel maps_le); [|apply maps_le_refl].
  intros m m0 yInBlk [_ Hy]%elem_of_seq (H1 & H2 & H3 & H4). cbv zeta.
  apply (foldM_rel maps_le).
  - intros m' m0' xInBlk [_ Hx]%elem_of_seq (H1' & H2' & H3' & H4').
    destruct (square_cell N cands (blkY * sqrt N + yInBlk)
                (blkX * sqrt N + xInBlk)) as [cs Hcs];
      [done|by apply sqrt_block..|].
    destruct (square_cell N cands0 (blkY * sqrt N + yInBlk)
                (blkX * sqrt N + xInBlk)) as [cs0 Hcs0];
      [done|by apply sqrt_block..|].
    do 2 eexists. cbv beta zeta.
    rewrite (index2_is_Ok _ _ _ _ Hcs), (index2_is_Ok _ _ _ _ Hcs0).
    cbn [mbind result_bind]. split_and!; [done..|].
    apply maps_le_notes.
    + apply Decimals_mono; [by eapply Hle|by eapply Hnn].
    + split_and!; cbn; try done; congruence.
  - split_and!; cbn; try done; congruence.
Qed.

(** ** CandidateLines *)

Lemma range_ok_map_to_list : range_ok map_to_list.
Proof. by intros m. Qed.

Lemma square_feedback4 : square 4 feedback4.
Proof. apply square_Forall; [reflexivity|]. by vm_compute; repeat constructor. Qed.

Lemma square_feedback4_candidates : square 4 feedback4_candidates.
Proof. apply square_Forall; [reflexivity|]. by vm_compute; repeat constructor. Qed.

Lemma nonneg_Forall (cands : list (list Candidates)) :
  Forall (Forall (λ c, 0 ≤ c)%Z) cands → nonneg cands.
Proof.
  intros H y x c (row & Hrow & Hc)%cell_Some.
  rewrite Forall_lookup in H. specialize (H _ _ Hrow).
  rewrite Forall_lookup in H. by apply (H x).
Qed.

Lemma nonneg_feedback4_candidates : nonneg feedback4_candidates.
Proof. apply nonneg_Forall. repeat constructor; lia. Qed.

Lemma small_words_nonneg cands : small_words cands → nonneg cands.
Proof. intros H y x c Hc. by apply H in Hc as [? _]. Qed.

Lemma small_words_Forall (cands : list (list Candidates)) :
  Forall (Forall (λ c, 0 ≤ c < 2 ^ 62)%Z) cands → small_words cands.
Proof.
  intros H y x c (row & Hrow & Hc)%cell_Some.
  rewrite Forall_lookup in H. specialize (H _ _ Hrow).
  rewrite Forall_lookup in H. by apply (H x c).
Qed.

Lemma small_words_feedback4_candidates : small_words feedback4_candidates.
Proof. apply small_words_Forall. repeat constructor; done. Qed.

Lemma small_words_le N (cands0 cands : list (list Candidates)) :
  square N cands0 → square N cands → small_words cands0 →
  (∀ y x c0 c, cell cands0 y x = Some c0 → cell cands y x = Some c →
     bits_le c c0) →
  small_words cands.
Proof.
  intros Hsq0 Hsq Hs Hle y x c Hc.
  destruct (square_cell_lt N _ y x c Hsq Hc) as [Hy Hx].
  destruct (square_cell N cands0 y x Hsq0 Hy Hx) as [c0 Hc0].
  pose proof (Hs _ _ _ Hc0).
  pose proof (bits_le_nonneg c c0 (Hle _ _ _ _ Hc0 Hc)). lia.
Qed.

(** The two outer loops visit the blocks in the order of [blocks]. *)
Lemma CandidateLines_blocks range_map N ab :
  0 < N → square N (board ab) → square N (candidates ab) →
  CandidateLines range_map ab
  = st ← foldM (CandidateLines_block range_map N (sqrt N))
          (candidates ab, false) (blocks (sqrt N));
    Ok (mkAnnotatedBoard (board ab) st.1, st.2).
Proof.
  intros HN Hb Hc. unfold CandidateLines.
  rewrite (AnnotatedBoard_Copy_square N) by done. cbn [mbind result_bind].
  rewrite (Size_square N) by done. cbn [mbind result_bind]. cbv zeta.
  rewrite (foldM_nested (CandidateLines_block range_map N (sqrt N))).
  unfold blocks.
  by destruct (foldM _ _ _) as [[cands succeeded]| |].
Qed.

Lemma CandidateLines_blocks_inv range_map N cands0 l st :
  range_ok range_map → square N cands0 → pass_inv N cands0 st →
  l ⊆ blocks (sqrt N) →
  ∃ st', foldM (CandidateLines_block range_map N (sqrt N)) st l = Ok st'
         ∧ pass_inv N cands0 st'.
Proof.
  intros Hrange Hsq Hst Hl. apply (foldM_inv (pass_inv N cands0)); [|done].
  intros s blk [HY HX]%Hl%elem_of_blocks Hs.
  by apply CandidateLines_block_inv.
Qed.

(** C7.  For every annotated board of a side [N = rt * rt < 64] (a board
    and candidates of that side, the candidate words in [0 .. 2^62 - 1]),
    [CandidateLines] returns, it leaves the board as it is, and it never
    adds a candidate: every field's candidate word in the result is bitwise
    below the one in the input, so every value it contains was contained
    before, and the words stay in that range.  The flag it returns is [true]
    exactly when some field has lost a value. *)
Theorem CandidateLines_only_removes range_map N rt ab :
  range_ok range_map → N = rt * rt → 0 < N → N < 64 →
  square N (board ab) → square N (candidates ab) →
  small_words (candidates ab) →
  ∃ cands succeeded,
    CandidateLines range_map ab
    = Ok (mkAnnotatedBoard (board ab) cands, succeeded)
    ∧ square N cands ∧ small_words cands
    ∧ (∀ y x c0 c,
         cell (candidates ab) y x = Some c0 → cell cands y x = Some c →
         bits_le c c0 ∧ ∀ v, Contains c v = true → Contains c0 v = true)
    ∧ (succeeded = true
       ↔ ∃ y x c0 c v,
           cell (candidates ab) y x = Some c0 ∧ cell cands y x = Some c
           ∧ Contains c0 v = true ∧ Contains c v = false).
Proof.
  intros Hrange _ HN _ Hb Hc Hsmall.
  destruct (CandidateLines_pass range_map N ab)
    as ([cands succeeded] & HCL & Hsq & Hle & Hf & Ht); [done..|].
  cbn [fst snd] in *. exists cands, succeeded. split_and!; [done..| | |].
  - by apply (small_words_le N (candidates ab)).
  - intros y x c0 c H0 H. split; [by eapply Hle|].
    intros v. apply Contains_mono. by eapply Hle.
  - split; [done|]. intros (y & x & c0 & c & v & H0 & H & Hin & Hout).
    destruct succeeded; [done|]. rewrite Hf in H by done. congruence.
Qed.

Lemma CandidateLines_only_removes_witness :
  ∃ cands succeeded,
    CandidateLines map_to_list (mkAnnotatedBoard feedback4 feedback4_candidates)
    = Ok (mkAnnotatedBoard
            (board (mkAnnotatedBoard feedback4 feedback4_candidates)) cands,
          succeeded)
    ∧ square 4 cands ∧ small_words cands
    ∧ (∀ y x c0 c,
         cell (candidates (mkAnnotatedBoard feedback4 feedback4_candidates)) y x
         = Some c0 →
         cell cands y x = Some c →
         bits_le c c0 ∧ ∀ v, Contains c v = true → Contains c0 v = true)
    ∧ (succeeded = true
       ↔ ∃ y x c0 c v,
           cell (candidates (mkAnnotatedBoard feedback4 feedback4_candidates))
             y x = Some c0
           ∧ cell cands y x = Some c
           ∧ Contains c0 v = true ∧ Contains c v = false).
Proof.
  apply (CandidateLines_only_removes map_to_list 4 2
           (mkAnnotatedBoard feedback4 feedback4_candidates)).
  - apply range_ok_map_to_list.
  - reflexivity.
  - lia.
  - lia.
  - apply square_feedback4.
  - apply square_feedback4_candidates.
  - apply small_words_feedback4_candidates.
Defined.

(** C2 (as amended).  The maps of a block are computed from the working
    copy [ab2] as it stands when the block is reached, that is from the input
    with the removals of the blocks before it: the pass is the run of the
    blocks [0 .. k-1] to a state [st], the maps [m] of block [k] read from
    [st], its two removal loops driven by [m], and the remaining blocks.
    Compared with the maps [m0] that the candidates of the input give for the
    block, [m] has the same [rowsNotInBlock] and [colsNotInBlock] and notes
    no occurrence that [m0] does not note; the two are the same as long as
    nothing has been removed, so for the first block.  The side is
    [N = rt * rt < 64] and the candidate words of the input lie in
    [0 .. 2^62 - 1], so that [Decimals] is applied to such words only. *)
Theorem CandidateLines_maps_from_copy range_map N rt ab k blk :
  range_ok range_map → N = rt * rt → 0 < N → N < 64 →
  square N (board ab) → square N (candidates ab) →
  small_words (candidates ab) →
  blocks (sqrt N) !! k = Some blk →
  ∃ st m m0 st1 st2 fin,
    foldM (CandidateLines_block range_map N (sqrt N)) (candidates ab, false)
      (take k (blocks (sqrt N))) = Ok st
    ∧ CandidateLines_maps N (sqrt N) st.1 blk.1 blk.2 = Ok m
    ∧ CandidateLines_cols range_map m st = Ok st1
    ∧ CandidateLines_rows range_map m st1 = Ok st2
    ∧ foldM (CandidateLines_block range_map N (sqrt N)) st2
        (drop (S k) (blocks (sqrt N))) = Ok fin
    ∧ CandidateLines range_map ab
      = Ok (mkAnnotatedBoard (board ab) fin.1, fin.2)
    ∧ CandidateLines_maps N (sqrt N) (candidates ab) blk.1 blk.2 = Ok m0
    ∧ maps_le m m0
    ∧ (st.2 = false → m = m0)
    ∧ (k = 0 → st = (candidates ab, false)).
Proof.
  intros Hrange _ HN _ Hb Hc Hnn%small_words_nonneg Hk.
  assert (blk.1 < sqrt N ∧ blk.2 < sqrt N) as [HY HX].
  { apply elem_of_blocks. by eapply list_elem_of_lookup_2. }
  destruct (CandidateLines_blocks_inv range_map N (candidates ab)
              (take k (blocks (sqrt N))) (candidates ab, false))
    as (st & Hst & Hinv); [done|done|by apply pass_inv_init| |].
  { apply subseteq_take. }
  destruct (CandidateLines_maps_le N st.1 (candidates ab) blk.1 blk.2)
    as (m & m0 & Hm & Hm0 & Hle); [apply Hinv|done|done|apply Hinv|done..|].
  destruct (CandidateLines_maps_ok N st.1 blk.1 blk.2)
    as (m' & Hm' & Hok); [apply Hinv|done..|].
  rewrite Hm in Hm'. injection Hm' as <-.
  destruct (CandidateLines_cols_inv range_map N (candidates ab) m st)
    as (st1 & Hst1 & Hinv1); [done..|].
  destruct (CandidateLines_rows_inv range_map N (candidates ab) m st1)
    as (st2 & Hst2 & Hinv2); [done..|].
  destruct (CandidateLines_blocks_inv range_map N (candidates ab)
              (drop (S k) (blocks (sqrt N))) st2)
    as (fin & Hfin & _); [done..| |].
  { apply subseteq_drop. }
  exists st, m, m0, st1, st2, fin. split_and!; try done.
  - assert (CandidateLines_block range_map N (sqrt N) st blk = Ok st2)
      as Hblk.
    { unfold CandidateLines_block. rewrite Hm. cbn [mbind result_bind].
      rewrite Hst1. done. }
    rewrite (CandidateLines_blocks range_map N) by done.
    rewrite <- (take_drop_middle _ _ _ Hk) at 1. rewrite foldM_app, Hst.
    cbn [mbind result_bind foldM]. rewrite Hblk. cbn [mbind result_bind].
    by rewrite Hfin.
  - intros Hf. destruct Hinv as (_ & _ & Heq & _).
    rewrite (Heq Hf) in Hm. congruence.
  - intros ->. rewrite take_0 in Hst. cbn in Hst. congruence.
Qed.

Lemma CandidateLines_maps_from_copy_witness :
  ∃ st m m0 st1 st2 fin,
    foldM (CandidateLines_block map_to_list 4 (sqrt 4))
      (candidates (mkAnnotatedBoard feedback4 feedback4_candidates), false)
      (take 3 (blocks (sqrt 4))) = Ok st
    ∧ CandidateLines_maps 4 (sqrt 4) st.1 (1, 1).1 (1, 1).2 = Ok m
    ∧ CandidateLines_cols map_to_list m st = Ok st1
    ∧ CandidateLines_rows map_to_list m st1 = Ok st2
    ∧ foldM (CandidateLines_block map_to_list 4 (sqrt 4)) st2
        (drop 4 (blocks (sqrt 4))) = Ok fin
    ∧ CandidateLines map_to_list
        (mkAnnotatedBoard feedback4 feedback4_candidates)
      = Ok (mkAnnotatedBoard
              (board (mkAnnotatedBoard feedback4 feedback4_candidates)) fin.1,
            fin.2)
    ∧ CandidateLines_maps 4 (sqrt 4)
        (candidates (mkAnnotatedBoard feedback4 feedback4_candidates))
        (1, 1).1 (1, 1).2 = Ok m0
    ∧ maps_le m m0
    ∧ (st.2 = false → m = m0)
    ∧ (3 = 0 → st
         = (candidates (mkAnnotatedBoard feedback4 feedback4_candidates),
            false)).
Proof.
  apply (CandidateLines_maps_from_copy map_to_list 4 2
           (mkAnnotatedBoard feedback4 feedback4_candidates) 3 (1, 1)).
  - apply range_ok_map_to_list.
  - reflexivity.
  - lia.
  - lia.
  - apply square_feedback4.
  - apply square_feedback4_candidates.
  - apply small_words_feedback4_candidates.
  - reflexivity.
Defined.

(** C2 as stated fails on [feedback4].  Block (0,1) has the value 2 in
    column 3 only and removes it from the field (3,3).  When block (1,1) is
    reached, its map [inRows] is computed from the copy: 2 occurs in row 2
    only ([8]), where the candidates of the input give the rows 2 and 3
    ([24]); so the pass goes on to remove 2 from the field (2,0), which the
    pass with the maps of the input does not. *)
Lemma CandidateLines_feeds_back :
  NewAnnotatedBoard feedback4
  = Ok (mkAnnotatedBoard feedback4 feedback4_candidates, false)
  ∧ blocks 2 !! 3 = Some (1, 1)
  ∧ (st ← foldM (CandidateLines_block map_to_list 4 2)
            (feedback4_candidates, false) (take 3 (blocks 2));
     m ← CandidateLines_maps 4 2 st.1 1 1;
     Ok (st, inRows m !! 2%Z))
    = Ok ([[16; 8; 2; 4]; [2; 4; 16; 8]; [12; 2; 4; 16]; [4; 16; 8; 2]]%Z,
          true, Some 8%Z)
  ∧ (m0 ← CandidateLines_maps 4 2 feedback4_candidates 1 1;
     Ok (inRows m0 !! 2%Z)) = Ok (Some 24%Z)
  ∧ CandidateLines map_to_list
      (mkAnnotatedBoard feedback4 feedback4_candidates)
    = Ok (mkAnnotatedBoard feedback4
            [[16; 8; 2; 4]; [2; 4; 16; 8]; [8; 2; 4; 16]; [4; 16; 8; 2]]%Z,
          true)
  ∧ CandidateLines_snapshot map_to_list
      (mkAnnotatedBoard feedback4 feedback4_candidates)
    = Ok (mkAnnotatedBoard feedback4
            [[16; 8; 2; 4]; [2; 4; 16; 8]; [12; 2; 4; 16]; [4; 16; 8; 2]]%Z,
          true).
Proof. split_and!; by vm_compute. Qed.

(** ** Candidate words as sets of values *)

Lemma shl1_testbit w i :
  (0 ≤ i)%Z →
  Z.testbit (shl1 w) i
  = bool_decide ((0 ≤ w ≤ 62 ∧ i = w)%Z ∨ (w = 63 ∧ 63 ≤ i)%Z).
Proof.
  intros Hi. destruct (shl1_cases w) as [Hs|[[Hw Hs]|[-> Hs]]].
  - rewrite Hs, Z.bits_0. symmetry. apply bool_decide_eq_false.
    intros [[Hw ->]|[-> _]].
    + rewrite shl1_pow in Hs by done. pose proof (Z.pow_pos_nonneg 2 w). lia.
    + by rewrite shl1_63 in Hs.
  - rewrite Hs, Z.pow2_bits_eqb by lia. destruct (Z.eqb_spec w i) as [->|Hne].
    + symmetry. apply bool_decide_eq_true. left. lia.
    + symmetry. apply bool_decide_eq_false. lia.
  - rewrite Hs. destruct (decide (i < 63)%Z).
    + rewrite neg_pow2_bits_low by lia. symmetry.
      apply bool_decide_eq_false. lia.
    + rewrite neg_pow2_bits_high by lia. symmetry.
      apply bool_decide_eq_true. lia.
Qed.

Lemma land_nonzero a b :
  Z.land a b ≠ 0%Z
  ↔ ∃ i, (0 ≤ i)%Z ∧ Z.testbit a i = true ∧ Z.testbit b i = true.
Proof.
  split.
  - intros H.
    assert (∃ i, (0 ≤ i)%Z ∧ Z.testbit (Z.land a b) i = true) as (i & Hi & Hb).
    { destruct (decide (0 < Z.land a b)%Z).
      - exists (Z.log2 (Z.land a b)). split; [apply Z.log2_nonneg|].
        by apply Z.bit_log2.
      - exists (Z.log2 (Z.abs (Z.land a b)) + 1)%Z.
        pose proof (Z.log2_nonneg (Z.abs (Z.land a b))).
        split; [lia|]. apply Z.bits_iff_neg; lia. }
    exists i. by rewrite Z.land_spec, andb_true_iff in Hb.
  - intros (i & Hi & Ha & Hb) H0.
    assert (Z.testbit (Z.land a b) i = true) as Hab
      by (by rewrite Z.land_spec, Ha, Hb).
    by rewrite H0, Z.bits_0 in Hab.
Qed.

Lemma Contains_bits c w :
  Contains c w = true
  ↔ ∃ i, (0 ≤ i)%Z ∧ Z.testbit c i = true
         ∧ ((0 ≤ w ≤ 62 ∧ i = w)%Z ∨ (w = 63 ∧ 63 ≤ i)%Z).
Proof.
  unfold Contains. rewrite negb_true_iff, Z.eqb_neq, land_nonzero.
  split; intros (i & Hi & Hc & Hw); exists i; split_and!; try done.
  - rewrite shl1_testbit in Hw by done. by apply bool_decide_eq_true in Hw.
  - rewrite shl1_testbit by done. by apply bool_decide_eq_true.
Qed.

Lemma Contains_Add_eq c v w :
  Contains (Add c v) w
  = Contains c w || bool_decide (w = v ∧ (0 ≤ v ≤ 63)%Z).
Proof.
  apply eq_true_iff_eq.
  rewrite orb_true_iff, bool_decide_eq_true, !Contains_bits. unfold Add. split.
  - intros (i & Hi & Hb & Hw). rewrite Z.lor_spec, orb_true_iff in Hb.
    destruct Hb as [Hb|Hb]; [left; eauto|]. right.
    rewrite shl1_testbit in Hb by done. apply bool_decide_eq_true in Hb. lia.
  - intros [(i & Hi & Hb & Hw)|[-> Hv]].
    + exists i. rewrite Z.lor_spec, Hb. done.
    + exists (Z.min v 63 + 0)%Z. rewrite Z.lor_spec, shl1_testbit by lia.
      split_and!; [lia| |lia]. apply orb_true_iff. right.
      apply bool_decide_eq_true. lia.
Qed.

Lemma Contains_Remove_eq c v w :
  Contains (Remove c v) w = Contains c w && negb (bool_decide (w = v)).
Proof.
  apply eq_true_iff_eq.
  rewrite andb_true_iff, negb_true_iff, bool_decide_eq_false, !Contains_bits.
  unfold Remove. split.
  - intros (i & Hi & Hb & Hw). rewrite Z.ldiff_spec, andb_true_iff in Hb.
    destruct Hb as [Hb Hv]. split; [eauto|]. intros ->.
    rewrite shl1_testbit, negb_true_iff in Hv by done.
    apply bool_decide_eq_false in Hv. lia.
  - intros [(i & Hi & Hb & Hw) Hne]. exists i.
    rewrite Z.ldiff_spec, Hb, shl1_testbit by done. split_and!; [done| |done].
    apply negb_true_iff, bool_decide_eq_false. lia.
Qed.

Lemma Remove_unrepresentable c v : (v < 0 ∨ 64 ≤ v)%Z → Remove c v = c.
Proof. intros Hv. unfold Remove. rewrite shl1_zero by done. apply Z.ldiff_0_r. Qed.

(** X1.  [Add], [Remove] and [Contains] are insertion, deletion and membership
    for the values [0..63]; a value outside that range is never contained,
    and adding or removing it leaves the word as it is. *)
Theorem Candidates_as_set c v w :
  Contains (Add c v) w = Contains c w || bool_decide (w = v ∧ (0 ≤ v ≤ 63)%Z)
  ∧ Contains (Remove c v) w = Contains c w && negb (bool_decide (w = v))
  ∧ ((v < 0 ∨ 64 ≤ v)%Z →
       Add c v = c ∧ Remove c v = c ∧ Contains c v = false).
Proof.
  split_and!; [apply Contains_Add_eq|apply Contains_Remove_eq|].
  intros Hv. split_and!.
  - unfold Add. rewrite shl1_zero by done. apply Z.lor_0_r.
  - by apply Remove_unrepresentable.
  - unfold Contains. rewrite shl1_zero by done. by rewrite Z.land_0_r.
Qed.

Lemma allCandidates_from_Contains n c v :
  Contains (allCandidates_from n c) v
  = Contains c v || bool_decide (1 ≤ v ≤ Z.of_nat n ∧ v ≤ 63)%Z.
Proof.
  revert c. induction n as [|n IH]; intros c; cbn [allCandidates_from].
  - rewrite bool_decide_eq_false_2 by lia. by rewrite orb_false_r.
  - rewrite IH, Contains_Add_eq, <- orb_assoc. f_equal.
    apply eq_true_iff_eq. rewrite orb_true_iff, !bool_decide_eq_true. lia.
Qed.

Lemma allCandidates_from_bits n c i :
  (0 ≤ i)%Z →
  Z.testbit (allCandidates_from n c) i
  = Z.testbit c i
    || bool_decide ((1 ≤ i ≤ Z.of_nat n ∧ i ≤ 62)%Z ∨ (63 ≤ n ∧ (63 ≤ i)%Z)).
Proof.
  intros Hi. revert c. induction n as [|n IH]; intros c; cbn [allCandidates_from].
  - rewrite bool_decide_eq_false_2 by lia. by rewrite orb_false_r.
  - rewrite IH. unfold Add. rewrite Z.lor_spec, shl1_testbit, <- orb_assoc by done.
    f_equal. apply eq_true_iff_eq.
    rewrite orb_true_iff, !bool_decide_eq_true. lia.
Qed.

Lemma allCandidates_closed n :
  allCandidates n = if decide (n ≤ 62) then (2 ^ (Z.of_nat n + 1) - 2)%Z else (-2)%Z.
Proof.
  apply Z.bits_inj'. intros i Hi. unfold allCandidates.
  rewrite allCandidates_from_bits, Z.bits_0, orb_false_l by done.
  case_decide as Hn.
  - replace (2 ^ (Z.of_nat n + 1) - 2)%Z
      with (Z.ones (Z.of_nat n) * 2 ^ 1)%Z.
    2:{ rewrite Z.ones_equiv, Z.pow_add_r by lia. lia. }
    rewrite Z.mul_pow2_bits by lia.
    case_bool_decide as H.
    + rewrite Z.ones_spec_low by lia. done.
    + destruct (decide (i = 0%Z)) as [->|]; [by rewrite Z.testbit_neg_r by lia|].
      rewrite Z.ones_spec_high by lia. done.
  - replace (-2)%Z with (-1 * 2 ^ 1)%Z by done.
    rewrite Z.mul_pow2_bits by lia.
    case_bool_decide as H.
    + rewrite Z.bits_m1 by lia. done.
    + rewrite Z.testbit_neg_r by lia. done.
Qed.

(** X2.  [allCandidates n] contains exactly the values [1..n] that fit the word:
    it is [2^(n+1) - 2] up to the side 62 and [-2] from the side 63 on, where
    the values above 63 are missing. *)
Theorem allCandidates_values n :
  (∀ v, Contains (allCandidates n) v
        = bool_decide (1 ≤ v ≤ Z.of_nat n ∧ v ≤ 63)%Z)
  ∧ allCandidates n
    = if decide (n ≤ 62) then (2 ^ (Z.of_nat n + 1) - 2)%Z else (-2)%Z.
Proof.
  split; [|apply allCandidates_closed].
  intros v. unfold allCandidates. rewrite allCandidates_from_Contains.
  unfold Contains at 1. by rewrite Z.land_0_l.
Qed.

(** X3.  [Complement] subtracts; for a word [c] all of whose values are among
    [1..size] (side at most 62) the difference is the set complement in
    [1..size], and complementing twice gives [c] back. *)
Theorem Complement_subset (c : Candidates) (size : nat) :
  size ≤ 62 → bits_le c (allCandidates size) →
  Complement c size = Z.ldiff (allCandidates size) c
  ∧ (∀ v, Contains (Complement c size) v
          = bool_decide (1 ≤ v ≤ Z.of_nat size)%Z && negb (Contains c v))
  ∧ Complement (Complement c size) size = c.
Proof.
  intros Hs Hle.
  pose proof (allCandidates_closed size) as Hall.
  rewrite decide_True in Hall by done.
  assert (0 ≤ allCandidates size < 2 ^ 63)%Z as Hrange.
  { rewrite Hall.
    assert (2 ^ 1 ≤ 2 ^ (Z.of_nat size + 1))%Z
      by (apply Z.pow_le_mono_r; lia).
    assert (2 ^ (Z.of_nat size + 1) ≤ 2 ^ 63)%Z
      by (apply Z.pow_le_mono_r; lia). lia. }
  pose proof (bits_le_nonneg _ _ Hle (proj1 Hrange)) as Hc.
  assert (0 < 2 ^ 63)%Z as Hpow by done.
  assert (allCandidates size - c = Z.ldiff (allCandidates size) c)%Z as Hsub.
  { apply Z.sub_nocarry_ldiff. apply Z.bits_inj'. intros n Hn.
    rewrite Z.ldiff_spec, Z.bits_0.
    destruct (Z.testbit c n) eqn:E; [|done]. by rewrite (Hle n E). }
  assert (Complement c size = Z.ldiff (allCandidates size) c) as HC.
  { unfold Complement. rewrite wrap64_small by lia. done. }
  assert (bits_le (Z.ldiff (allCandidates size) c) (allCandidates size)) as Hle'.
  { intros n. rewrite Z.ldiff_spec. by intros [? _]%andb_true_iff. }
  split_and!; [done| |].
  - intros v. rewrite HC. apply eq_true_iff_eq.
    rewrite andb_true_iff, negb_true_iff, bool_decide_eq_true.
    assert (∀ c', bits_le c' (allCandidates size) →
              ∀ n, (63 ≤ n)%Z → Z.testbit c' n = false) as Hhi.
    { intros c' Hc' n Hn. destruct (Z.testbit c' n) eqn:E; [|done].
      apply Hc' in E. rewrite allCandidates_testbit in E by done.
      apply bool_decide_eq_true in E. lia. }
    rewrite (Contains_spec _ _ (Hhi _ Hle')), Z.ldiff_spec, andb_true_iff.
    rewrite allCandidates_testbit, bool_decide_eq_true, negb_true_iff by done.
    split.
    + intros (Hv & Hv' & Hb). split; [done|].
      destruct (Contains c v) eqn:E; [|done].
      apply (Contains_spec _ _ (Hhi _ Hle)) in E. destruct E. congruence.
    + intros [Hv Hb]. split; [lia|]. split; [done|].
      destruct (Z.testbit c v) eqn:E; [|done].
      rewrite <- Hb. symmetry. apply (Contains_spec _ _ (Hhi _ Hle)).
      split; [lia|done].
  - rewrite HC. unfold Complement.
    pose proof (bits_le_nonneg _ _ Hle' (proj1 Hrange)).
    rewrite Z.sub_nocarry_ldiff.
    + rewrite wrap64_small.
      * apply Z.bits_inj'. intros n Hn. rewrite !Z.ldiff_spec.
        destruct (Z.testbit c n) eqn:E; [by rewrite (Hle n E)|].
        by destruct (Z.testbit (allCandidates size) n).
      * pose proof (bits_le_nonneg (Z.ldiff (allCandidates size)
                      (Z.ldiff (allCandidates size) c)) (allCandidates size)).
        assert (bits_le (Z.ldiff (allCandidates size)
                  (Z.ldiff (allCandidates size) c)) (allCandidates size)) as H'.
        { intros n. rewrite Z.ldiff_spec. by intros [? _]%andb_true_iff. }
        pose proof (bits_le_nonneg _ _ H' (proj1 Hrange)). lia.
    + apply Z.bits_inj'. intros n Hn. rewrite !Z.ldiff_spec, Z.bits_0.
      by destruct (Z.testbit (allCandidates size) n), (Z.testbit c n).
Qed.

Lemma bits_le_of_land c c0 : Z.land c c0 = c → bits_le c c0.
Proof.
  intros H i Hi. rewrite <- H, Z.land_spec in Hi.
  by apply andb_true_iff in Hi as [_ ?].
Qed.

Lemma Complement_subset_witness :
  4 ≤ 62 ∧ bits_le 6%Z (allCandidates 4)
  ∧ Complement 6%Z 4 = Z.ldiff (allCandidates 4) 6%Z
  ∧ (∀ v, Contains (Complement 6%Z 4) v
          = bool_decide (1 ≤ v ≤ Z.of_nat 4)%Z && negb (Contains 6%Z v))
  ∧ Complement (Complement 6%Z 4) 4 = 6%Z.
Proof.
  split; [lia|]. split; [by apply bits_le_of_land|].
  apply (Complement_subset 6%Z 4); [lia|by apply bits_le_of_land].
Defined.

Lemma Single_power c : Single c = true ↔ ∃ k, (0 ≤ k)%Z ∧ c = (2 ^ k)%Z.
Proof.
  split.
  - unfold Single. intros [Hpos Hz]%andb_true_iff.
    apply Z.ltb_lt in Hpos. apply Z.eqb_eq in Hz.
    exists (Z.log2 c). split; [apply Z.log2_nonneg|].
    destruct (Z.log2_spec c Hpos) as [Hlo Hhi].
    destruct (decide (c = 2 ^ Z.log2 c)%Z) as [|Hne]; [done|]. exfalso.
    assert (Z.log2 (c - 1) = Z.log2 c) as Hl.
    { apply Z.log2_unique; [apply Z.log2_nonneg|lia]. }
    assert (Z.testbit (Z.land c (c - 1)) (Z.log2 c) = true) as Hb.
    { rewrite Z.land_spec, andb_true_iff. split; [by apply Z.bit_log2|].
      rewrite <- Hl. apply Z.bit_log2.
      pose proof (Z.log2_nonneg c).
      pose proof (Z.pow_pos_nonneg 2 (Z.log2 c)). lia. }
    by rewrite Hz, Z.bits_0 in Hb.
  - intros (k & Hk & ->). by apply Single_pow2.
Qed.

Lemma Decimals_power (k : Z) : (1 ≤ k)%Z → Decimals (2 ^ k)%Z = [k].
Proof.
  intros Hk.
  assert (∀ v, v ∈ Decimals (2 ^ k)%Z ↔ v = k) as Hin.
  { intros v. rewrite elem_of_Decimals, Z.pow2_bits_eqb by lia.
    pose proof (Z.pow_pos_nonneg 2 k). rewrite Z.eqb_eq. split; [lia|].
    intros ->. lia. }
  pose proof (Decimals_NoDup (2 ^ k)%Z) as Hnd.
  destruct (Decimals (2 ^ k)%Z) as [|a [|b l]].
  - pose proof (proj2 (Hin k) eq_refl) as H. by apply elem_of_nil in H.
  - f_equal. apply Hin. by left.
  - exfalso. assert (a = k) as -> by (apply Hin; by left).
    assert (b = k) as -> by (apply Hin; right; by left).
    apply NoDup_cons in Hnd as [Hnd _]. apply Hnd. by left.
Qed.

Lemma Single_Decimals c :
  Single c = true →
  ∃ k, (0 ≤ k)%Z ∧ c = (2 ^ k)%Z
       ∧ Decimals c = if decide (k = 0%Z) then [] else [k].
Proof.
  intros (k & Hk & ->)%Single_power. exists k. split_and!; [done..|].
  case_decide as H0; [by subst|]. apply Decimals_power. lia.
Qed.

(** X4.  [Single] holds exactly for the powers of two, and [Decimals] then
    lists the one value, except for the word [1], whose only bit is bit 0
    and for which it lists nothing. *)
Theorem Single_one_value c :
  Single c = true
  ↔ ∃ k, (0 ≤ k)%Z ∧ c = (2 ^ k)%Z
         ∧ Decimals c = if decide (k = 0%Z) then [] else [k].
Proof.
  split; [apply Single_Decimals|].
  intros (k & ? & ? & _). apply Single_power. eauto.
Qed.

(** ** Boards *)

Lemma FirstEmpty_row_first row k x :
  FirstEmpty_row row k = Some x
  ↔ ∃ i, x = k + i ∧ row !! i = Some 0%Z
         ∧ ∀ j, j < i → row !! j ≠ Some 0%Z.
Proof.
  revert k. induction row as [|v row IH]; intros k; cbn [FirstEmpty_row].
  { split; [done|]. by intros (i & _ & ? & _). }
  case_decide as Hv.
  - subst v. split.
    + intros [= <-]. exists 0. split_and!; [lia|done|lia].
    + intros (i & -> & Hi & Hbefore). destruct i as [|i]; [f_equal; lia|].
      by destruct (Hbefore 0); [lia|].
  - rewrite IH. split.
    + intros (i & -> & Hi & Hbefore). exists (S i). split_and!; [lia|done|].
      intros [|j] Hj; cbn; [congruence|]. apply Hbefore. lia.
    + intros (i & -> & Hi & Hbefore). destruct i as [|i]; [cbn in Hi; congruence|].
      exists i. split_and!; [lia|done|]. intros j Hj. apply (Hbefore (S j)). lia.
Qed.

Lemma FirstEmpty_row_no row k :
  FirstEmpty_row row k = None ↔ ∀ j, row !! j ≠ Some 0%Z.
Proof.
  destruct (FirstEmpty_row row k) as [x|] eqn:E.
  - apply FirstEmpty_row_first in E as (i & _ & Hi & _). split; [done|].
    intros H. by destruct (H i).
  - split; [|done]. intros _ j Hj.
    by eapply FirstEmpty_row_None in E.
Qed.

Lemma FirstEmpty_from_first bo k y x :
  FirstEmpty_from bo k = Some (y, x)
  ↔ ∃ i, y = k + i ∧ cell bo i x = Some 0%Z
         ∧ ∀ y' x', (y' < i ∨ (y' = i ∧ x' < x)) → cell bo y' x' ≠ Some 0%Z.
Proof.
  revert k. induction bo as [|row bo IH]; intros k; cbn [FirstEmpty_from].
  { split; [done|]. by intros (i & _ & ? & _). }
  destruct (FirstEmpty_row row 0) as [x0|] eqn:E.
  - apply FirstEmpty_row_first in E as (i0 & -> & Hi0 & Hb0). split.
    + intros [= <- <-]. exists 0. split_and!; [lia|done|].
      intros y' x' [?|[-> Hx']]; [lia|]. by apply Hb0.
    + intros (i & -> & Hi & Hbefore). destruct i as [|i].
      * f_equal. f_equal; [lia|].
        destruct (Nat.lt_trichotomy x (0 + i0)) as [Hlt|[->|Hgt]]; [|done|].
        -- by destruct (Hb0 x).
        -- by destruct (Hbefore 0 (0 + i0)); [lia|].
      * by destruct (Hbefore 0 (0 + i0)); [lia|].
  - rewrite IH. pose proof (proj1 (FirstEmpty_row_no row 0) E) as Hno. split.
    + intros (i & -> & Hi & Hbefore). exists (S i). split_and!; [lia|done|].
      intros [|y'] x' H; [apply Hno|]. apply Hbefore. lia.
    + intros (i & -> & Hi & Hbefore). destruct i as [|i]; [by destruct (Hno x)|].
      exists i. split_and!; [lia|done|].
      intros y' x' H. apply (Hbefore (S y') x'). lia.
Qed.

(** X5.  [FirstEmpty] finds the first field holding [0] in the order of the
    rows, and [Full] tells that no field holds [0]: a negative value counts
    as filled. *)
Theorem FirstEmpty_first (bo : Board) :
  (∀ y x, FirstEmpty bo = Some (y, x)
          ↔ cell bo y x = Some 0%Z
            ∧ ∀ y' x', (y' < y ∨ (y' = y ∧ x' < x)) → cell bo y' x' ≠ Some 0%Z)
  ∧ (Full bo = true ↔ ∀ y x, cell bo y x ≠ Some 0%Z).
Proof.
  split.
  - intros y x. unfold FirstEmpty. rewrite FirstEmpty_from_first. split.
    + by intros (i & -> & ? & ?).
    + intros [? ?]. by exists y.
  - rewrite Full_true. split.
    + intros H y x Hc. by apply H in Hc.
    + intros H y x v Hc ->. by apply H in Hc.
Qed.

(** X6.  [Copy] builds as many rows as the first row is long and cuts or fills
    every row to that length: it panics on a board without rows and on one
    with more rows than columns, and it leaves missing rows empty. *)
Theorem Board_Copy_rows (bo : Board) :
  Board_Copy bo
  = match bo with
    | [] => Panic
    | row0 :: _ =>
        if decide (length bo ≤ length row0)
        then Ok ((resize (length row0) 0%Z <$> bo)
                 ++ replicate (length row0 - length bo) [])
        else Panic
    end.
Proof.
  destruct bo as [|row0 bo]; [done|].
  unfold Board_Copy, Size. cbn [index lookup list_lookup mbind result_bind].
  case_decide as Hl.
  - rewrite for_range_assign by (by rewrite length_replicate).
    rewrite take_0, drop_replicate, Nat.add_0_l. done.
  - apply for_range_assign_fail; rewrite ?length_replicate; lia.
Qed.

(** *** The empty board *)

Lemma foldM_panic {A St} (f : St → A → result St) l a s :
  a ∈ l → (∀ s, f s a = Panic) → (∀ s b, f s b ≠ OutOfFuel) →
  foldM f s l = Panic.
Proof.
  intros Hin Ha Hf. revert s.
  induction l as [|b l IH]; intros s; [by apply elem_of_nil in Hin|].
  cbn [foldM]. apply elem_of_cons in Hin as [<-|Hin].
  - by rewrite Ha.
  - destruct (f s b) eqn:E; cbn; [by apply IH|done|by apply Hf in E].
Qed.

Lemma bind_no_fuel {A B} (m : result A) (f : A → result B) :
  m ≠ OutOfFuel → (∀ a, f a ≠ OutOfFuel) → m ≫= f ≠ OutOfFuel.
Proof. intros Hm Hf. destruct m; cbn; [apply Hf|done|done]. Qed.

Lemma index_no_fuel {A} (s : list A) i : index s i ≠ OutOfFuel.
Proof. unfold index. by destruct (s !! i). Qed.

Lemma assign2_no_fuel {A} (g : list (list A)) y x a :
  assign2 g y x a ≠ OutOfFuel.
Proof.
  unfold assign2. destruct (index g y) as [l| |] eqn:E1; cbn;
    [|done|by apply index_no_fuel in E1].
  destruct (assign l x a) eqn:E2; cbn.
  - unfold assign. by case_decide.
  - done.
  - unfold assign in E2. by case_decide.
Qed.

Lemma Annotate_fill_zeros rt cells st :
  (∀ y x v, (y, x, v) ∈ cells → (v ≤ 0)%Z) →
  Annotate_fill rt cells st = Ok (st, false).
Proof.
  induction cells as [|[[y x] v] cells IH]; intros H; [done|].
  cbn [Annotate_fill]. rewrite decide_False.
  - apply IH. intros ????. eapply H. by right.
  - assert ((y, x, v) ∈ (y, x, v) :: cells) as Hin by left.
    apply H in Hin. lia.
Qed.

Lemma Annotate_empty_panic N :
  0 < N → sqrt N * sqrt N < N →
  Annotate (mkAnnotatedBoard (replicate N (replicate N 0%Z)) []) = Panic.
Proof.
  intros HN Hrt. unfold Annotate. cbn [board].
  rewrite (Board_Copy_square N) by (by apply square_replicate || done).
  cbn [mbind result_bind].
  rewrite (Size_square N) by (by apply square_replicate || done).
  cbn [mbind result_bind]. cbv zeta.
  rewrite Annotate_fill_zeros.
  2:{ intros y x v ->%elem_of_enumerate2%cell_replicate. done. }
  cbn [mbind result_bind]. unfold Annotate_rest.
  cbn [acc_cands acc_rows acc_cols acc_blocks].
  rewrite (foldM_panic _ _ (0, sqrt N * sqrt N, 0%Z)); [done| | |].
  - apply elem_of_enumerate2, cell_Some. exists (replicate N 0%Z).
    split; [apply lookup_replicate_2; lia|]. by apply lookup_replicate_2.
  - intros g. rewrite decide_False by lia.
    assert (0 < sqrt N) as Hpos.
    { pose proof (Nat.sqrt_spec N). unfold sqrt. nia. }
    rewrite (index_is_Ok (A:=Candidates) (replicate N 0%Z) 0 0%Z)
      by (apply lookup_replicate_2; lia).
    cbn [mbind result_bind].
    rewrite (index_is_Ok (A:=Candidates) (replicate N 0%Z) (sqrt N * sqrt N) 0%Z)
      by (by apply lookup_replicate_2).
    cbn [mbind result_bind].
    rewrite Nat.Div0.div_0_l, Nat.div_mul by lia.
    unfold index2, newBlockCandidates, index.
    rewrite lookup_replicate_2 by lia. cbn [mbind result_bind].
    destruct (_ !! sqrt N) eqn:E; [|done].
    apply lookup_replicate in E. lia.
  - intros g [[y x] v]. case_decide; [done|].
    apply bind_no_fuel; [apply index_no_fuel|intros r].
    apply bind_no_fuel; [apply index_no_fuel|intros c].
    apply bind_no_fuel; [|intros b; apply assign2_no_fuel].
    apply bind_no_fuel; [apply index_no_fuel|intros row; apply index_no_fuel].
Qed.

Lemma square_all_equal {A} N (g : list (list A)) a :
  square N g → (∀ y x c, cell g y x = Some c → c = a) →
  g = replicate N (replicate N a).
Proof.
  intros Hsq Hall. apply (square_ext N); [done|by apply square_replicate|].
  intros y x. destruct (cell g y x) as [c|] eqn:E.
  - apply Hall in E as Hc. subst c.
    destruct (square_cell_lt N g y x a Hsq E) as [Hy Hx].
    symmetry. apply cell_Some. exists (replicate N a).
    split; by apply lookup_replicate.
  - destruct (cell (replicate N (replicate N a)) y x) as [c|] eqn:E'; [|done].
    destruct (square_cell_lt N _ y x c (square_replicate N N a eq_refl) E').
    destruct (square_cell N g y x Hsq) as [? ?]; [done..|congruence].
Qed.

(** X7.  Annotating the empty board of a side that is a positive perfect square
    gives every field all candidates and no error; for every other side the
    call panics: [make] refuses a negative size, [Size] reads the first row
    of a board without rows, and the block of the field [(0, rt * rt)] does
    not exist when [rt * rt] is below the side. *)
Theorem NewAnnotatedBoard_empty (size : Z) :
  (bo ← NewEmptyBoard size; NewAnnotatedBoard bo)
  = if decide (0 < size
               ∧ Z.of_nat (sqrt (Z.to_nat size) * sqrt (Z.to_nat size)) = size)%Z
    then Ok (mkAnnotatedBoard
               (replicate (Z.to_nat size) (replicate (Z.to_nat size) 0%Z))
               (replicate (Z.to_nat size)
                  (replicate (Z.to_nat size) (allCandidates (Z.to_nat size)))),
             false)
    else Panic.
Proof.
  unfold NewEmptyBoard. case_decide as Hneg.
  { rewrite decide_False by lia. done. }
  cbn [mbind result_bind]. set (N := Z.to_nat size).
  destruct (decide (N = 0)) as [HN0|HN0].
  { rewrite decide_False by lia. by rewrite HN0. }
  unfold NewAnnotatedBoard.
  rewrite (Board_Copy_square N) by (by apply square_replicate || lia).
  cbn [mbind result_bind]. case_decide as Hsq.
  - destruct (Annotate_unrepresentable N (sqrt N)
                (replicate N (replicate N 0%Z)) [])
      as (cands & -> & Hc & Hall); [lia|lia|by apply square_replicate| |].
    { intros y x v ->%cell_replicate. by left. }
    by rewrite (square_all_equal N cands (allCandidates N)).
  - apply Annotate_empty_panic; [lia|].
    pose proof (Nat.sqrt_spec N). unfold sqrt in *. lia.
Qed.

(** ** Backtrack: what the search returns *)

Lemma backtrack_values_keeps (P : Board → Prop) rec bo0 y x vs ab sols stop sols' :
  (∀ v, set_cell (board ab) y x v = set_cell bo0 y x v) →
  (∀ v cands sols0 stop0 sols0', v ∈ vs →
     rec (mkAnnotatedBoard (set_cell bo0 y x v) cands) sols0 = Ok (stop0, sols0') →
     ∀ s, s ∈ sols0' → s ∈ sols0 ∨ P s) →
  backtrack_values rec ab y x vs sols = Ok (stop, sols') →
  ∀ s, s ∈ sols' → s ∈ sols ∨ P s.
Proof.
  revert ab sols. induction vs as [|v vs IH]; intros ab sols Hab Hrec.
  { intros [= _ <-] s Hs. by left. }
  cbn [backtrack_values]. intros (bo & [_ ->]%assign2_Ok & H)%bind_Ok.
  rewrite Hab in H. apply bind_Ok in H as ([stop1 sols1] & Hr & H).
  pose proof (Hrec v _ _ _ _ ltac:(by left) Hr) as H1.
  destruct stop1.
  - injection H as _ <-. done.
  - intros s Hs.
    destruct (IH (mkAnnotatedBoard (set_cell bo0 y x v) (candidates ab)) sols1)
      with (s := s) as [Hin|HP]; try done.
    + intros w. cbn [board]. apply set_cell_set_cell.
    + intros w cands sols0 stop0 sols0' Hw. apply Hrec. by right.
    + by apply H1.
    + by right.
Qed.

Lemma Decimals_annotated N rt bo cands y x c v :
  N ≤ 62 → annotated N rt bo cands →
  cell bo y x = Some 0%Z → cell cands y x = Some c → v ∈ Decimals c →
  (1 ≤ v ≤ Z.of_nat N)%Z ∧ ¬ placed rt bo y x v.
Proof.
  intros Hfit Hann H0 Hc (Hpos & Hv & Hb)%elem_of_Decimals.
  destruct (Hann y x _ c H0 Hc) as [Hempty _]. specialize (Hempty eq_refl).
  destruct (decide (v ≤ 62)%Z) as [Hle|Hgt].
  - apply Hempty. by rewrite Contains_testbit by lia.
  - assert (Contains c 63 = true) as H63.
    { apply Contains_bits. exists v. split_and!; [lia|done|right; lia]. }
    apply Hempty in H63. lia.
Qed.

Lemma not_duplicate_set_cell N rt bo y x v :
  square N bo → cell bo y x = Some 0%Z → ¬ duplicate rt bo →
  ¬ placed rt bo y x v → ¬ duplicate rt (set_cell bo y x v).
Proof.
  intros Hsq H0 Hnd Hnp (y1 & x1 & y2 & x2 & w & H1 & H2 & Hne & Hw & Hrel).
  rewrite cell_set_cell in H1, H2 by eauto.
  destruct (decide (y1 = y ∧ x1 = x)) as [[-> ->]|Hd1];
    destruct (decide (y2 = y ∧ x2 = x)) as [[-> ->]|Hd2].
  - done.
  - injection H1 as <-. apply Hnp.
    destruct Hrel as [->|[->|[Hy Hx]]]; [left|right; left|right; right].
    + by exists x2.
    + by exists y2.
    + by exists y2, x2.
  - injection H2 as <-. apply Hnp.
    destruct Hrel as [->|[->|[Hy Hx]]]; [left|right; left|right; right].
    + by exists x1.
    + by exists y1.
    + by exists y1, x1.
  - apply Hnd. by exists y1, x1, y2, x2, w.
Qed.

Lemma backtrack_sound N rt k fuel ab sols stop sols' :
  N = rt * rt → 0 < N → N < 64 → square N (board ab) →
  values_in N (board ab) →
  backtrack fuel ab k sols = Ok (stop, sols') →
  ∀ s, s ∈ sols' → s ∈ sols ∨ (values_in N s ∧ ¬ duplicate rt s).
Proof.
  intros HN Hpos Hfit. revert ab sols stop sols'.
  induction fuel as [|fuel IH]; intros [bo cands0] sols stop sols' Hsq Hval;
    [done|].
  cbn [board] in *. cbn [backtrack].
  destruct (Annotate_spec N rt bo cands0 HN Hpos Hfit Hsq Hval)
    as (cands & err & -> & Hc & _ & Herr & Hann).
  cbn [mbind result_bind]. destruct err.
  { intros [= _ <-] s Hs. by left. }
  specialize (Hann eq_refl). cbn [board candidates].
  assert (¬ duplicate rt bo) as Hnd by (intros Hd; by apply Herr in Hd).
  destruct (FirstEmpty bo) as [[y x]|] eqn:HFE.
  - pose proof (FirstEmpty_Some _ _ _ HFE) as H0.
    destruct (square_cell_lt N bo y x _ Hsq H0) as [Hy Hx].
    destruct (square_cell N cands y x Hc Hy Hx) as [c Hcc].
    rewrite (index2_is_Ok _ _ _ _ Hcc). cbn [mbind result_bind].
    apply backtrack_values_keeps with (bo0 := bo); [done|].
    intros v cands' sols0 stop0 sols0' Hv.
    pose proof (square_side_small N rt HN Hfit) as Hsmall.
    destruct (Decimals_annotated N rt bo cands y x c v) as [Hvr Hnp];
      [lia|done..|].
    apply IH; cbn [board].
    + by apply square_set_cell.
    + apply values_in_set_cell; [done|eauto|lia].
  - intros [= _ <-] s [Hs| ->%list_elem_of_singleton]%elem_of_app;
      [by left|by right].
Qed.

(** X8.  Every board that [Backtrack] returns is a completion of the given
    board: it is full with values [1..N], it has no value twice in a row, a
    column or a block, and it keeps the given values (side below 64). *)
Theorem Backtrack_sound N rt ab k :
  N = rt * rt → 0 < N → N < 64 → square N (board ab) →
  values_in N (board ab) →
  ∃ solved solutions,
    Backtrack ab k = Ok (solved, solutions)
    ∧ ∀ s, s ∈ solutions → completion N rt (board ab) s.
Proof.
  intros HN Hpos Hfit Hsq Hval.
  destruct (Backtrack_spec N rt k ab HN Hpos Hsq)
    as (solved & sols & HB & _ & Hall & _).
  exists solved, sols. split; [done|]. intros s Hs.
  destruct (Hall s Hs) as (Hssq & Hfull & Hext).
  destruct (backtrack_sound N rt k _ ab [] solved sols HN Hpos Hfit Hsq Hval HB s Hs)
    as [Hin|[Hsval Hsnd]]; [by apply elem_of_nil in Hin|].
  split; [|done]. split_and!; [done| |done].
  intros y x v Hv. pose proof (Hsval _ _ _ Hv).
  pose proof (proj1 (Full_true s) Hfull _ _ _ Hv). lia.
Qed.

Lemma Backtrack_sound_witness :
  ∃ solved solutions,
    Backtrack (mkAnnotatedBoard unsolved4 annotated4) 2 = Ok (solved, solutions)
    ∧ ∀ s, s ∈ solutions
           → completion 4 2 (board (mkAnnotatedBoard unsolved4 annotated4)) s.
Proof.
  apply (Backtrack_sound 4 2 (mkAnnotatedBoard unsolved4 annotated4) 2).
  - reflexivity.
  - lia.
  - lia.
  - apply square_unsolved4.
  - apply values_in_unsolved4.
Defined.

Lemma backtrack_values_grow rec bo0 y x vs ab sols stop sols' :
  (∀ v cands sols0 stop0 sols0', v ∈ vs →
     rec (mkAnnotatedBoard (set_cell bo0 y x v) cands) sols0 = Ok (stop0, sols0') →
     sols0 ⊆ sols0') →
  (∀ v, set_cell (board ab) y x v = set_cell bo0 y x v) →
  backtrack_values rec ab y x vs sols = Ok (stop, sols') →
  sols ⊆ sols'.
Proof.
  revert ab sols. induction vs as [|v vs IH]; intros ab sols Hm Hab.
  { by intros [= _ <-]. }
  cbn [backtrack_values]. intros (bo & [_ ->]%assign2_Ok & H)%bind_Ok.
  rewrite Hab in H. apply bind_Ok in H as ([stop1 sols1] & Hr & H).
  pose proof (Hm v _ _ _ _ ltac:(by left) Hr) as H1.
  destruct stop1; [by injection H as _ <-|].
  etrans; [exact H1|].
  apply (IH (mkAnnotatedBoard (set_cell bo0 y x v) (candidates ab)) sols1);
    [|intros w; apply set_cell_set_cell|done].
  intros w ???? Hw. apply Hm. by right.
Qed.

Lemma backtrack_values_exhaustive rec bo0 y x vs ab sols sols' (s : Board) v0 :
  (∀ v, set_cell (board ab) y x v = set_cell bo0 y x v) →
  (∀ v cands sols0 stop0 sols0', v ∈ vs →
     rec (mkAnnotatedBoard (set_cell bo0 y x v) cands) sols0 = Ok (stop0, sols0') →
     sols0 ⊆ sols0') →
  (∀ cands sols0 sols0',
     rec (mkAnnotatedBoard (set_cell bo0 y x v0) cands) sols0 = Ok (false, sols0') →
     s ∈ sols0') →
  v0 ∈ vs →
  backtrack_values rec ab y x vs sols = Ok (false, sols') →
  s ∈ sols'.
Proof.
  intros Hab Hmono Hv0. revert ab sols Hab Hmono.
  induction vs as [|v vs IH]; intros ab sols Hab Hmono Hin;
    [by apply elem_of_nil in Hin|].
  cbn [backtrack_values]. intros (bo & [_ ->]%assign2_Ok & H)%bind_Ok.
  rewrite Hab in H. apply bind_Ok in H as ([stop1 sols1] & Hr & H).
  destruct stop1; [done|].
  assert (∀ w cands sols0 stop0 sols0', w ∈ vs →
     rec (mkAnnotatedBoard (set_cell bo0 y x w) cands) sols0 = Ok (stop0, sols0') →
     sols0 ⊆ sols0') as Hmono'.
  { intros w ???? Hw. apply Hmono. by right. }
  apply elem_of_cons in Hin as [->|Hin].
  - apply Hv0 in Hr.
    eapply (backtrack_values_grow rec bo0 y x vs
              (mkAnnotatedBoard (set_cell bo0 y x v) (candidates ab)));
      [done|intros w; apply set_cell_set_cell|done|done].
  - apply (IH (mkAnnotatedBoard (set_cell bo0 y x v) (candidates ab)) sols1);
      [intros w; apply set_cell_set_cell|done|done|done].
Qed.

Lemma full_completion N rt (bo s : Board) :
  square N bo → Full bo = true → completion N rt bo s → s = bo.
Proof.
  intros Hsq Hfull [(Hs & _) Hext]. apply (square_ext N); [done..|].
  intros y x. destruct (cell bo y x) as [v|] eqn:E.
  - apply Hext; [done|]. by eapply Full_true.
  - destruct (cell s y x) as [w|] eqn:E'; [|done].
    destruct (square_cell_lt N s y x w Hs E').
    destruct (square_cell N bo y x Hsq) as [? ?]; [done..|congruence].
Qed.

Lemma backtrack_exhaustive N rt k fuel ab sols sols' s :
  N = rt * rt → 0 < N → N < 64 → square N (board ab) →
  values_in N (board ab) → zeros (board ab) < fuel →
  completion N rt (board ab) s →
  backtrack fuel ab k sols = Ok (false, sols') → s ∈ sols'.
Proof.
  intros HN Hpos Hfit. revert ab sols sols'.
  induction fuel as [|fuel IH]; intros [bo cands0] sols sols' Hsq Hval Hfuel Hcomp;
    [lia|].
  cbn [board] in *. cbn [backtrack].
  destruct (Annotate_spec N rt bo cands0 HN Hpos Hfit Hsq Hval)
    as (cands & err & -> & Hc & _ & Herr & Hann).
  cbn [mbind result_bind]. destruct err.
  { exfalso. eapply completion_no_duplicate; [done|]. by apply Herr. }
  specialize (Hann eq_refl). cbn [board candidates].
  destruct (FirstEmpty bo) as [[y x]|] eqn:HFE.
  - pose proof (FirstEmpty_Some _ _ _ HFE) as H0.
    destruct (square_cell_lt N bo y x _ Hsq H0) as [Hy Hx].
    destruct (square_cell N cands y x Hc Hy Hx) as [c Hcc].
    rewrite (index2_is_Ok _ _ _ _ Hcc). cbn [mbind result_bind].
    destruct (completion_candidate N rt bo s cands y x c)
      as (v & Hv & Hin & Hvr & Hcomp'); try done.
    { pose proof (square_side_small N rt HN Hfit). lia. }
    apply (backtrack_values_exhaustive _ bo y x (Decimals c) _ sols sols' s v);
      [done| | |done].
    + intros w cands' sols0 stop0 sols0' Hw%Decimals_pos_elem Hr.
      destruct (backtrack_spec N rt k fuel
                  (mkAnnotatedBoard (set_cell bo y x w) cands') sols0)
        as (stop1 & new & Heq & _); try done.
      * by apply square_set_cell.
      * cbn [board]. pose proof (zeros_set_cell bo y x w H0). lia.
      * rewrite Hr in Heq. injection Heq as _ ->.
        intros b Hb. apply elem_of_app. by left.
    + intros cands' sols0 sols0'.
      apply (IH (mkAnnotatedBoard (set_cell bo y x v) cands')); cbn [board].
      * by apply square_set_cell.
      * apply values_in_set_cell; [done|eauto|lia].
      * pose proof (zeros_set_cell bo y x v H0). lia.
      * done.
  - intros [= _ <-]. apply elem_of_app. right. apply list_elem_of_singleton.
    apply (full_completion N rt); [done| |done]. unfold Full. by rewrite HFE.
Qed.

(** X9.  When [Backtrack] returns [solved = false], the search was not cut
    short and the boards it returns are all the completions of the given
    board; in particular a board with a completion yields at least one. *)
Theorem Backtrack_exhaustive N rt ab k :
  N = rt * rt → 0 < N → N < 64 → square N (board ab) →
  values_in N (board ab) →
  ∃ solved solutions,
    Backtrack ab k = Ok (solved, solutions)
    ∧ NoDup solutions
    ∧ (solved = false →
       ∀ s, s ∈ solutions ↔ completion N rt (board ab) s).
Proof.
  intros HN Hpos Hfit Hsq Hval.
  destruct (Backtrack_spec N rt k ab HN Hpos Hsq)
    as (solved & sols & HB & Hnd & Hall & _).
  exists solved, sols. split_and!; [done..|]. intros -> s. split.
  - intros Hs. destruct (Hall s Hs) as (Hssq & Hfull & Hext).
    destruct (backtrack_sound N rt k _ ab [] false sols HN Hpos Hfit Hsq Hval HB s Hs)
      as [Hin|[Hsval Hsnd]]; [by apply elem_of_nil in Hin|].
    split; [|done]. split_and!; [done| |done].
    intros y x v Hv. pose proof (Hsval _ _ _ Hv).
    pose proof (proj1 (Full_true s) Hfull _ _ _ Hv). lia.
  - intros Hcomp. unfold Backtrack in HB.
    apply (backtrack_exhaustive N rt k (enough (board ab)) ab [] sols s
             HN Hpos Hfit Hsq Hval); [|done..].
    rewrite (enough_square N) by done. pose proof (zeros_le N _ Hsq). lia.
Qed.

Lemma Backtrack_exhaustive_witness :
  ∃ solved solutions,
    Backtrack (mkAnnotatedBoard unsolved4 annotated4) 10 = Ok (solved, solutions)
    ∧ NoDup solutions
    ∧ (solved = false →
       ∀ s, s ∈ solutions
            ↔ completion 4 2 (board (mkAnnotatedBoard unsolved4 annotated4)) s).
Proof.
  apply (Backtrack_exhaustive 4 2 (mkAnnotatedBoard unsolved4 annotated4) 10).
  - reflexivity.
  - lia.
  - lia.
  - apply square_unsolved4.
  - apply values_in_unsolved4.
Defined.

(** ** SingleCandidate: what a solved board is *)

Lemma foldM_keeps {A St} (I : St → Prop) (f : St → A → result St) l s s' :
  (∀ s a s', a ∈ l → I s → f s a = Ok s' → I s') →
  I s → foldM f s l = Ok s' → I s'.
Proof.
  revert s. induction l as [|a l IH]; intros s Hf Hs; cbn [foldM].
  - by intros [= <-].
  - intros (s1 & H1 & H2)%bind_Ok. apply (IH s1); [|by eapply Hf; [left|..]|done].
    intros s2 b s3 Hb. apply Hf. by right.
Qed.

Lemma forallb_lookup {A} (f : A → bool) (l : list A) :
  forallb f l = true ↔ ∀ i a, l !! i = Some a → f a = true.
Proof.
  induction l as [|b l IH]; cbn [forallb].
  - split; [by intros _ ??|done].
  - rewrite andb_true_iff, IH. split.
    + intros [Hb Hl] [|i] a; cbn; [by intros [= <-]|apply Hl].
    + intros H. split; [by apply (H 0)|]. intros i a. apply (H (S i)).
Qed.

Lemma Solved_true ab :
  Solved ab = true
  ↔ ∀ y x c, cell (candidates ab) y x = Some c → Single c = true.
Proof.
  unfold Solved. rewrite forallb_lookup. split.
  - intros H y x c (row & Hrow & Hc)%cell_Some.
    apply H in Hrow. rewrite forallb_lookup in Hrow. by eapply Hrow.
  - intros H y row Hrow. apply forallb_lookup. intros x c Hc.
    apply (H y x). apply cell_Some. eauto.
Qed.

(** What the scan writes is a value listed by the single candidate of the
    field. *)
Lemma SingleCandidate_scan_values cands (bo bo' : Board) solvable :
  SingleCandidate_scan cands bo = Ok (bo', solvable) →
  ∀ y x v', cell bo' y x = Some v' →
    cell bo y x = Some v'
    ∨ ∃ v c, cell bo y x = Some v ∧ (v ≤ 0)%Z ∧ cell cands y x = Some c
             ∧ Single c = true ∧ v' ∈ Decimals c.
Proof.
  unfold SingleCandidate_scan.
  set (J := λ st : Board * bool, ∀ y x v', cell st.1 y x = Some v' →
    cell bo y x = Some v'
    ∨ ∃ v c, cell bo y x = Some v ∧ (v ≤ 0)%Z ∧ cell cands y x = Some c
             ∧ Single c = true ∧ v' ∈ Decimals c).
  intros H. change (J (bo', solvable)). revert H.
  apply foldM_keeps; [|intros y x v' Hv'; by left].
  intros [b fl] [[y x] c] [b' fl'] Hin%elem_of_enumerate2 HJ.
  destruct (Single c) eqn:HS; cbn [negb]; [|by intros [= <- <-]].
  intros (v & Hv%index2_Ok & H)%bind_Ok.
  case_decide as Hpos; [by injection H as <- <-|].
  apply bind_Ok in H as (d & Hd%index_Ok & H).
  apply bind_Ok in H as (b1 & [_ ->]%assign2_Ok & [= <- <-]).
  intros y' x' v' Hv'. cbn [fst] in *.
  rewrite cell_set_cell in Hv' by eauto. case_decide as Hyx; [|by apply HJ].
  destruct Hyx as [-> ->]. injection Hv' as <-.
  assert (d ∈ Decimals c) as Hdin by (by eapply list_elem_of_lookup_2).
  destruct (HJ _ _ _ Hv) as [H0|(v0 & c0 & _ & _ & _ & _ & Hv0)].
  - right. exists v, c. split_and!; [done|lia|done..].
  - apply Decimals_pos_elem in Hv0. lia.
Qed.

Lemma Annotate_fill_untouched rt cells st st' :
  NoDup cells.*1 →
  Annotate_fill rt cells st = Ok (st', true) →
  ∃ y x v, (y, x, v) ∈ cells
           ∧ cell (acc_cands st') y x = cell (acc_cands st) y x.
Proof.
  revert st. induction cells as [|[[y x] v] cells IH]; intros st Hnd; [done|].
  apply NoDup_cons in Hnd as [Hfresh Hnd]. cbn [Annotate_fill].
  assert (∀ st1, (∀ y' x', (y', x') ≠ (y, x) →
              cell (acc_cands st1) y' x' = cell (acc_cands st) y' x') →
            Annotate_fill rt cells st1 = Ok (st', true) →
            ∃ y0 x0 v0, (y0, x0, v0) ∈ (y, x, v) :: cells
              ∧ cell (acc_cands st') y0 x0 = cell (acc_cands st) y0 x0) as Hrec.
  { intros st1 Hsame H. destruct (IH st1 Hnd H) as (y0 & x0 & v0 & Hin & Heq).
    exists y0, x0, v0. split; [by right|]. rewrite Heq. apply Hsame.
    intros [= -> ->]. apply Hfresh.
    apply list_elem_of_fmap. by exists (y, x, v0). }
  assert (∃ y0 x0 v0, (y0, x0, v0) ∈ (y, x, v) :: cells
            ∧ cell (acc_cands st) y0 x0 = cell (acc_cands st) y0 x0) as Hhere.
  { exists y, x, v. split; [by left|done]. }
  case_decide as Hpos; [|by apply Hrec].
  intros (r & _ & H)%bind_Ok.
  destruct (Contains r v); [by injection H as <-|].
  apply bind_Ok in H as (c & _ & H).
  destruct (Contains c v); [by injection H as <-|].
  apply bind_Ok in H as (b & _ & H).
  destruct (Contains b v); [by injection H as <-|].
  apply bind_Ok in H as (a & Ha%index2_Ok & H).
  apply bind_Ok in H as (cands & [_ ->]%assign2_Ok & H).
  apply bind_Ok in H as (r' & _ & H). apply bind_Ok in H as (rows & _ & H).
  apply bind_Ok in H as (c' & _ & H). apply bind_Ok in H as (cols & _ & H).
  apply bind_Ok in H as (b' & _ & H). apply bind_Ok in H as (blocks & _ & H).
  revert H. apply Hrec. intros y' x' Hne. cbn [acc_cands].
  rewrite cell_set_cell by eauto. rewrite decide_False; [done|].
  intros [-> ->]. done.
Qed.

(** After the error the candidates of the empty fields are [0], and so
    are those of the field at which the error was found. *)
Lemma Annotate_error_candidates N rt bo cands0 cands :
  N = rt * rt → 0 < N → N < 64 → square N bo → values_in N bo →
  Annotate (mkAnnotatedBoard bo cands0) = Ok (mkAnnotatedBoard bo cands, true) →
  (∀ y x c, cell bo y x = Some 0%Z → cell cands y x = Some c → c = 0%Z)
  ∧ ∃ y x, cell cands y x = Some 0%Z.
Proof.
  intros HN Hpos Hfit Hsq Hval.
  pose proof (square_side_small N rt HN Hfit) as Hsmall.
  rewrite (Annotate_unfold N rt) by done.
  destruct (Annotate_fill_spec N rt (enumerate2 bo) [] _ HN
        (acc_inv_init N rt)) as (st & err' & pre' & Hfill & Hinv & Hsub & Hok & Herr);
    [by intros (? & ? & ? & ?%elem_of_nil & _)
    |apply enumerate2_NoDup
    |intros y x v Hin;
     destruct (enumerate2_lt N bo y x v Hsq Hin);
     apply elem_of_enumerate2, Hval in Hin; lia
    |].
  rewrite Hfill. cbn [mbind result_bind app] in *. destruct err'.
  2:{ destruct (Annotate_rest N rt st); cbn; intros [=]. }
  intros [= <-]. split.
  - intros y x c H0 Hc.
    destruct Hinv as (_ & _ & _ & _ & _ & _ & _ & H8).
    apply (H8 _ _ _ Hc). intros v Hv%Hsub%elem_of_enumerate2.
    assert (v = 0%Z) by congruence. lia.
  - destruct (Annotate_fill_untouched _ _ _ _ (enumerate2_NoDup bo) Hfill)
      as (y & x & v & Hin & Heq).
    destruct (enumerate2_lt N bo y x v Hsq Hin) as [Hy Hx].
    exists y, x. rewrite Heq. cbn [acc_cands]. unfold newBlockCandidates.
    apply cell_Some. exists (replicate N 0%Z).
    split; by apply lookup_replicate.
Qed.

Lemma Annotate_board_only bo c1 c2 :
  Annotate (mkAnnotatedBoard bo c1) = Annotate (mkAnnotatedBoard bo c2).
Proof. done. Qed.

Lemma consistent_spec N rt ab :
  N = rt * rt → 0 < N → N < 64 → square N (board ab) →
  values_in N (board ab) → consistent ab →
  (¬ duplicate rt (board ab) → annotated N rt (board ab) (candidates ab))
  ∧ (duplicate rt (board ab) →
     ∀ y x c, cell (board ab) y x = Some 0%Z →
              cell (candidates ab) y x = Some c → c = 0%Z)
  ∧ (duplicate rt (board ab) → ∃ y x, cell (candidates ab) y x = Some 0%Z).
Proof.
  intros HN Hpos Hfit Hsq Hval [err Hcons].
  destruct (Annotate_spec N rt (board ab) [] HN Hpos Hfit Hsq Hval)
    as (cands & err' & HA & _ & _ & Herr & Hann).
  rewrite HA in Hcons. injection Hcons as <- <-. cbn [board candidates] in *.
  destruct err'.
  - destruct (Annotate_error_candidates N rt (board ab) [] cands
                HN Hpos Hfit Hsq Hval HA) as [H1 H2].
    split_and!; [|done..]. intros Hnd. destruct Hnd. by apply Herr.
  - split_and!; [by intros _; apply Hann|intros Hd..];
      by apply Herr in Hd.
Qed.

Lemma Single_Decimals_eq c v w :
  Single c = true → v ∈ Decimals c → w ∈ Decimals c → v = w.
Proof.
  intros (k & Hk & -> & HD)%Single_Decimals. rewrite HD.
  case_decide; [by intros ?%elem_of_nil|].
  by intros ->%list_elem_of_singleton ->%list_elem_of_singleton.
Qed.

Lemma SingleCandidate_step_forced N rt ab :
  N = rt * rt → 0 < N → N < 64 → wf_annotated N ab →
  values_in N (board ab) → consistent ab →
  ∃ ab1 solvable,
    SingleCandidate_step ab = Ok (ab1, solvable)
    ∧ wf_annotated N ab1 ∧ values_in N (board ab1) ∧ consistent ab1
    ∧ (solvable = false → ab1 = ab)
    ∧ (solvable = false → ∀ y x c v,
         cell (candidates ab) y x = Some c → Single c = true →
         cell (board ab) y x = Some v → (0 < v)%Z)
    ∧ (∀ t, completion N rt (board ab) t → completion N rt (board ab1) t)
    ∧ (∀ y x v, cell (board ab) y x = Some v → (0 < v)%Z →
         cell (board ab1) y x = Some v)
    ∧ (solvable = true → unfilled (board ab1) < unfilled (board ab)).
Proof.
  intros HN Hpos Hfit Hwf Hval Hcons.
  pose proof Hwf as (Hsq & Hsqc & Hb0).
  pose proof (square_side_small N rt HN Hfit) as Hsmall.
  destruct (consistent_spec N rt ab HN Hpos Hfit Hsq Hval Hcons)
    as (Hann & Hzero & _).
  destruct (SingleCandidate_step_spec N rt ab HN Hpos Hwf)
    as (ab1 & solvable & Hstep & Hwf1 & (I1 & I2 & I3 & I4 & I5 & I6 & I7) & I8).
  exists ab1, solvable. split; [done|].
  unfold SingleCandidate_step in Hstep.
  apply bind_Ok in Hstep as ([bo' solv] & Hscan & Hstep).
  apply bind_Ok in Hstep as ([ab1' e] & HA & [= <- <-]).
  pose proof (SingleCandidate_scan_values _ _ _ _ Hscan) as Hvals.
  assert (∀ y x v', cell bo' y x = Some v' →
            cell (board ab) y x = Some v'
            ∨ (cell (board ab) y x = Some 0%Z ∧ ¬ duplicate rt (board ab)
               ∧ ∃ c, cell (candidates ab) y x = Some c ∧ Single c = true
                      ∧ v' ∈ Decimals c)) as Hvals'.
  { intros y x v' Hv'. destruct (Hvals _ _ _ Hv')
      as [?|(v & c & Hv & Hv0 & Hc & HS & Hin)]; [by left|right].
    assert (v = 0%Z) as -> by (apply Hval in Hv; lia).
    split_and!; [done| |by exists c].
    intros Hd. rewrite (Hzero Hd _ _ _ Hv Hc) in HS. done. }
  assert (values_in N bo') as Hval'.
  { intros y x v' Hv'.
    destruct (Hvals' _ _ _ Hv') as [H|(H0 & Hnd & c & Hc & HS & Hin)];
      [by eapply Hval|].
    destruct (Decimals_annotated N rt (board ab) (candidates ab) y x c v');
      [lia|by apply Hann|done..|lia]. }
  assert (square N bo') as Hsq'.
  { destruct Hwf1 as [Hsq1 _].
    destruct (Annotate_total N rt bo' (candidates ab) HN Hpos) as (c1 & e1 & HA1 & _).
    - destruct (SingleCandidate_scan_spec N (candidates ab) (board ab))
        as (bo2 & s2 & Hscan2 & Hinv2 & _); try done.
      rewrite Hscan in Hscan2. injection Hscan2 as <- <-. apply Hinv2.
    - rewrite HA in HA1. injection HA1 as -> _. done. }
  destruct (Annotate_total N rt bo' (candidates ab) HN Hpos Hsq')
    as (c1 & e1 & HA1 & _).
  rewrite HA in HA1. injection HA1 as -> ->. cbn [board] in *.
  split_and!; try done.
  - exists e1. by rewrite <- HA.
  - intros ->. pose proof (I4 eq_refl) as Hb. cbn [board] in Hb. subst bo'.
    destruct Hcons as [err Hcons].
    rewrite (Annotate_board_only _ _ []) in HA. congruence.
  - intros -> y x c v Hc HS Hv. destruct (decide (0 < v)%Z); [done|].
    assert (false = true); [|done]. eapply I8; eauto. lia.
  - intros t Hcomp. pose proof Hcomp as [Hsol Hext]. split; [done|].
    intros y x v' Hv' Hne.
    destruct (Hvals' _ _ _ Hv') as [H|(H0 & Hnd & c & Hc & HS & Hin)];
      [by apply Hext|].
    destruct (completion_candidate N rt (board ab) t (candidates ab) y x c)
      as (vt & Hvt & Hint & _); [lia|done|done|by apply Hann|done..|].
    by rewrite (Single_Decimals_eq c v' vt).
Qed.

Lemma SingleCandidate_loop_forced N rt fuel ab :
  N = rt * rt → 0 < N → N < 64 → wf_annotated N ab →
  values_in N (board ab) → consistent ab → unfilled (board ab) < fuel →
  ∃ ab' n,
    SingleCandidate_loop fuel ab = Ok (ab', n)
    ∧ wf_annotated N ab' ∧ values_in N (board ab') ∧ consistent ab'
    ∧ (∀ y x c v, cell (candidates ab') y x = Some c → Single c = true →
         cell (board ab') y x = Some v → (0 < v)%Z)
    ∧ (∀ t, completion N rt (board ab) t → completion N rt (board ab') t)
    ∧ (∀ y x v, cell (board ab) y x = Some v → (0 < v)%Z →
         cell (board ab') y x = Some v).
Proof.
  intros HN Hpos Hfit. revert ab.
  induction fuel as [|fuel IH]; intros ab Hwf Hval Hcons Hfuel; [lia|].
  cbn [SingleCandidate_loop].
  destruct (SingleCandidate_step_forced N rt ab HN Hpos Hfit Hwf Hval Hcons)
    as (ab1 & solvable & -> & Hwf1 & Hval1 & Hcons1 & Hsame & Hnone & Hcomp
        & Hkeep & Hless).
  cbn [mbind result_bind]. destruct solvable.
  - destruct (IH ab1 Hwf1 Hval1 Hcons1) as (ab' & n & -> & ? & ? & ? & ? & Hc' & Hk');
      [specialize (Hless eq_refl); lia|].
    cbn [mbind result_bind]. exists ab', (S n). split_and!; try done.
    + intros t Ht. by apply Hc', Hcomp.
    + intros y x v Hv Hv0. apply Hk'; [|done]. by apply Hkeep.
  - rewrite (Hsame eq_refl). exists ab, 1. split_and!; try done.
    by apply Hnone.
Qed.

Lemma SingleCandidate_forced N rt bo ab err k :
  N = rt * rt → 0 < N → N < 64 → square N bo → values_in N bo →
  NewAnnotatedBoard bo = Ok (ab, err) →
  ∃ ab',
    SingleCandidate ab k = Ok (Solved ab', [board ab'])
    ∧ wf_annotated N ab' ∧ values_in N (board ab') ∧ consistent ab'
    ∧ (∀ y x c v, cell (candidates ab') y x = Some c → Single c = true →
         cell (board ab') y x = Some v → (0 < v)%Z)
    ∧ (∀ t, completion N rt bo t → completion N rt (board ab') t)
    ∧ (∀ y x v, cell bo y x = Some v → (0 < v)%Z →
         cell (board ab') y x = Some v).
Proof.
  intros HN Hpos Hfit Hsq Hval HNew. unfold NewAnnotatedBoard in HNew.
  rewrite (Board_Copy_square N) in HNew by done. cbn [mbind result_bind] in HNew.
  destruct (Annotate_total N rt bo [] HN Hpos Hsq) as (cands & e & HA & Hc & Hb0).
  rewrite HA in HNew. injection HNew as <- <-.
  assert (wf_annotated N (mkAnnotatedBoard bo cands)) as Hwf by done.
  destruct (SingleCandidate_loop_forced N rt (enough bo) (mkAnnotatedBoard bo cands))
    as (ab' & n & Hloop & ? & ? & ? & ? & ? & ?); try done.
  { by exists e. }
  { cbn [board]. rewrite (enough_square N) by done.
    pose proof (unfilled_le N _ Hsq). lia. }
  exists ab'. split_and!; try done.
  unfold SingleCandidate. rewrite (AnnotatedBoard_Copy_square N) by done.
  cbn [mbind result_bind board]. rewrite Hloop. done.
Qed.

(** X10.  [SingleCandidate] fills forced values only: every completion of the
    given board is a completion of the board that it returns, and the given
    values are kept (side below 64, candidates from [NewAnnotatedBoard]). *)
Theorem SingleCandidate_keeps_completions N rt bo ab err k :
  N = rt * rt → 0 < N → N < 64 → square N bo → values_in N bo →
  NewAnnotatedBoard bo = Ok (ab, err) →
  ∃ solved s,
    SingleCandidate ab k = Ok (solved, [s])
    ∧ square N s ∧ extends bo s
    ∧ ∀ t, completion N rt bo t → completion N rt s t.
Proof.
  intros HN Hpos Hfit Hsq Hval HNew.
  destruct (SingleCandidate_forced N rt bo ab err k HN Hpos Hfit Hsq Hval HNew)
    as (ab' & HS & Hwf & Hval' & _ & _ & Hcomp & Hkeep).
  exists (Solved ab'), (board ab'). split_and!; [done|apply Hwf| |done].
  intros y x v Hv Hne. apply Hkeep; [done|]. apply Hval in Hv. lia.
Qed.

Lemma SingleCandidate_keeps_completions_witness :
  ∃ solved s,
    SingleCandidate (mkAnnotatedBoard unsolved4b
      [[2; 4; 8; 24]; [8; 16; 2; 4]; [16; 2; 4; 8]; [4; 8; 16; 2]]%Z) 1
    = Ok (solved, [s])
    ∧ square 4 s ∧ extends unsolved4b s
    ∧ ∀ t, completion 4 2 unsolved4b t → completion 4 2 s t.
Proof.
  apply (SingleCandidate_keeps_completions 4 2 unsolved4b _ false 1).
  - reflexivity.
  - lia.
  - lia.
  - apply square_Forall; [reflexivity|]. by repeat constructor.
  - apply values_in_Forall. repeat constructor; lia.
  - reflexivity.
Defined.

(** X11.  When [SingleCandidate] returns [solved = true], the board it returns
    is a completion of the given board, and the only one. *)
Theorem SingleCandidate_solved_unique N rt bo ab err k :
  N = rt * rt → 0 < N → N < 64 → square N bo → values_in N bo →
  NewAnnotatedBoard bo = Ok (ab, err) →
  ∃ solved s,
    SingleCandidate ab k = Ok (solved, [s])
    ∧ (solved = true →
       completion N rt bo s ∧ ∀ t, completion N rt bo t → t = s).
Proof.
  intros HN Hpos Hfit Hsq Hval HNew.
  destruct (SingleCandidate_forced N rt bo ab err k HN Hpos Hfit Hsq Hval HNew)
    as (ab' & HS & Hwf & Hval' & Hcons & Hfilled & Hcomp & Hkeep).
  exists (Solved ab'), (board ab'). split; [done|]. intros Hsolved.
  pose proof Hwf as (Hsq' & Hsqc' & _).
  rewrite Solved_true in Hsolved.
  assert (∀ y x v, cell (board ab') y x = Some v → (0 < v)%Z) as Hpos'.
  { intros y x v Hv. destruct (square_cell_lt N _ y x v Hsq' Hv) as [Hy Hx].
    destruct (square_cell N (candidates ab') y x Hsqc' Hy Hx) as [c Hc].
    eapply Hfilled; [done| |done]. by eapply Hsolved. }
  assert (Full (board ab') = true) as Hfull.
  { apply Full_true. intros y x v Hv. apply Hpos' in Hv. lia. }
  destruct (consistent_spec N rt ab' HN Hpos Hfit Hsq' Hval' Hcons)
    as (_ & _ & Hzero).
  assert (¬ duplicate rt (board ab')) as Hnd.
  { intros (y & x & Hc)%Hzero. by apply Hsolved in Hc. }
  assert (completion N rt bo (board ab')) as Hc.
  { split.
    - split_and!; [done| |done]. intros y x v Hv.
      pose proof (Hpos' _ _ _ Hv). pose proof (Hval' _ _ _ Hv). lia.
    - intros y x v Hv Hne. apply Hkeep; [done|]. apply Hval in Hv. lia. }
  split; [done|]. intros t Ht. by apply (full_completion N rt), Hcomp.
Qed.

Lemma SingleCandidate_solved_unique_witness :
  ∃ solved s,
    SingleCandidate (mkAnnotatedBoard unsolved4b
      [[2; 4; 8; 24]; [8; 16; 2; 4]; [16; 2; 4; 8]; [4; 8; 16; 2]]%Z) 1
    = Ok (solved, [s])
    ∧ (solved = true →
       completion 4 2 unsolved4b s ∧ ∀ t, completion 4 2 unsolved4b t → t = s).
Proof.
  apply (SingleCandidate_solved_unique 4 2 unsolved4b _ false 1).
  - reflexivity.
  - lia.
  - lia.
  - apply square_Forall; [reflexivity|]. by repeat constructor.
  - apply values_in_Forall. repeat constructor; lia.
  - reflexivity.
Defined.

(** ** CandidateLines: the order of the maps does not matter *)

Lemma foldM_Permutation {A St} (f : St → A → result St) l l' s :
  (∀ a b s, (s' ← f s a; f s' b) = (s' ← f s b; f s' a)) →
  l ≡ₚ l' → foldM f s l = foldM f s l'.
Proof.
  intros Hf Hp. revert s. induction Hp as [|a l l' _ IH|a b l|l1 l2 l3 _ IH1 _ IH2];
    intros s.
  - done.
  - cbn [foldM]. destruct (f s a); cbn; [apply IH|done..].
  - cbn [foldM]. pose proof (Hf b a s) as H.
    destruct (f s b) as [sb| |]; destruct (f s a) as [sa| |]; cbn in *;
      try done; try (by rewrite <- H); try (by rewrite H).
  - by rewrite IH1.
Qed.

Lemma foldM_ext {A St} (f g : St → A → result St) l s :
  (∀ s a, f s a = g s a) → foldM f s l = foldM g s l.
Proof.
  intros H. revert s. induction l as [|a l IH]; intros s; cbn [foldM]; [done|].
  rewrite H. destruct (g s a); cbn; [apply IH|done..].
Qed.

Lemma index2_cell {A} (g : list (list A)) y x :
  index2 g y x = match cell g y x with Some a => Ok a | None => Panic end.
Proof.
  unfold index2, index, cell. destruct (g !! y) as [row|]; cbn; [|done].
  by destruct (row !! x).
Qed.

Lemma CandidateLines_remove_cellZ c y x st :
  CandidateLines_remove c y x st
  = match cellZ st.1 y x with
    | Some s =>
        Ok (if Contains s c
            then (set_cell st.1 (Z.to_nat y) (Z.to_nat x) (Remove s c), true)
            else st)
    | None => Panic
    end.
Proof.
  unfold cellZ. case_decide as Hyx.
  - destruct Hyx as [Hy Hx].
    rewrite <- (Z2Nat.id y) at 1 by done. rewrite <- (Z2Nat.id x) at 1 by done.
    destruct (cell st.1 (Z.to_nat y) (Z.to_nat x)) as [s|] eqn:E.
    + by apply CandidateLines_remove_nat.
    + unfold CandidateLines_remove. by rewrite index2Z_nat, index2_cell, E.
  - unfold CandidateLines_remove, index2Z, indexZ.
    destruct (decide (0 ≤ y)%Z) as [Hy|Hy]; [|done].
    destruct (index st.1 (Z.to_nat y)) eqn:E;
      [|done|by apply index_no_fuel in E].
    destruct (decide (0 ≤ x)%Z); [lia|done].
Qed.

Lemma cell_set_cell_None {A} (g : list (list A)) y x a y' x' :
  is_Some (cell g y x) →
  cell (set_cell g y x a) y' x' = None ↔ cell g y' x' = None.
Proof.
  intros Hc. rewrite cell_set_cell by done. case_decide as H; [|done].
  destruct H as [-> ->]. destruct Hc as [b Hb]. rewrite Hb. done.
Qed.

Lemma set_cell_commute {A} (g : list (list A)) y x a y' x' b :
  (y, x) ≠ (y', x') →
  set_cell (set_cell g y x a) y' x' b = set_cell (set_cell g y' x' b) y x a.
Proof.
  intros Hne. unfold set_cell. destruct (decide (y = y')) as [->|Hy].
  - rewrite !list_alter_alter_eq. apply list_alter_ext; [|done].
    intros row _. cbn. apply list_insert_insert_ne. congruence.
  - apply list_eq. intros i.
    destruct (decide (i = y)) as [Hi|Hi]; destruct (decide (i = y')) as [Hi'|Hi'];
      subst;
      rewrite ?list_lookup_alter_eq, ?list_lookup_alter_ne,
              ?list_lookup_alter_eq, ?list_lookup_alter_ne by done; done.
Qed.

Lemma Remove_Remove c v w : Remove (Remove c v) w = Remove (Remove c w) v.
Proof.
  unfold Remove. apply Z.bits_inj'. intros n _. rewrite !Z.ldiff_spec.
  by destruct (Z.testbit c n), (Z.testbit (shl1 v) n), (Z.testbit (shl1 w) n).
Qed.

Lemma cellZ_nonneg {A} (g : list (list A)) y x a :
  cellZ g y x = Some a → (0 ≤ y)%Z ∧ (0 ≤ x)%Z.
Proof. unfold cellZ. by case_decide. Qed.

Lemma cellZ_removed st c y x s y' x' :
  cellZ st.1 y x = Some s →
  cellZ (removed st c y x s).1 y' x'
  = if decide (y' = y ∧ x' = x)
    then Some (if Contains s c then Remove s c else s)
    else cellZ st.1 y' x'.
Proof.
  intros Hs. destruct (cellZ_nonneg _ _ _ _ Hs) as [Hy Hx].
  unfold removed. destruct (Contains s c) eqn:HC; cbn [fst].
  - unfold cellZ in *. rewrite decide_True in Hs by done.
    destruct (decide (0 ≤ y' ∧ 0 ≤ x')%Z) as [[Hy' Hx']|Hneg].
    + rewrite cell_set_cell by eauto.
      destruct (decide (y' = y ∧ x' = x)) as [[-> ->]|Hne].
      * by rewrite decide_True.
      * rewrite decide_False; [done|]. lia.
    + rewrite decide_False; [done|]. lia.
  - case_decide as H; [|done]. destruct H as [-> ->]. done.
Qed.

Lemma CandidateLines_remove_commute c1 y1 x1 c2 y2 x2 st :
  (st' ← CandidateLines_remove c1 y1 x1 st; CandidateLines_remove c2 y2 x2 st')
  = (st' ← CandidateLines_remove c2 y2 x2 st; CandidateLines_remove c1 y1 x1 st').
Proof.
  rewrite (CandidateLines_remove_cellZ c1 y1 x1 st).
  rewrite (CandidateLines_remove_cellZ c2 y2 x2 st).
  destruct (cellZ st.1 y1 x1) as [s1|] eqn:E1;
    destruct (cellZ st.1 y2 x2) as [s2|] eqn:E2; cbn [mbind result_bind].
  - fold (removed st c1 y1 x1 s1). fold (removed st c2 y2 x2 s2).
    rewrite !CandidateLines_remove_cellZ.
    rewrite (cellZ_removed st c1 y1 x1 s1 y2 x2 E1).
    rewrite (cellZ_removed st c2 y2 x2 s2 y1 x1 E2).
    destruct (decide (y2 = y1 ∧ x2 = x1)) as [[-> ->]|Hne].
    + rewrite decide_True by done. assert (s2 = s1) as -> by congruence.
      f_equal. unfold removed.
      destruct (Contains s1 c1) eqn:H1, (Contains s1 c2) eqn:H2;
        rewrite ?Contains_Remove_eq, ?H1, ?H2; cbn [fst andb negb];
        repeat case_bool_decide; subst; cbn [negb andb];
        rewrite ?H1, ?H2, ?set_cell_set_cell; try done; try congruence.
      by rewrite Remove_Remove.
    + rewrite decide_False by (intros [??]; by apply Hne).
      rewrite E1, E2. f_equal. unfold removed.
      destruct (Contains s1 c1), (Contains s2 c2); cbn [fst]; try done.
      f_equal. apply set_cell_commute.
      destruct (cellZ_nonneg _ _ _ _ E1), (cellZ_nonneg _ _ _ _ E2).
      intros [= Hy Hx]. apply Hne. lia.
  - fold (removed st c1 y1 x1 s1). rewrite CandidateLines_remove_cellZ.
    rewrite (cellZ_removed st c1 y1 x1 s1 y2 x2 E1).
    rewrite decide_False by (intros [-> ->]; congruence). by rewrite E2.
  - fold (removed st c2 y2 x2 s2). rewrite CandidateLines_remove_cellZ.
    rewrite (cellZ_removed st c2 y2 x2 s2 y1 x1 E2).
    rewrite decide_False by (intros [-> ->]; congruence). by rewrite E1.
  - done.
Qed.

Lemma CandidateLines_remove_no_fuel c y x st :
  CandidateLines_remove c y x st ≠ OutOfFuel.
Proof.
  rewrite CandidateLines_remove_cellZ. by destruct (cellZ st.1 y x).
Qed.

Lemma foldM_no_fuel {A St} (f : St → A → result St) l s :
  (∀ s a, f s a ≠ OutOfFuel) → foldM f s l ≠ OutOfFuel.
Proof.
  intros Hf. revert s. induction l as [|a l IH]; intros s; [done|].
  cbn [foldM]. apply bind_no_fuel; [apply Hf|apply IH].
Qed.

(** Two runs of removals one after the other, in either order. *)
Lemma foldM_commute {A St} (f : St → A → result St) l1 l2 s :
  (∀ a b s, (s' ← f s a; f s' b) = (s' ← f s b; f s' a)) →
  (s' ← foldM f s l1; foldM f s' l2) = (s' ← foldM f s l2; foldM f s' l1).
Proof.
  intros Hf. rewrite <- !foldM_app. apply foldM_Permutation; [done|].
  apply Permutation_app_comm.
Qed.

Lemma entries_commute (f : list (list Candidates) * bool → Z * Z * Z →
                           result (list (list Candidates) * bool))
    (r1 r2 : result (list (Z * Z * Z))) st :
  (∀ a b s, (s' ← f s a; f s' b) = (s' ← f s b; f s' a)) →
  (∀ s a, f s a ≠ OutOfFuel) →
  r1 ≠ OutOfFuel → r2 ≠ OutOfFuel →
  (st' ← (l ← r1; foldM f st l); l ← r2; foldM f st' l)
  = (st' ← (l ← r2; foldM f st l); l ← r1; foldM f st' l).
Proof.
  intros Hf Hnf H1 H2. destruct r1 as [l1| |], r2 as [l2| |]; try done;
    cbn [mbind result_bind].
  - by apply foldM_commute.
  - pose proof (foldM_no_fuel f l1 st Hnf). by destruct (foldM f st l1).
  - pose proof (foldM_no_fuel f l2 st Hnf). by destruct (foldM f st l2).
Qed.

Lemma entry_removals_no_fuel place others e :
  entry_removals place others e ≠ OutOfFuel.
Proof.
  unfold entry_removals. destruct (Single e.2); [|done].
  apply bind_no_fuel; [apply index_no_fuel|done].
Qed.

Lemma entry_step_commute place others e1 e2 st :
  (st' ← (l ← entry_removals place others e1; foldM remove_at st l);
   l ← entry_removals place others e2; foldM remove_at st' l)
  = (st' ← (l ← entry_removals place others e2; foldM remove_at st l);
     l ← entry_removals place others e1; foldM remove_at st' l).
Proof.
  apply entries_commute.
  - intros [[c1 y1] x1] [[c2 y2] x2] s. apply CandidateLines_remove_commute.
  - intros s [[c y] x]. apply CandidateLines_remove_no_fuel.
  - apply entry_removals_no_fuel.
  - apply entry_removals_no_fuel.
Qed.

Lemma CandidateLines_cols_entries range_map m st :
  CandidateLines_cols range_map m st
  = foldM (λ st e,
      l ← entry_removals (λ d o, (o - 1, d - 1)%Z)
             (Decimals (rowsNotInBlock m)) e;
      foldM remove_at st l) st (range_map (inCols m)).
Proof.
  unfold CandidateLines_cols. apply foldM_ext. intros s [c cols].
  unfold entry_removals. cbn [fst snd]. destruct (Single cols); [|done].
  destruct (index (Decimals cols) 0) as [d| |]; cbn [mbind result_bind]; [|done..].
  by rewrite foldM_fmap.
Qed.

Lemma CandidateLines_rows_entries range_map m st :
  CandidateLines_rows range_map m st
  = foldM (λ st e,
      l ← entry_removals (λ d o, (d - 1, o - 1)%Z)
             (Decimals (colsNotInBlock m)) e;
      foldM remove_at st l) st (range_map (inRows m)).
Proof.
  unfold CandidateLines_rows. apply foldM_ext. intros s [c rows].
  unfold entry_removals. cbn [fst snd]. destruct (Single rows); [|done].
  destruct (index (Decimals rows) 0) as [d| |]; cbn [mbind result_bind]; [|done..].
  by rewrite foldM_fmap.
Qed.

Lemma CandidateLines_block_order r1 r2 size blockSize st blk :
  range_ok r1 → range_ok r2 →
  CandidateLines_block r1 size blockSize st blk
  = CandidateLines_block r2 size blockSize st blk.
Proof.
  intros H1 H2. unfold CandidateLines_block.
  destruct (CandidateLines_maps size blockSize st.1 blk.1 blk.2) as [m| |];
    cbn [mbind result_bind]; [|done..].
  rewrite !CandidateLines_cols_entries.
  rewrite (foldM_Permutation _ (r1 (inCols m)) (r2 (inCols m)));
    [|intros; apply entry_step_commute|by rewrite (H1 _), (H2 _)].
  destruct (foldM _ st (r2 (inCols m))) as [st1| |]; cbn [mbind result_bind];
    [|done..].
  rewrite !CandidateLines_rows_entries.
  apply foldM_Permutation; [intros; apply entry_step_commute|].
  by rewrite (H1 _), (H2 _).
Qed.

Lemma CandidateLines_range_order r1 r2 ab :
  range_ok r1 → range_ok r2 → CandidateLines r1 ab = CandidateLines r2 ab.
Proof.
  intros H1 H2. unfold CandidateLines.
  destruct (AnnotatedBoard_Copy ab) as [ab2| |]; cbn [mbind result_bind]; [|done..].
  destruct (Size (board ab2)) as [size| |]; cbn [mbind result_bind]; [|done..].
  cbv zeta.
  rewrite (foldM_ext
    (λ st blkY, foldM (λ st blkX,
       CandidateLines_block r1 size (sqrt size) st (blkY, blkX)) st
       (seq 0 (sqrt size)))
    (λ st blkY, foldM (λ st blkX,
       CandidateLines_block r2 size (sqrt size) st (blkY, blkX)) st
       (seq 0 (sqrt size)))); [done|].
  intros st blkY. apply foldM_ext. intros st' blkX.
  by apply CandidateLines_block_order.
Qed.

(** X12.  The result of [CandidateLines] does not depend on the order in which
    [range] visits the entries of the maps [inCols] and [inRows]: for a side
    [N = rt * rt < 64] and candidate words in [0 .. 2^62 - 1], two orders
    give the same candidates and the same flag. *)
Theorem CandidateLines_order r1 r2 N rt ab :
  range_ok r1 → range_ok r2 → N = rt * rt → 0 < N → N < 64 →
  square N (board ab) → square N (candidates ab) →
  small_words (candidates ab) →
  ∃ cands succeeded,
    CandidateLines r1 ab = Ok (mkAnnotatedBoard (board ab) cands, succeeded)
    ∧ CandidateLines r2 ab = Ok (mkAnnotatedBoard (board ab) cands, succeeded).
Proof.
  intros H1 H2 _ HN _ Hb Hc _.
  destruct (CandidateLines_pass r1 N ab H1 HN Hb Hc) as ([cands succeeded] & HCL & _).
  exists cands, succeeded. split; [done|].
  by rewrite <- (CandidateLines_range_order r1 r2 ab H1 H2).
Qed.

Lemma CandidateLines_order_witness :
  ∃ cands succeeded,
    CandidateLines map_to_list (mkAnnotatedBoard feedback4 feedback4_candidates)
    = Ok (mkAnnotatedBoard
            (board (mkAnnotatedBoard feedback4 feedback4_candidates)) cands,
          succeeded)
    ∧ CandidateLines (λ m, reverse (map_to_list m))
        (mkAnnotatedBoard feedback4 feedback4_candidates)
      = Ok (mkAnnotatedBoard
              (board (mkAnnotatedBoard feedback4 feedback4_candidates)) cands,
            succeeded).
Proof.
  apply (CandidateLines_order map_to_list (λ m, reverse (map_to_list m)) 4 2
           (mkAnnotatedBoard feedback4 feedback4_candidates)).
  - apply range_ok_map_to_list.
  - intros m. apply reverse_Permutation.
  - reflexivity.
  - lia.
  - lia.
  - apply square_feedback4.
  - apply square_feedback4_candidates.
  - apply small_words_feedback4_candidates.
Defined.

(** ** GenerateSimple *)

Lemma GenerateSimple_fields_row (random : Board) y row r1 r2 acc :
  random !! y = Some row → row = r1 ++ r2 →
  foldM (λ fields x, v ← index2 random y x; Ok (fields ++ [(y, x, v)]))
    acc (seq (length r1) (length r2))
  = Ok (acc ++ imap (λ x v, (y, length r1 + x, v)) r2).
Proof.
  intros Hrow. revert r1 acc. induction r2 as [|v r2 IH]; intros r1 acc Heq.
  - cbn. by rewrite app_nil_r.
  - cbn [length seq foldM].
    rewrite (index2_is_Ok random y (length r1) v).
    2:{ unfold cell. rewrite Hrow. cbn [mbind option_bind]. rewrite Heq.
        by rewrite lookup_app_r, Nat.sub_diag by lia. }
    cbn [mbind result_bind].
    specialize (IH (r1 ++ [v]) (acc ++ [(y, length r1, v)])).
    rewrite length_app in IH. cbn [length] in IH.
    replace (length r1 + 1) with (S (length r1)) in IH by lia.
    rewrite IH by by rewrite <- app_assoc.
    f_equal. rewrite <- app_assoc. f_equal. cbn [app imap]. f_equal.
    + f_equal. f_equal. lia.
    + apply imap_ext. intros i a _. cbn. f_equal. f_equal. lia.
Qed.

Lemma GenerateSimple_fields_rows N (random pre g : Board) acc :
  random = pre ++ g → Forall (λ row, length row = N) g →
  foldM (λ fields y,
    foldM (λ fields x, v ← index2 random y x; Ok (fields ++ [(y, x, v)]))
      fields (seq 0 N))
    acc (seq (length pre) (length g))
  = Ok (acc ++ mjoin (imap (λ y, enumerate (length pre + y)) g)).
Proof.
  revert pre acc. induction g as [|row g IH]; intros pre acc -> Hg.
  - cbn. by rewrite app_nil_r.
  - apply Forall_cons in Hg as [Hrow Hg].
    cbn [length seq foldM].
    pose proof (GenerateSimple_fields_row (pre ++ row :: g) (length pre) row
                  [] row acc) as Hr.
    cbn [length app Nat.add] in Hr. rewrite Hrow in Hr.
    change (imap _ row) with (enumerate (length pre) row) in Hr. rewrite Hr; [|
      by rewrite lookup_app_r, Nat.sub_diag by lia|done].
    cbn [mbind result_bind].
    specialize (IH (pre ++ [row]) (acc ++ enumerate (length pre) row)).
    rewrite length_app in IH. cbn [length] in IH.
    replace (length pre + 1) with (S (length pre)) in IH by lia.
    rewrite IH; [|by rewrite <- app_assoc|done].
    rewrite enumerate2_cons. by rewrite <- app_assoc.
Qed.

Lemma GenerateSimple_fields_square N (random : Board) :
  square N random → GenerateSimple_fields random N = Ok (enumerate2 random).
Proof.
  intros [Hlen Hrows]. unfold GenerateSimple_fields.
  pose proof (GenerateSimple_fields_rows N random [] random [] eq_refl Hrows) as H.
  cbn [length app] in H. rewrite Hlen in H. exact H.
Qed.

Lemma GenerateSimple_shuffle_steps (Intn : nat → nat → nat)
    (fields : list (nat * nat * Z)) (ixs : list nat) :
  (∀ i n, 0 < n → Intn i n < n) →
  (∀ i, i ∈ ixs → i < length fields) →
  ∃ fields',
    foldM (λ fields i,
      fj ← index fields (Intn i (i + 1));
      fi ← index fields i;
      fields ← assign fields i fj;
      assign fields (Intn i (i + 1)) fi) fields ixs = Ok fields'
    ∧ fields' ≡ₚ fields.
Proof.
  intros HIntn. revert fields. induction ixs as [|i ixs IH]; intros fields Hin.
  - by exists fields.
  - assert (i < length fields) as Hi by (apply Hin; left).
    pose proof (HIntn i (i + 1) ltac:(lia)) as Hj.
    destruct (lookup_lt_is_Some_2 fields i Hi) as [fi Hfi].
    destruct (lookup_lt_is_Some_2 fields (Intn i (i + 1)) ltac:(lia)) as [fj Hfj].
    cbn [foldM].
    rewrite (index_is_Ok _ _ _ Hfj), (index_is_Ok _ _ _ Hfi).
    cbn [mbind result_bind].
    rewrite assign_is_Ok by done. cbn [mbind result_bind].
    rewrite assign_is_Ok by (rewrite length_insert; lia).
    cbn [mbind result_bind].
    pose proof (Permutation_insert_swap fields i (Intn i (i + 1)) fi fj Hfi Hfj)
      as Hperm.
    destruct (IH (<[Intn i (i + 1) := fi]> (<[i := fj]> fields))) as (f' & -> & Hf').
    { intros i' Hi'. rewrite !length_insert. apply Hin. by right. }
    exists f'. split; [done|]. by rewrite Hf'.
Qed.

Lemma GenerateSimple_shuffle_Permutation Intn fields :
  (∀ i n, 0 < n → Intn i n < n) →
  ∃ fields', GenerateSimple_shuffle Intn fields = Ok fields'
             ∧ fields' ≡ₚ fields.
Proof.
  intros HIntn. unfold GenerateSimple_shuffle.
  apply (GenerateSimple_shuffle_steps Intn fields); [done|].
  intros i Hi%elem_of_seq. lia.
Qed.

Lemma Annotate_filled N rt bo cands0 cands :
  N = rt * rt → 0 < N → N < 64 → square N bo → values_in N bo →
  Annotate (mkAnnotatedBoard bo cands0) = Ok (mkAnnotatedBoard bo cands, false) →
  ∀ y x w, cell bo y x = Some w → (0 < w)%Z → cell cands y x = Some (2 ^ w)%Z.
Proof.
  intros HN Hpos Hfit Hsq Hval.
  pose proof (square_side_small N rt HN Hfit) as Hsmall.
  rewrite (Annotate_unfold N rt) by done.
  destruct (Annotate_fill_spec N rt (enumerate2 bo) [] _ HN
        (acc_inv_init N rt)) as (st & err' & pre' & -> & Hinv & Hsub & Hok & Herr).
  { by intros (? & ? & ? & ?%elem_of_nil & _). }
  { apply enumerate2_NoDup. }
  { intros y x v Hin. destruct (enumerate2_lt N bo y x v Hsq Hin).
    apply elem_of_enumerate2, Hval in Hin. lia. }
  cbn [mbind result_bind app] in *.
  destruct err'; [done|]. destruct Hok as [-> Hnc]; [done|].
  destruct (Annotate_rest_spec N rt N st HN) as (g & -> & Hg & Hall).
  { pose proof Hinv as (? & ? & ? & ? & _ & _ & _ & H8). split_and!; try done.
    intros y x a Ha. destruct (H8 _ _ _ Ha) as [H81 H82].
    destruct (square_cell_lt N _ y x a ltac:(done) Ha) as [Hy Hx].
    destruct (square_cell N bo y x Hsq Hy Hx) as [w Hw].
    destruct (decide (0 < w)%Z).
    - rewrite (H81 w); [|by apply elem_of_enumerate2|done].
      apply Hval in Hw. rewrite Z.pow2_bits_eqb by lia. apply Z.eqb_neq. lia.
    - rewrite H82; [done|]. intros v Hv%elem_of_enumerate2.
      assert (v = w) by congruence. lia. }
  cbn [mbind result_bind]. intros [= <-] y x w Hw Hw0.
  destruct (square_cell_lt N bo y x w Hsq Hw) as [Hy Hx].
  destruct Hinv as (Hs1 & _ & _ & _ & _ & _ & _ & H8).
  destruct (square_cell N (acc_cands st) y x Hs1 Hy Hx) as [a Ha].
  destruct (Hall _ _ _ Ha) as (c' & Hc' & Hrest).
  destruct (H8 _ _ _ Ha) as [H81 _].
  assert (a = 2 ^ w)%Z as ->.
  { apply H81; [by apply elem_of_enumerate2|lia]. }
  assert (2 ^ 1 ≤ 2 ^ w)%Z by (apply Z.pow_le_mono_r; lia).
  destruct Hrest as [[_ ->]|[? _]]; [done|lia].
Qed.

Lemma NewAnnotatedBoard_square N bo :
  square N bo → 0 < N →
  NewAnnotatedBoard bo = Annotate (mkAnnotatedBoard bo []).
Proof.
  intros Hsq Hpos. unfold NewAnnotatedBoard.
  by rewrite (Board_Copy_square N).
Qed.

Lemma solution_values_in N rt s : solution N rt s → values_in N s.
Proof. intros (_ & Hv & _) y x v Hc. apply Hv in Hc. lia. Qed.

Lemma completion_values_in N rt bo s :
  square N bo → completion N rt bo s → values_in N bo.
Proof.
  intros Hsq [Hs Hext] y x v Hv. destruct (decide (v = 0%Z)) as [->|Hne]; [lia|].
  apply (solution_values_in N rt s Hs y x). by apply Hext.
Qed.

(** A board on which [SingleCandidate] reports [solved] has been completed
    to its completion. *)
Lemma SingleCandidate_solved_completion N rt bo ab err t :
  N = rt * rt → 0 < N → N < 64 → square N bo → values_in N bo →
  NewAnnotatedBoard bo = Ok (ab, err) → completion N rt bo t →
  ∃ solved s,
    SingleCandidate ab 1 = Ok (solved, [s]) ∧ (solved = true → s = t).
Proof.
  intros HN Hpos Hfit Hsq Hval HNew Ht.
  destruct (SingleCandidate_forced N rt bo ab err 1 HN Hpos Hfit Hsq Hval HNew)
    as (ab' & HS & Hwf & Hval' & Hcons & Hfilled & Hcomp & Hkeep).
  exists (Solved ab'), (board ab'). split; [done|]. intros Hsolved.
  pose proof Hwf as (Hsq' & Hsqc' & _).
  rewrite Solved_true in Hsolved.
  assert (Full (board ab') = true) as Hfull.
  { apply Full_true. intros y x v Hv.
    destruct (square_cell_lt N _ y x v Hsq' Hv) as [Hy Hx].
    destruct (square_cell N (candidates ab') y x Hsqc' Hy Hx) as [c Hc].
    assert (0 < v)%Z; [|lia]. eapply Hfilled; [done| |done]. by eapply Hsolved. }
  symmetry. by apply (full_completion N rt), Hcomp.
Qed.

(** A solved board is solved by [SingleCandidate]. *)
Lemma SingleCandidate_solution N rt s :
  N = rt * rt → 0 < N → N < 64 → solution N rt s →
  ∃ ab, NewAnnotatedBoard s = Ok (ab, false)
        ∧ SingleCandidate ab 1 = Ok (true, [s]).
Proof.
  intros HN Hpos Hfit Hs. pose proof Hs as (Hsq & Hv & Hnd).
  pose proof (solution_values_in N rt s Hs) as Hval.
  destruct (Annotate_spec N rt s [] HN Hpos Hfit Hsq Hval)
    as (cands & err & HA & Hc & Hb0 & Herr & _).
  destruct err; [by destruct Hnd; apply Herr|].
  exists (mkAnnotatedBoard s cands).
  assert (NewAnnotatedBoard s = Ok (mkAnnotatedBoard s cands, false)) as HNew.
  { by rewrite (NewAnnotatedBoard_square N). }
  split; [done|].
  destruct (SingleCandidate_forced N rt s _ false 1 HN Hpos Hfit Hsq Hval HNew)
    as (ab' & HS & Hwf & Hval' & Hcons & Hfilled & Hcomp & Hkeep).
  assert (board ab' = s) as Hbo.
  { apply (square_ext N); [apply Hwf|done|]. intros y x.
    destruct (cell s y x) as [v|] eqn:E.
    - apply Hkeep; [done|]. apply Hv in E. lia.
    - destruct (cell (board ab') y x) as [w|] eqn:E'; [|done].
      destruct (square_cell_lt N _ y x w (proj1 Hwf) E').
      destruct (square_cell N s y x Hsq) as [? ?]; [done..|congruence]. }
  destruct Hcons as [err' Hcons]. rewrite Hbo, HA in Hcons.
  injection Hcons as <- <-. rewrite HS. f_equal. f_equal.
  apply Solved_true. cbn [candidates]. intros y x c Hcell.
  destruct (square_cell_lt N _ y x c Hc Hcell) as [Hy Hx].
  destruct (square_cell N s y x Hsq Hy Hx) as [w Hw].
  pose proof (Hv _ _ _ Hw).
  rewrite (Annotate_filled N rt s [] cands HN Hpos Hfit Hsq Hval HA y x w Hw)
    in Hcell by lia.
  injection Hcell as <-. apply Single_pow2. lia.
Qed.

Lemma extends_clear (bo random : Board) y x :
  is_Some (cell bo y x) → extends bo random →
  extends (set_cell bo y x 0%Z) random.
Proof.
  intros Hc Hext y' x' v. rewrite cell_set_cell by done.
  case_decide; [by intros [= <-]|]. apply Hext.
Qed.

Lemma GenerateSimple_loop_spec N rt random vm minimum fc fields :
  N = rt * rt → 0 < N → N < 64 → solution N rt random →
  ∀ i ab,
    fc = i + length fields →
    NoDup fields.*1 →
    (∀ y x v, (y, x, v) ∈ fields →
       cell random y x = Some v ∧ cell (board ab) y x = Some v) →
    square N (board ab) → extends (board ab) random →
    (∃ ab', NewAnnotatedBoard (board ab) = Ok (ab', false)
            ∧ SingleCandidate ab' 1 = Ok (true, [random])) →
    ∃ bo rest,
      GenerateSimple_loop vm minimum fc i fields ab = Ok bo
      ∧ square N bo ∧ extends bo random
      ∧ (∃ ab', NewAnnotatedBoard bo = Ok (ab', false)
                ∧ SingleCandidate ab' 1 = Ok (true, [random]))
      ∧ NoDup rest.*1
      ∧ (∀ y x v, (y, x, v) ∈ rest → cell bo y x = Some v ∧ v ≠ 0%Z)
      ∧ (vm = true →
         (Z.of_nat i ≤ Z.of_nat fc - 1 - minimum < Z.of_nat fc)%Z →
         Z.of_nat (length rest) = minimum).
Proof.
  intros HN Hpos Hfit Hsol. pose proof Hsol as (Hrsq & Hrv & Hrnd).
  induction fields as [|[[y x] v] fields IH];
    intros i [bo cands0] Hfc Hnd Hfields Hsq Hext Hinv; cbn [board candidates] in *.
  { exists bo, []. cbn [GenerateSimple_loop board length].
    split_and!; [done..|constructor| |].
    - by intros ??? ?%elem_of_nil.
    - intros _ ?. cbn [length] in Hfc. lia. }
  cbn [GenerateSimple_loop board candidates].
  destruct (Hfields y x v) as [Hrc Hbc]; [left|].
  assert (is_Some (cell bo y x)) as Hsome by done.
  rewrite assign2_is_Ok by done. cbn [mbind result_bind].
  set (bo1 := set_cell bo y x 0%Z).
  assert (square N bo1) as Hsq1 by by apply square_set_cell.
  assert (extends bo1 random) as Hext1 by by apply extends_clear.
  assert (completion N rt bo1 random) as Hcomp1 by done.
  pose proof (completion_values_in N rt bo1 random Hsq1 Hcomp1) as Hval1.
  destruct (Annotate_spec N rt bo1 cands0 HN Hpos Hfit Hsq1 Hval1)
    as (cands1 & err & HA & Hc1 & _ & Herr & _).
  destruct err.
  { exfalso. eapply completion_no_duplicate; [done|]. by apply Herr. }
  rewrite HA. cbn [mbind result_bind].
  assert (NewAnnotatedBoard bo1 = Ok (mkAnnotatedBoard bo1 cands1, false)) as HNew.
  { rewrite (NewAnnotatedBoard_square N) by done.
    by rewrite (Annotate_board_only bo1 [] cands0). }
  destruct (SingleCandidate_solved_completion N rt bo1 _ false random
              HN Hpos Hfit Hsq1 Hval1 HNew Hcomp1) as (solved & s & HS & Hs).
  rewrite HS. cbn [mbind result_bind board candidates].
  apply NoDup_cons in Hnd as [Hnotin Hnd]. cbn [fmap list_fmap fst] in Hnotin.
  assert (∀ y' x' v', (y', x', v') ∈ fields → (y', x') ≠ (y, x)) as Hother.
  { intros y' x' v' Hin [= -> ->]. apply Hnotin.
    apply list_elem_of_fmap. by exists (y, x, v'). }
  assert (∀ y' x' v', (y', x', v') ∈ fields → v' ≠ 0%Z) as Hnz.
  { intros y' x' v' Hin. destruct (Hfields y' x' v') as [Hr _]; [by right|].
    apply Hrv in Hr. lia. }
  set (bo2 := if solved then bo1 else bo).
  assert ((if solved then Ok bo1 else assign2 bo1 y x v) = Ok bo2) as ->.
  { subst bo2. destruct solved; [done|].
    rewrite assign2_is_Ok by (subst bo1; by rewrite cell_set_cell, decide_True).
    subst bo1. by rewrite set_cell_set_cell, set_cell_id. }
  cbn [mbind result_bind board candidates].
  assert (square N bo2) as Hsq2 by (subst bo2; by destruct solved).
  assert (extends bo2 random) as Hext2 by (subst bo2; by destruct solved).
  assert (∃ ab', NewAnnotatedBoard bo2 = Ok (ab', false)
                 ∧ SingleCandidate ab' 1 = Ok (true, [random])) as Hinv2.
  { subst bo2. destruct solved; [|done].
    exists (mkAnnotatedBoard bo1 cands1). split; [done|].
    by rewrite HS, (Hs eq_refl). }
  assert (∀ y' x' v', (y', x', v') ∈ fields →
            cell random y' x' = Some v' ∧ cell bo2 y' x' = Some v') as Hfields2.
  { intros y' x' v' Hin. destruct (Hfields y' x' v') as [Hr Hb]; [by right|].
    split; [done|]. subst bo2. destruct solved; [|done].
    subst bo1. rewrite cell_set_cell by done.
    rewrite decide_False; [done|]. intros [-> ->]. by eapply Hother. }
  destruct (vm && bool_decide (Z.of_nat fc - Z.of_nat i - 1 = minimum)%Z) eqn:Hret.
  - apply andb_true_iff in Hret as [-> Hmin%bool_decide_eq_true].
    exists bo2, fields. split_and!; try done.
    + intros y' x' v' Hin. split; [by apply Hfields2|by eapply Hnz].
    + intros _ _. cbn [length] in Hfc. lia.
  - destruct (IH (S i) (mkAnnotatedBoard bo2 cands1)) as (bo' & rest & HG & H);
      cbn [board candidates]; try done.
    { cbn [length] in Hfc. lia. }
    exists bo', rest. split; [done|].
    destruct H as (? & ? & ? & ? & ? & Hcount). split_and!; try done.
    intros Hvm Hrange. apply Hcount; [done|].
    rewrite Hvm in Hret. cbn [andb] in Hret.
    apply bool_decide_eq_false in Hret. lia.
Qed.

Lemma length_enumerate2_from {A} N (g : list (list A)) k :
  Forall (λ row, length row = N) g →
  length (mjoin (imap (λ y, enumerate (k + y)) g)) = length g * N.
Proof.
  revert k. induction g as [|row g IH]; intros k Hg; [done|].
  apply Forall_cons in Hg as [Hrow Hg].
  rewrite enumerate2_cons, length_app, IH by done.
  unfold enumerate. rewrite length_imap. cbn [length]. lia.
Qed.

Lemma length_enumerate2 {A} N (g : list (list A)) :
  square N g → length (enumerate2 g) = N * N.
Proof.
  intros [Hlen Hrows].
  pose proof (length_enumerate2_from N g 0 Hrows) as H. by rewrite Hlen in H.
Qed.

Lemma zeros_row_imap (f : nat → nat * nat) (row : list Z) :
  length (filter (λ p : nat * nat * Z, p.2 = 0%Z) (imap (λ x v, (f x, v)) row))
  = zeros_row row.
Proof.
  unfold zeros_row. revert f. induction row as [|v row IH]; intros f; [done|].
  cbn [imap]. rewrite !filter_cons. cbn [snd].
  specialize (IH (f ∘ S)).
  destruct (decide (v = 0%Z)); cbn [length]; by rewrite <- IH.
Qed.

Lemma zeros_enumerate2_from (g : Board) k :
  length (filter (λ p : nat * nat * Z, p.2 = 0%Z)
            (mjoin (imap (λ y, enumerate (k + y)) g))) = zeros g.
Proof.
  revert k. induction g as [|row g IH]; intros k; [done|].
  rewrite enumerate2_cons, filter_app, length_app, IH.
  unfold enumerate. by rewrite (zeros_row_imap (λ x, (k, x))).
Qed.

Lemma length_filter_split {A} (P : A → Prop) `{!∀ a, Decision (P a)} (l : list A) :
  length (filter P l) + length (filter (λ a, ¬ P a) l) = length l.
Proof.
  induction l as [|a l IH]; [done|]. rewrite !filter_cons.
  destruct (decide (P a)), (decide (¬ P a)); cbn [length]; try done; lia.
Qed.

(** Distinct fields that hold a number bound the number of empty fields. *)
Lemma zeros_filled N (bo : Board) (rest : list (nat * nat * Z)) :
  square N bo → NoDup rest.*1 →
  (∀ y x v, (y, x, v) ∈ rest → cell bo y x = Some v ∧ v ≠ 0%Z) →
  length rest + zeros bo ≤ N * N.
Proof.
  intros Hsq Hnd Hrest.
  rewrite <- (length_enumerate2 N bo Hsq).
  rewrite <- (length_filter_split (λ p : nat * nat * Z, p.2 = 0%Z) (enumerate2 bo)).
  rewrite (zeros_enumerate2_from bo 0 : length (filter _ (enumerate2 bo)) = _).
  assert (rest ⊆+ filter (λ p : nat * nat * Z, ¬ p.2 = 0%Z) (enumerate2 bo)) as Hsub.
  { apply NoDup_submseteq; [by eapply NoDup_fmap_1|].
    intros [[y x] v] Hin. apply list_elem_of_filter.
    destruct (Hrest y x v Hin). split; [done|]. by apply elem_of_enumerate2. }
  apply submseteq_length in Hsub. lia.
Qed.

Lemma GenerateSimple_spec Intn N rt random minimum :
  N = rt * rt → 0 < N → N < 64 → solution N rt random →
  (∀ i n, 0 < n → Intn i n < n) →
  ∃ bo rest,
    GenerateSimple Intn random minimum = Ok bo
    ∧ square N bo ∧ extends bo random
    ∧ (∃ ab, NewAnnotatedBoard bo = Ok (ab, false)
             ∧ SingleCandidate ab 1 = Ok (true, [random]))
    ∧ NoDup rest.*1
    ∧ (∀ y x v, (y, x, v) ∈ rest → cell bo y x = Some v ∧ v ≠ 0%Z)
    ∧ ((0 < minimum < Z.of_nat (N * N))%Z → Z.of_nat (length rest) = minimum).
Proof.
  intros HN Hpos Hfit Hsol HIntn. pose proof Hsol as (Hsq & Hv & Hnd).
  unfold GenerateSimple. rewrite (Size_square N) by done.
  cbn [mbind result_bind]. rewrite GenerateSimple_fields_square by done.
  cbn [mbind result_bind].
  destruct (GenerateSimple_shuffle_Permutation Intn (enumerate2 random) HIntn)
    as (fields & -> & Hperm).
  cbn [mbind result_bind].
  destruct (SingleCandidate_solution N rt random HN Hpos Hfit Hsol)
    as (ab & HNew & HS).
  rewrite HNew. cbn [mbind result_bind]. cbv zeta.
  assert (board ab = random) as Hbo.
  { rewrite (NewAnnotatedBoard_square N) in HNew by done.
    destruct (Annotate_total N rt random [] HN Hpos Hsq) as (c & e & HA & _).
    rewrite HA in HNew. by injection HNew as <-. }
  assert (length fields = N * N) as Hlen.
  { by rewrite Hperm, (length_enumerate2 N). }
  destruct (GenerateSimple_loop_spec N rt random
    (bool_decide (0 < minimum)%Z && bool_decide (minimum < Z.of_nat (length fields))%Z)
    minimum (length fields) fields HN Hpos Hfit Hsol 0 ab)
    as (bo & rest & HG & ? & ? & ? & ? & ? & Hcount).
  - done.
  - rewrite Hperm. apply enumerate2_NoDup.
  - intros y x v Hin. rewrite Hperm in Hin. apply elem_of_enumerate2 in Hin.
    by rewrite Hbo.
  - by rewrite Hbo.
  - rewrite Hbo. apply extends_refl.
  - rewrite Hbo. by exists ab.
  - exists bo, rest. split_and!; try done. intros Hmin. apply Hcount; [|lia].
    apply andb_true_iff. split; apply bool_decide_eq_true; lia.
Qed.

Lemma solution_solved4 : solution 4 2 solved4.
Proof.
  assert (Forall (Forall (λ v, (1 ≤ v ≤ 4)%Z)) solved4) as Hval
    by (repeat constructor; lia).
  assert (square 4 solved4) as Hsq.
  { apply square_Forall; [reflexivity|]. by vm_compute; repeat constructor. }
  split_and!.
  - done.
  - intros y x v (row & Hrow & Hv)%cell_Some.
    rewrite Forall_lookup in Hval. specialize (Hval _ _ Hrow).
    rewrite Forall_lookup in Hval. apply (Hval x v Hv).
  - eapply (no_duplicate_Annotate 4 2); [reflexivity|lia|lia|done| |by vm_compute].
    apply values_in_Forall. repeat constructor; lia.
Qed.

(** X13.  [GenerateSimple] on a solved board (side below 64) returns a board that
    keeps only numbers of the solved board and that [SingleCandidate] solves
    back to it, whatever the random source gives. *)
Theorem GenerateSimple_solvable Intn N rt random minimum :
  N = rt * rt → 0 < N → N < 64 → solution N rt random →
  (∀ i n, 0 < n → Intn i n < n) →
  ∃ bo,
    GenerateSimple Intn random minimum = Ok bo
    ∧ square N bo ∧ extends bo random
    ∧ ∃ ab, NewAnnotatedBoard bo = Ok (ab, false)
            ∧ SingleCandidate ab 1 = Ok (true, [random]).
Proof.
  intros HN Hpos Hfit Hsol HIntn.
  destruct (GenerateSimple_spec Intn N rt random minimum HN Hpos Hfit Hsol HIntn)
    as (bo & rest & ? & ? & ? & ? & _).
  by exists bo.
Qed.

Lemma GenerateSimple_solvable_witness :
  ∃ bo,
    GenerateSimple (λ i n, i `mod` n) solved4 0 = Ok bo
    ∧ square 4 bo ∧ extends bo solved4
    ∧ ∃ ab, NewAnnotatedBoard bo = Ok (ab, false)
            ∧ SingleCandidate ab 1 = Ok (true, [solved4]).
Proof.
  apply (GenerateSimple_solvable (λ i n, i `mod` n) 4 2 solved4 0).
  - reflexivity.
  - lia.
  - lia.
  - apply solution_solved4.
  - intros i n Hn. apply Nat.mod_upper_bound. lia.
Defined.

(** X14.  With a [minimum] between [0] and the number of fields, at least
    [minimum] fields of the board that [GenerateSimple] returns hold a
    number. *)
Theorem GenerateSimple_minimum Intn N rt random minimum :
  N = rt * rt → 0 < N → N < 64 → solution N rt random →
  (∀ i n, 0 < n → Intn i n < n) →
  (0 < minimum < Z.of_nat (N * N))%Z →
  ∃ bo,
    GenerateSimple Intn random minimum = Ok bo
    ∧ (minimum ≤ Z.of_nat (N * N - zeros bo))%Z.
Proof.
  intros HN Hpos Hfit Hsol HIntn Hmin.
  destruct (GenerateSimple_spec Intn N rt random minimum HN Hpos Hfit Hsol HIntn)
    as (bo & rest & HG & Hsq & _ & _ & Hnd & Hrest & Hcount).
  exists bo. split; [done|].
  pose proof (zeros_filled N bo rest Hsq Hnd Hrest).
  specialize (Hcount Hmin). lia.
Qed.

Lemma GenerateSimple_minimum_witness :
  ∃ bo,
    GenerateSimple (λ i n, i `mod` n) solved4 12 = Ok bo
    ∧ (12 ≤ Z.of_nat (4 * 4 - zeros bo))%Z.
Proof.
  apply (GenerateSimple_minimum (λ i n, i `mod` n) 4 2 solved4 12).
  - reflexivity.
  - lia.
  - lia.
  - apply solution_solved4.
  - intros i n Hn. apply Nat.mod_upper_bound. lia.
  - lia.
Defined.

(** ** CandidateLines keeps the numbers of every solution *)

(** A solved board has every number in every block. *)
Lemma solution_block_has N rt (t : Board) blkY blkX c :
  N = rt * rt → solution N rt t → blkY < rt → blkX < rt →
  (1 ≤ c ≤ Z.of_nat N)%Z →
  ∃ y x, y / rt = blkY ∧ x / rt = blkX ∧ cell t y x = Some c.
Proof.
  intros HN (Hsq & Hv & Hnd) HY HX Hc.
  assert (rt ≠ 0) as Hrt by lia.
  set (pos := λ k : nat, (blkY * rt + k / rt, blkX * rt + k `mod` rt)).
  assert (∀ k, k < N → (pos k).1 / rt = blkY ∧ (pos k).2 / rt = blkX
                       ∧ (pos k).1 < N ∧ (pos k).2 < N) as Hpos.
  { intros k Hk. subst pos. cbn [fst snd].
    pose proof (div_lt_square rt k ltac:(lia)).
    pose proof (Nat.mod_upper_bound k rt Hrt).
    rewrite !Nat.div_add_l, !Nat.div_small by lia. split_and!; nia. }
  set (val := λ k : nat, default 0%Z (cell t (pos k).1 (pos k).2)).
  assert (∀ k, k < N → cell t (pos k).1 (pos k).2 = Some (val k)
                       ∧ (1 ≤ val k ≤ Z.of_nat N)%Z) as Hval.
  { intros k Hk. destruct (Hpos k Hk) as (_ & _ & ? & ?).
    destruct (square_cell N t (pos k).1 (pos k).2 Hsq) as [v Hcell]; [done..|].
    subst val. cbn beta. rewrite Hcell. split; [done|]. by eapply Hv. }
  assert (NoDup (val <$> seq 0 N)) as HND.
  { apply NoDup_fmap_2_strong; [|apply NoDup_seq].
    intros k k' [_ Hk]%elem_of_seq [_ Hk']%elem_of_seq Heq.
    destruct (Hval k ltac:(lia)) as [Hck ?], (Hval k' ltac:(lia)) as [Hck' ?].
    destruct (Hpos k ltac:(lia)) as (Hb1 & Hb2 & _),
      (Hpos k' ltac:(lia)) as (Hb1' & Hb2' & _).
    destruct (decide (pos k = pos k')) as [Hp|Hp].
    - subst pos. injection Hp as Hp1 Hp2.
      rewrite (Nat.div_mod_eq k rt), (Nat.div_mod_eq k' rt). nia.
    - exfalso. apply Hnd.
      exists (pos k).1, (pos k).2, (pos k').1, (pos k').2, (val k).
      split_and!; [done|by rewrite Heq| |lia|].
      + intros [= Hp1 Hp2]. apply Hp. by apply injective_projections.
      + right. right. split; congruence. }
  assert (val <$> seq 0 N ≡ₚ seqZ 1 (Z.of_nat N)) as Hperm.
  { apply submseteq_length_Permutation.
    - apply NoDup_submseteq; [done|].
      intros v (k & -> & [_ Hk]%elem_of_seq)%list_elem_of_fmap.
      apply elem_of_seqZ. destruct (Hval k ltac:(lia)). lia.
    - rewrite length_fmap, length_seq, length_seqZ. lia. }
  assert (c ∈ val <$> seq 0 N) as (k & -> & [_ Hk]%elem_of_seq)%list_elem_of_fmap.
  { rewrite Hperm. apply elem_of_seqZ. lia. }
  exists (pos k).1, (pos k).2.
  destruct (Hpos k ltac:(lia)) as (? & ? & _), (Hval k ltac:(lia)) as [? _].
  done.
Qed.

Lemma foldM_establish {A St} (Q : St → Prop) (f : St → A → result St) l a s s' :
  a ∈ l →
  (∀ s s', f s a = Ok s' → Q s') →
  (∀ s b s', Q s → f s b = Ok s' → Q s') →
  foldM f s l = Ok s' → Q s'.
Proof.
  intros Hin Hnew Hkeep. revert s. induction l as [|b l IH]; intros s.
  { by apply elem_of_nil in Hin. }
  cbn [foldM]. intros (s1 & H1 & H2)%bind_Ok.
  apply elem_of_cons in Hin as [->|Hin].
  - eapply (foldM_keeps Q); [|by eapply Hnew|done].
    intros ?????. by eapply Hkeep.
  - by eapply IH.
Qed.

Lemma noted_notes m c y x y' x' l :
  noted m c y x → noted (foldl (CandidateLines_note y' x') m l) c y x.
Proof.
  intros [(wr & Hr & Hbr) (wc & Hc & Hbc)]. split.
  - rewrite CandidateLines_notes_rows. case_decide; [|by exists wr].
    eexists. split; [done|]. rewrite Hr. by apply Add_ge.
  - rewrite CandidateLines_notes_cols. case_decide; [|by exists wc].
    eexists. split; [done|]. rewrite Hc. by apply Add_ge.
Qed.

Lemma noted_new m c y x l :
  c ∈ l → y + 1 ≤ 62 → x + 1 ≤ 62 →
  noted (foldl (CandidateLines_note y x) m l) c y x.
Proof.
  intros Hin Hy Hx. split.
  - rewrite CandidateLines_notes_rows, decide_True by done.
    eexists. split; [done|]. rewrite Add_testbit by lia.
    rewrite bool_decide_eq_true_2 by done. apply orb_true_r.
  - rewrite CandidateLines_notes_cols, decide_True by done.
    eexists. split; [done|]. rewrite Add_testbit by lia.
    rewrite bool_decide_eq_true_2 by done. apply orb_true_r.
Qed.

Lemma Remove_testbit_same c v : (0 ≤ v ≤ 62)%Z → Z.testbit (Remove c v) v = false.
Proof.
  intros Hv. unfold Remove. rewrite shl1_pow, Z.ldiff_spec by done.
  rewrite Z.pow2_bits_true by lia. apply andb_false_r.
Qed.

Lemma Remove_testbit_false c v i :
  Z.testbit c i = false → Z.testbit (Remove c v) i = false.
Proof.
  intros Hc. destruct (Z.testbit (Remove c v) i) eqn:E; [|done].
  apply Remove_le in E. congruence.
Qed.

Lemma CandidateLines_maps_noted size bs cands blkY blkX m yInBlk xInBlk cs c :
  CandidateLines_maps size bs cands blkY blkX = Ok m →
  yInBlk < bs → xInBlk < bs →
  blkY * bs + yInBlk + 1 ≤ 62 → blkX * bs + xInBlk + 1 ≤ 62 →
  cell cands (blkY * bs + yInBlk) (blkX * bs + xInBlk) = Some cs →
  c ∈ Decimals cs →
  noted m c (blkY * bs + yInBlk) (blkX * bs + xInBlk).
Proof.
  intros Hm Hy Hx Hy62 Hx62 Hcs Hc. unfold CandidateLines_maps in Hm.
  assert (∀ (m m' : block_maps) y b (r : Z),
    noted m c (blkY * bs + yInBlk) (blkX * bs + xInBlk) →
    foldM (λ m xInBlk,
      let x := blkX * bs + xInBlk in
      let m := mkBlockMaps (rowsNotInBlock m)
                 (Remove (colsNotInBlock m) (Z.of_nat (x + 1)))
                 (inRows m) (inCols m) in
      cs ← index2 cands y x;
      Ok (foldl (CandidateLines_note y x) m (Decimals cs)))
      (mkBlockMaps r (colsNotInBlock m) (inRows m) (inCols m)) (seq 0 b) = Ok m' →
    noted m' c (blkY * bs + yInBlk) (blkX * bs + xInBlk)) as Hkeep.
  { intros m0 m' y b r Hn. apply (foldM_keeps (λ m, noted m c _ _)); [|done].
    intros m1 x' m2 _ Hn1. cbv zeta. intros (cs' & _ & [= <-])%bind_Ok.
    by apply noted_notes. }
  revert Hm. apply (foldM_establish (λ m, noted m c _ _) _ _ yInBlk).
  - apply elem_of_seq. lia.
  - intros m0 m'. cbv zeta.
    apply (foldM_establish (λ m, noted m c _ _) _ _ xInBlk).
    + apply elem_of_seq. lia.
    + intros m1 m2. cbv zeta. rewrite (index2_is_Ok _ _ _ _ Hcs).
      cbn [mbind result_bind]. intros [= <-]. by apply noted_new.
    + intros m1 x' m2 Hn1. cbv zeta. intros (cs' & _ & [= <-])%bind_Ok.
      by apply noted_notes.
  - intros m0 y' m' Hn. cbv zeta. by apply Hkeep.
Qed.

Lemma CandidateLines_maps_outside size bs cands blkY blkX m :
  CandidateLines_maps size bs cands blkY blkX = Ok m →
  (∀ yInBlk, yInBlk < bs → blkY * bs + yInBlk + 1 ≤ 62 →
     Z.testbit (rowsNotInBlock m) (Z.of_nat (blkY * bs + yInBlk + 1)) = false)
  ∧ (∀ xInBlk, xInBlk < bs → blkX * bs + xInBlk + 1 ≤ 62 → 0 < bs →
     Z.testbit (colsNotInBlock m) (Z.of_nat (blkX * bs + xInBlk + 1)) = false).
Proof.
  intros Hm. unfold CandidateLines_maps in Hm. split.
  - intros yInBlk Hy Hy62. revert Hm.
    set (Q := λ m : block_maps,
           Z.testbit (rowsNotInBlock m) (Z.of_nat (blkY * bs + yInBlk + 1)) = false).
    assert (∀ (m m' : block_maps) y b,
      Q m →
      foldM (λ m xInBlk,
        let x := blkX * bs + xInBlk in
        let m := mkBlockMaps (rowsNotInBlock m)
                   (Remove (colsNotInBlock m) (Z.of_nat (x + 1)))
                   (inRows m) (inCols m) in
        cs ← index2 cands y x;
        Ok (foldl (CandidateLines_note y x) m (Decimals cs))) m (seq 0 b) = Ok m' →
      Q m') as Hkeep.
    { intros m0 m' y b. apply (foldM_keeps Q).
      intros m1 x' m2 _ Hn1. cbv zeta. intros (cs' & _ & [= <-])%bind_Ok.
      unfold Q. by rewrite (proj1 (CandidateLines_notes_rest _ _ _ _)). }
    apply (foldM_establish Q _ _ yInBlk).
    + apply elem_of_seq. lia.
    + intros m0 m'. cbv zeta. apply Hkeep. unfold Q. cbn [rowsNotInBlock].
      apply Remove_testbit_same. lia.
    + intros m0 y' m' Hn. cbv zeta. apply Hkeep. unfold Q. cbn [rowsNotInBlock].
      by apply Remove_testbit_false.
  - intros xInBlk Hx Hx62 Hbs. revert Hm.
    set (Q := λ m : block_maps,
           Z.testbit (colsNotInBlock m) (Z.of_nat (blkX * bs + xInBlk + 1)) = false).
    assert (∀ (m1 : block_maps) x' y (m2 : block_maps),
      Q m1 →
      (let x := blkX * bs + x' in
       let m := mkBlockMaps (rowsNotInBlock m1)
                  (Remove (colsNotInBlock m1) (Z.of_nat (x + 1)))
                  (inRows m1) (inCols m1) in
       cs ← index2 cands y x;
       Ok (foldl (CandidateLines_note y x) m (Decimals cs))) = Ok m2 →
      Q m2) as Hstep.
    { intros m1 x' y m2 Hn1. cbv zeta. intros (cs' & _ & [= <-])%bind_Ok.
      unfold Q. rewrite (proj2 (CandidateLines_notes_rest _ _ _ _)).
      cbn [colsNotInBlock]. by apply Remove_testbit_false. }
    apply (foldM_establish Q _ _ 0).
    + apply elem_of_seq. lia.
    + intros m0 m'. cbv zeta.
      apply (foldM_establish Q _ _ xInBlk).
      * apply elem_of_seq. lia.
      * intros m1 m2. cbv zeta. intros (cs' & _ & [= <-])%bind_Ok.
        unfold Q. rewrite (proj2 (CandidateLines_notes_rest _ _ _ _)).
        cbn [colsNotInBlock]. apply Remove_testbit_same. lia.
      * intros m1 x' m2. apply Hstep.
    + intros m0 y' m' Hn. cbv zeta. apply (foldM_keeps Q); [|done].
      intros m1 x' m2 _. apply Hstep.
Qed.

Lemma CandidateLines_remove_admits c y x st st' (t : Board) :
  CandidateLines_remove c y x st = Ok st' → admits st.1 t →
  (∀ v, cellZ t y x = Some v → v ≠ c) → admits st'.1 t.
Proof.
  rewrite CandidateLines_remove_cellZ.
  destruct (cellZ st.1 y x) as [s|] eqn:Hs; [|done]. intros [= <-] Had Hne.
  destruct (Contains s c) eqn:HC; [|done]. cbn [fst].
  pose proof (cellZ_nonneg _ _ _ _ Hs) as [Hy Hx].
  unfold cellZ in Hs, Hne. rewrite decide_True in Hs, Hne by done.
  intros y' x' v c' Ht. rewrite cell_set_cell by done.
  case_decide as Heq; [|by apply Had].
  destruct Heq as [-> ->]. intros [= <-].
  rewrite Contains_Remove_eq, (Had _ _ _ _ Ht Hs).
  rewrite bool_decide_eq_false_2; [done|]. by apply Hne.
Qed.

Lemma noted_Single m c y x w :
  noted m c y x →
  (inRows m !! c = Some w → Single w = true → y + 1 ≤ 62 →
     index (Decimals w) 0 = Ok (Z.of_nat (y + 1)))
  ∧ (inCols m !! c = Some w → Single w = true → x + 1 ≤ 62 →
     index (Decimals w) 0 = Ok (Z.of_nat (x + 1))).
Proof.
  assert (∀ k : nat, Single w = true → Z.testbit w (Z.of_nat (k + 1)) = true →
            index (Decimals w) 0 = Ok (Z.of_nat (k + 1))) as H.
  { intros k (j & Hj & -> & HD)%Single_Decimals Hb.
    rewrite Z.pow2_bits_eqb in Hb by lia. apply Z.eqb_eq in Hb. subst j.
    rewrite HD, decide_False by lia. done. }
  intros [(wr & Hr & Hbr) (wc & Hc & Hbc)]. split.
  - intros Hw HS _. apply H; [done|].
    by pose proof (eq_trans (eq_sym Hw) Hr) as [= ->].
  - intros Hw HS _. apply H; [done|].
    by pose proof (eq_trans (eq_sym Hw) Hc) as [= ->].
Qed.

Lemma CandidateLines_cols_admits range_map N rt blkY blkX m st st' (t : Board) :
  range_ok range_map → N = rt * rt → N < 64 → solution N rt t →
  maps_of N rt blkY blkX m t →
  CandidateLines_cols range_map m st = Ok st' → admits st.1 t → admits st'.1 t.
Proof.
  intros Hrange HN Hfit (Hsq & Hv & Hnd) (Hwit & Hrows & _).
  pose proof (square_side_small N rt HN Hfit) as Hsmall.
  unfold CandidateLines_cols. intros Hfold0 Had0. revert Hfold0.
  apply (foldM_keeps (λ st, admits st.1 t)); [|done].
  intros s [c cols] s' Hin%(range_ok_lookup _ _ _ _ Hrange) Hs.
  destruct (Single cols) eqn:HS; [|by intros [= <-]].
  intros (d & Hd & Hfold)%bind_Ok. revert Hfold.
  apply (foldM_keeps (λ st, admits st.1 t)); [|done].
  intros s1 row s2 Hrow Hs1 Hrem.
  apply (CandidateLines_remove_admits _ _ _ _ _ _ Hrem Hs1).
  intros v Hcell ->.
  pose proof (cellZ_nonneg _ _ _ _ Hcell) as [Hy Hx].
  unfold cellZ in Hcell. rewrite decide_True in Hcell by done.
  pose proof (Hv _ _ _ Hcell) as Hc.
  destruct (Hwit c Hc) as (y0 & x0 & HY & HX & Hy0 & Hx0 & Ht0 & Hnoted).
  destruct (noted_Single m c y0 x0 cols Hnoted) as [_ Hcol].
  rewrite Hcol in Hd by (done || lia). injection Hd as <-.
  replace (Z.to_nat (Z.of_nat (x0 + 1) - 1)) with x0 in Hcell by lia.
  apply Hnd. exists (Z.to_nat (row - 1)), x0, y0, x0, c.
  split_and!; [done..| |lia|by right; left].
  intros [= Heq]. apply (Hrows row Hrow). by rewrite Heq.
Qed.

Lemma CandidateLines_rows_admits range_map N rt blkY blkX m st st' (t : Board) :
  range_ok range_map → N = rt * rt → N < 64 → solution N rt t →
  maps_of N rt blkY blkX m t →
  CandidateLines_rows range_map m st = Ok st' → admits st.1 t → admits st'.1 t.
Proof.
  intros Hrange HN Hfit (Hsq & Hv & Hnd) (Hwit & _ & Hcols).
  pose proof (square_side_small N rt HN Hfit) as Hsmall.
  unfold CandidateLines_rows. intros Hfold0 Had0. revert Hfold0.
  apply (foldM_keeps (λ st, admits st.1 t)); [|done].
  intros s [c rows] s' Hin%(range_ok_lookup _ _ _ _ Hrange) Hs.
  destruct (Single rows) eqn:HS; [|by intros [= <-]].
  intros (d & Hd & Hfold)%bind_Ok. revert Hfold.
  apply (foldM_keeps (λ st, admits st.1 t)); [|done].
  intros s1 col s2 Hcol Hs1 Hrem.
  apply (CandidateLines_remove_admits _ _ _ _ _ _ Hrem Hs1).
  intros v Hcell ->.
  pose proof (cellZ_nonneg _ _ _ _ Hcell) as [Hy Hx].
  unfold cellZ in Hcell. rewrite decide_True in Hcell by done.
  pose proof (Hv _ _ _ Hcell) as Hc.
  destruct (Hwit c Hc) as (y0 & x0 & HY & HX & Hy0 & Hx0 & Ht0 & Hnoted).
  destruct (noted_Single m c y0 x0 rows Hnoted) as [Hrow _].
  rewrite Hrow in Hd by (done || lia). injection Hd as <-.
  replace (Z.to_nat (Z.of_nat (y0 + 1) - 1)) with y0 in Hcell by lia.
  apply Hnd. exists y0, (Z.to_nat (col - 1)), y0, x0, c.
  split_and!; [done..| |lia|by left].
  intros [= Heq]. apply (Hcols col Hcol). by rewrite Heq.
Qed.

Lemma Contains_Decimals c v :
  (0 ≤ c)%Z → (1 ≤ v ≤ 62)%Z → Contains c v = true → v ∈ Decimals c.
Proof.
  intros Hc Hv HC. rewrite Contains_testbit in HC by lia.
  apply elem_of_Decimals. split_and!; [|lia|done].
  destruct (decide (c = 0%Z)) as [->|]; [|lia]. by rewrite Z.bits_0 in HC.
Qed.

Lemma CandidateLines_maps_of N rt cands blkY blkX m (t : Board) :
  N = rt * rt → N < 64 → solution N rt t →
  square N cands → nonneg cands → admits cands t →
  blkY < rt → blkX < rt →
  CandidateLines_maps N rt cands blkY blkX = Ok m → maps_ok N m →
  maps_of N rt blkY blkX m t.
Proof.
  intros HN Hfit Hsol Hsq Hnn Had HY HX Hm (Hlr & Hlc & _).
  pose proof (square_side_small N rt HN Hfit) as Hsmall.
  assert (rt ≠ 0) as Hrt by lia.
  destruct (CandidateLines_maps_outside _ _ _ _ _ _ Hm) as [Hor Hoc].
  assert (∀ y, y < N → y / rt < rt ∧ y = y / rt * rt + y `mod` rt
                       ∧ y `mod` rt < rt) as Hdiv.
  { intros y Hy. pose proof (div_lt_square rt y ltac:(lia)).
    pose proof (Nat.mod_upper_bound y rt Hrt).
    pose proof (Nat.div_mod_eq y rt). split_and!; lia. }
  split_and!.
  - intros c Hc.
    destruct (solution_block_has N rt t blkY blkX c HN Hsol HY HX Hc)
      as (y0 & x0 & HY0 & HX0 & Ht).
    destruct Hsol as (Hsqt & _).
    destruct (square_cell_lt N t y0 x0 c Hsqt Ht) as [Hy0 Hx0].
    exists y0, x0. split_and!; try done.
    destruct (square_cell N cands y0 x0 Hsq Hy0 Hx0) as [cs Hcs].
    destruct (Hdiv y0 Hy0) as (_ & Hey & ?), (Hdiv x0 Hx0) as (_ & Hex & ?).
    rewrite HY0 in Hey. rewrite HX0 in Hex. rewrite Hey, Hex.
    apply (CandidateLines_maps_noted N rt cands blkY blkX m _ _ cs);
      try done; try lia.
    + by rewrite <- Hey, <- Hex.
    + apply Contains_Decimals; [by eapply Hnn|lia|by eapply Had].
  - intros row Hrow Hblk.
    pose proof (lines_Decimals N _ _ Hlr Hrow) as Hr.
    apply elem_of_Decimals in Hrow as (_ & _ & Hbit).
    destruct (Hdiv (Z.to_nat (row - 1)) ltac:(lia)) as (_ & He & Hlt).
    rewrite Hblk in He.
    replace row with (Z.of_nat (blkY * rt + Z.to_nat (row - 1) `mod` rt + 1))
      in Hbit by lia.
    rewrite (Hor (Z.to_nat (row - 1) `mod` rt)) in Hbit; [done|done|lia].
  - intros col Hcol Hblk.
    pose proof (lines_Decimals N _ _ Hlc Hcol) as Hr.
    apply elem_of_Decimals in Hcol as (_ & _ & Hbit).
    destruct (Hdiv (Z.to_nat (col - 1)) ltac:(lia)) as (_ & He & Hlt).
    rewrite Hblk in He.
    replace col with (Z.of_nat (blkX * rt + Z.to_nat (col - 1) `mod` rt + 1))
      in Hbit by lia.
    rewrite (Hoc (Z.to_nat (col - 1) `mod` rt)) in Hbit; [done|done|lia|lia].
Qed.

Lemma pass_inv_nonneg N cands0 st :
  square N cands0 → nonneg cands0 → pass_inv N cands0 st → nonneg st.1.
Proof.
  intros Hsq0 Hnn (Hsq & Hle & _) y x c Hc.
  destruct (square_cell_lt N _ y x c Hsq Hc) as [Hy Hx].
  destruct (square_cell N cands0 y x Hsq0 Hy Hx) as [c0 Hc0].
  apply (bits_le_nonneg c c0); [by eapply Hle|by eapply Hnn].
Qed.

Lemma CandidateLines_block_admits range_map N rt cands0 st blk (t : Board) :
  range_ok range_map → N = rt * rt → N < 64 → solution N rt t →
  square N cands0 → nonneg cands0 →
  pass_inv N cands0 st → admits st.1 t → blk.1 < rt → blk.2 < rt →
  ∃ st', CandidateLines_block range_map N rt st blk = Ok st'
         ∧ pass_inv N cands0 st' ∧ admits st'.1 t.
Proof.
  intros Hrange HN Hfit Hsol Hsq0 Hnn Hst Had HY HX.
  pose proof (sqrt_square rt) as Hrt. rewrite <- HN in Hrt.
  unfold CandidateLines_block. rewrite <- Hrt in HY, HX.
  destruct (CandidateLines_maps_ok N st.1 blk.1 blk.2) as (m & Hm & Hok);
    [apply Hst|done..|].
  rewrite Hrt in Hm, HY, HX. rewrite Hm. cbn [mbind result_bind].
  assert (maps_of N rt blk.1 blk.2 m t) as Hof.
  { apply (CandidateLines_maps_of N rt st.1); try done; [apply Hst|].
    by apply (pass_inv_nonneg N cands0). }
  destruct (CandidateLines_cols_inv range_map N cands0 m st)
    as (st1 & Hst1 & Hinv1); [done..|].
  rewrite Hst1. cbn [mbind result_bind].
  pose proof (CandidateLines_cols_admits range_map N rt blk.1 blk.2 m st st1 t
                Hrange HN Hfit Hsol Hof Hst1 Had) as Had1.
  destruct (CandidateLines_rows_inv range_map N cands0 m st1)
    as (st2 & Hst2 & Hinv2); [done..|].
  exists st2. split_and!; [done..|].
  by apply (CandidateLines_rows_admits range_map N rt blk.1 blk.2 m st1 st2 t).
Qed.

(** X15.  [CandidateLines] removes safely: a solved board whose numbers are among
    the candidates of their fields before the pass still has them among the
    candidates after the pass (side below 64, candidate words in
    [0 .. 2^62 - 1]). *)
Theorem CandidateLines_keeps_solutions range_map N rt ab (t : Board) :
  range_ok range_map → N = rt * rt → 0 < N → N < 64 →
  square N (board ab) → square N (candidates ab) →
  small_words (candidates ab) →
  solution N rt t → admits (candidates ab) t →
  ∃ cands succeeded,
    CandidateLines range_map ab
    = Ok (mkAnnotatedBoard (board ab) cands, succeeded)
    ∧ admits cands t.
Proof.
  intros Hrange HN Hpos Hfit Hsqb Hsqc Hnn%small_words_nonneg Hsol Had.
  pose proof (sqrt_square rt) as Hrt. rewrite <- HN in Hrt.
  rewrite (CandidateLines_blocks range_map N) by done. rewrite Hrt.
  destruct (foldM_inv
    (λ st, pass_inv N (candidates ab) st ∧ admits st.1 t)
    (CandidateLines_block range_map N rt) (blocks rt) (candidates ab, false))
    as (st & -> & Hinv & Hadm).
  - intros s blk [HY HX]%elem_of_blocks [Hs Hads].
    by apply (CandidateLines_block_admits range_map N rt (candidates ab)).
  - split; [by apply pass_inv_init|done].
  - cbn [mbind result_bind]. by exists st.1, st.2.
Qed.

Lemma CandidateLines_keeps_solutions_witness :
  ∃ cands succeeded,
    CandidateLines map_to_list (mkAnnotatedBoard unsolved4 annotated4)
    = Ok (mkAnnotatedBoard (board (mkAnnotatedBoard unsolved4 annotated4)) cands,
          succeeded)
    ∧ admits cands completed4.
Proof.
  apply (CandidateLines_keeps_solutions map_to_list 4 2
           (mkAnnotatedBoard unsolved4 annotated4) completed4).
  - apply range_ok_map_to_list.
  - reflexivity.
  - lia.
  - lia.
  - apply square_unsolved4.
  - apply square_annotated4.
  - apply small_words_Forall. repeat constructor; done.
  - apply completion_unsolved4.
  - intros y x v c Ht Hc.
    destruct y as [|[|[|[|y]]]]; try done;
      destruct x as [|[|[|[|x]]]]; try done;
      vm_compute in Ht, Hc; injection Ht as <-; injection Hc as <-; reflexivity.
Defined.

(** ** Short notation *)

Lemma append_cons x (a b : string) : String x a +:+ b = String x (a +:+ b).
Proof. reflexivity. Qed.

Lemma append_assoc (a b c : string) : (a +:+ b) +:+ c = a +:+ (b +:+ c).
Proof.
  induction a as [|x a IH]; [done|]. rewrite !append_cons. by f_equal.
Qed.

Lemma append_nil_r (a : string) : a +:+ EmptyString = a.
Proof.
  induction a as [|x a IH]; [done|]. rewrite append_cons. by f_equal.
Qed.

Lemma Itoa_digit v : (1 ≤ v ≤ 9)%Z → Itoa v = String (digit v) EmptyString.
Proof.
  intros Hv.
  assert (v = 1 ∨ v = 2 ∨ v = 3 ∨ v = 4 ∨ v = 5 ∨ v = 6 ∨ v = 7 ∨ v = 8 ∨ v = 9)%Z
    as H by lia.
  repeat (destruct H as [->|H]; [reflexivity|]). by subst.
Qed.

Lemma digit_class v :
  (1 ≤ v ≤ 9)%Z → digit19 (digit v) = true ∧ Atoi_byte (digit v) = v.
Proof.
  intros Hv.
  assert (v = 1 ∨ v = 2 ∨ v = 3 ∨ v = 4 ∨ v = 5 ∨ v = 6 ∨ v = 7 ∨ v = 8 ∨ v = 9)%Z
    as H by lia.
  repeat (destruct H as [->|H]; [by split|]). by subst.
Qed.

Lemma letter_class y :
  y < 26 →
  index_string abc y = Ok (letter y) ∧ lower (letter y) = true
  ∧ Index abc (letter y) = Z.of_nat y.
Proof.
  intros Hy.
  do 26 (destruct y as [|y]; [by split_and!|]). lia.
Qed.

Lemma Short_cells (cells : list (nat * nat * Z)) s0 :
  (∀ y x v, (y, x, v) ∈ cells → y < 26 ∧ x < 9 ∧ (v ≤ 9)%Z) →
  foldM (λ s '(y, x, v),
    if decide (0 < v)%Z then
      c ← index_string abc y;
      Ok (((s +:+ String c EmptyString) +:+ Itoa (Z.of_nat x + 1)) +:+ Itoa v)
    else Ok s) s0 cells
  = Ok (s0 +:+ triples cells).
Proof.
  revert s0. induction cells as [|[[y x] v] cells IH]; intros s0 Hc.
  { cbn. by rewrite append_nil_r. }
  destruct (Hc y x v) as (Hy & Hx & Hv); [left|].
  cbn [foldM triples foldr snd].
  destruct (decide (0 < v)%Z) as [Hpos|Hpos]; cbn [mbind result_bind].
  - destruct (letter_class y Hy) as (-> & _). cbn [mbind result_bind].
    rewrite IH by (intros; apply Hc; by right).
    rewrite !Itoa_digit by lia. rewrite !append_assoc. done.
  - apply IH. intros. apply Hc. by right.
Qed.

Lemma triples_cons c cells :
  (0 < c.2)%Z →
  triples (c :: cells)
  = String (letter c.1.1)
      (String (digit (Z.of_nat c.1.2 + 1)) (String (digit c.2) (triples cells))).
Proof. intros Hv. cbn [triples foldr]. by rewrite decide_True. Qed.

Lemma triples_skip c cells : ¬ (0 < c.2)%Z → triples (c :: cells) = triples cells.
Proof. intros Hv. cbn [triples foldr]. by rewrite decide_False. Qed.

Lemma FindAllString_triples (cells : list (nat * nat * Z)) :
  (∀ y x v, (y, x, v) ∈ cells → y < 26 ∧ x < 9 ∧ (v ≤ 9)%Z) →
  FindAllString (triples cells) = triple <$> filter (λ c, 0 < c.2)%Z cells
  ∧ String.length (triples cells) = 3 * length (filter (λ c, 0 < c.2)%Z cells)
  ∧ (triples cells ≠ EmptyString → MatchString (triples cells) = true).
Proof.
  induction cells as [|[[y x] v] cells IH]; intros Hc; [done|].
  destruct (Hc y x v) as (Hy & Hx & Hv); [left|].
  destruct IH as (IH1 & IH2 & IH3); [intros; apply Hc; by right|].
  rewrite filter_cons. cbn [snd].
  destruct (decide (0 < v)%Z) as [Hpos|Hpos].
  - rewrite triples_cons by done. cbn [fst snd].
    destruct (letter_class y Hy) as (_ & Hl & _).
    destruct (digit_class (Z.of_nat x + 1)) as [Hd1 _]; [lia|].
    destruct (digit_class v) as [Hd2 _]; [lia|].
    cbn [FindAllString MatchString String.length length fmap list_fmap].
    rewrite Hl, Hd1, Hd2. cbn [andb orb]. rewrite IH1, IH2.
    split_and!; [done|lia|done].
  - by rewrite triples_skip.
Qed.

Lemma NewFromShort_cells (cells : list (nat * nat * Z)) (bo : Board) :
  (∀ y x v, (y, x, v) ∈ cells → y < 26 ∧ x < 9 ∧ (1 ≤ v ≤ 9)%Z) →
  foldM (λ bo triple,
    t0 ← index_string triple 0;
    t1 ← index_string triple 1;
    t2 ← index_string triple 2;
    let y := Index abc t0 in
    let x := Atoi_byte t1 in
    let v := Atoi_byte t2 in
    assign2Z bo y (x - 1)%Z v) bo (triple <$> cells)
  = foldM (λ bo '(y, x, v), assign2 bo y x v) bo cells.
Proof.
  revert bo. induction cells as [|[[y x] v] cells IH]; intros bo Hc; [done|].
  destruct (Hc y x v) as (Hy & Hx & Hv); [left|].
  cbn [fmap list_fmap foldM].
  change (index_string (triple (y, x, v)) 0) with (Ok (letter y)).
  change (index_string (triple (y, x, v)) 1) with (Ok (digit (Z.of_nat x + 1))).
  change (index_string (triple (y, x, v)) 2) with (Ok (digit v)).
  cbn [mbind result_bind]. cbv zeta.
  destruct (letter_class y Hy) as (_ & _ & ->).
  destruct (digit_class (Z.of_nat x + 1)) as [_ ->]; [lia|].
  destruct (digit_class v) as [_ ->]; [lia|].
  replace (Z.of_nat x + 1 - 1)%Z with (Z.of_nat x) by lia.
  rewrite assign2Z_nat.
  destruct (assign2 bo y x v); cbn [mbind result_bind]; [|done..].
  apply IH. intros. apply Hc. by right.
Qed.

Lemma fill_cells {A} N (g0 : list (list A)) (cells : list (nat * nat * A)) :
  square N g0 → NoDup cells.*1 →
  (∀ y x v, (y, x, v) ∈ cells → y < N ∧ x < N) →
  ∃ g, foldM (λ bo '(y, x, v), assign2 bo y x v) g0 cells = Ok g
       ∧ square N g
       ∧ (∀ y x v, (y, x, v) ∈ cells → cell g y x = Some v)
       ∧ (∀ y x, (y, x) ∉ cells.*1 → cell g y x = cell g0 y x).
Proof.
  revert g0. induction cells as [|[[y x] v] cells IH]; intros g0 Hsq Hnd Hc.
  { exists g0. split_and!; [done..| |done]. by intros ??? ?%elem_of_nil. }
  destruct (Hc y x v) as (Hy & Hx); [left|].
  apply NoDup_cons in Hnd as [Hnotin Hnd]. cbn [fmap list_fmap fst] in *.
  pose proof (square_cell N g0 y x Hsq Hy Hx) as Hsome.
  cbn [foldM]. rewrite assign2_is_Ok by done. cbn [mbind result_bind].
  destruct (IH (set_cell g0 y x v)) as (g & -> & Hg & Hin & Hout);
    [by apply square_set_cell|done
    |intros y' x' v' ?; apply (Hc y' x' v'); by right|].
  exists g. split_and!; [done..| |].
  - intros y' x' v' [[= -> -> ->]|Hin']%elem_of_cons; [|by apply Hin].
    rewrite Hout by done. by rewrite cell_set_cell, decide_True.
  - intros y' x' Hnot. apply not_elem_of_cons in Hnot as [Hne Hnot].
    rewrite Hout by done. rewrite cell_set_cell, decide_False; [done| |done].
    intros [-> ->]. done.
Qed.

(** X16.  [NewFromShort] reads back what [Short] writes: a board of side at most
    9 with the numbers 0 to 9 is the board that its short notation stands
    for. *)
Theorem NewFromShort_Short N (bo : Board) :
  0 < N ≤ 9 → square N bo → values_in 9 bo →
  ∃ s, Short bo = Ok (s, false)
       ∧ NewFromShort s (Z.of_nat N) = Ok (bo, false).
Proof.
  intros HN Hsq Hval.
  assert (∀ y x v, (y, x, v) ∈ enumerate2 bo → y < 26 ∧ x < 9 ∧ (v ≤ 9)%Z) as Hc.
  { intros y x v Hin. destruct (enumerate2_lt N bo y x v Hsq Hin).
    apply elem_of_enumerate2, Hval in Hin. lia. }
  exists (triples (enumerate2 bo)). split.
  { unfold Short. rewrite (Size_square N) by (done || lia).
    cbn [mbind result_bind]. rewrite decide_False by lia.
    by rewrite Short_cells. }
  destruct (FindAllString_triples (enumerate2 bo) Hc) as (HF & HL & HM).
  unfold NewFromShort, NewEmptyBoard. rewrite decide_False by lia.
  cbn [mbind result_bind]. rewrite Nat2Z.id.
  set (filled := filter (λ c : nat * nat * Z, (0 < c.2)%Z) (enumerate2 bo)) in *.
  assert (∀ y x v, (y, x, v) ∈ filled ↔ cell bo y x = Some v ∧ (0 < v)%Z) as Hfilled.
  { intros y x v. subst filled. rewrite list_elem_of_filter, elem_of_enumerate2.
    cbn [snd]. tauto. }
  destruct (fill_cells N (replicate N (replicate N 0%Z)) filled)
    as (g & Hg & Hgsq & Hin & Hout).
  { by apply square_replicate. }
  { apply (sublist_NoDup _ (enumerate2 bo).*1); [apply enumerate2_NoDup|].
    apply fmap_sublist, sublist_filter. }
  { intros y x v [Hcell _]%Hfilled. by apply (square_cell_lt N bo y x v). }
  assert (g = bo) as ->.
  { apply (square_ext N); [done..|]. intros y x.
    destruct (cell bo y x) as [v|] eqn:E.
    - destruct (decide (0 < v)%Z) as [Hpos|Hpos].
      + apply Hin, Hfilled. done.
      + rewrite Hout.
        * destruct (square_cell_lt N bo y x v Hsq E) as [Hy Hx].
          assert (v = 0%Z) as -> by (apply Hval in E; lia).
          unfold cell. rewrite lookup_replicate_2 by done. cbn.
          by rewrite lookup_replicate_2.
        * intros ([[y' x'] v'] & [= <- <-] & [Hcell ?]%Hfilled)%list_elem_of_fmap.
          assert (v' = v) by congruence. lia.
    - destruct (cell g y x) as [w|] eqn:E'; [|done].
      destruct (square_cell_lt N g y x w Hgsq E').
      destruct (square_cell N bo y x Hsq) as [? ?]; [done..|congruence]. }
  destruct (decide (triples (enumerate2 bo) = EmptyString)) as [Hempty|Hne].
  { f_equal. f_equal. rewrite Hempty in HF. cbn in HF.
    symmetry in HF. apply fmap_nil_inv in HF. rewrite HF in Hg.
    cbn in Hg. by injection Hg as ->. }
  rewrite (HM Hne). cbn [negb]. rewrite HF, HL.
  rewrite take_ge.
  2:{ rewrite length_fmap. rewrite Nat.mul_comm, Nat.div_mul by done. done. }
  rewrite NewFromShort_cells.
  2:{ intros y x v Hf. pose proof Hf as [Hcell ?]%Hfilled.
      destruct (Hc y x v); [by apply elem_of_enumerate2|]. lia. }
  by rewrite Hg.
Qed.

Lemma NewFromShort_Short_witness :
  ∃ s, Short unsolved4 = Ok (s, false)
       ∧ NewFromShort s (Z.of_nat 4) = Ok (unsolved4, false).
Proof.
  apply (NewFromShort_Short 4 unsolved4).
  - lia.
  - apply square_unsolved4.
  - apply values_in_Forall. repeat constructor; lia.
Defined.

Lemma FindAllString_cons a b c s' :
  FindAllString (String a (String b (String c s')))
  = if lower a && digit19 b && digit19 c
    then String a (String b (String c EmptyString)) :: FindAllString s'
    else FindAllString (String b (String c s')).
Proof. reflexivity. Qed.

Lemma MatchString_cons a b c s' :
  MatchString (String a (String b (String c s')))
  = lower a && digit19 b && digit19 c || MatchString (String b (String c s')).
Proof. reflexivity. Qed.

Lemma FindAllString_spec (s : string) :
  3 * length (FindAllString s) ≤ String.length s
  ∧ (∀ t, t ∈ FindAllString s →
       ∃ a b c, t = String a (String b (String c EmptyString)))
  ∧ (MatchString s = true ↔ FindAllString s ≠ []).
Proof.
  assert (∀ n s, String.length s ≤ n →
    3 * length (FindAllString s) ≤ String.length s
    ∧ (∀ t, t ∈ FindAllString s →
         ∃ a b c, t = String a (String b (String c EmptyString)))
    ∧ (MatchString s = true ↔ FindAllString s ≠ [])) as H;
    [|by apply (H (String.length s))].
  clear s. induction n as [|n IH]; intros s Hn.
  { destruct s; [|cbn in Hn; lia]. cbn. split_and!; [lia| |done].
    by intros ? ?%elem_of_nil. }
  destruct s as [|a [|b [|c s']]].
  - cbn. split_and!; [lia| |done]. by intros ? ?%elem_of_nil.
  - cbn. split_and!; [lia| |done]. by intros ? ?%elem_of_nil.
  - cbn. split_and!; [lia| |done]. by intros ? ?%elem_of_nil.
  - cbn [String.length] in Hn.
    rewrite FindAllString_cons, MatchString_cons.
    destruct (lower a && digit19 b && digit19 c) eqn:Hclass.
    + destruct (IH s') as (IH1 & IH2 & _); [lia|]. cbn [orb length String.length].
      split_and!; [lia| |done].
      intros t [->|Hin]%elem_of_cons; [by eexists _, _, _|by apply IH2].
    + destruct (IH (String b (String c s'))) as (IH1 & IH2 & IH3).
      { cbn [String.length]. lia. }
      cbn [orb]. cbn [String.length] in *. split_and!; [lia|done|done].
Qed.

Lemma index_string_no_fuel s i : index_string s i ≠ OutOfFuel.
Proof. unfold index_string. by destruct (String.get i s). Qed.

Lemma foldM_panic_inv {A St} (I : St → Prop) (f : St → A → result St) l a s :
  a ∈ l → I s →
  (∀ s b, I s → f s b = Panic ∨ ∃ s', f s b = Ok s' ∧ I s') →
  (∀ s, I s → f s a = Panic) →
  foldM f s l = Panic.
Proof.
  intros Hin Hs Hstep Ha. revert s Hs. induction l as [|b l IH]; intros s Hs.
  { by apply elem_of_nil in Hin. }
  cbn [foldM]. apply elem_of_cons in Hin as [<-|Hin].
  - by rewrite Ha.
  - destruct (Hstep s b Hs) as [->|(s' & -> & Hs')]; [done|].
    cbn [mbind result_bind]. by apply IH.
Qed.

(** X17.  [NewFromShort] does not check the triples against the size: a triple
    whose row letter or column digit lies outside of the board makes it
    panic (index out of range). *)
Theorem NewFromShort_out_of_range (s : string) (size : nat) y x v :
  triple (y, x, v) ∈ FindAllString s → y < 26 → x < 9 → (1 ≤ v ≤ 9)%Z →
  size ≤ y ∨ size ≤ x →
  NewFromShort s (Z.of_nat size) = Panic.
Proof.
  intros Hin Hy Hx Hv Hout.
  destruct (FindAllString_spec s) as (Hlen & Hform & HM).
  unfold NewFromShort, NewEmptyBoard. rewrite decide_False by lia.
  cbn [mbind result_bind]. rewrite Nat2Z.id.
  assert (FindAllString s ≠ []) as Hne.
  { intros Hnil. rewrite Hnil in Hin. by apply elem_of_nil in Hin. }
  rewrite decide_False by (by intros ->).
  rewrite (proj2 HM Hne). cbn [negb]. rewrite take_ge by (apply Nat.div_le_lower_bound; lia).
  rewrite (foldM_panic_inv (square size) _ _ (triple (y, x, v))); try done.
  - by apply square_replicate.
  - intros bo t Hsq.
    destruct (index_string t 0) eqn:E0; cbn [mbind result_bind];
      [|by left|by apply index_string_no_fuel in E0].
    destruct (index_string t 1) eqn:E1; cbn [mbind result_bind];
      [|by left|by apply index_string_no_fuel in E1].
    destruct (index_string t 2) eqn:E2; cbn [mbind result_bind];
      [|by left|by apply index_string_no_fuel in E2].
    cbv zeta. unfold assign2Z. case_decide; [|by left].
    destruct (assign2 bo _ _ _) as [bo'| |] eqn:E; [|by left|].
    + right. exists bo'. split; [done|].
      apply assign2_Ok in E as [_ ->]. by apply square_set_cell.
    + by apply assign2_no_fuel in E.
  - intros bo Hsq.
    change (index_string (triple (y, x, v)) 0) with (Ok (letter y)).
    change (index_string (triple (y, x, v)) 1) with (Ok (digit (Z.of_nat x + 1))).
    change (index_string (triple (y, x, v)) 2) with (Ok (digit v)).
    cbn [mbind result_bind]. cbv zeta.
    destruct (letter_class y Hy) as (_ & _ & ->).
    destruct (digit_class (Z.of_nat x + 1)) as [_ ->]; [lia|].
    destruct (digit_class v) as [_ ->]; [lia|].
    replace (Z.of_nat x + 1 - 1)%Z with (Z.of_nat x) by lia.
    rewrite assign2Z_nat.
    destruct (assign2 bo y x v) as [bo'| |] eqn:E; [|done|].
    + apply assign2_Ok in E as [[w Hw] _].
      destruct (square_cell_lt size bo y x w Hsq Hw). lia.
    + by apply assign2_no_fuel in E.
Qed.

Lemma NewFromShort_out_of_range_witness :
  NewFromShort "a11e11" (Z.of_nat 4) = Panic.
Proof.
  apply (NewFromShort_out_of_range "a11e11" 4 4 0 1).
  - vm_compute. apply elem_of_cons. right. apply elem_of_cons. by left.
  - lia.
  - lia.
  - lia.
  - left. lia.
Defined.

(** ** NewRandomBoard *)

Lemma mod_eq_close N u w :
  N ≠ 0 → u `mod` N = w `mod` N → u < w + N → w < u + N → u = w.
Proof.
  intros HN Heq H1 H2.
  pose proof (Nat.div_mod_eq u N). pose proof (Nat.div_mod_eq w N).
  assert (u / N = w / N); [|nia].
  destruct (decide (u / N < w / N)); [nia|].
  destruct (decide (w / N < u / N)); [nia|]. lia.
Qed.

Lemma digits_eq rt a1 q1 a2 q2 :
  q1 < rt → q2 < rt → a1 * rt + q1 = a2 * rt + q2 → a1 = a2 ∧ q1 = q2.
Proof.
  intros H1 H2 Heq.
  assert ((a1 * rt + q1) / rt = a1) as E1
    by (rewrite Nat.div_add_l, Nat.div_small; lia).
  assert ((a2 * rt + q2) / rt = a2) as E2
    by (rewrite Nat.div_add_l, Nat.div_small; lia).
  rewrite Heq, E2 in E1. subst a2. lia.
Qed.

Lemma digit_bound rt a : a < rt → a * rt + rt ≤ rt * rt.
Proof. intros Ha. nia. Qed.

(** The sum of the pattern before the reduction modulo the side. *)
Lemma pattern_sum_lt rt y1 x1 y2 x2 :
  y1 < rt * rt → x1 < rt * rt → y2 < rt * rt → x2 < rt * rt →
  y1 = y2 ∨ x1 = x2 ∨ (y1 / rt = y2 / rt ∧ x1 / rt = x2 / rt) →
  (y1 `mod` rt) * rt + y1 / rt + x1
  < (y2 `mod` rt) * rt + y2 / rt + x2 + rt * rt.
Proof.
  intros Hy1 Hx1 Hy2 Hx2 Hrel.
  assert (rt ≠ 0) as Hrt by (intros ->; cbn in Hy1; lia).
  pose proof (digit_bound rt _ (Nat.mod_upper_bound y1 rt Hrt)) as Ha1.
  pose proof (div_lt_square rt y1 Hy1) as Hq1.
  destruct Hrel as [<-|[<-|[Hq Hp]]].
  - clear -Hx1. lia.
  - clear -Ha1 Hq1. revert Ha1 Hq1.
    generalize (y1 `mod` rt * rt) (y2 `mod` rt * rt) (rt * rt) (y1 / rt) (y2 / rt).
    intros. lia.
  - pose proof (Nat.div_mod_eq x1 rt) as Ex1.
    pose proof (Nat.div_mod_eq x2 rt) as Ex2.
    pose proof (Nat.mod_upper_bound x1 rt Hrt) as Hb1.
    rewrite Hp in Ex1. rewrite Hq. clear -Ex1 Ex2 Hb1 Ha1.
    revert Ex1 Ex2 Hb1 Ha1.
    generalize (y1 `mod` rt * rt) (y2 `mod` rt * rt) (rt * rt) (y2 / rt)
               (rt * (x2 / rt)) (x1 `mod` rt) (x2 `mod` rt).
    intros. lia.
Qed.

Lemma pattern_inj rt y1 x1 y2 x2 :
  y1 < rt * rt → x1 < rt * rt → y2 < rt * rt → x2 < rt * rt →
  pattern rt y1 x1 = pattern rt y2 x2 →
  y1 = y2 ∨ x1 = x2 ∨ (y1 / rt = y2 / rt ∧ x1 / rt = x2 / rt) →
  y1 = y2 ∧ x1 = x2.
Proof.
  intros Hy1 Hx1 Hy2 Hx2 Heq Hrel.
  assert (rt ≠ 0) as Hrt by (intros ->; cbn in Hy1; lia).
  unfold pattern in Heq. apply mod_eq_close in Heq.
  2:{ clear -Hy1. lia. }
  2:{ by apply pattern_sum_lt. }
  2:{ apply pattern_sum_lt; [done..|].
      destruct Hrel as [->|[->|[-> ->]]]; auto. }
  pose proof (Nat.div_mod_eq y1 rt) as Ey1.
  pose proof (Nat.div_mod_eq y2 rt) as Ey2.
  pose proof (div_lt_square rt y1 Hy1) as Hq1.
  pose proof (div_lt_square rt y2 Hy2) as Hq2.
  destruct Hrel as [Hr|[Hr|[Hq Hp]]].
  - split; [done|]. subst y2. clear -Heq. lia.
  - subst x2.
    destruct (digits_eq rt (y1 `mod` rt) (y1 / rt) (y2 `mod` rt) (y2 / rt) Hq1 Hq2)
      as [Ea Eq]; [clear -Heq; lia|].
    split; [|done]. rewrite Ey1, Ey2, Ea, Eq. done.
  - pose proof (Nat.div_mod_eq x1 rt) as Ex1.
    pose proof (Nat.div_mod_eq x2 rt) as Ex2.
    pose proof (Nat.mod_upper_bound x1 rt Hrt) as Hb1.
    pose proof (Nat.mod_upper_bound x2 rt Hrt) as Hb2.
    destruct (digits_eq rt (y1 `mod` rt) (x1 `mod` rt) (y2 `mod` rt) (x2 `mod` rt)
                Hb1 Hb2) as [Ea Eb].
    { rewrite Hq in Heq. rewrite Hp in Ex1. clear -Heq Ex1 Ex2.
      revert Heq Ex1 Ex2.
      generalize (y1 `mod` rt * rt) (y2 `mod` rt * rt) (y2 / rt)
                 (rt * (x2 / rt)) (x1 `mod` rt) (x2 `mod` rt).
      intros. lia. }
    split.
    + rewrite Ey1, Ey2, Ea, Hq. done.
    + rewrite Ex1, Ex2, Eb, Hp. done.
Qed.

Lemma pattern_lt rt y x : 0 < rt → pattern rt y x < rt * rt.
Proof. intros Hrt. apply Nat.mod_upper_bound. nia. Qed.

Lemma pattern_first_row rt x : x < rt * rt → pattern rt 0 x = x.
Proof.
  intros Hx. unfold pattern.
  rewrite Nat.Div0.mod_0_l, Nat.Div0.div_0_l. cbn [Nat.mul Nat.add].
  by apply Nat.mod_small.
Qed.

Lemma solution_relabelled N rt perm :
  N = rt * rt → 0 < N → perm ≡ₚ seq 0 N → solution N rt (relabelled perm rt).
Proof.
  intros HN Hpos Hperm. assert (0 < rt) as Hrt by lia.
  assert (NoDup perm) as Hnd by (rewrite Hperm; apply NoDup_seq).
  assert (length perm = N) as Hlen by (by rewrite Hperm, length_seq).
  assert (∀ k, k < N → ∃ w, perm !! k = Some w ∧ w < N) as Hat.
  { intros k Hk. destruct (lookup_lt_is_Some_2 perm k) as [w Hw]; [lia|].
    exists w. split; [done|].
    apply list_elem_of_lookup_2 in Hw. rewrite Hperm in Hw.
    apply elem_of_seq in Hw. lia. }
  unfold relabelled. rewrite <- HN. split_and!.
  - apply square_grid.
  - intros y x v (Hy & Hx & ->)%cell_grid.
    destruct (Hat (pattern rt y x)) as (w & -> & Hw);
      [rewrite HN; by apply pattern_lt|]. cbn. lia.
  - intros (y1 & x1 & y2 & x2 & v & (Hy1 & Hx1 & ->)%cell_grid
              & (Hy2 & Hx2 & Heq)%cell_grid & Hne & _ & Hrel).
    destruct (Hat (pattern rt y1 x1)) as (w1 & H1 & _);
      [rewrite HN; by apply pattern_lt|].
    destruct (Hat (pattern rt y2 x2)) as (w2 & H2 & _);
      [rewrite HN; by apply pattern_lt|].
    rewrite H1, H2 in Heq. cbn in Heq.
    assert (w1 = w2) as -> by lia.
    pose proof (NoDup_lookup perm _ _ w2 Hnd H1 H2) as Hk.
    apply Hne. subst N.
    by destruct (pattern_inj rt y1 x1 y2 x2) as [-> ->].
Qed.

Lemma NewRandomBoard_first_row N (perm : list nat) i (bo : Board) :
  square N bo → i + length perm ≤ N → 0 < N →
  ∃ bo',
    for_range (λ bo i v, assign2 bo 0 i (Z.of_nat v + 1)%Z) i perm bo = Ok bo'
    ∧ square N bo'
    ∧ (∀ j v, perm !! j = Some v → cell bo' 0 (i + j) = Some (Z.of_nat v + 1)%Z)
    ∧ (∀ y x, y ≠ 0 ∨ x < i ∨ i + length perm ≤ x →
         cell bo' y x = cell bo y x).
Proof.
  revert i bo. induction perm as [|v perm IH]; intros i bo Hsq Hlen Hpos.
  { exists bo. split_and!; [done..| |done]. intros j w Hw.
    by rewrite lookup_nil in Hw. }
  cbn [length] in Hlen. cbn [for_range].
  pose proof (square_cell N bo 0 i Hsq ltac:(lia) ltac:(lia)) as Hsome.
  rewrite assign2_is_Ok by done. cbn [mbind result_bind].
  destruct (IH (S i) (set_cell bo 0 i (Z.of_nat v + 1)%Z))
    as (bo' & -> & Hsq' & Hin & Hout);
    [by apply square_set_cell|lia|done|].
  exists bo'. split_and!; [done..| |].
  - intros [|j] w Hw.
    + injection Hw as <-. rewrite Nat.add_0_r, Hout by lia.
      by rewrite cell_set_cell, decide_True.
    + replace (i + S j) with (S i + j) by lia. by apply Hin.
  - intros y x Hyx. cbn [length] in Hyx. rewrite Hout by lia.
    rewrite cell_set_cell by done. rewrite decide_False; [done|lia].
Qed.

Lemma NewAnnotatedBoard_not_square (size : Z) :
  ¬ (0 < size
     ∧ Z.of_nat (sqrt (Z.to_nat size) * sqrt (Z.to_nat size)) = size)%Z →
  (bo ← NewEmptyBoard size; NewAnnotatedBoard bo) = Panic.
Proof.
  intros Hsize. unfold NewEmptyBoard. case_decide as Hneg; [done|].
  cbn [mbind result_bind]. set (N := Z.to_nat size) in *.
  destruct (decide (N = 0)) as [HN0|HN0]; [by rewrite HN0|].
  unfold NewAnnotatedBoard.
  rewrite (Board_Copy_square N) by (by apply square_replicate || lia).
  cbn [mbind result_bind]. apply Annotate_empty_panic; [lia|].
  pose proof (Nat.sqrt_spec N). unfold sqrt in *. lia.
Qed.

(** X18.  [NewRandomBoard] returns a solved board for every side that is a
    square below 64, whatever the random source gives: the numbers 1 to
    [N] without a duplicate in a row, a column or a block, the first row
    being the permutation drawn. *)
Theorem NewRandomBoard_solution perm Intn N rt :
  N = rt * rt → 0 < N → N < 64 →
  perm ≡ₚ seq 0 N → (∀ n, 0 < n → Intn n < n) →
  ∃ s, NewRandomBoard perm Intn (Z.of_nat N) = Ok s
       ∧ solution N rt s
       ∧ ∀ i v, perm !! i = Some v → cell s 0 i = Some (Z.of_nat v + 1)%Z.
Proof.
  intros HN Hpos Hfit Hperm HIntn.
  assert (length perm = N) as Hlen by (by rewrite Hperm, length_seq).
  unfold NewRandomBoard, NewEmptyBoard. rewrite decide_False by lia.
  cbn [mbind result_bind]. rewrite Nat2Z.id.
  set (empty := replicate N (replicate N 0%Z)).
  assert (square N empty) as Hsq0 by by apply square_replicate.
  rewrite (NewAnnotatedBoard_square N) by done.
  destruct (Annotate_total N rt empty [] HN Hpos Hsq0) as (cands & err & -> & _).
  cbn [mbind result_bind board candidates].
  destruct (NewRandomBoard_first_row N perm 0 empty Hsq0 ltac:(lia) Hpos)
    as (bo1 & -> & Hsq1 & Hrow & Hrest).
  cbn [mbind result_bind].
  assert (completion N rt bo1 (relabelled perm rt)) as Hcomp.
  { split; [by apply solution_relabelled|]. intros y x v Hv Hne.
    destruct (square_cell_lt N bo1 y x v Hsq1 Hv) as [Hy Hx].
    destruct (decide (y = 0)) as [->|Hy0].
    - destruct (lookup_lt_is_Some_2 perm x) as [w Hw]; [lia|].
      pose proof (Hrow x w Hw) as Hx0. cbn [Nat.add] in Hx0.
      rewrite Hx0 in Hv. injection Hv as <-.
      unfold relabelled. apply cell_grid. split_and!; [lia..|].
      rewrite pattern_first_row by lia. by rewrite Hw.
    - rewrite Hrest in Hv by (by left).
      apply cell_replicate in Hv. done. }
  pose proof (completion_values_in N rt bo1 _ Hsq1 Hcomp) as Hval1.
  destruct (Backtrack_spec N rt 10 (mkAnnotatedBoard bo1 cands) HN Hpos Hsq1)
    as (solved & sols & HB & _ & Hpost & _).
  rewrite HB. cbn [mbind result_bind]. unfold Backtrack in HB.
  cbn [board] in *.
  assert (zeros bo1 < enough bo1) as Hfuel.
  { rewrite (enough_square N) by done. pose proof (zeros_le N _ Hsq1). lia. }
  assert (sols ≠ []) as Hne.
  { by apply (backtrack_complete N rt 10 (enough bo1) (mkAnnotatedBoard bo1 cands)
               [] (relabelled perm rt) HN Hpos Hfit Hsq1 Hval1 Hfuel Hcomp solved). }
  assert (0 < length sols) as Hl by (destruct sols; [done|cbn; lia]).
  rewrite decide_False by lia.
  destruct (lookup_lt_is_Some_2 sols (Intn (length sols))) as [s Hs];
    [by apply HIntn|].
  exists s. rewrite (index_is_Ok _ _ _ Hs). split; [done|].
  apply list_elem_of_lookup_2 in Hs.
  destruct (Hpost s Hs) as (Hsqs & Hfull & Hext).
  destruct (backtrack_sound N rt 10 (enough bo1) (mkAnnotatedBoard bo1 cands)
              [] solved sols HN Hpos Hfit Hsq1 Hval1 HB s Hs)
    as [?%elem_of_nil|[Hvals Hnds]]; [done|].
  split; [split_and!; [done| |done]|].
  - intros y x v Hv. pose proof (Hvals _ _ _ Hv).
    rewrite Full_true in Hfull. pose proof (Hfull _ _ _ Hv). lia.
  - intros i v Hv. apply Hext; [by apply (Hrow i v)|lia].
Qed.

Lemma NewRandomBoard_solution_witness :
  ∃ s, NewRandomBoard [2; 0; 3; 1] (λ n, n - 1) (Z.of_nat 4) = Ok s
       ∧ solution 4 2 s
       ∧ ∀ i v, [2; 0; 3; 1] !! i = Some v → cell s 0 i = Some (Z.of_nat v + 1)%Z.
Proof.
  apply (NewRandomBoard_solution [2; 0; 3; 1] (λ n, n - 1) 4 2).
  - reflexivity.
  - lia.
  - lia.
  - apply NoDup_Permutation; [|apply NoDup_seq|].
    { repeat (apply NoDup_cons; split;
        [repeat rewrite elem_of_cons; rewrite elem_of_nil; lia|]).
      apply NoDup_nil_2. }
    intros x. rewrite elem_of_seq.
    repeat rewrite elem_of_cons. rewrite elem_of_nil. lia.
  - intros n Hn. lia.
Defined.

(** X19.  For a size that is not a positive square, [NewRandomBoard] panics. *)
Theorem NewRandomBoard_not_square perm Intn (size : Z) :
  ¬ (0 < size
     ∧ Z.of_nat (sqrt (Z.to_nat size) * sqrt (Z.to_nat size)) = size)%Z →
  NewRandomBoard perm Intn size = Panic.
Proof.
  intros Hsize. pose proof (NewAnnotatedBoard_not_square size Hsize) as HP.
  unfold NewRandomBoard. destruct (NewEmptyBoard size) as [bo| |]; [|done..].
  cbn [mbind result_bind] in *. by rewrite HP.
Qed.

Lemma NewRandomBoard_not_square_witness :
  NewRandomBoard [0; 1; 2; 3; 4] (λ n, 0) 5 = Panic.
Proof.
  apply (NewRandomBoard_not_square [0; 1; 2; 3; 4] (λ n, 0) 5).
  vm_compute. intros [_ [=]].
Defined.

(** ** UltraShort *)

(** [N] fields of a solved board that exclude each other hold every
    number. *)
Lemma solution_line_has N rt (t : Board) (pos : nat → nat * nat) c :
  solution N rt t →
  (∀ k, k < N → (pos k).1 < N ∧ (pos k).2 < N) →
  (∀ k k', k < N → k' < N → pos k = pos k' → k = k') →
  (∀ k k', k < N → k' < N → related rt (pos k) (pos k')) →
  (1 ≤ c ≤ Z.of_nat N)%Z →
  ∃ k, k < N ∧ cell t (pos k).1 (pos k).2 = Some c.
Proof.
  intros (Hsq & Hv & Hnd) Hpos Hinj Hrel Hc.
  set (val := λ k : nat, default 0%Z (cell t (pos k).1 (pos k).2)).
  assert (∀ k, k < N → cell t (pos k).1 (pos k).2 = Some (val k)
                       ∧ (1 ≤ val k ≤ Z.of_nat N)%Z) as Hval.
  { intros k Hk. destruct (Hpos k Hk) as (? & ?).
    destruct (square_cell N t (pos k).1 (pos k).2 Hsq) as [v Hcell]; [done..|].
    subst val. cbn beta. rewrite Hcell. split; [done|]. by eapply Hv. }
  assert (NoDup (val <$> seq 0 N)) as HND.
  { apply NoDup_fmap_2_strong; [|apply NoDup_seq].
    intros k k' [_ Hk]%elem_of_seq [_ Hk']%elem_of_seq Heq.
    destruct (Hval k ltac:(lia)) as [Hck ?], (Hval k' ltac:(lia)) as [Hck' ?].
    destruct (decide (pos k = pos k')) as [Hp|Hp]; [apply Hinj; [lia|lia|done]|].
    exfalso. apply Hnd.
    exists (pos k).1, (pos k).2, (pos k').1, (pos k').2, (val k).
    split_and!; [done|by rewrite Heq| |lia|apply Hrel; lia].
    intros [= Hp1 Hp2]. apply Hp. by apply injective_projections. }
  assert (val <$> seq 0 N ≡ₚ seqZ 1 (Z.of_nat N)) as Hperm.
  { apply submseteq_length_Permutation.
    - apply NoDup_submseteq; [done|].
      intros v (k & -> & [_ Hk]%elem_of_seq)%list_elem_of_fmap.
      apply elem_of_seqZ. destruct (Hval k ltac:(lia)). lia.
    - rewrite length_fmap, length_seq, length_seqZ. lia. }
  assert (c ∈ val <$> seq 0 N) as (k & -> & [_ Hk]%elem_of_seq)%list_elem_of_fmap.
  { rewrite Hperm. apply elem_of_seqZ. lia. }
  exists k. split; [lia|]. by destruct (Hval k ltac:(lia)).
Qed.

(** A solved board is determined by its fields outside of the last row
    and the last column. *)
Lemma solution_determined N rt (s1 s2 : Board) :
  0 < N → solution N rt s1 → solution N rt s2 →
  (∀ y x, y < N - 1 → x < N - 1 → cell s1 y x = cell s2 y x) →
  s1 = s2.
Proof.
  intros Hpos Hs1 Hs2 Hagree.
  pose proof Hs1 as (Hsq1 & Hv1 & Hnd1). pose proof Hs2 as (Hsq2 & Hv2 & Hnd2).
  assert (∀ y, y < N - 1 → cell s1 y (N - 1) = cell s2 y (N - 1)) as Hcol.
  { intros y Hy.
    destruct (square_cell N s1 y (N - 1) Hsq1) as [v1 H1]; [lia..|].
    destruct (solution_line_has N rt s2 (λ k, (y, k)) v1 Hs2) as (x' & Hx' & H2).
    - intros k Hk. cbn. lia.
    - by intros k k' _ _ [= ->].
    - intros k k' _ _. by left.
    - by eapply Hv1.
    - cbn [fst snd] in H2. destruct (decide (x' = N - 1)) as [->|Hne].
      + by rewrite H1, H2.
      + exfalso. apply Hnd1. exists y, x', y, (N - 1), v1.
        rewrite Hagree by lia. split_and!; [done|done| | |by left].
        * intros [= ->]. lia.
        * apply Hv1 in H1. lia. }
  assert (∀ x, x < N → cell s1 (N - 1) x = cell s2 (N - 1) x) as Hrow.
  { intros x Hx.
    destruct (square_cell N s1 (N - 1) x Hsq1) as [v1 H1]; [lia..|].
    destruct (solution_line_has N rt s2 (λ k, (k, x)) v1 Hs2) as (y' & Hy' & H2).
    - intros k Hk. cbn. lia.
    - by intros k k' _ _ [= ->].
    - intros k k' _ _. right. by left.
    - by eapply Hv1.
    - cbn [fst snd] in H2. destruct (decide (y' = N - 1)) as [->|Hne].
      + by rewrite H1, H2.
      + exfalso. apply Hnd1. exists y', x, (N - 1), x, v1.
        split_and!; [|done| | |by right; left].
        * destruct (decide (x = N - 1)) as [->|]; [rewrite Hcol by lia|
            rewrite Hagree by lia]; done.
        * intros [= ->]. lia.
        * apply Hv1 in H1. lia. }
  apply (square_ext N); [done..|]. intros y x.
  destruct (decide (y < N ∧ x < N)) as [[Hy Hx]|Hout].
  - destruct (decide (y = N - 1)) as [->|]; [by apply Hrow|].
    destruct (decide (x = N - 1)) as [->|]; [apply Hcol; lia|].
    apply Hagree; lia.
  - destruct (cell s1 y x) as [v|] eqn:E1.
    { destruct (square_cell_lt N s1 y x v Hsq1 E1). lia. }
    destruct (cell s2 y x) as [v|] eqn:E2; [|done].
    destruct (square_cell_lt N s2 y x v Hsq2 E2). lia.
Qed.

Lemma inner_cons n c (cells : list (nat * nat * Z)) :
  inner n (c :: cells)
  = if decide (Z.of_nat c.1.1 < n ∧ Z.of_nat c.1.2 < n)%Z
    then Itoa c.2 +:+ inner n cells else inner n cells.
Proof. reflexivity. Qed.

Lemma UltraShort_cells n (cells : list (nat * nat * Z)) s0 :
  foldM (λ s '(y, x, v),
    if decide (Z.of_nat y < n ∧ Z.of_nat x < n)%Z
    then Ok (s +:+ Itoa v) else Ok s) s0 cells
  = Ok (s0 +:+ inner n cells).
Proof.
  revert s0. induction cells as [|[[y x] v] cells IH]; intros s0.
  { cbn. by rewrite append_nil_r. }
  cbn [foldM]. rewrite inner_cons. cbn [fst snd].
  destruct (decide (Z.of_nat y < n ∧ Z.of_nat x < n)%Z);
    cbn [mbind result_bind]; rewrite IH; [|done].
  by rewrite append_assoc.
Qed.

Lemma digit_inj v w : (1 ≤ v ≤ 9)%Z → (1 ≤ w ≤ 9)%Z → digit v = digit w → v = w.
Proof.
  intros Hv Hw Heq.
  destruct (digit_class v Hv) as [_ <-], (digit_class w Hw) as [_ <-].
  by rewrite Heq.
Qed.

Lemma inner_inj n (cells1 cells2 : list (nat * nat * Z)) :
  cells1.*1 = cells2.*1 →
  (∀ c, c ∈ cells1 → (1 ≤ c.2 ≤ 9)%Z) → (∀ c, c ∈ cells2 → (1 ≤ c.2 ≤ 9)%Z) →
  inner n cells1 = inner n cells2 →
  ∀ i c1 c2, cells1 !! i = Some c1 → cells2 !! i = Some c2 →
    (Z.of_nat c1.1.1 < n ∧ Z.of_nat c1.1.2 < n)%Z → c1.2 = c2.2.
Proof.
  revert cells2. induction cells1 as [|[p1 v1] cells1 IH];
    intros [|[p2 v2] cells2] Hpos H1 H2 Heq i c1 c2 Hc1 Hc2 Hin; try done.
  injection Hpos as <- Hpos. rewrite !inner_cons in Heq. cbn [fst snd] in Heq.
  pose proof (H1 (p1, v1) ltac:(left)) as Hv1.
  pose proof (H2 (p1, v2) ltac:(left)) as Hv2. cbn [snd] in Hv1, Hv2.
  assert (∀ c, c ∈ cells1 → (1 ≤ c.2 ≤ 9)%Z) as H1' by (intros; apply H1; by right).
  assert (∀ c, c ∈ cells2 → (1 ≤ c.2 ≤ 9)%Z) as H2' by (intros; apply H2; by right).
  destruct (decide (Z.of_nat p1.1 < n ∧ Z.of_nat p1.2 < n)%Z) as [Hp|Hp].
  - rewrite !Itoa_digit in Heq by done. injection Heq as Hd Heq.
    apply digit_inj in Hd; [|done..]. destruct i as [|i].
    + injection Hc1 as <-. injection Hc2 as <-. done.
    + by apply (IH cells2 Hpos H1' H2' Heq i).
  - destruct i as [|i].
    + injection Hc1 as <-. done.
    + by apply (IH cells2 Hpos H1' H2' Heq i).
Qed.

Lemma enumerate2_positions_from {A} N (g1 g2 : list (list A)) k :
  length g1 = length g2 →
  Forall (λ row, length row = N) g1 → Forall (λ row, length row = N) g2 →
  (mjoin (imap (λ y, enumerate (k + y)) g1)).*1
  = (mjoin (imap (λ y, enumerate (k + y)) g2)).*1.
Proof.
  revert g2 k. induction g1 as [|r1 g1 IH]; intros [|r2 g2] k Hlen H1 H2; try done.
  apply Forall_cons in H1 as [Hr1 H1]. apply Forall_cons in H2 as [Hr2 H2].
  rewrite !enumerate2_cons, !fmap_app, !enumerate_positions, Hr1, Hr2.
  f_equal. apply IH; [by injection Hlen|done..].
Qed.

Lemma enumerate2_positions {A} N (g1 g2 : list (list A)) :
  square N g1 → square N g2 → (enumerate2 g1).*1 = (enumerate2 g2).*1.
Proof.
  intros [Hl1 Hr1] [Hl2 Hr2].
  apply (enumerate2_positions_from N g1 g2 0); [congruence|done..].
Qed.

Lemma length_append (a b : string) :
  String.length (a +:+ b) = String.length a + String.length b.
Proof.
  induction a as [|x a IH]; [done|]. rewrite append_cons. cbn [String.length].
  by rewrite IH.
Qed.

Lemma inner_length_row n y (row : list Z) j :
  Forall (λ v, 1 ≤ v ≤ 9)%Z row →
  String.length (inner (Z.of_nat n) (imap (λ x v, (y, j + x, v)) row))
  = if decide (y < n) then Nat.min n (j + length row) - Nat.min n j else 0.
Proof.
  revert j. induction row as [|v row IH]; intros j Hrow.
  { cbn. case_decide; lia. }
  apply Forall_cons in Hrow as [Hv Hrow].
  rewrite imap_cons, inner_cons. cbn [fst snd].
  rewrite (imap_ext _ (λ x v, (y, S j + x, v))) by (intros; cbn; do 2 f_equal; lia).
  rewrite Itoa_digit by done. specialize (IH (S j) Hrow). cbn [length].
  destruct (decide (Z.of_nat y < Z.of_nat n ∧ Z.of_nat (j + 0) < Z.of_nat n)%Z)
    as [[Hy Hj]|Hno].
  - rewrite length_append. cbn [String.length]. rewrite IH.
    repeat case_decide; lia.
  - rewrite IH. repeat case_decide; lia.
Qed.

Lemma inner_app n (l1 l2 : list (nat * nat * Z)) :
  inner n (l1 ++ l2) = inner n l1 +:+ inner n l2.
Proof.
  induction l1 as [|c l1 IH]; [done|]. cbn [app]. rewrite !inner_cons, IH.
  case_decide; [|done]. by rewrite append_assoc.
Qed.

Lemma inner_length_rows N n (g : Board) k :
  n ≤ N → Forall (λ row, length row = N) g →
  Forall (Forall (λ v, 1 ≤ v ≤ 9)%Z) g →
  String.length (inner (Z.of_nat n) (mjoin (imap (λ y, enumerate (k + y)) g)))
  = (Nat.min n (k + length g) - Nat.min n k) * n.
Proof.
  intros Hn. revert k. induction g as [|row g IH]; intros k Hg Hval.
  { cbn. lia. }
  apply Forall_cons in Hg as [Hrow Hg]. apply Forall_cons in Hval as [Hvrow Hval].
  rewrite enumerate2_cons, inner_app, length_append, (IH (S k)) by done.
  pose proof (inner_length_row n k row 0 Hvrow) as Hr. cbn [Nat.add] in Hr.
  unfold enumerate at 1. rewrite Hr. cbn [length].
  rewrite Hrow. case_decide; nia.
Qed.

Lemma UltraShort_inner N rt (s : Board) :
  0 < N → solution N rt s →
  UltraShort s = Ok (inner (Z.of_nat (N - 1)) (enumerate2 s), false).
Proof.
  intros Hpos (Hsq & Hv & _). unfold UltraShort.
  assert (Full s = true) as ->.
  { apply Full_true. intros y x v Hc. apply Hv in Hc. lia. }
  cbn [negb]. rewrite (Size_square N) by done. cbn [mbind result_bind]. cbv zeta.
  replace (Z.of_nat N - 1)%Z with (Z.of_nat (N - 1)) by lia.
  by rewrite UltraShort_cells.
Qed.

(** X20.  [UltraShort] identifies a solved board of side at most 9: the string
    has one byte for every field outside of the last row and column, and
    two solved boards with the same string are the same board. *)
Theorem UltraShort_identifies N rt (s1 s2 : Board) :
  0 < N ≤ 9 → solution N rt s1 → solution N rt s2 →
  ∃ u1 u2,
    UltraShort s1 = Ok (u1, false) ∧ UltraShort s2 = Ok (u2, false)
    ∧ String.length u1 = (N - 1) * (N - 1)
    ∧ (u1 = u2 → s1 = s2).
Proof.
  intros HN Hs1 Hs2.
  pose proof Hs1 as (Hsq1 & Hv1 & _). pose proof Hs2 as (Hsq2 & Hv2 & _).
  exists (inner (Z.of_nat (N - 1)) (enumerate2 s1)),
         (inner (Z.of_nat (N - 1)) (enumerate2 s2)).
  split_and!; [by apply (UltraShort_inner N rt); [lia|]..| |].
  - pose proof (inner_length_rows N (N - 1) s1 0) as Hlen.
    rewrite (proj1 Hsq1) in Hlen.
    change (mjoin (imap (λ y, enumerate (0 + y)) s1)) with (enumerate2 s1) in Hlen.
    rewrite Hlen; [|lia|apply Hsq1|].
    + replace (Nat.min (N - 1) (0 + N)) with (N - 1) by lia.
      replace (Nat.min (N - 1) 0) with 0 by lia. lia.
    + apply Forall_lookup. intros y row Hrow. apply Forall_lookup. intros x v Hx.
      assert (cell s1 y x = Some v) as Hc by (apply cell_Some; eauto).
      apply Hv1 in Hc. lia.
  - intros Heq. apply (solution_determined N rt); [lia|done..|].
    intros y x Hy Hx.
    destruct (square_cell N s1 y x Hsq1) as [v1 Hc1]; [lia..|].
    destruct (square_cell N s2 y x Hsq2) as [v2 Hc2]; [lia..|].
    rewrite Hc1, Hc2. f_equal.
    pose proof (enumerate2_positions N s1 s2 Hsq1 Hsq2) as Hpos.
    pose proof Hc1 as Hin. apply elem_of_enumerate2 in Hin.
    apply list_elem_of_lookup_1 in Hin as [i Hi].
    assert ((enumerate2 s2).*1 !! i = Some (y, x)) as Hi2.
    { rewrite <- Hpos, list_lookup_fmap, Hi. done. }
    rewrite list_lookup_fmap in Hi2.
    apply fmap_Some in Hi2 as ([[y' x'] v2'] & Hi2 & [= <- <-]).
    assert (v2' = v2) as ->.
    { apply list_elem_of_lookup_2, elem_of_enumerate2 in Hi2. congruence. }
    apply (inner_inj (Z.of_nat (N - 1)) (enumerate2 s1) (enumerate2 s2) Hpos)
      with (i := i) (c1 := (y, x, v1)) (c2 := (y, x, v2)); try done.
    + intros [[y' x'] v] Hc%elem_of_enumerate2. apply Hv1 in Hc. cbn. lia.
    + intros [[y' x'] v] Hc%elem_of_enumerate2. apply Hv2 in Hc. cbn. lia.
    + cbn. lia.
Qed.

Lemma UltraShort_identifies_witness :
  ∃ u1 u2,
    UltraShort solved4 = Ok (u1, false) ∧ UltraShort completed4 = Ok (u2, false)
    ∧ String.length u1 = (4 - 1) * (4 - 1)
    ∧ (u1 = u2 → solved4 = completed4).
Proof.
  apply (UltraShort_identifies 4 2 solved4 completed4).
  - lia.
  - apply solution_solved4.
  - apply completion_unsolved4.
Defined.

(** ** SingleCandidate: the board and the flag that it returns *)

Lemma NewAnnotatedBoard_wf N rt bo ab err :
  N = rt * rt → 0 < N → square N bo →
  NewAnnotatedBoard bo = Ok (ab, err) →
  board ab = bo ∧ wf_annotated N ab.
Proof.
  intros HN Hpos Hsq HNew.
  rewrite (NewAnnotatedBoard_square N) in HNew by done.
  destruct (Annotate_total N rt bo [] HN Hpos Hsq) as (cands & e & HA & Hc & Hb0).
  rewrite HA in HNew. injection HNew as <- <-. done.
Qed.

(** C3 (as amended).  For a board [bo] of side [N = rt * rt < 64] with
    values in [0..N] and its annotation [ab], [SingleCandidate] returns one
    board [s].  It keeps every filled field of [bo], and it is [bo], field
    for field, exactly when no unfilled field of [bo] has a single candidate.
    What it fills in is forced: every completion of [bo] is a completion of
    [s]; and all that is forced by single candidates is filled in: in the
    annotation [ab'] of [s] no unfilled field has a single candidate.  The
    flag is [ab'.Solved()], and it is [false] on a board that requires
    guessing: when [s] still has an unfilled field, and when [bo] has two
    different completions. *)
Theorem SingleCandidate_board N rt bo ab err k :
  N = rt * rt → 0 < N → N < 64 → square N bo → values_in N bo →
  NewAnnotatedBoard bo = Ok (ab, err) →
  ∃ solved s ab' err',
    SingleCandidate ab k = Ok (solved, [s])
    ∧ square N s
    ∧ (∀ y x v, cell bo y x = Some v → (0 < v)%Z → cell s y x = Some v)
    ∧ (s = bo
       ↔ ∀ y x v c, cell bo y x = Some v →
           cell (candidates ab) y x = Some c → Single c = true → (0 < v)%Z)
    ∧ (∀ t, completion N rt bo t → completion N rt s t)
    ∧ NewAnnotatedBoard s = Ok (ab', err')
    ∧ (∀ y x v c, cell s y x = Some v →
         cell (candidates ab') y x = Some c → Single c = true → (0 < v)%Z)
    ∧ solved = Solved ab'
    ∧ (Full s = false → solved = false)
    ∧ (∀ t1 t2, completion N rt bo t1 → completion N rt bo t2 → t1 ≠ t2 →
         solved = false).
Proof.
  intros HN Hpos Hfit Hsq Hval HNew.
  destruct (NewAnnotatedBoard_wf N rt bo ab err HN Hpos Hsq HNew) as [Hbo Hwf].
  destruct (SingleCandidate_forced N rt bo ab err k HN Hpos Hfit Hsq Hval HNew)
    as (ab' & HS & Hwf' & Hval' & [err' Hcons] & Hfilled & Hcomp & Hkeep).
  destruct (SingleCandidate_unfold N rt ab k HN Hpos Hwf)
    as (ab'' & n & _ & HS' & _ & _ & _ & Hiff).
  rewrite HS in HS'. injection HS' as _ Hboard. rewrite <- Hboard, Hbo in Hiff.
  pose proof Hwf' as (Hsq' & Hsqc' & _).
  assert (Solved ab' = true → Full (board ab') = true) as Hfull.
  { intros Hsolved. rewrite Solved_true in Hsolved.
    apply Full_true. intros y x v Hv.
    destruct (square_cell_lt N _ y x v Hsq' Hv) as [Hy Hx].
    destruct (square_cell N (candidates ab') y x Hsqc' Hy Hx) as [c Hc].
    assert (0 < v)%Z; [|lia]. eapply Hfilled; [done| |done]. by eapply Hsolved. }
  exists (Solved ab'), (board ab'), ab', err'.
  split_and!; [done|done|done| |done| | |done| |].
  - symmetry. exact Hiff.
  - by rewrite (NewAnnotatedBoard_square N).
  - intros y x v c Hv Hc HS1. by eapply Hfilled.
  - intros Hnot. destruct (Solved ab') eqn:E; [|done].
    rewrite Hfull in Hnot by done. done.
  - intros t1 t2 H1 H2 Hne. destruct (Solved ab') eqn:E; [|done].
    destruct Hne.
    rewrite (full_completion N rt (board ab') t1), (full_completion N rt (board ab') t2);
      auto.
Qed.

Lemma SingleCandidate_board_witness :
  ∃ solved s ab' err',
    SingleCandidate (mkAnnotatedBoard unsolved4 annotated4) 1 = Ok (solved, [s])
    ∧ square 4 s
    ∧ (∀ y x v, cell unsolved4 y x = Some v → (0 < v)%Z → cell s y x = Some v)
    ∧ (s = unsolved4
       ↔ ∀ y x v c, cell unsolved4 y x = Some v →
           cell (candidates (mkAnnotatedBoard unsolved4 annotated4)) y x = Some c →
           Single c = true → (0 < v)%Z)
    ∧ (∀ t, completion 4 2 unsolved4 t → completion 4 2 s t)
    ∧ NewAnnotatedBoard s = Ok (ab', err')
    ∧ (∀ y x v c, cell s y x = Some v →
         cell (candidates ab') y x = Some c → Single c = true → (0 < v)%Z)
    ∧ solved = Solved ab'
    ∧ (Full s = false → solved = false)
    ∧ (∀ t1 t2, completion 4 2 unsolved4 t1 → completion 4 2 unsolved4 t2 →
         t1 ≠ t2 → solved = false).
Proof.
  apply (SingleCandidate_board 4 2 unsolved4
           (mkAnnotatedBoard unsolved4 annotated4) false 1).
  - reflexivity.
  - lia.
  - lia.
  - apply square_unsolved4.
  - apply values_in_unsolved4.
  - reflexivity.
Defined.
